(** * Vector-search core: storage backends, cache policies, SSD timing model,
    HNSW index and ANN-in-SSD block model.

  A shallow embedding of the C++ sources (namespace [b2]) together with the
  properties of the design document that can be checked against them.

  Conventions.
  - [size_t], [uint64_t] and [VectorID] are 64-bit unsigned integers; they
    are modelled as [Z] and every arithmetic result is reduced by [wrap64].
  - [double] and [float] values are IEEE-754 binary64 / binary32 numbers,
    modelled with [SpecFloat] ([prec = 53, emax = 1024] and
    [prec = 24, emax = 128]).
  - Member functions become functions from the object state (a record) to
    the result and the new state; reference out-parameters are passed in
    and returned.
  - Mutexes only serialise the member functions; a member function is one
    atomic state transition unless stated otherwise. *)

From Stdlib Require Import ZArith List Bool Lia Permutation Sorted.
From Stdlib Require Import Floats.SpecFloat.
From stdpp Require Import base option list gmap strings.

Open Scope Z_scope.

(** ** Machine integers and floating-point numbers *)

Module Machine.

Definition two64 : Z := 2 ^ 64.

(** Arithmetic on [size_t] / [uint64_t] wraps modulo [2^64]. *)
Definition wrap64 (x : Z) : Z := x mod two64.

(** [std::numeric_limits<VectorID>::max()]. *)
Definition VectorID_max : Z := two64 - 1.

(** [sizeof(float)]. *)
Definition sizeof_float : Z := 4.

Definition in_u64 (x : Z) : Prop := 0 <= x < two64.

(** The mathematical ceiling of [n / k] (for [k > 0]). *)
Definition ceil_div (n k : Z) : Z := - ((- n) / k).

(** [double]: binary64. *)
Definition double := spec_float.
Definition dadd : double -> double -> double := SFadd 53 1024.
Definition dmul : double -> double -> double := SFmul 53 1024.
Definition ddiv : double -> double -> double := SFdiv 53 1024.
Definition dltb : double -> double -> bool := SFltb.
Definition dzero : double := S754_zero false.
(** Conversion of an integer to [double] (round to nearest even); also used
    for decimal literals whose value is an integer. *)
Definition double_of_Z (z : Z) : double := binary_normalize 53 1024 z 0 false.

End Machine.
Export Machine.

(** ** I/O statistics ([storage/io_stats.hpp]) *)

Record IOStats := mkIOStats {
num_reads : Z;
num_writes : Z;
bytes_read : Z;
bytes_written : Z;
total_read_latency_us : double;
total_write_latency_us : double
}.

(** [IOStats{}]. *)
Definition IOStats_zero : IOStats := mkIOStats 0 0 0 0 dzero dzero.

Definition stats_add_read (s : IOStats) (bytes : Z) : IOStats :=
mkIOStats (wrap64 (num_reads s + 1)) (num_writes s)
          (wrap64 (bytes_read s + bytes)) (bytes_written s)
          (total_read_latency_us s) (total_write_latency_us s).

Definition stats_add_write (s : IOStats) (bytes : Z) : IOStats :=
mkIOStats (num_reads s) (wrap64 (num_writes s + 1))
          (bytes_read s) (wrap64 (bytes_written s + bytes))
          (total_read_latency_us s) (total_write_latency_us s).

Definition stats_add_read_latency (s : IOStats) (us : double) : IOStats :=
mkIOStats (num_reads s) (num_writes s) (bytes_read s) (bytes_written s)
          (dadd (total_read_latency_us s) us) (total_write_latency_us s).

Definition stats_add_write_latency (s : IOStats) (us : double) : IOStats :=
mkIOStats (num_reads s) (num_writes s) (bytes_read s) (bytes_written s)
          (total_read_latency_us s) (dadd (total_write_latency_us s) us).

(** [v.size() * sizeof(float)] as a [size_t]. *)
Definition payload_bytes {A} (v : list A) : Z :=
wrap64 (Z.of_nat (length v) * sizeof_float).

(** ** In-memory backend ([storage/memory_backend.cpp]) *)

Module MemoryBackend.
Section Defs.
Context {float : Type}.
Local Abbreviation VectorData := (list float).

Record t := mk {
  data_ : list VectorData;
  present_ : list bool;
  stats_ : IOStats
}.

(** Default-constructed backend. *)
Definition empty : t := mk [] [] IOStats_zero.

Definition size (st : t) : Z := Z.of_nat (length (data_ st)).

(** [present_[idx]] for an index already checked to be in range. *)
Definition present_at (st : t) (idx : Z) : bool :=
  default false (present_ st !! Z.to_nat idx).

(** [MemoryBackend::read_node]. The out-parameter is passed in as
    [out_data] and returned; it is left untouched on failure. *)
Definition read_node (st : t) (node_id : Z) (out_data : VectorData)
  : bool * VectorData * t :=
  let idx := node_id in
  if (Z.of_nat (length (data_ st)) <=? idx)
     || (Z.of_nat (length (present_ st)) <=? idx)
     || negb (present_at st idx)
  then (false, out_data, st)
  else
    let out := default [] (data_ st !! Z.to_nat idx) in
    (true, out,
     mk (data_ st) (present_ st) (stats_add_read (stats_ st) (payload_bytes out))).

(** [MemoryBackend::write_node]. [resize(idx + 1)] is computed on [size_t];
    the element assignment is out of range (undefined in C++) only when
    [idx + 1] wraps, where the model leaves the vectors as resized. *)
Definition write_node (st : t) (node_id : Z) (data : VectorData) : bool * t :=
  let idx := node_id in
  let grown := Z.of_nat (length (data_ st)) <=? idx in
  let n := Z.to_nat (wrap64 (idx + 1)) in
  let d := if grown then resize n [] (data_ st) else data_ st in
  let p := if grown then resize n false (present_ st) else present_ st in
  (true,
   mk (<[Z.to_nat idx := data]> d) (<[Z.to_nat idx := true]> p)
      (stats_add_write (stats_ st) (payload_bytes data))).

(** [MemoryBackend::batch_read_nodes]: one [read_node] per id into a fresh
    vector, pushed whether or not the read succeeded. *)
Fixpoint batch_read_loop (st : t) (ids : list Z) (acc : list VectorData) (all_ok : bool)
  : bool * list VectorData * t :=
  match ids with
  | [] => (all_ok, acc, st)
  | id :: rest =>
      let '(ok, data, st') := read_node st id [] in
      batch_read_loop st' rest (acc ++ [data]) (all_ok && ok)
  end.

Definition batch_read_nodes (st : t) (node_ids : list Z) : bool * list VectorData * t :=
  batch_read_loop st node_ids [] true.

Definition get_stats (st : t) : IOStats := stats_ st.
Definition reset_stats (st : t) : t := mk (data_ st) (present_ st) IOStats_zero.

(** A client program: a sequence of calls on one backend object. *)
Inductive op :=
| OpWrite (node_id : Z) (data : VectorData)
| OpRead (node_id : Z)
| OpBatchRead (node_ids : list Z)
| OpResetStats.

Definition step (st : t) (o : op) : t :=
  match o with
  | OpWrite id data => snd (write_node st id data)
  | OpRead id => snd (read_node st id [])
  | OpBatchRead ids => snd (batch_read_nodes st ids)
  | OpResetStats => reset_stats st
  end.

Definition run (ops : list op) : t := fold_left step ops empty.

(** Ids are valid [size_t] values for which [idx + 1] does not wrap
    ("assumes VectorID values are small integers"). *)
Definition op_ok (o : op) : Prop :=
  match o with
  | OpWrite id _ => 0 <= id < two64 - 1
  | _ => True
  end.

(** A call [write_node(id, data)] occurs in [ops] and returned [true]. *)
Definition write_succeeded (ops : list op) (id : Z) : Prop :=
  exists pre data post,
    ops = pre ++ OpWrite id data :: post /\
    fst (write_node (run pre) id data) = true.

Definition read_ok (st : t) (id : Z) : bool := fst (fst (read_node st id [])).

(** The two vectors of a backend always have the same length. *)
Definition mem_inv (st : t) : Prop := length (data_ st) = length (present_ st).

(** Every vector the backend holds has [d] components. *)
Definition holds_dimension (st : t) (d : nat) : Prop :=
  forall i v, present_ st !! i = Some true -> data_ st !! i = Some v -> length v = d.

End Defs.
Arguments t : clear implicits.
Arguments op : clear implicits.
End MemoryBackend.

(** ** Storage backend interface ([storage/storage_backend.hpp]) *)

(** The virtual interface, as a class over the state type of an
    implementation.  [sb_read] takes the out-parameter and returns it. *)
Class StorageBackend (float : Type) (B : Type) := {
  sb_read_node : B -> Z -> list float -> bool * list float * B;
  sb_write_node : B -> Z -> list float -> bool * B;
  sb_get_stats : B -> IOStats;
  sb_reset_stats : B -> B
}.

#[export] Instance MemoryBackend_StorageBackend (float : Type)
  : StorageBackend float (MemoryBackend.t float) := {
  sb_read_node := MemoryBackend.read_node;
  sb_write_node := MemoryBackend.write_node;
  sb_get_stats := MemoryBackend.get_stats;
  sb_reset_stats := MemoryBackend.reset_stats
}.

(** ** File backend ([storage/file_backend.cpp]) *)

Module FileBackend.

(** [static_cast<std::streamoff>]: reinterpretation as a signed 64-bit value. *)
Definition to_int64 (x : Z) : Z := (x + 2 ^ 63) mod two64 - 2 ^ 63.

Section Defs.
Context {float : Type}.
Local Abbreviation VectorData := (list float).

(** What one [ifstream] open / [seekg] / [read] sequence can do.  On a failed
    [read] the buffer holds whatever was transferred before the failure. *)
Inductive read_outcome :=
| ReadOpenFailed
| ReadSeekFailed
| ReadFailed (buffer : VectorData)
| ReadDone (buffer : VectorData).

(** What one [fstream] open / [seekp] / [write] sequence can do. *)
Inductive write_outcome :=
| WriteOpenFailed
| WriteSeekFailed
| WriteFailed
| WriteDone.

(** The file system behind the streams.  [fs_read fs path offset nbytes buf]
    opens [path], seeks to [offset] and reads [nbytes] bytes into [buf];
    [fs_write fs path offset nbytes data] opens (creating the file if
    needed), seeks and writes, and returns the file system afterwards. *)
Class FileSystem (FS : Type) := {
  fs_read : FS -> string -> Z -> Z -> VectorData -> read_outcome;
  fs_write : FS -> string -> Z -> Z -> VectorData -> write_outcome * FS
}.

Context {FS : Type} {fsys : FileSystem FS}.
Context (fzero : float).

Record t := mk {
  path_ : string;
  dim_ : Z;
  stats_ : IOStats
}.

(** [FileBackend(path, dim)]. *)
Definition make (path : string) (dim : Z) : t := mk path dim IOStats_zero.

(** Byte offset of a slot: [streamoff(node_id) * streamoff(dim_ * sizeof(float))]. *)
Definition slot_offset (st : t) (node_id : Z) : Z :=
  to_int64 (to_int64 node_id * to_int64 (wrap64 (dim_ st * sizeof_float))).

Definition slot_bytes (st : t) : Z := wrap64 (dim_ st * sizeof_float).

(** [FileBackend::read_node].  [out_data] is resized to [dim_] only after the
    open and the seek succeeded. *)
Definition read_node (fs : FS) (st : t) (node_id : Z) (out_data : VectorData)
  : bool * VectorData * t :=
  if dim_ st =? 0 then (false, out_data, st)
  else
    match fs_read fs (path_ st) (slot_offset st node_id) (slot_bytes st)
                  (resize (Z.to_nat (dim_ st)) fzero out_data) with
    | ReadOpenFailed => (false, out_data, st)
    | ReadSeekFailed => (false, out_data, st)
    | ReadFailed buf => (false, buf, st)
    | ReadDone buf =>
        (true, buf,
         mk (path_ st) (dim_ st) (stats_add_read (stats_ st) (slot_bytes st)))
    end.

(** [FileBackend::write_node].  A backend constructed with dimension 0 adopts
    the length of the first vector written. *)
Definition write_node (fs : FS) (st : t) (node_id : Z) (data : VectorData)
  : bool * t * FS :=
  let st1 := if dim_ st =? 0
             then mk (path_ st) (Z.of_nat (length data)) (stats_ st) else st in
  if negb (Z.of_nat (length data) =? dim_ st1) then (false, st1, fs)
  else
    match fs_write fs (path_ st1) (slot_offset st1 node_id) (slot_bytes st1) data with
    | (WriteDone, fs') =>
        (true, mk (path_ st1) (dim_ st1) (stats_add_write (stats_ st1) (slot_bytes st1)), fs')
    | (_, fs') => (false, st1, fs')
    end.

Fixpoint batch_read_loop (fs : FS) (st : t) (ids : list Z) (acc : list VectorData)
  (all_ok : bool) : bool * list VectorData * t :=
  match ids with
  | [] => (all_ok, acc, st)
  | id :: rest =>
      let '(ok, data, st') := read_node fs st id [] in
      batch_read_loop fs st' rest (acc ++ [data]) (all_ok && ok)
  end.

Definition batch_read_nodes (fs : FS) (st : t) (node_ids : list Z)
  : bool * list VectorData * t :=
  batch_read_loop fs st node_ids [] true.

Definition get_stats (st : t) : IOStats := stats_ st.
Definition reset_stats (st : t) : t := mk (path_ st) (dim_ st) IOStats_zero.

(** The backend object together with the file system it reads and writes. *)
#[export] Instance FileBackend_StorageBackend : StorageBackend float (FS * t) := {
  sb_read_node := fun b id out =>
    let '(ok, out', st') := read_node (fst b) (snd b) id out in (ok, out', (fst b, st'));
  sb_write_node := fun b id data =>
    let '(ok, st', fs') := write_node (fst b) (snd b) id data in (ok, (fs', st'));
  sb_get_stats := fun b => get_stats (snd b);
  sb_reset_stats := fun b => (fst b, reset_stats (snd b))
}.

End Defs.
Arguments t : clear implicits.
Arguments read_outcome : clear implicits.
Arguments FileSystem : clear implicits.
End FileBackend.

(** A small concrete file system: a file is a sequence of float slots per
    path (4 bytes each); offsets and sizes are in bytes.  Opening a missing
    file for reading fails, a negative offset fails the seek, and a read
    past the end of the file fails after transferring the available part.
    Writing creates the file and pads a gap with [pad]. *)
Module SlotFS.
Section Defs.
Context {float : Type} (pad : float).

Definition t := gmap string (list float).

Definition read (fs : t) (path : string) (offset nbytes : Z) (buf : list float)
  : FileBackend.read_outcome float :=
  match fs !! path with
  | None => FileBackend.ReadOpenFailed
  | Some content =>
      if offset <? 0 then FileBackend.ReadSeekFailed
      else
        let avail := take (Z.to_nat (nbytes / 4)) (drop (Z.to_nat (offset / 4)) content) in
        if Z.of_nat (length avail) <? nbytes / 4
        then FileBackend.ReadFailed (avail ++ drop (length avail) buf)
        else FileBackend.ReadDone avail
  end.

Definition write (fs : t) (path : string) (offset nbytes : Z) (data : list float)
  : FileBackend.write_outcome * t :=
  let content := default [] (fs !! path) in
  if offset <? 0 then (FileBackend.WriteSeekFailed, <[path := content]> fs)
  else
    let k := Z.to_nat (offset / 4) in
    let n := Z.to_nat (nbytes / 4) in
    let padded := resize k pad content in
    (FileBackend.WriteDone,
     <[path := padded ++ take n data ++ drop (k + n) content]> fs).

#[export] Instance SlotFS_FileSystem : FileBackend.FileSystem float t := {
  FileBackend.fs_read := read;
  FileBackend.fs_write := write
}.

End Defs.
End SlotFS.

(** ** SSD device model ([simulator/ssd_simulator.hpp]) *)

Module SsdSimulator.

Record SsdDeviceConfig := mkConfig {
  num_channels : Z;
  queue_depth_per_channel : Z;
  base_read_latency_us : double;
  internal_read_bandwidth_GBps : double
}.

(** [SsdDeviceConfig{}]. *)
Definition default_config : SsdDeviceConfig := mkConfig 0 0 dzero dzero.

Record t := mk {
  config_ : SsdDeviceConfig;
  io_stats_ : IOStats;
  total_time_us_ : double
}.

Definition make (config : SsdDeviceConfig) : t := mk config IOStats_zero dzero.

(** [bw_bytes_per_us]: [GBps * 1e9 / 1e6] when the configured bandwidth is
    positive, [0.0] otherwise. *)
Definition bw_bytes_per_us (c : SsdDeviceConfig) : double :=
  if dltb dzero (internal_read_bandwidth_GBps c)
  then ddiv (dmul (internal_read_bandwidth_GBps c) (double_of_Z 1000000000))
            (double_of_Z 1000000)
  else dzero.

(** [t_us]: base latency, plus the transfer time when the bandwidth is positive. *)
Definition read_time_us (c : SsdDeviceConfig) (bytes : Z) : double :=
  if dltb dzero (bw_bytes_per_us c)
  then dadd (base_read_latency_us c) (ddiv (double_of_Z bytes) (bw_bytes_per_us c))
  else base_read_latency_us c.

(** [parallel]: channels times queue depth, 1 when that is 0. *)
Definition parallel (c : SsdDeviceConfig) : Z :=
  let p := wrap64 (num_channels c * queue_depth_per_channel c) in
  if p =? 0 then 1 else p.

(** [SsdSimulator::record_read]. *)
Definition record_read (st : t) (bytes : Z) : t :=
  mk (config_ st)
     (stats_add_read (io_stats_ st) bytes)
     (dadd (total_time_us_ st)
           (ddiv (read_time_us (config_ st) bytes) (double_of_Z (parallel (config_ st))))).

Definition total_time_us (st : t) : double := total_time_us_ st.
Definition stats (st : t) : IOStats := io_stats_ st.
Definition reset_stats (st : t) : t := mk (config_ st) IOStats_zero dzero.

(** The increment of the design document, as written there:
    [(base + B / bandwidth_bytes_per_us) / max(1, channels * queue_depth)],
    with [bandwidth_bytes_per_us = GBps * 1e9 / 1e6]. *)
Definition spec_bandwidth_bytes_per_us (c : SsdDeviceConfig) : double :=
  ddiv (dmul (internal_read_bandwidth_GBps c) (double_of_Z 1000000000))
       (double_of_Z 1000000).

Definition spec_read_increment (c : SsdDeviceConfig) (bytes : Z) : double :=
  ddiv (dadd (base_read_latency_us c)
             (ddiv (double_of_Z bytes) (spec_bandwidth_bytes_per_us c)))
       (double_of_Z (Z.max 1 (wrap64 (num_channels c * queue_depth_per_channel c)))).

End SsdSimulator.

(** ** Cache policies ([tiered/cache_policy.cpp]) *)

(** Remove the list node holding [id] (the node an iterator stored for [id]
    points to: the first one). *)
Fixpoint remove_first (id : Z) (l : list Z) : list Z :=
  match l with
  | [] => []
  | x :: rest => if x =? id then rest else x :: remove_first id rest
  end.

Module LRUCachePolicy.

(** [lru_list_] has the most recently used id at the front; [map_] maps an id
    to its list node, so only its key set is kept. *)
Record t := mk {
  capacity_ : Z;
  lru_list_ : list Z;
  map_ : gset Z
}.

Definition make (capacity : Z) : t := mk capacity [] ∅.

Definition size (st : t) : Z := Z.of_nat (base.size (map_ st)).
Definition capacity (st : t) : Z := capacity_ st.

(** [record_access]: splice the node of [id] to the front. *)
Definition record_access (st : t) (id : Z) : t :=
  if decide (id ∈ map_ st)
  then mk (capacity_ st) (id :: remove_first id (lru_list_ st)) (map_ st)
  else st.

(** [on_insert(id, evicted_id)]: returns the flag, the out-parameter and the
    new state. *)
Definition on_insert (st : t) (id : Z) (evicted_id : Z) : bool * Z * t :=
  if capacity_ st =? 0 then (false, evicted_id, st)
  else if decide (id ∈ map_ st) then (false, evicted_id, record_access st id)
  else
    if capacity_ st <=? size st then
      let victim := List.last (lru_list_ st) 0 in
      (true, victim,
       mk (capacity_ st)
          (id :: removelast (lru_list_ st))
          ({[id]} ∪ (map_ st ∖ {[victim]})))
    else
      (false, evicted_id,
       mk (capacity_ st) (id :: lru_list_ st) ({[id]} ∪ map_ st)).

Definition erase (st : t) (id : Z) : t :=
  if decide (id ∈ map_ st)
  then mk (capacity_ st) (remove_first id (lru_list_ st)) (map_ st ∖ {[id]})
  else st.

Definition clear (st : t) : t := mk (capacity_ st) [] ∅.

End LRUCachePolicy.

Module LFUCachePolicy.

(** [freq_map_] is the multimap as its in-order sequence of (frequency, id)
    pairs; [entries_] keeps the frequency of each id (the iterator into
    [freq_map_] is determined by the pair). *)
Record t := mk {
  capacity_ : Z;
  freq_map_ : list (Z * Z);
  entries_ : gmap Z Z
}.

Definition make (capacity : Z) : t := mk capacity [] ∅.

Definition size (st : t) : Z := Z.of_nat (base.size (entries_ st)).
Definition capacity (st : t) : Z := capacity_ st.

(** [multimap::emplace]: after the last element whose key is not greater. *)
Fixpoint mm_emplace (freq id : Z) (m : list (Z * Z)) : list (Z * Z) :=
  match m with
  | [] => [(freq, id)]
  | (f, x) :: rest =>
      if f <=? freq then (f, x) :: mm_emplace freq id rest
      else (freq, id) :: (f, x) :: rest
  end.

(** [multimap::erase(iterator)] for the node holding the pair. *)
Fixpoint mm_erase (freq id : Z) (m : list (Z * Z)) : list (Z * Z) :=
  match m with
  | [] => []
  | (f, x) :: rest =>
      if (f =? freq) && (x =? id) then rest else (f, x) :: mm_erase freq id rest
  end.

Definition record_access (st : t) (id : Z) : t :=
  match entries_ st !! id with
  | None => st
  | Some old_freq =>
      let new_freq := wrap64 (old_freq + 1) in
      mk (capacity_ st)
         (mm_emplace new_freq id (mm_erase old_freq id (freq_map_ st)))
         (<[id := new_freq]> (entries_ st))
  end.

Definition on_insert (st : t) (id : Z) (evicted_id : Z) : bool * Z * t :=
  if capacity_ st =? 0 then (false, evicted_id, st)
  else
    match entries_ st !! id with
    | Some _ => (false, evicted_id, record_access st id)
    | None =>
        let '(evicted, evicted_id', fm, en) :=
          if capacity_ st <=? size st then
            match freq_map_ st with
            | (_, victim) :: rest => (true, victim, rest, delete victim (entries_ st))
            | [] => (false, evicted_id, freq_map_ st, entries_ st)
            end
          else (false, evicted_id, freq_map_ st, entries_ st) in
        (evicted, evicted_id',
         mk (capacity_ st) (mm_emplace 1 id fm)
            (match en !! id with Some _ => en | None => <[id := 1]> en end))
    end.

Definition erase (st : t) (id : Z) : t :=
  match entries_ st !! id with
  | None => st
  | Some f => mk (capacity_ st) (mm_erase f id (freq_map_ st)) (delete id (entries_ st))
  end.

Definition clear (st : t) : t := mk (capacity_ st) [] ∅.

End LFUCachePolicy.

(** The closed set of policies behind the [CachePolicy] interface. *)
Module CachePolicy.

Inductive t :=
| LRU (p : LRUCachePolicy.t)
| LFU (p : LFUCachePolicy.t).

Definition record_access (st : t) (id : Z) : t :=
  match st with
  | LRU p => LRU (LRUCachePolicy.record_access p id)
  | LFU p => LFU (LFUCachePolicy.record_access p id)
  end.

Definition on_insert (st : t) (id : Z) (evicted_id : Z) : bool * Z * t :=
  match st with
  | LRU p => let '(e, v, p') := LRUCachePolicy.on_insert p id evicted_id in (e, v, LRU p')
  | LFU p => let '(e, v, p') := LFUCachePolicy.on_insert p id evicted_id in (e, v, LFU p')
  end.

Definition size (st : t) : Z :=
  match st with
  | LRU p => LRUCachePolicy.size p
  | LFU p => LFUCachePolicy.size p
  end.

End CachePolicy.

(** ** Tiered backend ([storage/tiered_backend.cpp]) *)

Module TieredBackend.
Section Defs.
Context {float : Type} {B : Type} {SB : StorageBackend float B}.
Local Abbreviation VectorData := (list float).

(** [backing_] is a shared pointer and may be null. *)
Record t := mk {
  backing_ : option B;
  cache_capacity_ : Z;
  cache_ : gmap Z VectorData;
  policy_ : option CachePolicy.t;
  stats_ : IOStats;
  cache_hits_ : Z;
  cache_misses_ : Z;
  ssd_sim_ : option SsdSimulator.t
}.

(** The constructor: a policy object exists only for a positive capacity;
    every policy name other than ["lfu"] selects LRU. *)
Definition make (backing : option B) (cache_capacity_vectors : Z) (cache_policy : string) : t :=
  mk backing cache_capacity_vectors ∅
     (if 0 <? cache_capacity_vectors then
        Some (if String.eqb cache_policy "lfu"
              then CachePolicy.LFU (LFUCachePolicy.make cache_capacity_vectors)
              else CachePolicy.LRU (LRUCachePolicy.make cache_capacity_vectors))
      else None)
     IOStats_zero 0 0 None.

Definition set_backing (st : t) (b : option B) : t :=
  mk b (cache_capacity_ st) (cache_ st) (policy_ st) (stats_ st)
     (cache_hits_ st) (cache_misses_ st) (ssd_sim_ st).

Definition set_cache (st : t) (c : gmap Z VectorData) (p : option CachePolicy.t) : t :=
  mk (backing_ st) (cache_capacity_ st) c p (stats_ st)
     (cache_hits_ st) (cache_misses_ st) (ssd_sim_ st).

Definition enable_device_model (st : t) (config : SsdSimulator.SsdDeviceConfig) : t :=
  mk (backing_ st) (cache_capacity_ st) (cache_ st) (policy_ st) (stats_ st)
     (cache_hits_ st) (cache_misses_ st) (Some (SsdSimulator.make config)).

(** [device_time_us()]. *)
Definition device_time_us (st : t) : double :=
  match ssd_sim_ st with
  | None => dzero
  | Some sim => SsdSimulator.total_time_us sim
  end.

Definition record_logical_read_bytes (st : t) (bytes : Z) : t :=
  mk (backing_ st) (cache_capacity_ st) (cache_ st) (policy_ st)
     (stats_add_read (stats_ st) bytes)
     (cache_hits_ st) (cache_misses_ st)
     (option_map (fun sim => SsdSimulator.record_read sim bytes) (ssd_sim_ st)).

Definition record_logical_write_bytes (st : t) (bytes : Z) : t :=
  mk (backing_ st) (cache_capacity_ st) (cache_ st) (policy_ st)
     (stats_add_write (stats_ st) bytes)
     (cache_hits_ st) (cache_misses_ st) (ssd_sim_ st).

(** [insert_into_cache]. *)
Definition insert_into_cache (st : t) (id : Z) (data : VectorData) : t :=
  match policy_ st with
  | None => st
  | Some pol =>
      if cache_capacity_ st =? 0 then st
      else
        match cache_ st !! id with
        | Some _ =>
            set_cache st (<[id := data]> (cache_ st)) (Some (CachePolicy.record_access pol id))
        | None =>
            let '(evicted, evicted_id, pol') := CachePolicy.on_insert pol id 0 in
            let c := if evicted then delete evicted_id (cache_ st) else cache_ st in
            set_cache st
              (match c !! id with Some _ => c | None => <[id := data]> c end)
              (Some pol')
        end
  end.

(** [read_node].  [us] is what the [Timer] measured around the backing read. *)
Definition read_node (st : t) (node_id : Z) (out_data : VectorData) (us : double)
  : bool * VectorData * t :=
  match cache_ st !! node_id with
  | Some data =>
      (true, data,
       mk (backing_ st) (cache_capacity_ st) (cache_ st)
          (option_map (fun p => CachePolicy.record_access p node_id) (policy_ st))
          (stats_ st) (wrap64 (cache_hits_ st + 1)) (cache_misses_ st) (ssd_sim_ st))
  | None =>
      match backing_ st with
      | None => (false, out_data, st)
      | Some b =>
          let '(ok, out, b') := sb_read_node b node_id out_data in
          if negb ok then (false, out, set_backing st (Some b'))
          else
            let bytes := payload_bytes out in
            let st1 :=
              mk (Some b') (cache_capacity_ st) (cache_ st) (policy_ st)
                 (stats_add_read_latency (stats_add_read (stats_ st) bytes) us)
                 (cache_hits_ st) (wrap64 (cache_misses_ st + 1))
                 (option_map (fun sim => SsdSimulator.record_read sim bytes) (ssd_sim_ st)) in
            (true, out, insert_into_cache st1 node_id out)
      end
  end.

(** [write_node]: write-through, then install or refresh the cache entry. *)
Definition write_node (st : t) (node_id : Z) (data : VectorData) (us : double)
  : bool * t :=
  match backing_ st with
  | None => (false, st)
  | Some b =>
      let '(ok, b') := sb_write_node b node_id data in
      if negb ok then (false, set_backing st (Some b'))
      else
        let bytes := payload_bytes data in
        let st1 :=
          mk (Some b') (cache_capacity_ st) (cache_ st) (policy_ st)
             (stats_add_write_latency (stats_add_write (stats_ st) bytes) us)
             (cache_hits_ st) (cache_misses_ st) (ssd_sim_ st) in
        (true, insert_into_cache st1 node_id data)
  end.

Definition cache_size (st : t) : Z := Z.of_nat (base.size (cache_ st)).
Definition cache_capacity (st : t) : Z := cache_capacity_ st.
Definition cache_hits (st : t) : Z := cache_hits_ st.
Definition cache_misses (st : t) : Z := cache_misses_ st.
Definition get_stats (st : t) : IOStats := stats_ st.

(** The ids resident in the cache. *)
Definition resident (st : t) : gset Z := dom (cache_ st).

(** A sequence of [read_node] calls, each with its timer reading; returns
    the flags of the calls and the final state. *)
Fixpoint read_all (st : t) (reads : list (Z * double)) : list bool * t :=
  match reads with
  | [] => ([], st)
  | (id, us) :: rest =>
      let '(ok, _, st') := read_node st id [] us in
      let '(oks, st'') := read_all st' rest in
      (ok :: oks, st'')
  end.

End Defs.
Arguments t : clear implicits.
End TieredBackend.

(** ** Distance kernel ([core/vector.hpp]) *)

Module VectorOps.

(** [float]: binary32. *)
Definition float := spec_float.
Definition fadd : float -> float -> float := SFadd 24 128.
Definition fsub : float -> float -> float := SFsub 24 128.
Definition fmul : float -> float -> float := SFmul 24 128.
Definition fdiv : float -> float -> float := SFdiv 24 128.
Definition fsqrt : float -> float := SFsqrt 24 128.
Definition fneg : float -> float := SFopp.
Definition fltb : float -> float -> bool := SFltb.
Definition feqb : float -> float -> bool := SFeqb.
Definition fzero : float := S754_zero false.
Definition fone : float := binary_normalize 24 128 1 0 false.
(** [static_cast<float>(z)] for an unsigned integer. *)
Definition float_of_Z (z : Z) : float := binary_normalize 24 128 z 0 false.
(** [std::numeric_limits<float>::max()]. *)
Definition float_max : float := SFmax_float 24 128.
(** The literal [1e-8f]: [11258999 * 2^-50]. *)
Definition eps_1e_8 : float := S754_finite false 11258999 (-50).

(** Fused multiply-add [x * y + z] with one rounding ([_mm256_fmadd_ps],
    per lane), following IEEE 754: the product is exact, the sum is rounded
    to nearest even. *)
Definition fma_inf (s : bool) (z : float) : float :=
  match z with
  | S754_nan => S754_nan
  | S754_infinity sz => if Bool.eqb s sz then S754_infinity s else S754_nan
  | _ => S754_infinity s
  end.

Definition ffma (x y z : float) : float :=
  match x, y with
  | S754_nan, _ | _, S754_nan => S754_nan
  | S754_infinity sx, S754_infinity sy => fma_inf (xorb sx sy) z
  | S754_infinity sx, S754_finite sy _ _ => fma_inf (xorb sx sy) z
  | S754_finite sx _ _, S754_infinity sy => fma_inf (xorb sx sy) z
  | S754_infinity _, S754_zero _ => S754_nan
  | S754_zero _, S754_infinity _ => S754_nan
  | S754_finite sx _ _, S754_zero sy => fadd (S754_zero (xorb sx sy)) z
  | S754_zero sx, S754_finite sy _ _ => fadd (S754_zero (xorb sx sy)) z
  | S754_zero sx, S754_zero sy => fadd (S754_zero (xorb sx sy)) z
  | S754_finite sx mx ex, S754_finite sy my ey =>
      match z with
      | S754_nan => S754_nan
      | S754_infinity sz => S754_infinity sz
      | S754_zero _ => fmul x y
      | S754_finite sz mz ez =>
          let sp := xorb sx sy in
          let mp := Pos.mul mx my in
          let ep := Z.add ex ey in
          let e := Z.min ep ez in
          binary_normalize 24 128
            (Z.add (cond_Zopp sp (Zpos (fst (shl_align mp ep e))))
                   (cond_Zopp sz (Zpos (fst (shl_align mz ez e)))))
            e false
      end
  end.

(** How the translation unit was compiled: the [#if defined(__AVX2__)] and
    [#if defined(__FMA__)] alternatives of [l2_distance_squared]. *)
Inductive isa := Scalar | Avx2 | Avx2Fma.

Inductive DistanceMetric := L2 | InnerProduct | Cosine.

(** [p[i]] for a buffer given as the list of its elements (reading past the
    end is undefined in C++; the model reads [0.0f]). *)
Definition at_ (p : list float) (i : nat) : float := nth i p fzero.

(** The scalar loop [for (i = from; i < from + count; ++i) dist += diff * diff]. *)
Fixpoint l2_scalar_loop (a b : list float) (from count : nat) (dist : float) : float :=
  match count with
  | O => dist
  | S c =>
      let diff := fsub (at_ a from) (at_ b from) in
      l2_scalar_loop a b (S from) c (fadd dist (fmul diff diff))
  end.

(** One 8-lane step of the vector loop on the accumulator [acc] (a list of
    the 8 lanes): [acc += diff * diff], fused or not. *)
Definition l2_lane_step (fused : bool) (a b : list float) (i : nat) (acc : list float)
  : list float :=
  imap (fun j accj =>
          let diff := fsub (at_ a (i + j)) (at_ b (i + j)) in
          if fused then ffma diff diff accj else fadd accj (fmul diff diff))
       acc.

Fixpoint l2_vector_loop (fused : bool) (a b : list float) (i blocks : nat) (acc : list float)
  : list float :=
  match blocks with
  | O => acc
  | S n => l2_vector_loop fused a b (i + 8) n (l2_lane_step fused a b i acc)
  end.

(** [buf[0] + buf[1] + ... + buf[7]], left to right. *)
Definition horizontal_sum (buf : list float) : float :=
  match buf with
  | [] => fzero
  | x :: rest => fold_left fadd rest x
  end.

(** [l2_distance_squared(a, b, dim)]. *)
Definition l2_distance_squared (v : isa) (a b : list float) (dim : Z) : float :=
  let n := Z.to_nat dim in
  match v with
  | Scalar => l2_scalar_loop a b 0 n fzero
  | Avx2 | Avx2Fma =>
      let fused := match v with Avx2Fma => true | _ => false end in
      let blocks := (n / 8)%nat in
      let acc := l2_vector_loop fused a b 0 blocks (replicate 8 fzero) in
      l2_scalar_loop a b (8 * blocks) (n - 8 * blocks) (horizontal_sum acc)
  end.

Fixpoint inner_product_loop (a b : list float) (from count : nat) (result : float) : float :=
  match count with
  | O => result
  | S c => inner_product_loop a b (S from) c (fadd result (fmul (at_ a from) (at_ b from)))
  end.

(** [inner_product(a, b, dim)]. *)
Definition inner_product (a b : list float) (dim : Z) : float :=
  inner_product_loop a b 0 (Z.to_nat dim) fzero.

(** [cosine_similarity(a, b, dim)]. *)
Definition cosine_similarity (a b : list float) (dim : Z) : float :=
  let dot := inner_product a b dim in
  let norm_a := fsqrt (inner_product a a dim) in
  let norm_b := fsqrt (inner_product b b dim) in
  fdiv dot (fadd (fmul norm_a norm_b) eps_1e_8).

(** [compute_distance(a, b, dim, metric)]. *)
Definition compute_distance (v : isa) (a b : list float) (dim : Z) (metric : DistanceMetric)
  : float :=
  match metric with
  | L2 => l2_distance_squared v a b dim
  | InnerProduct => fneg (inner_product a b dim)
  | Cosine => fneg (cosine_similarity a b dim)
  end.

(** [std::sort] with the comparator [a.key < b.key] on floats.  C++ leaves
    the order of elements whose keys compare equal unspecified; the model is
    the stable insertion sort, which keeps them in input order: [x] is put in
    front of the first element whose key is not smaller than its own. *)
Section Sort.
Context {A : Type} (key : A -> float).

Fixpoint insert_sorted (x : A) (l : list A) : list A :=
  match l with
  | [] => [x]
  | y :: rest => if fltb (key y) (key x) then y :: insert_sorted x rest else x :: y :: rest
  end.

Definition sort_by (l : list A) : list A := fold_right insert_sorted [] l.

(** [std::nth_element(first, first + k, last)].  With [first + k == last]
    C++ asks for nothing and the library returns at once: the list is left as
    it is.  Otherwise C++ asks for a rearrangement with the element of rank
    [k] in place and no smaller element after it, and leaves the order on
    both sides unspecified; the model takes the sorted arrangement. *)
Definition nth_element (k : Z) (l : list A) : list A :=
  if k =? Z.of_nat (length l) then l else sort_by l.

End Sort.

End VectorOps.

(** ** ANN-in-SSD block model ([simulator/ann_in_ssd_model.cpp]) *)

Module AnnInSsd.
Import VectorOps.

(** The fields of [AnnInSsdConfig] read by the block graph and by a query. *)
Record AnnInSsdConfig := mkConfig {
  dimension : Z;
  num_vectors : Z;
  placement_mode : string;
  vectors_per_block : Z;
  portal_degree : Z;
  code_type : string;
  hardware_level : string;
  k : Z;
  max_steps : Z;
  entry_block_strategy : string
}.

Definition set_code_type (c : AnnInSsdConfig) (ct : string) : AnnInSsdConfig :=
  mkConfig (dimension c) (num_vectors c) (placement_mode c) (vectors_per_block c)
           (portal_degree c) ct (hardware_level c) (k c) (max_steps c)
           (entry_block_strategy c).

(** [Dataset]: the vectors, read by [size()] and [get_vector_data(idx)]. *)
Definition Dataset := list (list float).
Definition dataset_size (ds : Dataset) : Z := Z.of_nat (length ds).
Definition get_vector_data (ds : Dataset) (idx : Z) : list float :=
  nth (Z.to_nat idx) ds [].

(** The block-level metadata kept by the model. *)
Record BlockGraph := mkGraph {
  block_centroids_ : list (list float);
  block_neighbors_ : list (list Z);
  graph_dim_ : Z;
  graph_vectors_per_block_ : Z;
  block_assignment_ : list (list Z)
}.

(** The members of a freshly constructed model. *)
Definition fresh_graph : BlockGraph := mkGraph [] [] 0 0 [].

Record Query := mkQuery {
  query_id : Z;
  values : list float;
  true_neighbors : list Z
}.

Record QueryResult := mkResult {
  result_query_id : Z;
  found_neighbors : list Z;
  found_scores : list float;
  blocks_visited : Z;
  portal_steps : Z;
  internal_reads : Z;
  distances_computed : Z
}.

Section Model.
Context (simd : isa).
Context (config_ : AnnInSsdConfig) (dataset_ : Dataset).

(** [n]: the dataset size, capped by [config_.num_vectors] when that is set. *)
Definition effective_n : Z :=
  let n := dataset_size dataset_ in
  if (0 <? num_vectors config_) && (num_vectors config_ <? n)
  then num_vectors config_ else n.

(** [dim] in [build_block_graph_if_needed]. *)
Definition effective_dim : Z :=
  if dimension config_ =? 0
  then Z.of_nat (length (get_vector_data dataset_ 0))
  else dimension config_.

(** [vectors_per_block], 128 when unset. *)
Definition effective_K : Z :=
  if vectors_per_block config_ =? 0 then 128 else vectors_per_block config_.

(** [(n + vectors_per_block - 1) / vectors_per_block] on [size_t]. *)
Definition num_blocks_of (n : Z) : Z := wrap64 (n + effective_K - 1) / effective_K.

(** The ids [start, start + 1, ..., end - 1] pushed by the inner loop. *)
Definition id_range (start end_ : Z) : list Z :=
  map (fun i => start + Z.of_nat i) (seq 0 (Z.to_nat (end_ - start))).

(** The [hash_home] assignment of block [b]. *)
Definition hash_home_block (n : Z) (b : Z) : list Z :=
  let start := wrap64 (b * effective_K) in
  let end_ := Z.min (wrap64 (start + effective_K)) n in
  id_range start end_.

Definition block_indices (num_blocks : Z) : list Z :=
  map Z.of_nat (seq 0 (Z.to_nat num_blocks)).

(** The [locality_aware] assignment pass: nearest initial centroid. *)
Definition initial_centroids (n num_blocks : Z) : list (list float) :=
  map (fun b => get_vector_data dataset_ (wrap64 (b * (n / num_blocks)) mod n))
      (block_indices num_blocks).

Definition nearest_centroid (dim : Z) (centroids : list (list float)) (vec : list float) : Z :=
  snd (fold_left
         (fun (best : float * Z) (bc : Z * list float) =>
            let d := l2_distance_squared simd vec (snd bc) dim in
            if fltb d (fst best) then (d, fst bc) else best)
         (imap (fun b c => (Z.of_nat b, c)) centroids)
         (float_max, 0)).

Definition push_to_block (assignment : list (list Z)) (b : Z) (id : Z) : list (list Z) :=
  alter (fun ids => ids ++ [id]) (Z.to_nat b) assignment.

Definition locality_aware_assign (n dim num_blocks : Z) (assignment : list (list Z))
  : list (list Z) :=
  let centroids := initial_centroids n num_blocks in
  fold_left
    (fun asg i =>
       let vec := get_vector_data dataset_ i in
       if Z.of_nat (length vec) =? dim
       then push_to_block asg (nearest_centroid dim centroids vec) i
       else asg)
    (block_indices n) assignment.

(** Centroid of a block: the mean of its vectors of the right dimension. *)
Definition add_into (centroid base_vec : list float) : list float :=
  imap (fun d c => fadd c (at_ base_vec d)) centroid.

Definition block_centroid (dim : Z) (ids : list Z) : list float :=
  let zero := replicate (Z.to_nat dim) fzero in
  let '(sum, count) :=
    fold_left
      (fun (acc : list float * Z) vid =>
         let base_vec := get_vector_data dataset_ vid in
         if Z.of_nat (length base_vec) =? dim
         then (add_into (fst acc) base_vec, wrap64 (snd acc + 1))
         else acc)
      ids (zero, 0) in
  if 0 <? count
  then let inv := fdiv fone (float_of_Z count) in map (fun c => fmul c inv) sum
  else sum.

(** Portal adjacency of block [b]: the [portal_degree] nearest centroids,
    sorted by distance, then the ring neighbours if not yet present. *)
Definition push_if_absent (l : list Z) (x : Z) : list Z :=
  if existsb (Z.eqb x) l then l else l ++ [x].

Definition portal_neighbors (dim num_blocks portal_degree : Z)
  (centroids : list (list float)) (b : Z) : list Z :=
  let cb := nth (Z.to_nat b) centroids [] in
  if negb (Z.of_nat (length cb) =? dim) then []
  else
    let cand :=
      flat_map
        (fun j =>
           if j =? b then []
           else
             let cj := nth (Z.to_nat j) centroids [] in
             if negb (Z.of_nat (length cj) =? dim) then []
             else [(l2_distance_squared simd cb cj dim, j)])
        (block_indices num_blocks) in
    let keep := Z.min portal_degree (Z.of_nat (length cand)) in
    let nb_list :=
      if 0 <? keep
      then map snd (sort_by fst (take (Z.to_nat keep) (nth_element fst keep cand)))
      else [] in
    if 1 <? num_blocks then
      let fwd := wrap64 (b + 1) mod num_blocks in
      let nb1 := push_if_absent nb_list fwd in
      let back := wrap64 (wrap64 (b + num_blocks) - 1) mod num_blocks in
      push_if_absent nb1 back
    else nb_list.

(** [build_block_graph_if_needed]. *)
Definition build_block_graph_if_needed (g : BlockGraph) : BlockGraph :=
  let n := effective_n in
  if n =? 0 then g
  else
    let dim := effective_dim in
    if dim =? 0 then g
    else
      let vpb := effective_K in
      let num_blocks := num_blocks_of n in
      if negb (Z.of_nat (length (block_neighbors_ g)) =? 0)
         && (graph_dim_ g =? dim)
         && (graph_vectors_per_block_ g =? vpb)
         && (Z.of_nat (length (block_centroids_ g)) =? num_blocks)
         && (Z.of_nat (length (block_neighbors_ g)) =? num_blocks)
         && (Z.of_nat (length (block_assignment_ g)) =? num_blocks)
      then g
      else
        let resized := resize (Z.to_nat num_blocks) [] (block_assignment_ g) in
        let assignment :=
          if negb (String.eqb (placement_mode config_) "locality_aware")
          then map (hash_home_block n) (block_indices num_blocks)
          else locality_aware_assign n dim num_blocks resized in
        let centroids := map (block_centroid dim) assignment in
        let pd := if portal_degree config_ =? 0 then 1 else portal_degree config_ in
        let neighbors :=
          map (portal_neighbors dim num_blocks pd centroids) (block_indices num_blocks) in
        mkGraph centroids neighbors dim vpb assignment.

(** *** [search_one] *)

Definition is_visited (visited : list bool) (b : Z) : bool :=
  nth (Z.to_nat b) visited false.
Definition mark_visited (visited : list bool) (b : Z) : list bool :=
  <[Z.to_nat b := true]> visited.

(** Entry blocks: the [keep] nearest centroids, or block 0.  The blocks are
    queued in the order [std::nth_element] leaves them in (see
    [VectorOps.nth_element]): the order of the centroids when every
    candidate is kept. *)
Definition entry_blocks (g : BlockGraph) (dim num_blocks : Z) (query : Query)
  : list bool * list Z :=
  let visited0 := replicate (Z.to_nat num_blocks) false in
  let num_entry_candidates :=
    if String.eqb (hardware_level config_) "L2" then 4
    else if String.eqb (hardware_level config_) "L3" then 8 else 1 in
  if negb (Z.of_nat (length (block_centroids_ g)) =? 0)
     && negb (Z.of_nat (length (values query)) =? 0)
     && String.eqb (entry_block_strategy config_) "centroid_knn"
  then
    let candidates :=
      flat_map
        (fun bc : Z * list float =>
           if negb (Z.of_nat (length (snd bc)) =? dim) then []
           else [(l2_distance_squared simd (values query) (snd bc) dim, fst bc)])
        (imap (fun b c => (Z.of_nat b, c)) (block_centroids_ g)) in
    let keep := Z.min num_entry_candidates (Z.of_nat (length candidates)) in
    if 0 <? keep then
      fold_left
        (fun (vq : list bool * list Z) (c : float * Z) =>
           if is_visited (fst vq) (snd c) then vq
           else (mark_visited (fst vq) (snd c), snd vq ++ [snd c]))
        (take (Z.to_nat keep) (nth_element fst keep candidates))
        (visited0, [])
    else (mark_visited visited0 0, [0])
  else (mark_visited visited0 0, [0]).

(** Pushing the unvisited portal neighbours of a popped block. *)
Definition expand_block (num_blocks : Z) (nbrs : list Z)
  (st : list bool * list Z * Z) : list bool * list Z * Z :=
  fold_left
    (fun (st : list bool * list Z * Z) nb =>
       let '(visited, queue, steps) := st in
       if num_blocks <=? nb then st
       else if is_visited visited nb then st
       else (mark_visited visited nb, queue ++ [nb], wrap64 (steps + 1)))
    nbrs st.

(** The frontier loop; [remaining] is [max_blocks_to_visit - block_order.size()],
    which decreases at every iteration. *)
Fixpoint frontier_loop (g : BlockGraph) (num_blocks : Z) (remaining : nat)
  (visited : list bool) (queue : list Z) (q_head : nat)
  (block_order : list Z) (steps : Z) : list Z * Z :=
  match remaining with
  | O => (block_order, steps)
  | S r =>
      match queue !! q_head with
      | None => (block_order, steps)
      | Some b =>
          let order' := block_order ++ [b] in
          if Z.of_nat (length (block_neighbors_ g)) <=? b
          then frontier_loop g num_blocks r visited queue (S q_head) order' steps
          else
            let '(visited', queue', steps') :=
              expand_block num_blocks (nth (Z.to_nat b) (block_neighbors_ g) [])
                           (visited, queue, steps) in
            frontier_loop g num_blocks r visited' queue' (S q_head) order' steps'
      end
  end.

(** The blocks visited by a query, in order, and the portal steps counted. *)
Definition visit_order (g : BlockGraph) (dim n : Z) (query : Query) : list Z * Z :=
  let num_blocks := num_blocks_of n in
  let max_blocks_to_visit :=
    if (0 <? max_steps config_) && (max_steps config_ <? num_blocks)
    then max_steps config_ else num_blocks in
  let '(visited, queue) := entry_blocks g dim num_blocks query in
  frontier_loop g num_blocks (Z.to_nat max_blocks_to_visit) visited queue 0 [] 0.

(** What the scan of one visited block adds: a (distance, id) pair for every
    vector of the block, one internal read, and the charged distances. *)
Record ScanState := mkScan {
  dist_id : list (float * Z);
  scan_distances_computed : Z;
  scan_internal_reads : Z
}.

Definition block_ids (g : BlockGraph) (b : Z) : list Z :=
  nth (Z.to_nat b) (block_assignment_ g) [].

Definition scan_block (g : BlockGraph) (dim : Z) (query : Query) (st : ScanState) (b : Z)
  : ScanState :=
  let use_micro_index := String.eqb (code_type config_) "micro_index" in
  let ids := block_ids g b in
  let vectors_to_check :=
    if use_micro_index then Z.min (Z.of_nat (length ids)) 16 else Z.of_nat (length ids) in
  let pairs :=
    map (fun vid =>
           (l2_distance_squared simd (values query) (get_vector_data dataset_ vid) dim, vid))
        ids in
  mkScan (dist_id st ++ pairs)
         (if use_micro_index
          then wrap64 (scan_distances_computed st + vectors_to_check)
          else wrap64 (scan_distances_computed st + Z.of_nat (length ids)))
         (wrap64 (scan_internal_reads st + 1)).

Definition scan_blocks (g : BlockGraph) (dim : Z) (query : Query) (block_order : list Z)
  : ScanState :=
  fold_left (scan_block g dim query) block_order (mkScan [] 0 0).

Definition empty_result (query : Query) : QueryResult :=
  mkResult (query_id query) [] [] 0 0 0 0.

(** [search_one]: the result and the block graph after the call. *)
Definition search_one (g : BlockGraph) (query : Query) : QueryResult * BlockGraph :=
  let n := effective_n in
  if n =? 0 then (empty_result query, g)
  else
    let dim := if dimension config_ =? 0
               then Z.of_nat (length (values query)) else dimension config_ in
    if dim =? 0 then (empty_result query, g)
    else if k config_ =? 0 then (empty_result query, g)
    else
      let kq := if n <? k config_ then n else k config_ in
      let g' := build_block_graph_if_needed g in
      let '(block_order, steps) := visit_order g' dim n query in
      let scan := scan_blocks g' dim query block_order in
      let kk := Z.min kq (Z.of_nat (length (dist_id scan))) in
      let visited_count := Z.of_nat (length block_order) in
      if kk =? 0
      then (mkResult (query_id query) [] [] visited_count steps
                     (scan_internal_reads scan) (scan_distances_computed scan), g')
      else
        let selected := nth_element fst kk (dist_id scan) in
        let top := sort_by fst (take (Z.to_nat kk) selected) in
        (mkResult (query_id query) (map snd top) (map fst top) visited_count steps
                  (scan_internal_reads scan) (scan_distances_computed scan), g').

(** The blocks a call of [search_one] visits (none when it returns at one of
    its guards), and the graph it scans them in. *)
Definition query_dim (query : Query) : Z :=
  if dimension config_ =? 0 then Z.of_nat (length (values query)) else dimension config_.

Definition visited_blocks (g : BlockGraph) (query : Query) : list Z :=
  if (effective_n =? 0) || (query_dim query =? 0) || (k config_ =? 0) then []
  else fst (visit_order (build_block_graph_if_needed g) (query_dim query) effective_n query).

(** The (distance, id) pairs computed for block [b]. *)
Definition block_distances (g : BlockGraph) (query : Query) (b : Z) : list (float * Z) :=
  map (fun vid =>
         (l2_distance_squared simd (values query) (get_vector_data dataset_ vid)
                              (query_dim query), vid))
      (block_ids g b).

End Model.

(** Sum of a per-block charge over the visited blocks. *)
Definition sum_over (charge : Z -> Z) (blocks : list Z) : Z :=
  fold_right (fun b acc => charge b + acc) 0 blocks.

End AnnInSsd.

(** ** The random engine of [assign_layer] ([std::mt19937_64]) *)

Module Mt19937_64.

Definition state_size : nat := 312.
Definition shift_size : nat := 156.
Definition upper_mask : Z := 0xFFFFFFFF80000000.
Definition lower_mask : Z := 0x7FFFFFFF.
Definition xor_mask : Z := 0xB5026F5AA96619E9.
Definition initialization_multiplier : Z := 6364136223846793005.

(** The state words and the position of the next one to hand out. *)
Record t := mk {
  _M_x : list Z;
  _M_p : nat
}.

Fixpoint seed_loop (count : nat) (i : Z) (prev : Z) : list Z :=
  match count with
  | O => []
  | S count' =>
      let x := wrap64 (initialization_multiplier * Z.lxor prev (Z.shiftr prev 62) + i) in
      x :: seed_loop count' (i + 1) x
  end.

(** [std::mt19937_64 rng(value)]. *)
Definition seed (value : Z) : t :=
  let x0 := wrap64 value in
  mk (x0 :: seed_loop (state_size - 1) 1 x0) state_size.

Definition twist_word (x : list Z) (k : nat) : list Z :=
  let y := Z.lor (Z.land (nth k x 0) upper_mask)
                 (Z.land (nth ((k + 1) mod state_size) x 0) lower_mask) in
  <[k := Z.lxor (Z.lxor (nth ((k + shift_size) mod state_size) x 0) (Z.shiftr y 1))
                (if Z.odd y then xor_mask else 0)]> x.

(** Regeneration of the whole state, in place and in ascending order. *)
Definition _M_gen_rand (g : t) : t :=
  mk (fold_left twist_word (seq 0 state_size) (_M_x g)) 0.

Definition temper (z : Z) : Z :=
  let z1 := Z.lxor z (Z.land (Z.shiftr z 29) 0x5555555555555555) in
  let z2 := Z.lxor z1 (Z.land (wrap64 (Z.shiftl z1 17)) 0x71D67FFFEDA60000) in
  let z3 := Z.lxor z2 (Z.land (wrap64 (Z.shiftl z2 37)) 0xFFF7EEE000000000) in
  Z.lxor z3 (Z.shiftr z3 43).

(** [rng()]: the next 64-bit output and the engine after it. *)
Definition next (g : t) : Z * t :=
  let g1 := if (state_size <=? _M_p g)%nat then _M_gen_rand g else g in
  (temper (nth (_M_p g1) (_M_x g1) 0), mk (_M_x g1) (S (_M_p g1))).

End Mt19937_64.

(** ** Binary streams ([std::ofstream] and [std::ifstream] in binary mode) *)

Module BinaryStream.

(** The [n] bytes of [x], least significant first. *)
Fixpoint le_bytes (n : nat) (x : Z) : list Z :=
  match n with
  | O => []
  | S n' => x mod 256 :: le_bytes n' (x / 256)
  end.

(** The unsigned value of little-endian bytes. *)
Fixpoint le_value (bytes : list Z) : Z :=
  match bytes with
  | [] => 0
  | b :: rest => b + 256 * le_value rest
  end.

(** A reader consumes a prefix of the bytes that remain in the stream; it
    gives [None] once a read has failed (the stream is then not good). *)
Definition reader (A : Type) : Type := list Z -> option (A * list Z).

Definition ret {A} (a : A) : reader A := fun s => Some (a, s).

Definition bind {A B} (r : reader A) (k : A -> reader B) : reader B :=
  fun s => match r s with
           | None => None
           | Some (a, s') => k a s'
           end.

Definition fail {A} : reader A := fun _ => None.

(** [in.read(buf, n)]. *)
Definition read_bytes (n : nat) : reader (list Z) :=
  fun s => if (length s <? n)%nat then None else Some (take n s, drop n s).

(** [n] consecutive reads by [r]. *)
Fixpoint read_many {A} (n : nat) (r : reader A) : reader (list A) :=
  match n with
  | O => ret []
  | S n' => bind r (fun a => bind (read_many n' r) (fun rest => ret (a :: rest)))
  end.

(** [r] reads [a] from the bytes [enc], whatever follows them. *)
Definition reads {A} (r : reader A) (enc : list Z) (a : A) : Prop :=
  forall rest, r (enc ++ rest) = Some (a, rest).

End BinaryStream.

(** ** HNSW index ([ann/hnsw.cpp]) *)

Module HNSW.
Import VectorOps.

(** [uint32_t] arithmetic of the visited epoch. *)
Definition wrap32 (x : Z) : Z := x mod 2 ^ 32.

(** [static_cast<int>(x)] of a [size_t]. *)
Definition to_int32 (x : Z) : Z := (x + 2 ^ 31) mod 2 ^ 32 - 2 ^ 31.

(** The payload of a vector is kept as the 32-bit patterns of its floats
    (what [save] and [load] copy); arithmetic reads a pattern as the
    binary32 number it encodes. *)
Definition bits_to_float (w : Z) : float :=
  let s := Z.testbit w 31 in
  let e := Z.land (Z.shiftr w 23) 255 in
  let m := Z.land w (2 ^ 23 - 1) in
  if e =? 0 then
    if m =? 0 then S754_zero s else S754_finite s (Z.to_pos m) (-149)
  else if e =? 255 then
    if m =? 0 then S754_infinity s else S754_nan
  else S754_finite s (Z.to_pos (m + 2 ^ 23)) (e - 150).

(** The integer value of a [DistanceMetric] and the branch of the [switch]
    in [compute_distance] it selects (the [default] branch is L2). *)
Definition metric_tag (m : DistanceMetric) : Z :=
  match m with L2 => 0 | InnerProduct => 1 | Cosine => 2 end.

Definition metric_of_tag (tag : Z) : DistanceMetric :=
  if tag =? 1 then InnerProduct else if tag =? 2 then Cosine else L2.

Record Node := mkNode {
  node_id : Z;
  neighbors : list (list Z)
}.

(** A value-initialised [Node]. *)
Definition default_node : Node := mkNode 0 [].

Record t := mk {
  dim_ : Z;
  M_ : Z;
  ef_construction_ : Z;
  metric_ : Z;
  vectors_ : list (list Z);
  nodes_ : list Node;
  entry_point_ : Z;
  max_layer_ : Z;
  visited_ : list Z;
  visited_epoch_ : Z
}.

(** [HNSW(dim, M, ef_construction, metric)]. *)
Definition make (dim M ef_construction : Z) (metric : DistanceMetric) : t :=
  mk dim M ef_construction (metric_tag metric) [] [] VectorID_max 0 [] 0.

Definition set_graph (idx : t) (nodes : list Node) (entry max_layer : Z) : t :=
  mk (dim_ idx) (M_ idx) (ef_construction_ idx) (metric_ idx) (vectors_ idx)
     nodes entry max_layer (visited_ idx) (visited_epoch_ idx).

Definition set_nodes (idx : t) (nodes : list Node) : t :=
  set_graph idx nodes (entry_point_ idx) (max_layer_ idx).

Definition set_visited (idx : t) (visited : list Z) (epoch : Z) : t :=
  mk (dim_ idx) (M_ idx) (ef_construction_ idx) (metric_ idx) (vectors_ idx)
     (nodes_ idx) (entry_point_ idx) (max_layer_ idx) visited epoch.

Definition node_at (idx : t) (id : Z) : Node := nth (Z.to_nat id) (nodes_ idx) default_node.

(** [neighbors(n, l)]: the adjacency of node [n] at layer [l] (empty when the
    node has no such layer). *)
Definition neighbors_at (idx : t) (n l : Z) : list Z :=
  nth (Z.to_nat l) (neighbors (node_at idx n)) [].

(** [export_graph]. *)
Definition export_graph (idx : t) : list (list (list Z)) * Z * Z :=
  (map neighbors (nodes_ idx), entry_point_ idx, max_layer_ idx).

(** The adjacency of the [j]-th node at layer [l], by position; empty when
    the node or the layer does not exist. *)
Definition layer_of (node : Node) (l : nat) : list Z := default [] (neighbors node !! l).
Definition adj (idx : t) (j l : nat) : list Z :=
  match nodes_ idx !! j with
  | Some node => layer_of node l
  | None => []
  end.

(** The number of entries of the scratch array not marked in this epoch. *)
Definition count_unvisited (epoch : Z) (visited : list Z) : nat :=
  length (filter (fun x => x <> epoch) visited).

(** The degree cap of the design document: [2 M] at layer 0, [M] above. *)
Definition spec_cap (M l : Z) : Z := if l =? 0 then 2 * M else M.

(** Every id in the adjacency lists of layer [l] is below [b]. *)
Definition ids_below (idx : t) (l : nat) (b : Z) : Prop :=
  forall j, Forall (fun x => 0 <= x < b) (adj idx j l).

Definition degree_capped (idx : t) : Prop :=
  forall n l, 0 <= n -> 0 <= l ->
    Z.of_nat (length (neighbors_at idx n l)) <= spec_cap (M_ idx) l.

(** *** Priority queues

    A [std::priority_queue] is modelled by the list of its elements;
    [pq_extract less q] gives the top (an element no other is greater than
    under [less]; among several, the earliest pushed) and the queue after
    [pop()]. *)
Fixpoint pq_extract {A} (less : A -> A -> bool) (q : list A) : option (A * list A) :=
  match q with
  | [] => None
  | x :: r =>
      match pq_extract less r with
      | None => Some (x, [])
      | Some (y, r') => if less x y then Some (y, x :: r') else Some (x, r)
      end
  end.

Definition pq_push {A} (x : A) (q : list A) : list A := q ++ [x].

(** [std::pair<float, VectorID>::operator<], the order of [top_candidates]. *)
Definition pair_less (a b : float * Z) : bool :=
  fltb (fst a) (fst b) || (negb (fltb (fst b) (fst a)) && (snd a <? snd b)).

(** [DistIdMin], the order of [candidate_queue]. *)
Definition dist_id_min (a b : float * Z) : bool := fltb (fst b) (fst a).

(** Emptying [top_candidates] into (id, distance) pairs, largest first. *)
Fixpoint pq_drain (n : nat) (q : list (float * Z)) : list (Z * float) :=
  match n with
  | O => []
  | S n' =>
      match pq_extract pair_less q with
      | None => []
      | Some (di, q') => (snd di, fst di) :: pq_drain n' q'
      end
  end.

Section Index.
Context (simd : isa).

Definition vector_at (idx : t) (id : Z) : list float :=
  map bits_to_float (nth (Z.to_nat id) (vectors_ idx) []).

(** [compute_distance(a, b, dim_, metric_)]; the optional counter of
    [distance_with_stats] is instrumentation and is not modelled. *)
Definition distance (idx : t) (a b : list float) : float :=
  compute_distance simd a b (dim_ idx) (metric_of_tag (metric_ idx)).

(** *** [select_neighbors_heuristic] *)

(** First pass: accept a candidate no accepted neighbour is closer to than
    the anchor is; stop at [max_keep]. *)
Fixpoint heuristic_pass (idx : t) (max_keep : Z) (sorted : list (Z * float))
  (result : list Z) : list Z :=
  match sorted with
  | [] => result
  | (cid, dist_q_c) :: rest =>
      let good :=
        forallb (fun sid =>
                   negb (fltb (distance idx (vector_at idx sid) (vector_at idx cid)) dist_q_c))
                result in
      if good then
        let result' := result ++ [cid] in
        if max_keep <=? Z.of_nat (length result') then result'
        else heuristic_pass idx max_keep rest result'
      else heuristic_pass idx max_keep rest result
  end.

(** Second pass: fill up with the nearest candidates not yet accepted. *)
Fixpoint fill_pass (max_keep : Z) (sorted : list (Z * float)) (result : list Z) : list Z :=
  match sorted with
  | [] => result
  | (cid, _) :: rest =>
      if max_keep <=? Z.of_nat (length result) then result
      else if existsb (Z.eqb cid) result then fill_pass max_keep rest result
      else fill_pass max_keep rest (result ++ [cid])
  end.

Definition select_neighbors_heuristic (idx : t) (candidates : list (Z * float)) (M : Z)
  : list Z :=
  match candidates with
  | [] => []
  | _ =>
      if M =? 0 then []
      else
        let sorted := sort_by snd candidates in
        let max_keep := Z.min M (Z.of_nat (length sorted)) in
        let result := heuristic_pass idx max_keep sorted [] in
        if Z.of_nat (length result) <? max_keep
        then fill_pass max_keep sorted result
        else result
  end.

(** *** [search_layer] *)

Definition is_visited (visited : list Z) (epoch : Z) (id : Z) : bool :=
  nth (Z.to_nat id) visited 0 =? epoch.
Definition mark_visited (visited : list Z) (epoch : Z) (id : Z) : list Z :=
  <[Z.to_nat id := epoch]> visited.

(** The start of a call: size the scratch array, bump the epoch, and clear
    the array when the epoch wraps to zero. *)
Definition next_epoch (idx : t) : list Z * Z :=
  let visited1 :=
    if (length (visited_ idx) <? length (vectors_ idx))%nat
    then replicate (length (vectors_ idx)) 0 else visited_ idx in
  let epoch1 := wrap32 (visited_epoch_ idx + 1) in
  if epoch1 =? 0
  then (replicate (length visited1) 0, wrap32 (epoch1 + 1))
  else (visited1, epoch1).

Record SearchState := mkSearch {
  candidate_queue : list (float * Z);
  top_candidates : list (float * Z);
  visited : list Z
}.

(** [top_candidates.top().first] (the queue is never empty where it is read). *)
Definition top_distance (q : list (float * Z)) : float :=
  match pq_extract pair_less q with
  | Some (t, _) => fst t
  | None => fzero
  end.

(** One neighbour [nb] of the expanded node. *)
Definition visit_neighbor (idx : t) (query : list float) (ef epoch : Z)
  (st : SearchState) (nb : Z) : SearchState :=
  if is_visited (visited st) epoch nb then st
  else
    let visited' := mark_visited (visited st) epoch nb in
    let d := distance idx query (vector_at idx nb) in
    if (Z.of_nat (length (top_candidates st)) <? ef)
       || fltb d (top_distance (top_candidates st))
    then
      let top' := pq_push (d, nb) (top_candidates st) in
      let top'' :=
        if ef <? Z.of_nat (length top') then
          match pq_extract pair_less top' with
          | Some (_, rest) => rest
          | None => top'
          end
        else top' in
      mkSearch (pq_push (d, nb) (candidate_queue st)) top'' visited'
    else mkSearch (candidate_queue st) (top_candidates st) visited'.

(** The main loop.  Every iteration pops one candidate; [fuel] bounds the
    number of iterations and [None] is returned if it runs out. *)
Fixpoint search_loop (idx : t) (query : list float) (ef layer epoch : Z) (fuel : nat)
  (st : SearchState) : option SearchState :=
  match fuel with
  | O => None
  | S fuel' =>
      match pq_extract dist_id_min (candidate_queue st) with
      | None => Some st
      | Some (curr, queue') =>
          let lower_bound := top_distance (top_candidates st) in
          if fltb lower_bound (fst curr) then Some st
          else
            let st1 := mkSearch queue' (top_candidates st) (visited st) in
            let node := node_at idx (snd curr) in
            if Z.of_nat (length (neighbors node)) <=? layer
            then search_loop idx query ef layer epoch fuel' st1
            else
              let nbrs := nth (Z.to_nat layer) (neighbors node) [] in
              search_loop idx query ef layer epoch fuel'
                (fold_left (visit_neighbor idx query ef epoch) nbrs st1)
      end
  end.

(** What the loop maintains: the ids in both queues are below [b], and the
    scratch array keeps its length [len]. *)
Definition search_inv (b : Z) (len : nat) (st : SearchState) : Prop :=
  Forall (fun p : float * Z => 0 <= snd p < b) (candidate_queue st) /\
  Forall (fun p : float * Z => 0 <= snd p < b) (top_candidates st) /\
  length (visited st) = len.

(** [search_layer(query, entry_point, ef, layer)]: the (id, distance) pairs
    in ascending distance, and the index with its scratch state updated. *)
Definition search_layer (idx : t) (query : list float) (entry_point ef layer : Z)
  : option (list (Z * float) * t) :=
  if (length (vectors_ idx) =? 0)%nat || (entry_point =? VectorID_max) then Some ([], idx)
  else
    let '(visited0, epoch) := next_epoch idx in
    let entry_dist := distance idx query (vector_at idx entry_point) in
    let st0 := mkSearch [(entry_dist, entry_point)] [(entry_dist, entry_point)]
                        (mark_visited visited0 epoch entry_point) in
    match search_loop idx query ef layer epoch (S (length visited0)) st0 with
    | None => None
    | Some st =>
        let result := pq_drain (length (top_candidates st)) (top_candidates st) in
        Some (sort_by snd result, set_visited idx (visited st) epoch)
    end.

(** The greedy descent on the layers [from, from - 1, ..., above + 1]
    (given as the list of these layers) with [ef = 1]. *)
Fixpoint greedy_descent (idx : t) (query : list float) (ep : Z) (layers : list Z)
  : option (Z * t) :=
  match layers with
  | [] => Some (ep, idx)
  | l :: rest =>
      match search_layer idx query ep 1 l with
      | None => None
      | Some (res, idx') =>
          let ep' := match res with [] => ep | r :: _ => fst r end in
          greedy_descent idx' query ep' rest
      end
  end.

(** The layers [hi, hi - 1, ..., lo + 1], for [lo <= hi]. *)
Definition layers_above (hi lo : Z) : list Z :=
  map (fun i => hi - Z.of_nat i) (seq 0 (Z.to_nat (hi - lo))).

(** *** [insert_node] *)

Definition update_node (nodes : list Node) (id : Z) (f : Node -> Node) : list Node :=
  alter f (Z.to_nat id) nodes.

(** [if (node.neighbors.size() < n) node.neighbors.resize(n)]. *)
Definition ensure_layers (n : Z) (node : Node) : Node :=
  if Z.of_nat (length (neighbors node)) <? n
  then mkNode (node_id node) (resize (Z.to_nat n) [] (neighbors node))
  else node.

Definition update_layer (l : Z) (f : list Z -> list Z) (node : Node) : Node :=
  mkNode (node_id node) (alter f (Z.to_nat l) (neighbors node)).

(** The cap of a layer: [M_ * 2] at layer 0, [M_] above. *)
Definition layer_cap (idx : t) (l : Z) : Z :=
  if l =? 0 then wrap64 (M_ idx * 2) else M_ idx.

(** Re-selection of the adjacency [nb_list] of node [neighbor_id]. *)
Definition prune_neighbors (idx : t) (neighbor_id : Z) (nb_list : list Z) (cap : Z) : list Z :=
  let vref := vector_at idx neighbor_id in
  let cand_nb := map (fun nid => (nid, distance idx vref (vector_at idx nid))) nb_list in
  select_neighbors_heuristic idx cand_nb cap.

(** The symmetric update of [neighbor_id] at layer [l]: add the edge to [id]
    and re-select when the list exceeds its cap. *)
Definition add_back_edge (idx : t) (l id neighbor_id : Z) : t :=
  let cap := layer_cap idx l in
  set_nodes idx
    (update_node (nodes_ idx) neighbor_id
       (fun nb_node =>
          let nb_node' := ensure_layers (wrap64 (l + 1)) nb_node in
          update_layer l
            (fun nb_list =>
               let nb_list' := nb_list ++ [id] in
               if cap <? Z.of_nat (length nb_list')
               then prune_neighbors idx neighbor_id nb_list' cap
               else nb_list')
            nb_node')).

(** One iteration of [for (VectorID neighbor_id : neigh_ids)]. *)
Definition connect (l id : Z) (idx : t) (neighbor_id : Z) : t :=
  let idx1 :=
    set_nodes idx
      (update_node (nodes_ idx) id (update_layer l (fun own => own ++ [neighbor_id]))) in
  add_back_edge idx1 l id neighbor_id.

(** One layer of the connection phase. *)
Definition connect_layer (idx : t) (id : Z) (vec : list float) (ep l : Z) : option t :=
  match search_layer idx vec ep (ef_construction_ idx) l with
  | None => None
  | Some (candidates, idx1) =>
      let neigh_ids := select_neighbors_heuristic idx1 candidates (layer_cap idx1 l) in
      let idx2 :=
        set_nodes idx1 (update_node (nodes_ idx1) id (ensure_layers (wrap64 (l + 1)))) in
      Some (fold_left (connect l id) neigh_ids idx2)
  end.

Fixpoint connect_layers (idx : t) (id : Z) (vec : list float) (ep : Z) (layers : list Z)
  : option t :=
  match layers with
  | [] => Some idx
  | l :: rest =>
      match connect_layer idx id vec ep l with
      | None => None
      | Some idx' => connect_layers idx' id vec ep rest
      end
  end.

(** The layers [top, top - 1, ..., 0] of [for (int l = top; l >= 0; --l)]. *)
Definition layers_down_from (top : Z) : list Z :=
  map (fun i => top - Z.of_nat i) (seq 0 (Z.to_nat (top + 1))).

(** [insert_node(id, vec)], with the level drawn by [assign_layer()]. *)
Definition insert_node (idx : t) (level : Z) (id : Z) (vec : list float) : option t :=
  let nodes1 :=
    if Z.of_nat (length (nodes_ idx)) <=? id
    then resize (Z.to_nat (wrap64 (id + 1))) default_node (nodes_ idx)
    else nodes_ idx in
  let nodes2 :=
    update_node nodes1 id
      (fun node => ensure_layers (wrap64 (level + 1)) (mkNode id (neighbors node))) in
  let idx1 := set_nodes idx nodes2 in
  if entry_point_ idx1 =? VectorID_max
  then Some (set_graph idx1 nodes2 id level)
  else
    match
      (if level <? max_layer_ idx1
       then greedy_descent idx1 vec (entry_point_ idx1) (layers_above (max_layer_ idx1) level)
       else Some (entry_point_ idx1, idx1))
    with
    | None => None
    | Some (ep, idx2) =>
        let top_layer := Z.min (max_layer_ idx2) level in
        match connect_layers idx2 id vec ep (layers_down_from (to_int32 top_layer)) with
        | None => None
        | Some idx3 =>
            if max_layer_ idx3 <? level
            then Some (set_graph idx3 (nodes_ idx3) id level)
            else Some idx3
        end
    end.

(** Every adjacency list is within the cap the code enforces. *)
Definition capped (idx : t) : Prop :=
  forall j l, Z.of_nat (length (adj idx j l)) <= layer_cap idx (Z.of_nat l).

(** The state of a serial build before node [next] is inserted: the nodes
    [0 .. next - 1] are linked among themselves, the others are untouched. *)
Record build_inv (idx : t) (next : Z) : Prop := mkBuildInv {
  inv_len : length (nodes_ idx) = length (vectors_ idx);
  inv_next : 0 <= next <= Z.of_nat (length (vectors_ idx));
  inv_size : Z.of_nat (length (vectors_ idx)) < two64;
  inv_M : 0 <= M_ idx;
  inv_ids : forall l, ids_below idx l next;
  inv_fresh : forall j l, next <= Z.of_nat j -> adj idx j l = [];
  inv_entry : (entry_point_ idx = VectorID_max /\ next = 0)
              \/ 0 <= entry_point_ idx < next;
  inv_cap : capped idx
}.

(** The state while node [id] is being linked: the layers still to be
    processed ([todo]) hold no edge to or from [id] yet. *)
Record linking_inv (idx : t) (id : Z) (todo : list Z) : Prop := mkLinkingInv {
  link_len : length (nodes_ idx) = length (vectors_ idx);
  link_id : 0 <= id < Z.of_nat (length (vectors_ idx));
  link_M : 0 <= M_ idx;
  link_ids : forall l, ids_below idx l (id + 1);
  link_todo : forall l, In l todo ->
                0 <= l /\ ids_below idx (Z.to_nat l) id /\
                adj idx (Z.to_nat id) (Z.to_nat l) = [];
  link_fresh : forall j l, id < Z.of_nat j -> adj idx j l = [];
  link_cap : capped idx
}.

(** Two index states with the same construction parameters and payloads. *)
Definition same_params (idx idx' : t) : Prop :=
  dim_ idx' = dim_ idx /\ M_ idx' = M_ idx /\
  ef_construction_ idx' = ef_construction_ idx /\ metric_ idx' = metric_ idx /\
  vectors_ idx' = vectors_ idx.

(** [reset_for_build(data)]. *)
Definition reset_for_build (idx : t) (data : list (list Z)) : t :=
  mk (dim_ idx) (M_ idx) (ef_construction_ idx) (metric_ idx) data
     (replicate (length data) default_node) VectorID_max 0
     (visited_ idx) (visited_epoch_ idx).

(** The loop of [build]: ids in ascending order, the level of id [i] being
    the [i]-th draw of [assign_layer()]. *)
Fixpoint insert_all (idx : t) (levels : Z -> Z) (ids : list Z) : option t :=
  match ids with
  | [] => Some idx
  | id :: rest =>
      match insert_node idx (levels id) id (vector_at idx id) with
      | None => None
      | Some idx' => insert_all idx' levels rest
      end
  end.

(** [build(data)]. *)
Definition build (idx : t) (levels : Z -> Z) (data : list (list Z)) : option t :=
  insert_all (reset_for_build idx data) levels
             (map Z.of_nat (seq 0 (length data))).

(** [search(query, k, ef_search)]: the ids, and the index with its scratch
    state updated. *)
Definition search (idx : t) (query : list float) (k ef_search : Z) : option (list Z * t) :=
  if (length (vectors_ idx) =? 0)%nat || (entry_point_ idx =? VectorID_max)
  then Some ([], idx)
  else
    let top := to_int32 (max_layer_ idx) in
    match greedy_descent idx query (entry_point_ idx) (layers_above top 0) with
    | None => None
    | Some (ep, idx1) =>
        match search_layer idx1 query ep ef_search 0 with
        | None => None
        | Some (res0, idx2) =>
            let out_k := Z.min k (Z.of_nat (length res0)) in
            Some (map fst (take (Z.to_nat out_k) res0), idx2)
        end
    end.

(** *** [build_parallel]

    A worker thread owns its scratch array, its epoch and its random
    engine; the index and the id counter are shared.  The threads
    synchronise on the node mutexes and on the global mutex only, so a run
    of the build is an interleaving of the stretches of code below, each
    executed by one thread without interruption. *)

(** [search_layer_parallel]: the search of one layer on the caller's
    scratch array; gives the result, the array and the epoch. *)
Definition search_layer_parallel (idx : t) (query : list float) (entry_point ef layer : Z)
  (visited : list Z) (visited_epoch : Z) : option (list (Z * float) * list Z * Z) :=
  if (length (vectors_ idx) =? 0)%nat || (entry_point =? VectorID_max)
  then Some ([], visited, visited_epoch)
  else
    let visited1 :=
      if (length visited <? length (vectors_ idx))%nat
      then replicate (length (vectors_ idx)) 0 else visited in
    let epoch1 := wrap32 (visited_epoch + 1) in
    let '(visited0, epoch) :=
      if epoch1 =? 0
      then (replicate (length visited1) 0, wrap32 (epoch1 + 1))
      else (visited1, epoch1) in
    let entry_dist := distance idx query (vector_at idx entry_point) in
    let st0 := mkSearch [(entry_dist, entry_point)] [(entry_dist, entry_point)]
                        (mark_visited visited0 epoch entry_point) in
    match search_loop idx query ef layer epoch (S (length visited0)) st0 with
    | None => None
    | Some (mkSearch _ top visited') =>
        let result := pq_drain (length top) top in
        Some (sort_by snd result, visited', epoch)
    end.

Fixpoint greedy_descent_parallel (idx : t) (query : list float) (ep : Z) (layers : list Z)
  (visited : list Z) (visited_epoch : Z) : option (Z * list Z * Z) :=
  match layers with
  | [] => Some (ep, visited, visited_epoch)
  | l :: rest =>
      match search_layer_parallel idx query ep 1 l visited visited_epoch with
      | None => None
      | Some (res, visited', epoch') =>
          let ep' := match res with [] => ep | r :: _ => fst r end in
          greedy_descent_parallel idx query ep' rest visited' epoch'
      end
  end.

(** Where a worker stands: before [next_id.fetch_add(1)]; inside
    [insert_node_parallel(id, ...)] at the head of the connection loop, with
    the layers still to connect; or after leaving its loop. *)
Inductive Position :=
| AtFetch
| AtLayers (id level ep cur_max_layer : Z) (layers : list Z)
| AtExit.

(** [draws] counts the calls of [assign_layer()] the thread has made: its
    thread-local engine is seeded with the same constant in every thread. *)
Record Worker := mkWorker {
  position : Position;
  draws : nat;
  scratch : list Z;
  scratch_epoch : Z
}.

Definition new_worker : Worker := mkWorker AtFetch 0 [] 0.

(** [insert_node_parallel] up to the connection loop: draw the level, size
    the node, read the entry point and descend greedily. *)
Definition insert_node_parallel_begin (levels : nat -> Z) (idx : t) (id : Z) (w : Worker)
  : option (t * Worker) :=
  let level := levels (draws w) in
  let vec := vector_at idx id in
  let idx1 :=
    set_nodes idx
      (update_node (nodes_ idx) id
         (fun node => ensure_layers (wrap64 (level + 1)) (mkNode id (neighbors node)))) in
  let ep := entry_point_ idx1 in
  let cur_max_layer := max_layer_ idx1 in
  if ep =? VectorID_max
  then Some (set_graph idx1 (nodes_ idx1) id level,
             mkWorker AtFetch (S (draws w)) (scratch w) (scratch_epoch w))
  else
    match
      (if level <? cur_max_layer
       then greedy_descent_parallel idx1 vec ep (layers_above cur_max_layer level)
              (scratch w) (scratch_epoch w)
       else Some (ep, scratch w, scratch_epoch w))
    with
    | None => None
    | Some (ep', visited, epoch) =>
        let top_layer := Z.min cur_max_layer level in
        Some (idx1,
              mkWorker (AtLayers id level ep' cur_max_layer
                                 (layers_down_from (to_int32 top_layer)))
                       (S (draws w)) visited epoch)
    end.

(** One iteration of the connection loop, for layer [l]: search, select,
    append the selection to the node's own list, then update each selected
    neighbour (with re-selection above the cap). *)
Definition insert_node_parallel_layer (idx : t) (id level ep cur_max_layer l : Z)
  (rest : list Z) (w : Worker) : option (t * Worker) :=
  let vec := vector_at idx id in
  match search_layer_parallel idx vec ep (ef_construction_ idx) l
          (scratch w) (scratch_epoch w) with
  | None => None
  | Some (candidates, visited, epoch) =>
      let neigh_ids := select_neighbors_heuristic idx candidates (layer_cap idx l) in
      let idx1 :=
        set_nodes idx
          (update_node (nodes_ idx) id
             (fun node =>
                update_layer l (fun self_list => self_list ++ neigh_ids)
                             (ensure_layers (wrap64 (l + 1)) node))) in
      let idx2 := fold_left (fun i neighbor_id => add_back_edge i l id neighbor_id)
                            neigh_ids idx1 in
      Some (idx2, mkWorker (AtLayers id level ep cur_max_layer rest) (draws w) visited epoch)
  end.

(** The end of [insert_node_parallel]: the entry point moves to a node of a
    new highest layer. *)
Definition insert_node_parallel_end (idx : t) (id level cur_max_layer : Z) (w : Worker)
  : t * Worker :=
  let idx' :=
    if cur_max_layer <? level
    then if max_layer_ idx <? level then set_graph idx (nodes_ idx) id level else idx
    else idx in
  (idx', mkWorker AtFetch (draws w) (scratch w) (scratch_epoch w)).

Record Build := mkBuild {
  index : t;
  next_id : Z;
  workers : list Worker
}.

(** Thread [tid] runs its next stretch. *)
Definition worker_step (levels : nat -> Z) (b : Build) (tid : nat) : option Build :=
  match workers b !! tid with
  | None => None
  | Some w =>
      let put (idx : t) (next : Z) (w' : Worker) :=
        mkBuild idx next (<[tid := w']> (workers b)) in
      match position w with
      | AtExit => Some b
      | AtFetch =>
          let id := next_id b in
          let next := wrap64 (id + 1) in
          if Z.of_nat (length (vectors_ (index b))) <=? id
          then Some (put (index b) next
                         (mkWorker AtExit (draws w) (scratch w) (scratch_epoch w)))
          else
            match insert_node_parallel_begin levels (index b) id w with
            | None => None
            | Some (idx, w') => Some (put idx next w')
            end
      | AtLayers id level ep cur_max_layer [] =>
          let '(idx, w') := insert_node_parallel_end (index b) id level cur_max_layer w in
          Some (put idx (next_id b) w')
      | AtLayers id level ep cur_max_layer (l :: rest) =>
          match insert_node_parallel_layer (index b) id level ep cur_max_layer l rest w with
          | None => None
          | Some (idx, w') => Some (put idx (next_id b) w')
          end
      end
  end.

(** The threads run in the order [schedule] lists them. *)
Fixpoint run (levels : nat -> Z) (b : Build) (schedule : list nat) : option Build :=
  match schedule with
  | [] => Some b
  | tid :: rest =>
      match worker_step levels b tid with
      | None => None
      | Some b' => run levels b' rest
      end
  end.

(** Every thread can be joined. *)
Definition joined (b : Build) : bool :=
  forallb (fun w => match position w with AtExit => true | _ => false end) (workers b).

(** [build_parallel(data, num_threads)] under a schedule of its workers;
    [levels k] is the [k]-th level [assign_layer()] draws in a thread and
    [main_draws] the number of draws the calling thread has made before.
    The result is the index once every worker has left its loop. *)
Definition build_parallel (idx : t) (levels : nat -> Z) (main_draws : nat)
  (data : list (list Z)) (num_threads : Z) (schedule : list nat) : option t :=
  if num_threads <=? 1
  then build idx (fun id => levels (main_draws + Z.to_nat id)%nat) data
  else
    let idx0 := reset_for_build idx data in
    if (length data =? 0)%nat then Some idx0
    else
      match insert_node idx0 (levels main_draws) 0 (vector_at idx0 0) with
      | None => None
      | Some idx1 =>
          match run levels (mkBuild idx1 1 (replicate (Z.to_nat num_threads) new_worker))
                    schedule with
          | Some b => if joined b then Some (index b) else None
          | None => None
          end
      end.

End Index.

(** *** [save] and [load] *)

Import BinaryStream.

#[local] Instance reader_bind : MBind reader := fun A B k r => bind r k.
#[local] Instance reader_ret : MRet reader := fun A a => ret a.

Definition write_u64 (x : Z) : list Z := le_bytes 8 (wrap64 x).
Definition write_i32 (x : Z) : list Z := le_bytes 4 (wrap32 x).
(** The four bytes of a float, given by its bit pattern. *)
Definition write_f32 (w : Z) : list Z := le_bytes 4 w.

Definition read_u64 : reader Z := bytes ← read_bytes 8; mret (le_value bytes).
Definition read_i32 : reader Z := bytes ← read_bytes 4; mret (to_int32 (le_value bytes)).
Definition read_f32 : reader Z := bytes ← read_bytes 4; mret (le_value bytes).

(** One adjacency list: its length, then its ids. *)
Definition layer_bytes (layer_nbrs : list Z) : list Z :=
  write_u64 (Z.of_nat (length layer_nbrs)) ++ concat (map write_u64 layer_nbrs).

Definition node_bytes (n : Node) : list Z :=
  write_u64 (node_id n) ++ write_u64 (Z.of_nat (length (neighbors n)))
  ++ concat (map layer_bytes (neighbors n)).

(** The bytes [save] puts into the stream. *)
Definition save_bytes (idx : t) : list Z :=
  write_u64 (dim_ idx) ++ write_u64 (M_ idx) ++ write_u64 (ef_construction_ idx)
  ++ write_i32 (metric_ idx) ++ write_u64 (entry_point_ idx) ++ write_u64 (max_layer_ idx)
  ++ write_u64 (Z.of_nat (length (vectors_ idx)))
  ++ concat (map (fun v => concat (map write_f32 v)) (vectors_ idx))
  ++ write_u64 (Z.of_nat (length (nodes_ idx)))
  ++ concat (map node_bytes (nodes_ idx)).

Definition read_layer : reader (list Z) :=
  deg ← read_u64; read_many (Z.to_nat deg) read_u64.

Definition read_node : reader Node :=
  id_u64 ← read_u64;
  num_layers ← read_u64;
  layers ← read_many (Z.to_nat num_layers) read_layer;
  mret (mkNode id_u64 layers).

(** The largest [std::vector<float>]. *)
Definition max_floats : Z := (2 ^ 63 - 1) / sizeof_float.

(** What [load] does on the bytes of the file.  [None] stands for a load
    that does not return [true]: a read failed, or a buffer of the size
    found in the file cannot be made.  The scratch state of the instance is
    not part of the file and stays as it is. *)
Definition load_bytes (idx : t) : reader t :=
  dim ← read_u64;
  M ← read_u64;
  efc ← read_u64;
  metric_val ← read_i32;
  entry ← read_u64;
  max_l ← read_u64;
  num_vectors ← read_u64;
  vectors ←
    (if max_floats <? dim then fail
     else read_many (Z.to_nat num_vectors) (read_many (Z.to_nat dim) read_f32));
  num_nodes ← read_u64;
  nodes ← read_many (Z.to_nat num_nodes) read_node;
  mret (mk dim M efc metric_val vectors nodes entry max_l (visited_ idx) (visited_epoch_ idx)).

(** The files the streams open.  [write_file fs path bytes] opens [path] for
    writing and writes [bytes]: whether the stream is good at the end, and
    the files afterwards.  [read_file fs path] is the content of [path] when
    it can be opened for reading. *)
Class BinaryFiles (FS : Type) := {
  write_file : FS -> string -> list Z -> bool * FS;
  read_file : FS -> string -> option (list Z)
}.

Section Persistence.
Context {FS : Type} {files : BinaryFiles FS}.

(** [save(filepath)]. *)
Definition save (fs : FS) (filepath : string) (idx : t) : bool * FS :=
  write_file fs filepath (save_bytes idx).

(** [load(filepath)]: the instance after a load that returned [true]. *)
Definition load (fs : FS) (filepath : string) (idx : t) : option t :=
  match read_file fs filepath with
  | None => None
  | Some bytes =>
      match load_bytes idx bytes with
      | Some (idx', _) => Some idx'
      | None => None
      end
  end.

End Persistence.

(** What the bytes of a file can hold of an index: every stored number is in
    the range of its field. *)
Definition node_fits (n : Node) : Prop :=
  in_u64 (node_id n) /\ Z.of_nat (length (neighbors n)) < two64 /\
  Forall (fun layer_nbrs => Z.of_nat (length layer_nbrs) < two64 /\ Forall in_u64 layer_nbrs)
         (neighbors n).

Definition vector_fits (dim : Z) (v : list Z) : Prop :=
  Z.of_nat (length v) = dim /\ Forall (fun w => 0 <= w < 2 ^ 32) v.

Record fits (idx : t) : Prop := mkFits {
  fits_dim : 0 <= dim_ idx <= max_floats;
  fits_M : in_u64 (M_ idx);
  fits_efc : in_u64 (ef_construction_ idx);
  fits_metric : - 2 ^ 31 <= metric_ idx < 2 ^ 31;
  fits_entry : in_u64 (entry_point_ idx);
  fits_max_layer : in_u64 (max_layer_ idx);
  fits_num_vectors : Z.of_nat (length (vectors_ idx)) < two64;
  fits_vectors : Forall (vector_fits (dim_ idx)) (vectors_ idx);
  fits_num_nodes : Z.of_nat (length (nodes_ idx)) < two64;
  fits_nodes : Forall node_fits (nodes_ idx)
}.

(** The scratch state between two searches: no mark is ahead of the epoch. *)
Definition scratch_ok (idx : t) : Prop :=
  (length (visited_ idx) <= length (vectors_ idx))%nat /\
  Forall (fun x => 0 <= x <= visited_epoch_ idx) (visited_ idx) /\
  0 <= visited_epoch_ idx < 2 ^ 32.

(** What a build keeps of the shape of the nodes, besides [build_inv]. *)
Definition node_shape (n : Node) : Prop :=
  in_u64 (node_id n) /\ Z.of_nat (length (neighbors n)) < two64.

Record shape_inv (idx : t) : Prop := mkShapeInv {
  shape_nodes : Forall node_shape (nodes_ idx);
  shape_max_layer : in_u64 (max_layer_ idx);
  shape_scratch : scratch_ok idx
}.

(** Two scratch arrays with the same marks of their current epochs. *)
Definition same_marks (epoch1 epoch2 : Z) (visited1 visited2 : list Z) : Prop :=
  length visited1 = length visited2 /\
  forall i, (nth i visited1 0 =? epoch1) = (nth i visited2 0 =? epoch2).

(** *** [assign_layer] *)

(** [std::uniform_real_distribution<float>(0.0f, 1.0f)] on one output of the
    engine: the output scaled by the range of the engine, kept below one,
    then mapped to the interval. *)
Definition generate_canonical (u : Z) : float :=
  let r := fdiv (float_of_Z u) (float_of_Z two64) in
  if fltb r fone then r else S754_finite false (2 ^ 24 - 1) (-24).

Definition uniform_real (u : Z) : float :=
  fadd (fmul (generate_canonical u) (fsub fone fzero)) fzero.

(** [while (dist(rng) < p) ++level;] with [p = 0.5f]; [fuel] bounds the
    number of draws. *)
Fixpoint assign_layer_loop (fuel : nat) (rng : Mt19937_64.t) (level : Z)
  : option (Z * Mt19937_64.t) :=
  match fuel with
  | O => None
  | S fuel' =>
      let '(u, rng') := Mt19937_64.next rng in
      if fltb (uniform_real u) (fdiv fone (float_of_Z 2))
      then assign_layer_loop fuel' rng' (wrap64 (level + 1))
      else Some (level, rng')
  end.

Definition assign_layer (fuel : nat) (rng : Mt19937_64.t) : option (Z * Mt19937_64.t) :=
  assign_layer_loop fuel rng 0.

(** The levels of the first [count] calls in a thread, whose engine starts
    as [rng(42)]. *)
Fixpoint draw_levels (fuel count : nat) (rng : Mt19937_64.t) : option (list Z) :=
  match count with
  | O => Some []
  | S count' =>
      match assign_layer fuel rng with
      | None => None
      | Some (level, rng') =>
          match draw_levels fuel count' rng' with
          | None => None
          | Some rest => Some (level :: rest)
          end
      end
  end.

Definition thread_levels (fuel count : nat) : option (list Z) :=
  draw_levels fuel count (Mt19937_64.seed 42).

End HNSW.

(** ** Files kept in a map from paths to contents *)

Module MapFiles.

Definition t : Type := gmap string (list Z).

(** The empty path cannot be opened. *)
Definition write (fs : t) (path : string) (bytes : list Z) : bool * t :=
  match path with
  | EmptyString => (false, fs)
  | _ => (true, <[path := bytes]> fs)
  end.

Definition read (fs : t) (path : string) : option (list Z) := fs !! path.

#[export] Instance MapFiles_BinaryFiles : HNSW.BinaryFiles t := {
  HNSW.write_file := write;
  HNSW.read_file := read
}.

End MapFiles.

(** ** Scenario B of the design document (and of [tests/unit/test_hnsw.cpp]) *)

Module ScenarioB.
Import VectorOps.

(** The 32-bit pattern of a binary32 value. *)
Definition bits_of_float (x : float) : Z :=
  let sign (s : bool) := if s then 2 ^ 31 else 0 in
  match x with
  | S754_zero s => sign s
  | S754_infinity s => sign s + 255 * 2 ^ 23
  | S754_nan => 255 * 2 ^ 23 + 2 ^ 22
  | S754_finite s m e =>
      if Z.pos m <? 2 ^ 23 then sign s + Z.pos m
      else sign s + (e + 150) * 2 ^ 23 + (Z.pos m - 2 ^ 23)
  end.

(** The point [(i, 0)]. *)
Definition line_point (i : Z) : list Z := [bits_of_float (float_of_Z i); bits_of_float fzero].

(** [v_i = (i, 0)] for [i] in [[0, 10)]. *)
Definition data : list (list Z) := map line_point [0; 1; 2; 3; 4; 5; 6; 7; 8; 9].

(** [HNSW index(dim = 2, M = 4, ef_construction = 50, L2)]. *)
Definition fresh_index : HNSW.t := HNSW.make 2 4 50 L2.

(** A sequence of levels [assign_layer()] may draw: nodes 3 and 7 on layer 1,
    node 5 on layer 2, the others on layer 0. *)
Definition levels (id : Z) : Z :=
  if (id =? 3) || (id =? 7) then 1 else if id =? 5 then 2 else 0.

Definition query (i : Z) : list float := map HNSW.bits_to_float (line_point i).

End ScenarioB.

(** ** Scenario F of the design document: the line points built by four threads *)

Module ScenarioF.

(** The levels [assign_layer()] draws in a thread, in order. *)
Definition drawn : list Z := Eval vm_compute in default [] (HNSW.thread_levels 64 12).

Definition levels (k : nat) : Z := nth k drawn 0.

Definition num_threads : Z := 4.

(** Thread 0 inserts the nodes 1 to 4 and thread 1 the nodes 5 to 7; thread
    1 starts node 8 and connects it on layer 1; thread 2 inserts node 9;
    thread 1 finishes node 8; then every thread finds the counter exhausted. *)
Definition schedule : list nat :=
  (repeat 0 12 ++ repeat 1 9 ++ [1; 1] ++ repeat 2 3 ++ [1; 1] ++ [0; 1; 2; 3])%nat.

(** The build under [schedule], the calling thread having drawn
    [main_draws] levels before. *)
Definition built (simd : VectorOps.isa) (main_draws : nat) : option HNSW.t :=
  HNSW.build_parallel simd ScenarioB.fresh_index levels main_draws ScenarioB.data
                      num_threads schedule.

End ScenarioF.

(** ** Scenario C of the design document: the line index saved and loaded *)

Module ScenarioC.

(** The index of scenario B after its serial build. *)
Definition built : HNSW.t :=
  Eval vm_compute in
    default ScenarioB.fresh_index
      (HNSW.build VectorOps.Scalar ScenarioB.fresh_index ScenarioB.levels ScenarioB.data).

Definition path : string := "index.bin".

(** The files after [built.save(path)], starting from none. *)
Definition saved : MapFiles.t :=
  Eval vm_compute in
    snd (HNSW.save (files := MapFiles.MapFiles_BinaryFiles) ∅ path built).

(** The new instance the file is loaded into. *)
Definition fresh : HNSW.t := HNSW.make 0 0 0 VectorOps.L2.

End ScenarioC.

(** ** Scenario A of the design document (and of [tests/unit/test_cache.cpp]) *)

Module ScenarioA.

(** [static_cast<float>(z)] for an integer [z]. *)
Definition float_of_Z (z : Z) : spec_float := binary_normalize 24 128 z 0 false.

(** Vector [i] of dimension 4 holds the values [4 i + d]. *)
Definition vector (i : Z) : list spec_float :=
  map (fun d => float_of_Z (i * 4 + d)) [0; 1; 2; 3].

(** The backing store after [write_node(i, v_i)] for [i = 0 .. 3]. *)
Definition backing : MemoryBackend.t spec_float :=
  MemoryBackend.run (map (fun i => MemoryBackend.OpWrite i (vector i)) [0; 1; 2; 3]).

(** [TieredBackend tier(backing, 2)]: capacity 2, default policy ["lru"]. *)
Definition tier : TieredBackend.t spec_float (MemoryBackend.t spec_float) :=
  TieredBackend.make (Some backing) 2 "lru".

(** Reads of [ids] in order; the [k]-th read of the whole scenario (counted
    from [from]) sees the timer reading [us k]. *)
Definition reads (us : nat -> double) (from : nat) (ids : list Z) : list (Z * double) :=
  imap (fun k id => (id, us (from + k)%nat)) ids.

Definition phase1 (us : nat -> double) :=
  TieredBackend.read_all tier (reads us 0 [0; 1; 2; 3]).
Definition phase2a (us : nat -> double) :=
  TieredBackend.read_all (snd (phase1 us)) (reads us 4 [0]).
Definition phase2 (us : nat -> double) :=
  TieredBackend.read_all (snd (phase2a us)) (reads us 5 [1]).
Definition phase3 (us : nat -> double) :=
  TieredBackend.read_all (snd (phase2 us)) (reads us 6 [0; 1; 0; 1; 0; 1; 0; 1]).

End ScenarioA.

(** ** Concrete inputs used to exercise the theorems *)

Module Examples.

(** The defaults of hardware level L0 in [make_device_config]: 4 channels,
    queue depth 64, 80 us base latency, 3 GB/s. *)
Definition device_L0 : SsdSimulator.SsdDeviceConfig :=
  SsdSimulator.mkConfig 4 64 (double_of_Z 80) (double_of_Z 3).

(** A file backend of dimension 4 on an empty file system, and a tiered
    backend over an empty in-memory store. *)
Definition empty_fs : SlotFS.t (float := Z) := ∅.
Definition file_backend : FileBackend.t := FileBackend.make "vectors.bin" 4.
Definition tiered_over_empty : TieredBackend.t Z (MemoryBackend.t Z) :=
  TieredBackend.make (Some MemoryBackend.empty) 2 "lru".


(** Five vectors of dimension 2 in blocks of 2 ([hash_home]). *)
Definition small_dataset : AnnInSsd.Dataset :=
  map (fun i => [VectorOps.float_of_Z i; VectorOps.float_of_Z (i * i)]) [0; 1; 2; 3; 4].
Definition small_config : AnnInSsd.AnnInSsdConfig :=
  AnnInSsd.mkConfig 2 0 "hash_home" 2 4 "raw" "L0" 3 0 "centroid_knn".

(** Forty vectors of dimension 1 in blocks of 20, and a query. *)
Definition wide_dataset : AnnInSsd.Dataset :=
  map (fun i => [VectorOps.float_of_Z (Z.of_nat i)]) (seq 0 40).
Definition wide_config : AnnInSsd.AnnInSsdConfig :=
  AnnInSsd.mkConfig 1 0 "hash_home" 20 1 "raw" "L0" 3 0 "centroid_knn".
Definition wide_query : AnnInSsd.Query :=
  AnnInSsd.mkQuery 0 [VectorOps.float_of_Z 7] [].

(** Two vectors of dimension 0, as [generate_synthetic(2, 0)] makes them. *)
Definition zero_dim_dataset : AnnInSsd.Dataset := [[]; []].
Definition zero_dim_config : AnnInSsd.AnnInSsdConfig :=
  AnnInSsd.mkConfig 0 0 "hash_home" 1 4 "raw" "L0" 3 0 "centroid_knn".

(** Blocks of [2^64 - 1] vectors. *)
Definition huge_block_config : AnnInSsd.AnnInSsdConfig :=
  AnnInSsd.mkConfig 2 0 "hash_home" (two64 - 1) 4 "raw" "L0" 3 0 "centroid_knn".

End Examples.

(** ** Programs over a cache policy *)

Module PolicyProgram.

(** A call on a policy object. *)
Inductive op :=
| Insert (id : Z)
| Access (id : Z)
| Erase (id : Z)
| Clear.

Definition lru_step (st : LRUCachePolicy.t) (o : op) : LRUCachePolicy.t :=
  match o with
  | Insert id => snd (LRUCachePolicy.on_insert st id 0)
  | Access id => LRUCachePolicy.record_access st id
  | Erase id => LRUCachePolicy.erase st id
  | Clear => LRUCachePolicy.clear st
  end.

Definition lru_run (capacity : Z) (ops : list op) : LRUCachePolicy.t :=
  fold_left lru_step ops (LRUCachePolicy.make capacity).

Definition lfu_step (st : LFUCachePolicy.t) (o : op) : LFUCachePolicy.t :=
  match o with
  | Insert id => snd (LFUCachePolicy.on_insert st id 0)
  | Access id => LFUCachePolicy.record_access st id
  | Erase id => LFUCachePolicy.erase st id
  | Clear => LFUCachePolicy.clear st
  end.

Definition lfu_run (capacity : Z) (ops : list op) : LFUCachePolicy.t :=
  fold_left lfu_step ops (LFUCachePolicy.make capacity).

(** The list and the map of an LRU policy hold the same keys, once each,
    and no more than the capacity. *)
Definition lru_inv (st : LRUCachePolicy.t) : Prop :=
  NoDup (LRUCachePolicy.lru_list_ st) /\
  (forall x, x ∈ LRUCachePolicy.map_ st <-> x ∈ LRUCachePolicy.lru_list_ st) /\
  Z.of_nat (length (LRUCachePolicy.lru_list_ st)) <= Z.max 0 (LRUCachePolicy.capacity_ st).

(** The distinct keys of a history (most recent use first), each at its most
    recent use. *)
Fixpoint mru (history : list Z) : list Z :=
  match history with
  | [] => []
  | x :: older => x :: filter (fun y => y <> x) (mru older)
  end.

(** The uses that count for an LRU policy of capacity [c]: every insertion,
    and every access to a key that is resident when it is accessed.  The
    history has the most recent use first. *)
Definition lru_count (c : nat) (history : list Z) (o : op) : list Z :=
  match o with
  | Insert id => id :: history
  | Access id => if decide (id ∈ take c (mru history)) then id :: history else history
  | _ => history
  end.

Definition lru_history (c : nat) (ops : list op) : list Z :=
  fold_left (lru_count c) ops [].

Definition is_use (o : op) : Prop :=
  match o with Insert _ | Access _ => True | _ => False end.

(** The multimap of an LFU policy is ordered by frequency and holds one pair
    for every entry, with the frequency the entry records; the policy holds
    no more keys than its capacity. *)
Definition lfu_inv (st : LFUCachePolicy.t) : Prop :=
  StronglySorted (fun a b : Z * Z => fst a <= fst b) (LFUCachePolicy.freq_map_ st) /\
  NoDup (map snd (LFUCachePolicy.freq_map_ st)) /\
  (forall id f, LFUCachePolicy.entries_ st !! id = Some f
                <-> (f, id) ∈ LFUCachePolicy.freq_map_ st) /\
  base.size (LFUCachePolicy.entries_ st) = length (LFUCachePolicy.freq_map_ st) /\
  Z.of_nat (length (LFUCachePolicy.freq_map_ st)) <= Z.max 0 (LFUCachePolicy.capacity_ st).

End PolicyProgram.

(** ** Programs over a tiered backend *)

Module TieredProgram.
Section Defs.
Context {float : Type} {B : Type} {SB : StorageBackend float B}.
Local Abbreviation VectorData := (list float).
Local Abbreviation tiered := (TieredBackend.t float B).

(** [TieredBackend::reset_stats]. *)
Definition reset_stats (st : tiered) : tiered :=
  TieredBackend.mk (option_map sb_reset_stats (TieredBackend.backing_ st))
    (TieredBackend.cache_capacity_ st) (TieredBackend.cache_ st) (TieredBackend.policy_ st)
    IOStats_zero 0 0
    (option_map SsdSimulator.reset_stats (TieredBackend.ssd_sim_ st)).

(** A call on a tiered backend; reads and writes carry the reading of
    their timer. *)
Inductive op :=
| Read (node_id : Z) (us : double)
| Write (node_id : Z) (data : VectorData) (us : double)
| ResetStats
| EnableDeviceModel (config : SsdSimulator.SsdDeviceConfig)
| LogicalRead (bytes : Z)
| LogicalWrite (bytes : Z).

(** The flag a call returns ([true] for the calls that return nothing) and
    the backend after it. *)
Definition step (st : tiered) (o : op) : bool * tiered :=
  match o with
  | Read id us => let '(ok, _, st') := TieredBackend.read_node st id [] us in (ok, st')
  | Write id data us => TieredBackend.write_node st id data us
  | ResetStats => (true, reset_stats st)
  | EnableDeviceModel config => (true, TieredBackend.enable_device_model st config)
  | LogicalRead bytes => (true, TieredBackend.record_logical_read_bytes st bytes)
  | LogicalWrite bytes => (true, TieredBackend.record_logical_write_bytes st bytes)
  end.

Definition run (st : tiered) (ops : list op) : tiered :=
  fold_left (fun s o => snd (step s o)) ops st.

(** The ids a call names are [VectorID] values. *)
Definition op_ok (o : op) : Prop :=
  match o with
  | Read id _ => 0 <= id
  | Write id _ _ => 0 <= id < two64 - 1
  | _ => True
  end.

(** The keys a policy holds. *)
Definition policy_keys (p : CachePolicy.t) : gset Z :=
  match p with
  | CachePolicy.LRU p => LRUCachePolicy.map_ p
  | CachePolicy.LFU p => dom (LFUCachePolicy.entries_ p)
  end.

Definition policy_inv (p : CachePolicy.t) : Prop :=
  match p with
  | CachePolicy.LRU p => PolicyProgram.lru_inv p
  | CachePolicy.LFU p => PolicyProgram.lfu_inv p
  end.

Definition policy_capacity (p : CachePolicy.t) : Z :=
  match p with
  | CachePolicy.LRU p => LRUCachePolicy.capacity_ p
  | CachePolicy.LFU p => LFUCachePolicy.capacity_ p
  end.

(** The cache holds a payload for exactly the keys of the policy, and there
    is a policy exactly when the capacity is positive. *)
Definition cache_inv (st : tiered) : Prop :=
  match TieredBackend.policy_ st with
  | None => TieredBackend.cache_ st = ∅ /\ TieredBackend.cache_capacity_ st <= 0
  | Some p =>
      policy_inv p /\ policy_capacity p = TieredBackend.cache_capacity_ st /\
      0 < TieredBackend.cache_capacity_ st /\
      dom (TieredBackend.cache_ st) = policy_keys p
  end.

End Defs.
Arguments op : clear implicits.

(** A tiered backend over an in-memory store: every cached payload is the
    one the store holds under that id. *)
Definition coherent {float : Type} (st : TieredBackend.t float (MemoryBackend.t float)) : Prop :=
  exists b,
    TieredBackend.backing_ st = Some b /\ MemoryBackend.mem_inv b /\
    forall id data,
      TieredBackend.cache_ st !! id = Some data ->
      0 <= id /\
      MemoryBackend.present_ b !! Z.to_nat id = Some true /\
      MemoryBackend.data_ b !! Z.to_nat id = Some data.

End TieredProgram.

Open Scope Z_scope.

(** ** The result queue of a search *)

(** The result queue of a running layer search: its ids are distinct and
    marked in the scratch array, and it holds between one and [max ef 1]
    entries. *)
Definition top_inv (ef epoch : Z) (st : HNSW.SearchState) : Prop :=
  NoDup (map snd (HNSW.top_candidates st)) /\
  Forall (fun p : VectorOps.float * Z => HNSW.is_visited (HNSW.visited st) epoch (snd p) = true)
         (HNSW.top_candidates st) /\
  1 <= Z.of_nat (length (HNSW.top_candidates st)) <= Z.max ef 1.

Open Scope Z_scope.

(** ** Programs over a file backend *)

Module FileProgram.
Section Defs.
Context {float : Type} (pad fzero : float).
Local Abbreviation VectorData := (list float).
Local Abbreviation files := (gmap string (list float)).
#[local] Existing Instance SlotFS.SlotFS_FileSystem.

(** A call on a file backend. *)
Inductive op :=
| Write (node_id : Z) (data : VectorData)
| Read (node_id : Z)
| BatchRead (node_ids : list Z)
| ResetStats.

(** The files and the backend object after a call. *)
Definition step (s : files * FileBackend.t) (o : op) : files * FileBackend.t :=
  let '(fs, st) := s in
  match o with
  | Write id data =>
      let '(_, st', fs') :=
        FileBackend.write_node (fsys := SlotFS.SlotFS_FileSystem pad) fs st id data in
      (fs', st')
  | Read id =>
      (fs, snd (FileBackend.read_node (fsys := SlotFS.SlotFS_FileSystem pad) fzero fs st id []))
  | BatchRead ids =>
      (fs, snd (FileBackend.batch_read_nodes (fsys := SlotFS.SlotFS_FileSystem pad)
                  fzero fs st ids))
  | ResetStats => (fs, FileBackend.reset_stats st)
  end.

Definition run (s : files * FileBackend.t) (ops : list op) : files * FileBackend.t :=
  fold_left step ops s.

(** The slot a write names lies within the range of a [std::streamoff]. *)
Definition op_ok (dim : Z) (o : op) : Prop :=
  match o with
  | Write id _ => 0 <= id /\ (id + 1) * dim * sizeof_float < 2 ^ 63
  | _ => True
  end.

(** The file of the backend holds [data] in slot [id]. *)
Definition holds (dim : Z) (path : string) (fs : files) (id : Z) (data : VectorData) : Prop :=
  exists content,
    fs !! path = Some content /\
    take (Z.to_nat dim) (drop (Z.to_nat (id * dim)) content) = data /\
    Z.of_nat (length data) = dim.

End Defs.
Arguments op : clear implicits.
End FileProgram.

Open Scope Z_scope.

(** ** Truncated streams *)

(** [r] fails on every stream that ends inside the bytes [enc]. *)
Definition cuts {A} (r : BinaryStream.reader A) (enc : list Z) : Prop :=
  forall p q, enc = p ++ q -> q <> [] -> r p = None.

Open Scope Z_scope.

(** ** The frontier of a block search *)

(** The frontier of a query over [num_blocks] blocks: the queue holds
    distinct blocks, and a block is marked exactly when it is in the queue. *)
Definition frontier_inv (num_blocks : Z) (visited : list bool) (queue : list Z) : Prop :=
  length visited = Z.to_nat num_blocks /\
  NoDup queue /\
  Forall (fun x => 0 <= x < num_blocks) queue /\
  forall x, 0 <= x < num_blocks -> (AnnInSsd.is_visited visited x = true <-> x ∈ queue).

(** Every portal of the blocks in [expanded] is in [queue]. *)
Definition portals_queued (g : AnnInSsd.BlockGraph) (num_blocks : Z)
  (expanded queue : list Z) : Prop :=
  forall x y,
    x ∈ expanded -> y ∈ nth (Z.to_nat x) (AnnInSsd.block_neighbors_ g) [] ->
    y < num_blocks -> y ∈ queue.

(** The block graph of a model after the queries [queries], run in order. *)
Definition graph_after (simd : VectorOps.isa) (cfg : AnnInSsd.AnnInSsdConfig)
  (ds : AnnInSsd.Dataset) (g : AnnInSsd.BlockGraph) (queries : list AnnInSsd.Query)
  : AnnInSsd.BlockGraph :=
  fold_left (fun g q => snd (AnnInSsd.search_one simd cfg ds g q)) queries g.

Open Scope Z_scope.

(** ** Data sets ([core/dataset.cpp]) *)

Module Dataset.
Import BinaryStream.

(** A data set: the vectors (as the 32-bit patterns of their floats) and
    the dimension. *)
Record t := mk {
  vectors_ : list (list Z);
  dim_ : Z
}.

(** [Dataset()]. *)
Definition empty : t := mk [] 0.

Definition size (ds : t) : Z := Z.of_nat (length (vectors_ ds)).
Definition dimension (ds : t) : Z := dim_ ds.
Definition get_vector_data (ds : t) (idx : Z) : list VectorOps.float :=
  map HNSW.bits_to_float (nth (Z.to_nat idx) (vectors_ ds) []).

(** [has_suffix(str, suffix)]. *)
Definition has_suffix (str suffix : string) : bool :=
  if (String.length str <? String.length suffix)%nat then false
  else String.eqb (String.substring (String.length str - String.length suffix)
                                    (String.length suffix) str) suffix.

(** One component of a [.bvecs] vector: [static_cast<float>(tmp[i])]. *)
Definition read_byte_as_float : reader Z :=
  bind (read_bytes 1)
       (fun bytes => ret (ScenarioB.bits_of_float (VectorOps.float_of_Z (le_value bytes)))).

(** The [while (true)] loop of [load_from_file] on the bytes that remain in
    the stream: the flag returned, and [dim_] and [vectors_] at that point.
    Every iteration consumes a record; [fuel] bounds their number and [None]
    is returned if it runs out. *)
Fixpoint load_loop (is_fvecs : bool) (fuel : nat) (s : list Z) (dim : Z)
  (vectors : list (list Z)) : option (bool * t) :=
  match fuel with
  | O => None
  | S fuel' =>
      match HNSW.read_i32 s with
      | None => Some (negb (length vectors =? 0)%nat, mk vectors dim)
      | Some (d, s1) =>
          if d <=? 0 then Some (false, mk vectors dim)
          else if negb (dim =? 0) && negb (dim =? d) then Some (false, mk vectors dim)
          else
            let dim1 := if dim =? 0 then d else dim in
            match read_many (Z.to_nat dim1)
                            (if is_fvecs then HNSW.read_f32 else read_byte_as_float) s1 with
            | None => Some (false, mk vectors dim1)
            | Some (vec, s2) => load_loop is_fvecs fuel' s2 dim1 (vectors ++ [vec])
            end
      end
  end.

(** [load_from_file(filepath)]; [file] is the content of the file when it
    can be opened.  The flag returned and the data set afterwards. *)
Definition load_from_file (file : option (list Z)) (filepath : string) (ds : t)
  : option (bool * t) :=
  match file with
  | None => Some (false, ds)
  | Some bytes =>
      let is_fvecs := has_suffix filepath ".fvecs" in
      let is_bvecs := has_suffix filepath ".bvecs" in
      if negb is_fvecs && negb is_bvecs then Some (false, empty)
      else load_loop is_fvecs (S (length bytes)) bytes 0 []
  end.

(** The bytes of an [.fvecs] file holding [vectors]. *)
Definition fvecs_bytes (vectors : list (list Z)) : list Z :=
  concat (map (fun v => HNSW.write_i32 (Z.of_nat (length v)) ++ concat (map HNSW.write_f32 v))
              vectors).

(** What the loop keeps: the vectors read so far have the dimension of the
    data set, which is set once a vector has been read. *)
Definition uniform (ds : t) : Prop :=
  Forall (fun v => Z.of_nat (length v) = dim_ ds) (vectors_ ds) /\
  (dim_ ds = 0 /\ vectors_ ds = [] \/ 0 < dim_ ds < 2 ^ 31).

Section GroundTruth.
Context (simd : VectorOps.isa).

(** The body of the loop over the queries in [compute_ground_truth]. *)
Definition ground_truth_one (ds : t) (k : Z) (metric : VectorOps.DistanceMetric)
  (q : list VectorOps.float) : list Z :=
  let dists :=
    imap (fun i v =>
            (VectorOps.compute_distance simd q (map HNSW.bits_to_float v) (dim_ ds) metric,
             Z.of_nat i))
         (vectors_ ds) in
  let dists1 :=
    if k <? Z.of_nat (length dists)
    then take (Z.to_nat k) (VectorOps.nth_element fst k dists)
    else dists in
  let sorted := VectorOps.sort_by fst dists1 in
  map snd (take (Z.to_nat (Z.min k (Z.of_nat (length sorted)))) sorted).

(** [compute_ground_truth(queries, k, metric)]. *)
Definition compute_ground_truth (ds : t) (queries : list (list VectorOps.float)) (k : Z)
  (metric : VectorOps.DistanceMetric) : list (list Z) :=
  map (ground_truth_one ds k metric) queries.

End GroundTruth.

End Dataset.

Open Scope Z_scope.

(** ** Simple graphs *)

(** A graph without self-loops and without repeated edges. *)
Definition simple_graph (idx : HNSW.t) : Prop :=
  forall j l, NoDup (HNSW.adj idx j l) /\ Forall (fun x => x <> Z.of_nat j) (HNSW.adj idx j l).

(** * Properties *)

Lemma wrap64_small x : 0 <= x < two64 -> wrap64 x = x.
Proof. intros H. unfold wrap64. apply Z.mod_small. exact H. Qed.

Lemma wrap64_range x : 0 <= wrap64 x < two64.
Proof. unfold wrap64. apply Z.mod_pos_bound. reflexivity. Qed.

(** ** In-memory backend *)

Section MemoryBackendFacts.
Context {float : Type}.
Import MemoryBackend.
Local Abbreviation VectorData := (list float).
Local Abbreviation mem := (MemoryBackend.t float).
Local Abbreviation mop := (MemoryBackend.op float).

Lemma mem_read_node_frame (st : mem) id out :
  data_ (snd (read_node st id out)) = data_ st /\
  present_ (snd (read_node st id out)) = present_ st.
Proof.
  unfold read_node.
  destruct (_ || _ || _); simpl; auto.
Qed.

Lemma mem_batch_read_frame ids : forall (st : mem) acc ok,
  data_ (snd (batch_read_loop st ids acc ok)) = data_ st /\
  present_ (snd (batch_read_loop st ids acc ok)) = present_ st.
Proof.
  induction ids as [|id ids IH]; intros st acc ok; simpl; [auto|].
  destruct (read_node st id []) as [[r d] st'] eqn:E.
  destruct (mem_read_node_frame st id []) as [H1 H2].
  rewrite E in H1, H2; simpl in H1, H2.
  destruct (IH st' (acc ++ [d]) (ok && r)) as [H3 H4].
  rewrite H3, H4; auto.
Qed.

Lemma mem_run_snoc (ops : list mop) o : run (ops ++ [o]) = step (run ops) o.
Proof. unfold run. rewrite fold_left_app. reflexivity. Qed.

Lemma mem_write_present (st : mem) id data n :
  mem_inv st -> 0 <= id < two64 - 1 ->
  present_ (snd (write_node st id data)) !! n = Some true <->
  (n = Z.to_nat id \/ present_ st !! n = Some true).
Proof.
  intros Hinv Hid. unfold write_node; simpl.
  assert (Hw : Z.to_nat (wrap64 (id + 1)) = S (Z.to_nat id)).
  { rewrite wrap64_small by (unfold two64 in *; lia). lia. }
  rewrite Hw.
  destruct (Z.leb_spec (Z.of_nat (length (data_ st))) id) as [Hle|Hlt].
  - assert (Hlen : (length (present_ st) <= Z.to_nat id)%nat) by (rewrite <- Hinv; lia).
    destruct (decide (n = Z.to_nat id)) as [->|Hne].
    + rewrite list_lookup_insert_eq by (rewrite length_resize; lia). tauto.
    + rewrite list_lookup_insert_ne by congruence.
      destruct (decide (n < length (present_ st))%nat) as [Hn|Hn].
      * rewrite lookup_resize by lia. tauto.
      * destruct (decide (n < S (Z.to_nat id))%nat) as [Hn'|Hn'].
        -- rewrite lookup_resize_new by lia.
           rewrite (lookup_ge_None_2 (present_ st) n) by lia.
           split; [discriminate|intros [?|?]; congruence].
        -- rewrite lookup_resize_old by lia.
           rewrite (lookup_ge_None_2 (present_ st) n) by lia. tauto.
  - assert (Hlen : (Z.to_nat id < length (present_ st))%nat) by (rewrite <- Hinv; lia).
    destruct (decide (n = Z.to_nat id)) as [->|Hne].
    + rewrite list_lookup_insert_eq by lia. tauto.
    + rewrite list_lookup_insert_ne by congruence. tauto.
Qed.

Lemma mem_write_inv (st : mem) id data :
  mem_inv st -> mem_inv (snd (write_node st id data)).
Proof.
  unfold mem_inv, write_node; simpl. intros H.
  rewrite !length_insert.
  destruct (_ <=? _); [rewrite !length_resize|]; auto.
Qed.

Lemma mem_step_inv (st : mem) o : mem_inv st -> mem_inv (step st o).
Proof.
  intros H. destruct o as [id data|id|ids|]; simpl.
  - apply mem_write_inv, H.
  - unfold mem_inv. destruct (mem_read_node_frame st id []) as [-> ->]. exact H.
  - unfold mem_inv, batch_read_nodes.
    destruct (mem_batch_read_frame ids st [] true) as [-> ->]. exact H.
  - exact H.
Qed.

Lemma mem_run_inv (ops : list mop) : mem_inv (run ops).
Proof.
  induction ops as [|o ops IH] using rev_ind; [reflexivity|].
  rewrite mem_run_snoc. apply mem_step_inv, IH.
Qed.

(** The presence bits record exactly the ids written so far. *)
Lemma mem_run_present (ops : list mop) n :
  Forall op_ok ops ->
  present_ (run ops) !! n = Some true <->
  exists id data, In (OpWrite id data) ops /\ n = Z.to_nat id.
Proof.
  induction ops as [|o ops IH] using rev_ind; intros Hok.
  - simpl. rewrite lookup_nil. split; [discriminate|intros (?&?&[]&_)].
  - apply Forall_app in Hok as [Hok Ho]. apply Forall_inv in Ho.
    specialize (IH Hok). rewrite mem_run_snoc.
    destruct o as [id data|id|ids|]; cbn [step].
    + rewrite mem_write_present by (auto using mem_run_inv).
      rewrite IH. split.
      * intros [->|(i&d&Hin&->)].
        -- exists id, data. split; [apply in_or_app; right; left; reflexivity|reflexivity].
        -- exists i, d. split; [apply in_or_app; left; exact Hin|reflexivity].
      * intros (i&d&Hin&->). apply in_app_or in Hin as [Hin|[Heq|[]]].
        -- right. eauto.
        -- left. congruence.
    + destruct (mem_read_node_frame (run ops) id []) as [_ ->]. rewrite IH.
      split; intros (i&d&Hin&->); exists i, d; (split; [|reflexivity]).
      * apply in_or_app; left; exact Hin.
      * apply in_app_or in Hin as [Hin|[Heq|[]]]; [exact Hin|discriminate].
    + unfold batch_read_nodes.
      destruct (mem_batch_read_frame ids (run ops) [] true) as [_ ->]. rewrite IH.
      split; intros (i&d&Hin&->); exists i, d; (split; [|reflexivity]).
      * apply in_or_app; left; exact Hin.
      * apply in_app_or in Hin as [Hin|[Heq|[]]]; [exact Hin|discriminate].
    + rewrite IH.
      split; intros (i&d&Hin&->); exists i, d; (split; [|reflexivity]).
      * apply in_or_app; left; exact Hin.
      * apply in_app_or in Hin as [Hin|[Heq|[]]]; [exact Hin|discriminate].
Qed.

Lemma mem_read_ok_present (st : mem) id :
  mem_inv st -> 0 <= id ->
  read_ok st id = true <-> present_ st !! Z.to_nat id = Some true.
Proof.
  intros Hinv Hid. unfold read_ok, read_node, present_at.
  destruct (Z.leb_spec (Z.of_nat (length (data_ st))) id) as [H1|H1]; simpl.
  - rewrite (lookup_ge_None_2 (present_ st)) by (rewrite <- Hinv; lia).
    split; discriminate.
  - destruct (Z.leb_spec (Z.of_nat (length (present_ st))) id) as [H2|H2]; simpl.
    + rewrite <- Hinv in H2. lia.
    + destruct (present_ st !! Z.to_nat id) as [[]|]; simpl; split; congruence.
Qed.

(** C10, in-memory backend.  For every program of calls on a fresh backend
    (ids small enough that [id + 1] is a [size_t]): [read_node(id)] succeeds
    exactly when an earlier [write_node(id, _)] succeeded; a write to an id at
    or beyond the current size grows the storage to [id + 1] slots, and every
    id of the grown range other than the written one still reads as
    not-found. *)
Theorem memory_read_succeeds_iff_written (ops : list mop) (id : Z) :
  Forall op_ok ops -> in_u64 id ->
  (read_ok (run ops) id = true <-> write_succeeded ops id) /\
  (forall wid data,
     size (run ops) <= wid < two64 - 1 ->
     let st' := snd (write_node (run ops) wid data) in
     size st' = wid + 1 /\
     read_ok st' wid = true /\
     forall j, size (run ops) <= j < wid -> read_ok st' j = false).
Proof.
  intros Hok [Hid0 Hid1]. split.
  - rewrite mem_read_ok_present by (auto using mem_run_inv).
    rewrite mem_run_present by exact Hok.
    unfold write_succeeded. split.
    + intros (i&d&Hin&Heq). assert (i = id).
      { pose proof (proj1 (List.Forall_forall _ _) Hok _ Hin) as Hi. simpl in Hi. lia. }
      subst i. apply in_split in Hin as (pre&post&->).
      exists pre, d, post. split; reflexivity.
    + intros (pre&d&post&->&_). exists id, d.
      split; [apply in_or_app; right; left; reflexivity|reflexivity].
  - intros wid data [Hw0 Hw1] st'.
    pose proof (mem_run_inv ops) as Hinv.
    assert (Hsz : 0 <= size (run ops)) by (unfold size; lia).
    assert (Hinv' : mem_inv st') by (apply mem_write_inv, Hinv).
    split; [|split].
    + unfold st', size, write_node; simpl. rewrite length_insert.
      unfold size in Hw0. destruct (Z.leb_spec (Z.of_nat (length (data_ (run ops)))) wid); [|lia].
      rewrite length_resize, wrap64_small by (unfold two64 in *; lia). lia.
    + rewrite mem_read_ok_present by (auto; lia).
      unfold st'. rewrite mem_write_present by (auto; lia). left; reflexivity.
    + intros j Hj. destruct (read_ok st' j) eqn:E; [|reflexivity].
      rewrite mem_read_ok_present in E by (auto; lia).
      unfold st' in E. rewrite mem_write_present in E by (auto; lia).
      destruct E as [E|E]; [lia|].
      apply lookup_lt_Some in E. unfold size in Hj. rewrite <- Hinv in E. lia.
Qed.

End MemoryBackendFacts.

(** A concrete run: two writes on a fresh backend, then the read of id 3. *)
Lemma memory_read_succeeds_iff_written_witness :
  Forall MemoryBackend.op_ok
    [MemoryBackend.OpWrite 0 [1; 2]; MemoryBackend.OpWrite 3 [7; 8]] /\
  in_u64 3 /\
  (MemoryBackend.read_ok
     (MemoryBackend.run [MemoryBackend.OpWrite 0 [1; 2]; MemoryBackend.OpWrite 3 [7; 8]]) 3 = true
   <-> MemoryBackend.write_succeeded
         [MemoryBackend.OpWrite 0 [1; 2]; MemoryBackend.OpWrite 3 [7; 8]] 3).
Proof.
  assert (H1 : Forall MemoryBackend.op_ok
                 [MemoryBackend.OpWrite 0 [1; 2]; MemoryBackend.OpWrite 3 [7; 8]]).
  { repeat constructor; unfold two64; simpl; lia. }
  assert (H2 : in_u64 3) by (unfold in_u64, two64; lia).
  split; [exact H1|split; [exact H2|]].
  exact (proj1 (memory_read_succeeds_iff_written _ 3 H1 H2)).
Defined.

(** ** Tiered backend *)

(** C1, scenario A.  Capacity 2, LRU, backing store of four vectors: the reads
    0,1,2,3 are four misses and leave {2,3} resident; the reads 0,1 are two
    more misses, the first evicting 2 and the second 3; eight further reads of
    0,1 are all hits with no further miss, so that in the end
    [cache_hits = 8] and the resident set is exactly {0,1}.  The timer
    readings are arbitrary. *)
Theorem scenarioA_lru_hits_and_residents (us : nat -> double) :
  let s1 := snd (ScenarioA.phase1 us) in
  let s2a := snd (ScenarioA.phase2a us) in
  let s2 := snd (ScenarioA.phase2 us) in
  let s3 := snd (ScenarioA.phase3 us) in
  fst (ScenarioA.phase1 us) = [true; true; true; true] /\
  TieredBackend.cache_misses s1 = 4 /\ TieredBackend.cache_hits s1 = 0 /\
  TieredBackend.resident s1 = {[2; 3]} /\
  fst (ScenarioA.phase2a us) = [true] /\ TieredBackend.resident s2a = {[0; 3]} /\
  fst (ScenarioA.phase2 us) = [true] /\ TieredBackend.resident s2 = {[0; 1]} /\
  TieredBackend.cache_misses s2 = 6 /\ TieredBackend.cache_hits s2 = 0 /\
  fst (ScenarioA.phase3 us) = [true; true; true; true; true; true; true; true] /\
  TieredBackend.cache_misses s3 = 6 /\ TieredBackend.cache_hits s3 = 8 /\
  TieredBackend.resident s3 = {[0; 1]}.
Proof.
  cbv zeta. repeat split; vm_compute; reflexivity.
Qed.

(** ** File backend and failed reads *)

Section FileBackendFacts.
Context {float : Type} {FS : Type} {fsys : FileBackend.FileSystem float FS}.
Context (fzero : float).
Local Abbreviation VectorData := (list float).

Lemma file_read_node_false_unchanged (fs : FS) (st : FileBackend.t) id (out : VectorData) :
  fst (fst (FileBackend.read_node fzero fs st id out)) = false ->
  snd (FileBackend.read_node fzero fs st id out) = st.
Proof.
  unfold FileBackend.read_node.
  destruct (FileBackend.dim_ st =? 0); [reflexivity|].
  destruct (FileBackend.fs_read _ _ _ _ _); simpl; intros E; congruence.
Qed.

Lemma file_read_node_env_failure (fs : FS) (st : FileBackend.t) id (out : VectorData) :
  (FileBackend.dim_ st = 0 \/
   forall buf,
     FileBackend.fs_read fs (FileBackend.path_ st) (FileBackend.slot_offset st id)
       (FileBackend.slot_bytes st) (resize (Z.to_nat (FileBackend.dim_ st)) fzero out)
     <> FileBackend.ReadDone buf) ->
  fst (fst (FileBackend.read_node fzero fs st id out)) = false.
Proof.
  unfold FileBackend.read_node. intros [Hd|Hf].
  - rewrite Hd. reflexivity.
  - destruct (FileBackend.dim_ st =? 0); [reflexivity|].
    destruct (FileBackend.fs_read _ _ _ _ _) eqn:E; simpl; try reflexivity.
    exfalso. eapply Hf. reflexivity.
Qed.

(** A write whose vector length differs from the (non-zero) dimension of
    the backend returns failure before any file operation: the backend, its
    statistics and the file system are as before. *)
Lemma file_write_node_mismatch (fs : FS) (st : FileBackend.t) id (data : VectorData) :
  FileBackend.dim_ st <> 0 ->
  Z.of_nat (length data) <> FileBackend.dim_ st ->
  FileBackend.write_node fs st id data = (false, st, fs).
Proof.
  intros Hd Hlen. unfold FileBackend.write_node.
  destruct (Z.eqb_spec (FileBackend.dim_ st) 0) as [E|_]; [contradiction|].
  destruct (Z.eqb_spec (Z.of_nat (length data)) (FileBackend.dim_ st)) as [E|_];
    [contradiction|reflexivity].
Qed.

(** A backend of dimension 0 takes the length of the vector it is given as
    its dimension, whatever the file operations then do. *)
Lemma file_write_node_adopts_dimension (fs : FS) (st : FileBackend.t) id (data : VectorData) :
  FileBackend.dim_ st = 0 ->
  FileBackend.dim_ (snd (fst (FileBackend.write_node fs st id data)))
  = Z.of_nat (length data).
Proof.
  intros Hd. unfold FileBackend.write_node. rewrite Hd. cbn [Z.eqb FileBackend.dim_].
  rewrite Z.eqb_refl. cbn [negb].
  destruct (FileBackend.fs_write _ _ _ _ _) as [[] fs']; reflexivity.
Qed.

End FileBackendFacts.

Section TieredBackendFacts.
Context {float : Type} {B : Type} {SB : StorageBackend float B}.
Local Abbreviation VectorData := (list float).
Local Abbreviation tiered := (TieredBackend.t float B).

(** What a failed tiered read may change: only the backing object. *)
Lemma tiered_read_node_false_frame (st : tiered) id (out : VectorData) us :
  fst (fst (TieredBackend.read_node st id out us)) = false ->
  let st' := snd (TieredBackend.read_node st id out us) in
  TieredBackend.stats_ st' = TieredBackend.stats_ st /\
  TieredBackend.cache_ st' = TieredBackend.cache_ st /\
  TieredBackend.policy_ st' = TieredBackend.policy_ st /\
  TieredBackend.cache_hits_ st' = TieredBackend.cache_hits_ st /\
  TieredBackend.cache_misses_ st' = TieredBackend.cache_misses_ st /\
  TieredBackend.ssd_sim_ st' = TieredBackend.ssd_sim_ st.
Proof.
  unfold TieredBackend.read_node.
  destruct (TieredBackend.cache_ st !! id); [simpl; discriminate|].
  destruct (TieredBackend.backing_ st) as [b|]; [|simpl; auto 10].
  destruct (sb_read_node b id out) as [[ok o] b'].
  destruct ok; simpl; [discriminate|auto 10].
Qed.

Lemma tiered_read_node_backing_absent (st : tiered) id (out : VectorData) us :
  TieredBackend.cache_ st !! id = None ->
  match TieredBackend.backing_ st with
  | None => True
  | Some b => fst (fst (sb_read_node b id out)) = false
  end ->
  fst (fst (TieredBackend.read_node st id out us)) = false.
Proof.
  unfold TieredBackend.read_node. intros -> Hb.
  destruct (TieredBackend.backing_ st) as [b|]; [|reflexivity].
  destruct (sb_read_node b id out) as [[ok o] b']. simpl in Hb. subst ok. reflexivity.
Qed.

End TieredBackendFacts.

(** C9.  A file-backend read that cannot be served (dimension 0, or the
    open, the seek or the read fails) returns [false] and leaves the backend,
    hence its [IOStats], unchanged; a tiered read that misses the cache and
    whose backing read returns absent (or that has no backing store) returns
    [false] and leaves [IOStats], the cache contents, the policy and the
    hit/miss counters unchanged.  In both backends every read that returns
    [false] has left these unchanged. *)
Theorem failed_read_reports_failure_and_keeps_stats
  {float FS B : Type} {fsys : FileBackend.FileSystem float FS}
  {SB : StorageBackend float B} (fzero : float)
  (fs : FS) (fb : FileBackend.t) (tst : TieredBackend.t float B)
  (id : Z) (out : list float) (us : double) :
  ((FileBackend.dim_ fb = 0 \/
    forall buf,
      FileBackend.fs_read fs (FileBackend.path_ fb) (FileBackend.slot_offset fb id)
        (FileBackend.slot_bytes fb) (resize (Z.to_nat (FileBackend.dim_ fb)) fzero out)
      <> FileBackend.ReadDone buf) ->
   fst (fst (FileBackend.read_node fzero fs fb id out)) = false) /\
  (fst (fst (FileBackend.read_node fzero fs fb id out)) = false ->
   snd (FileBackend.read_node fzero fs fb id out) = fb) /\
  (TieredBackend.cache_ tst !! id = None ->
   match TieredBackend.backing_ tst with
   | None => True
   | Some b => fst (fst (sb_read_node b id out)) = false
   end ->
   fst (fst (TieredBackend.read_node tst id out us)) = false) /\
  (fst (fst (TieredBackend.read_node tst id out us)) = false ->
   let st' := snd (TieredBackend.read_node tst id out us) in
   TieredBackend.get_stats st' = TieredBackend.get_stats tst /\
   TieredBackend.cache_ st' = TieredBackend.cache_ tst /\
   TieredBackend.policy_ st' = TieredBackend.policy_ tst /\
   TieredBackend.cache_hits st' = TieredBackend.cache_hits tst /\
   TieredBackend.cache_misses st' = TieredBackend.cache_misses tst /\
   TieredBackend.ssd_sim_ st' = TieredBackend.ssd_sim_ tst).
Proof.
  split; [apply file_read_node_env_failure|].
  split; [apply file_read_node_false_unchanged|].
  split; [apply tiered_read_node_backing_absent|].
  apply tiered_read_node_false_frame.
Qed.

(** C2 fails for the in-memory backend: the store of scenario A holds four
    vectors of dimension 4, yet a write of a vector of length 2 returns
    [true], and the vector is stored and read back. *)
Lemma memory_write_accepts_other_length :
  MemoryBackend.holds_dimension ScenarioA.backing 4 /\
  let v := [ScenarioA.float_of_Z 1; ScenarioA.float_of_Z 2] in
  let r := MemoryBackend.write_node ScenarioA.backing 1 v in
  fst r = true /\ fst (MemoryBackend.read_node (snd r) 1 []) = (true, v).
Proof.
  split.
  - intros i v Hp Hd.
    do 4 (destruct i as [|i]; [vm_compute in Hd; injection Hd as <-; reflexivity|]).
    vm_compute in Hd. destruct i; discriminate.
  - vm_compute. split; reflexivity.
Qed.

(** A missing file, and a tiered miss over an empty backing store. *)
Lemma failed_read_reports_failure_and_keeps_stats_witness :
  fst (fst (FileBackend.read_node (fsys := SlotFS.SlotFS_FileSystem 0) 0
              Examples.empty_fs Examples.file_backend 7 [])) = false /\
  snd (FileBackend.read_node (fsys := SlotFS.SlotFS_FileSystem 0) 0
         Examples.empty_fs Examples.file_backend 7 []) = Examples.file_backend /\
  fst (fst (TieredBackend.read_node Examples.tiered_over_empty 7 [] dzero)) = false /\
  TieredBackend.get_stats (snd (TieredBackend.read_node Examples.tiered_over_empty 7 [] dzero))
  = TieredBackend.get_stats Examples.tiered_over_empty.
Proof.
  destruct (failed_read_reports_failure_and_keeps_stats
              (fsys := SlotFS.SlotFS_FileSystem 0) 0
              Examples.empty_fs Examples.file_backend Examples.tiered_over_empty
              7 [] dzero) as (H1 & H2 & H3 & H4).
  assert (E1 : fst (fst (FileBackend.read_node (fsys := SlotFS.SlotFS_FileSystem 0) 0
              Examples.empty_fs Examples.file_backend 7 [])) = false).
  { apply H1. right. intros buf. vm_compute. discriminate. }
  assert (E3 : fst (fst (TieredBackend.read_node Examples.tiered_over_empty 7 [] dzero)) = false).
  { apply H3; vm_compute; reflexivity. }
  split; [exact E1|]. split; [exact (H2 E1)|]. split; [exact E3|].
  exact (proj1 (H4 E3)).
Defined.

(** ** SSD device model *)

Lemma ssd_parallel_max (c : SsdSimulator.SsdDeviceConfig) :
  SsdSimulator.parallel c
  = Z.max 1 (wrap64 (SsdSimulator.num_channels c * SsdSimulator.queue_depth_per_channel c)).
Proof.
  unfold SsdSimulator.parallel.
  pose proof (wrap64_range (SsdSimulator.num_channels c * SsdSimulator.queue_depth_per_channel c)).
  destruct (Z.eqb_spec (wrap64 (SsdSimulator.num_channels c * SsdSimulator.queue_depth_per_channel c)) 0) as [->|Hne];
    lia.
Qed.

Lemma ssd_bw_positive (c : SsdSimulator.SsdDeviceConfig) :
  dltb dzero (SsdSimulator.bw_bytes_per_us c) = true ->
  SsdSimulator.bw_bytes_per_us c = SsdSimulator.spec_bandwidth_bytes_per_us c.
Proof.
  unfold SsdSimulator.bw_bytes_per_us, SsdSimulator.spec_bandwidth_bytes_per_us.
  destruct (dltb dzero (SsdSimulator.internal_read_bandwidth_GBps c)); [reflexivity|].
  intros Hlt. discriminate Hlt.
Qed.

(** C6, as the code has it.  A recorded read of [bytes] bytes adds
    [(base + bytes / bandwidth_bytes_per_us) / max(1, channels * depth)] to
    the accumulator when the bandwidth in bytes per microsecond is positive,
    and [base / max(1, channels * depth)] otherwise (the transfer term is
    left out); [device_time_us()] of a tiered backend without a device model
    is zero. *)
Theorem ssd_record_read_adds_service_time
  {float B : Type} {SB : StorageBackend float B}
  (st : SsdSimulator.t) (bytes : Z) (tst : TieredBackend.t float B) :
  let c := SsdSimulator.config_ st in
  let par := Z.max 1 (wrap64 (SsdSimulator.num_channels c * SsdSimulator.queue_depth_per_channel c)) in
  (dltb dzero (SsdSimulator.bw_bytes_per_us c) = true ->
   SsdSimulator.total_time_us (SsdSimulator.record_read st bytes)
   = dadd (SsdSimulator.total_time_us st) (SsdSimulator.spec_read_increment c bytes)) /\
  (dltb dzero (SsdSimulator.bw_bytes_per_us c) = false ->
   SsdSimulator.total_time_us (SsdSimulator.record_read st bytes)
   = dadd (SsdSimulator.total_time_us st)
          (ddiv (SsdSimulator.base_read_latency_us c) (double_of_Z par))) /\
  (TieredBackend.ssd_sim_ tst = None -> TieredBackend.device_time_us tst = dzero).
Proof.
  cbv zeta. repeat split.
  - intros Hbw. unfold SsdSimulator.record_read, SsdSimulator.total_time_us; simpl.
    unfold SsdSimulator.read_time_us, SsdSimulator.spec_read_increment.
    rewrite Hbw, ssd_parallel_max, (ssd_bw_positive _ Hbw). reflexivity.
  - intros Hbw. unfold SsdSimulator.record_read, SsdSimulator.total_time_us; simpl.
    unfold SsdSimulator.read_time_us.
    rewrite Hbw, ssd_parallel_max. reflexivity.
  - intros Hnone. unfold TieredBackend.device_time_us. rewrite Hnone. reflexivity.
Qed.

(** At the L0 device (3 GB/s) a read of 16 bytes adds the full formula. *)
Lemma ssd_record_read_adds_service_time_witness :
  SsdSimulator.total_time_us
    (SsdSimulator.record_read (SsdSimulator.make Examples.device_L0) 16)
  = dadd dzero (SsdSimulator.spec_read_increment Examples.device_L0 16) /\
  TieredBackend.device_time_us Examples.tiered_over_empty = dzero.
Proof.
  destruct (ssd_record_read_adds_service_time
              (SsdSimulator.make Examples.device_L0) 16 Examples.tiered_over_empty)
    as (H1 & _ & H3).
  split; [apply H1; vm_compute; reflexivity|apply H3; reflexivity].
Defined.

(** C6 fails as stated when no bandwidth is configured: with the
    default-constructed device ([internal_read_bandwidth_GBps = 0.0], base
    latency 0) a read of 16 bytes adds nothing, whereas the formula of the
    claim divides by a zero bandwidth and yields an infinite increment. *)
Lemma ssd_record_read_zero_bandwidth :
  let st := SsdSimulator.make SsdSimulator.default_config in
  SsdSimulator.total_time_us (SsdSimulator.record_read st 16) = dzero /\
  dadd (SsdSimulator.total_time_us st)
       (SsdSimulator.spec_read_increment SsdSimulator.default_config 16)
  = S754_infinity false /\
  SsdSimulator.total_time_us (SsdSimulator.record_read st 16)
  <> dadd (SsdSimulator.total_time_us st)
          (SsdSimulator.spec_read_increment SsdSimulator.default_config 16).
Proof.
  vm_compute. repeat split; discriminate.
Qed.

(** ** ANN-in-SSD block model *)

Lemma ceil_div_add (n k : Z) : 0 < k -> (n + k - 1) / k = ceil_div n k.
Proof.
  intros Hk. unfold ceil_div.
  pose proof (Z.div_mod (- n) k ltac:(lia)) as H1.
  pose proof (Z.mod_pos_bound (- n) k Hk) as H2.
  symmetry. apply Z.div_unique with (r := k - 1 - (- n) mod k).
  - left. lia.
  - lia.
Qed.

Lemma ceil_div_bounds (n k : Z) :
  0 < k -> (ceil_div n k - 1) * k < n <= ceil_div n k * k.
Proof.
  intros Hk. unfold ceil_div.
  pose proof (Z.div_mod (- n) k ltac:(lia)) as H1.
  pose proof (Z.mod_pos_bound (- n) k Hk) as H2.
  nia.
Qed.

Lemma nth_block_indices {A} (f : Z -> A) (nb b : Z) (d : A) :
  0 <= b < nb ->
  nth (Z.to_nat b) (map f (AnnInSsd.block_indices nb)) d = f b.
Proof.
  intros Hb. unfold AnnInSsd.block_indices.
  rewrite nth_lookup, !list_lookup_fmap, lookup_seq_lt by lia.
  simpl. f_equal. lia.
Qed.

Lemma in_id_range (start end_ id : Z) :
  In id (AnnInSsd.id_range start end_) <-> start <= id < end_.
Proof.
  unfold AnnInSsd.id_range. rewrite in_map_iff. split.
  - intros (i & <- & Hi). apply in_seq in Hi. lia.
  - intros H. exists (Z.to_nat (id - start)). split; [lia|].
    apply in_seq. lia.
Qed.

Lemma NoDup_id_range (start end_ : Z) : List.NoDup (AnnInSsd.id_range start end_).
Proof.
  unfold AnnInSsd.id_range. apply NoDup_ListNoDup, NoDup_fmap_2.
  - intros i j Hij. lia.
  - apply NoDup_seq.
Qed.

Section AnnInSsdFacts.
Context (simd : VectorOps.isa) (cfg : AnnInSsd.AnnInSsdConfig) (ds : AnnInSsd.Dataset).
Local Abbreviation N := (AnnInSsd.effective_n cfg ds).
Local Abbreviation K := (AnnInSsd.effective_K cfg).

Lemma effective_K_pos : in_u64 (AnnInSsd.vectors_per_block cfg) -> 0 < K.
Proof.
  unfold AnnInSsd.effective_K, in_u64.
  destruct (Z.eqb_spec (AnnInSsd.vectors_per_block cfg) 0); lia.
Qed.

Lemma hash_home_build_assignment :
  N <> 0 -> AnnInSsd.effective_dim cfg ds <> 0 ->
  AnnInSsd.placement_mode cfg <> "locality_aware"%string ->
  AnnInSsd.block_assignment_
    (AnnInSsd.build_block_graph_if_needed simd cfg ds AnnInSsd.fresh_graph)
  = map (AnnInSsd.hash_home_block cfg N) (AnnInSsd.block_indices (AnnInSsd.num_blocks_of cfg N)).
Proof.
  intros Hn Hd Hp. unfold AnnInSsd.build_block_graph_if_needed.
  destruct (Z.eqb_spec N 0) as [|_]; [contradiction|].
  destruct (Z.eqb_spec (AnnInSsd.effective_dim cfg ds) 0) as [|_]; [contradiction|].
  simpl.
  destruct (String.eqb_spec (AnnInSsd.placement_mode cfg) "locality_aware") as [|_];
    [contradiction|].
  reflexivity.
Qed.

(** C7.  Under [hash_home] placement (any placement mode other than
    ["locality_aware"]), with [N] vectors of non-zero dimension and block
    size [K] such that [N + K] does not exceed the range of [size_t], the
    graph built by a fresh model has [ceil(N / K)] blocks; block [b] holds,
    without repetition, exactly the ids of [[b K, min((b+1) K, N))]; hence
    every id below [N] is in exactly one block. *)
Theorem hash_home_blocks_partition_ids :
  in_u64 (AnnInSsd.vectors_per_block cfg) ->
  in_u64 (AnnInSsd.num_vectors cfg) ->
  AnnInSsd.effective_dim cfg ds <> 0 ->
  AnnInSsd.placement_mode cfg <> "locality_aware"%string ->
  N + K <= two64 ->
  let g := AnnInSsd.build_block_graph_if_needed simd cfg ds AnnInSsd.fresh_graph in
  let num_blocks := ceil_div N K in
  Z.of_nat (length (AnnInSsd.block_assignment_ g)) = num_blocks /\
  (forall b, 0 <= b < num_blocks ->
     List.NoDup (AnnInSsd.block_ids g b) /\
     forall id, In id (AnnInSsd.block_ids g b) <-> b * K <= id < Z.min ((b + 1) * K) N) /\
  (forall id, 0 <= id < N ->
     exists b, 0 <= b < num_blocks /\
       forall b', 0 <= b' < num_blocks -> (In id (AnnInSsd.block_ids g b') <-> b' = b)).
Proof.
  intros HK HNV Hd Hp Hov g num_blocks.
  pose proof (effective_K_pos HK) as HKpos.
  pose proof (ceil_div_bounds N K HKpos) as Hcb. fold num_blocks in Hcb.
  assert (HN0 : 0 <= N).
  { unfold AnnInSsd.effective_n, AnnInSsd.dataset_size, in_u64 in *.
    destruct (_ && _); lia. }
  destruct (Z.eq_dec N 0) as [HNz|HNnz].
  { assert (Hz : num_blocks = 0) by nia.
    assert (Hg : g = AnnInSsd.fresh_graph).
    { unfold g, AnnInSsd.build_block_graph_if_needed. rewrite HNz. reflexivity. }
    rewrite Hg, Hz. split; [reflexivity|]. split; intros; lia. }
  assert (Hn : 0 < N) by lia.
  assert (Hnb : AnnInSsd.num_blocks_of cfg N = num_blocks).
  { unfold AnnInSsd.num_blocks_of. rewrite wrap64_small by lia.
    apply ceil_div_add, HKpos. }
  assert (Hnb0 : 0 < num_blocks) by nia.
  assert (Hasg : AnnInSsd.block_assignment_ g
                 = map (AnnInSsd.hash_home_block cfg N) (AnnInSsd.block_indices num_blocks)).
  { unfold g. rewrite hash_home_build_assignment by (auto; lia). rewrite Hnb. reflexivity. }
  assert (Hblock : forall b, 0 <= b < num_blocks ->
            AnnInSsd.block_ids g b = AnnInSsd.id_range (b * K) (Z.min ((b + 1) * K) N)).
  { intros b Hb. unfold AnnInSsd.block_ids. rewrite Hasg, nth_block_indices by exact Hb.
    unfold AnnInSsd.hash_home_block.
    assert (b * K < N) by nia.
    rewrite (wrap64_small (b * K)) by nia.
    rewrite wrap64_small by nia.
    f_equal. f_equal. lia. }
  split; [|split].
  - rewrite Hasg. unfold AnnInSsd.block_indices. rewrite !length_map, length_seq. lia.
  - intros b Hb. rewrite (Hblock b Hb). split; [apply NoDup_id_range|].
    intros id. apply in_id_range.
  - intros id Hid. exists (id / K).
    pose proof (Z.div_mod id K ltac:(lia)) as Hdm.
    pose proof (Z.mod_pos_bound id K HKpos) as Hmod.
    assert (Hq : 0 <= id / K < num_blocks).
    { split; [apply Z.div_pos; lia|]. apply Z.div_lt_upper_bound; [lia|]. nia. }
    split; [exact Hq|].
    intros b' Hb'. rewrite (Hblock b' Hb'), in_id_range. split.
    + intros Hin. apply Z.div_unique with (r := id - b' * K); lia.
    + intros ->. nia.
Qed.

End AnnInSsdFacts.

(** Five vectors in blocks of two: three blocks, [[0;1]], [[2;3]], [[4]]. *)
Lemma hash_home_blocks_partition_ids_witness :
  AnnInSsd.block_assignment_
    (AnnInSsd.build_block_graph_if_needed VectorOps.Scalar
       Examples.small_config Examples.small_dataset AnnInSsd.fresh_graph)
  = [[0; 1]; [2; 3]; [4]] /\
  Z.of_nat (length (AnnInSsd.block_assignment_
    (AnnInSsd.build_block_graph_if_needed VectorOps.Scalar
       Examples.small_config Examples.small_dataset AnnInSsd.fresh_graph)))
  = ceil_div 5 2.
Proof.
  split; [vm_compute; reflexivity|].
  refine (proj1 (hash_home_blocks_partition_ids VectorOps.Scalar
                   Examples.small_config Examples.small_dataset _ _ _ _ _)).
  - vm_compute. split; [discriminate|reflexivity].
  - vm_compute. split; [discriminate|reflexivity].
  - vm_compute. discriminate.
  - vm_compute. discriminate.
  - vm_compute. discriminate.
Defined.

(** C7 fails as stated in two corners.  For vectors of dimension 0 the build
    returns at its [dim == 0] guard: two vectors with [K = 1] give no block
    instead of two.  For [K = 2^64 - 1] the sum [n + K - 1] wraps to 3: five
    vectors give no block instead of one. *)
Lemma hash_home_no_blocks_built :
  AnnInSsd.effective_n Examples.zero_dim_config Examples.zero_dim_dataset = 2 /\
  AnnInSsd.effective_K Examples.zero_dim_config = 1 /\
  ceil_div 2 1 = 2 /\
  AnnInSsd.block_assignment_
    (AnnInSsd.build_block_graph_if_needed VectorOps.Scalar
       Examples.zero_dim_config Examples.zero_dim_dataset AnnInSsd.fresh_graph) = [] /\
  AnnInSsd.effective_n Examples.huge_block_config Examples.small_dataset = 5 /\
  AnnInSsd.effective_K Examples.huge_block_config = two64 - 1 /\
  ceil_div 5 (two64 - 1) = 1 /\
  AnnInSsd.block_assignment_
    (AnnInSsd.build_block_graph_if_needed VectorOps.Scalar
       Examples.huge_block_config Examples.small_dataset AnnInSsd.fresh_graph) = [].
Proof.
  repeat split; vm_compute; reflexivity.
Qed.

Lemma wrap64_add_l (a b : Z) : wrap64 (wrap64 a + b) = wrap64 (a + b).
Proof. unfold wrap64. apply Zplus_mod_idemp_l. Qed.

Lemma sum_over_snoc (f : Z -> Z) (l : list Z) (b : Z) :
  AnnInSsd.sum_over f (l ++ [b]) = AnnInSsd.sum_over f l + f b.
Proof.
  unfold AnnInSsd.sum_over. induction l as [|x l IH]; simpl; [lia|]. rewrite IH. lia.
Qed.

Section MicroIndexFacts.
Context (simd : VectorOps.isa) (cfg : AnnInSsd.AnnInSsdConfig) (ds : AnnInSsd.Dataset).
Local Abbreviation raw_cfg := (AnnInSsd.set_code_type cfg "raw").
Local Abbreviation micro_cfg := (AnnInSsd.set_code_type cfg "micro_index").

(** One visited block, in either accounting mode. *)
Lemma scan_block_modes (g : AnnInSsd.BlockGraph) (dim : Z) (q : AnnInSsd.Query)
  (st : AnnInSsd.ScanState) (b : Z) :
  let n_ids := Z.of_nat (length (AnnInSsd.block_ids g b)) in
  let pairs :=
    map (fun vid => (VectorOps.l2_distance_squared simd (AnnInSsd.values q)
                       (AnnInSsd.get_vector_data ds vid) dim, vid))
        (AnnInSsd.block_ids g b) in
  AnnInSsd.scan_block simd micro_cfg ds g dim q st b
  = AnnInSsd.mkScan (AnnInSsd.dist_id st ++ pairs)
      (wrap64 (AnnInSsd.scan_distances_computed st + Z.min 16 n_ids))
      (wrap64 (AnnInSsd.scan_internal_reads st + 1)) /\
  AnnInSsd.scan_block simd raw_cfg ds g dim q st b
  = AnnInSsd.mkScan (AnnInSsd.dist_id st ++ pairs)
      (wrap64 (AnnInSsd.scan_distances_computed st + n_ids))
      (wrap64 (AnnInSsd.scan_internal_reads st + 1)).
Proof.
  cbv zeta. unfold AnnInSsd.scan_block. simpl.
  rewrite (Z.min_comm 16). split; reflexivity.
Qed.

Lemma scan_blocks_modes (g : AnnInSsd.BlockGraph) (dim : Z) (q : AnnInSsd.Query)
  (order : list Z) : forall st,
  in_u64 (AnnInSsd.scan_distances_computed st) ->
  let micro := fold_left (AnnInSsd.scan_block simd micro_cfg ds g dim q) order st in
  let raw := fold_left (AnnInSsd.scan_block simd raw_cfg ds g dim q) order st in
  AnnInSsd.dist_id micro = AnnInSsd.dist_id raw /\
  AnnInSsd.scan_internal_reads micro = AnnInSsd.scan_internal_reads raw /\
  AnnInSsd.scan_distances_computed micro
  = wrap64 (AnnInSsd.scan_distances_computed st
            + AnnInSsd.sum_over
                (fun b => Z.min 16 (Z.of_nat (length (AnnInSsd.block_ids g b)))) order) /\
  AnnInSsd.scan_distances_computed raw
  = wrap64 (AnnInSsd.scan_distances_computed st
            + AnnInSsd.sum_over
                (fun b => Z.of_nat (length (AnnInSsd.block_ids g b))) order).
Proof.
  cbv zeta. induction order as [|b order IH] using rev_ind; intros st Hst.
  - simpl. rewrite Z.add_0_r, wrap64_small by exact Hst. auto.
  - rewrite !fold_left_app. cbn [fold_left].
    destruct (IH st Hst) as (H1 & H2 & H3 & H4).
    destruct (scan_block_modes g dim q
                (fold_left (AnnInSsd.scan_block simd micro_cfg ds g dim q) order st) b)
      as [-> _].
    destruct (scan_block_modes g dim q
                (fold_left (AnnInSsd.scan_block simd raw_cfg ds g dim q) order st) b)
      as [_ ->].
    simpl. rewrite H1, H2, H3, H4, !wrap64_add_l, !sum_over_snoc.
    repeat split; f_equal; lia.
Qed.

Lemma build_ignores_code_type (g : AnnInSsd.BlockGraph) (ct : string) :
  AnnInSsd.build_block_graph_if_needed simd (AnnInSsd.set_code_type cfg ct) ds g
  = AnnInSsd.build_block_graph_if_needed simd cfg ds g.
Proof. reflexivity. Qed.

Lemma visit_order_ignores_code_type (g : AnnInSsd.BlockGraph) (ct : string) dim n q :
  AnnInSsd.visit_order simd (AnnInSsd.set_code_type cfg ct) g dim n q
  = AnnInSsd.visit_order simd cfg g dim n q.
Proof. reflexivity. Qed.

(** The shape of [search_one] under a given code type: everything but the
    scan is computed from the configuration without its code type. *)
Lemma search_one_unfold (ct : string) (g : AnnInSsd.BlockGraph) (q : AnnInSsd.Query) :
  AnnInSsd.search_one simd (AnnInSsd.set_code_type cfg ct) ds g q
  = if (AnnInSsd.effective_n cfg ds =? 0) || (AnnInSsd.query_dim cfg q =? 0)
       || (AnnInSsd.k cfg =? 0)
    then (AnnInSsd.empty_result q, g)
    else
      let n := AnnInSsd.effective_n cfg ds in
      let dim := AnnInSsd.query_dim cfg q in
      let g' := AnnInSsd.build_block_graph_if_needed simd cfg ds g in
      let order := AnnInSsd.visited_blocks simd cfg ds g q in
      let steps := snd (AnnInSsd.visit_order simd cfg g' dim n q) in
      let scan := AnnInSsd.scan_blocks simd (AnnInSsd.set_code_type cfg ct) ds g' dim q order in
      let kk := Z.min (if n <? AnnInSsd.k cfg then n else AnnInSsd.k cfg)
                      (Z.of_nat (length (AnnInSsd.dist_id scan))) in
      if kk =? 0
      then (AnnInSsd.mkResult (AnnInSsd.query_id q) [] [] (Z.of_nat (length order)) steps
              (AnnInSsd.scan_internal_reads scan) (AnnInSsd.scan_distances_computed scan), g')
      else
        let top := VectorOps.sort_by fst
                     (take (Z.to_nat kk) (VectorOps.nth_element fst kk (AnnInSsd.dist_id scan))) in
        (AnnInSsd.mkResult (AnnInSsd.query_id q) (map snd top) (map fst top)
           (Z.of_nat (length order)) steps
           (AnnInSsd.scan_internal_reads scan) (AnnInSsd.scan_distances_computed scan), g').
Proof.
  unfold AnnInSsd.search_one, AnnInSsd.visited_blocks, AnnInSsd.query_dim.
  change (AnnInSsd.effective_n (AnnInSsd.set_code_type cfg ct) ds)
    with (AnnInSsd.effective_n cfg ds).
  change (AnnInSsd.dimension (AnnInSsd.set_code_type cfg ct)) with (AnnInSsd.dimension cfg).
  change (AnnInSsd.k (AnnInSsd.set_code_type cfg ct)) with (AnnInSsd.k cfg).
  rewrite build_ignores_code_type.
  destruct (AnnInSsd.effective_n cfg ds =? 0); [reflexivity|].
  destruct ((if AnnInSsd.dimension cfg =? 0 then _ else _) =? 0); [reflexivity|].
  destruct (AnnInSsd.k cfg =? 0); [reflexivity|].
  simpl. rewrite visit_order_ignores_code_type.
  destruct (AnnInSsd.visit_order simd cfg _ _ _ q) as [order steps]. reflexivity.
Qed.

(** C8.  For every query, in whatever state the model is: with
    [code_type = "micro_index"] each visited block adds [min(16, size)] to
    [distances_computed], with [code_type = "raw"] it adds its full size
    (additions on [size_t]); in both modes the distance to every vector of
    every visited block is computed and kept as a candidate, so the returned
    ids and scores, the visited blocks and the other counters are the same. *)
Theorem micro_index_only_changes_distance_counter
  (g : AnnInSsd.BlockGraph) (q : AnnInSsd.Query) :
  let micro := AnnInSsd.search_one simd micro_cfg ds g q in
  let raw := AnnInSsd.search_one simd raw_cfg ds g q in
  let g' := AnnInSsd.build_block_graph_if_needed simd cfg ds g in
  let visited := AnnInSsd.visited_blocks simd cfg ds g q in
  let size_of b := Z.of_nat (length (AnnInSsd.block_ids g' b)) in
  (forall st b,
     let dim := AnnInSsd.query_dim cfg q in
     let sm := AnnInSsd.scan_block simd micro_cfg ds g' dim q st b in
     let sr := AnnInSsd.scan_block simd raw_cfg ds g' dim q st b in
     AnnInSsd.scan_distances_computed sm
     = wrap64 (AnnInSsd.scan_distances_computed st + Z.min 16 (size_of b)) /\
     AnnInSsd.scan_distances_computed sr
     = wrap64 (AnnInSsd.scan_distances_computed st + size_of b) /\
     AnnInSsd.dist_id sm = AnnInSsd.dist_id st ++ AnnInSsd.block_distances simd cfg ds g' q b /\
     AnnInSsd.dist_id sr = AnnInSsd.dist_id st ++ AnnInSsd.block_distances simd cfg ds g' q b) /\
  AnnInSsd.distances_computed (fst micro)
  = wrap64 (AnnInSsd.sum_over (fun b => Z.min 16 (size_of b)) visited) /\
  AnnInSsd.distances_computed (fst raw) = wrap64 (AnnInSsd.sum_over size_of visited) /\
  AnnInSsd.blocks_visited (fst micro) = Z.of_nat (length visited) /\
  AnnInSsd.blocks_visited (fst raw) = Z.of_nat (length visited) /\
  AnnInSsd.found_neighbors (fst micro) = AnnInSsd.found_neighbors (fst raw) /\
  AnnInSsd.found_scores (fst micro) = AnnInSsd.found_scores (fst raw) /\
  AnnInSsd.portal_steps (fst micro) = AnnInSsd.portal_steps (fst raw) /\
  AnnInSsd.internal_reads (fst micro) = AnnInSsd.internal_reads (fst raw) /\
  snd micro = snd raw.
Proof.
  cbv zeta. split.
  { intros st b.
    destruct (scan_block_modes (AnnInSsd.build_block_graph_if_needed simd cfg ds g)
                (AnnInSsd.query_dim cfg q) q st b) as [-> ->].
    simpl. auto. }
  rewrite !search_one_unfold. unfold AnnInSsd.visited_blocks.
  destruct ((AnnInSsd.effective_n cfg ds =? 0) || (AnnInSsd.query_dim cfg q =? 0)
            || (AnnInSsd.k cfg =? 0)) eqn:Eguard.
  { simpl. repeat split; reflexivity. }
  cbv zeta. unfold AnnInSsd.visited_blocks. rewrite ?Eguard.
  set (g' := AnnInSsd.build_block_graph_if_needed simd cfg ds g).
  set (order := fst (AnnInSsd.visit_order simd cfg g' _ _ q)).
  unfold AnnInSsd.scan_blocks.
  destruct (scan_blocks_modes g' (AnnInSsd.query_dim cfg q) q order (AnnInSsd.mkScan [] 0 0))
    as (H1 & H2 & H3 & H4).
  { simpl. unfold in_u64, two64. lia. }
  simpl in H3, H4. rewrite H1.
  destruct (Z.min _ _ =? 0); simpl; rewrite ?H1, ?H2, ?H3, ?H4; repeat split; reflexivity.
Qed.

End MicroIndexFacts.

(** Forty vectors in two blocks of 20, both visited: 40 distances charged in
    raw mode, 32 with the micro index, and the same three neighbours (6 and
    8 are equally far from the query, so their order is the sort's choice). *)
Example micro_index_on_two_blocks :
  let micro := fst (AnnInSsd.search_one VectorOps.Scalar
                      (AnnInSsd.set_code_type Examples.wide_config "micro_index")
                      Examples.wide_dataset AnnInSsd.fresh_graph Examples.wide_query) in
  let raw := fst (AnnInSsd.search_one VectorOps.Scalar
                    (AnnInSsd.set_code_type Examples.wide_config "raw")
                    Examples.wide_dataset AnnInSsd.fresh_graph Examples.wide_query) in
  AnnInSsd.blocks_visited raw = 2 /\
  AnnInSsd.distances_computed raw = 40 /\
  AnnInSsd.distances_computed micro = 32 /\
  AnnInSsd.found_neighbors raw ≡ₚ [6; 7; 8] /\
  AnnInSsd.found_neighbors micro = AnnInSsd.found_neighbors raw.
Proof.
  vm_compute. repeat split; try reflexivity. apply perm_swap.
Qed.

(** ** Distance kernel *)

Section DistanceFacts.
Import VectorOps.

Lemma fmul_comm (x y : float) : fmul x y = fmul y x.
Proof.
  unfold fmul, SFmul.
  destruct x as [sx|sx| |sx mx ex], y as [sy|sy| |sy my ey];
    rewrite ?(xorb_comm sx sy), ?(Pos.mul_comm mx my), ?(Z.add_comm ex ey); reflexivity.
Qed.

Lemma binary_round_abs (s s' : bool) (m : positive) (e : Z) :
  SFabs (binary_round 24 128 s m e) = SFabs (binary_round 24 128 s' m e).
Proof.
  unfold binary_round, binary_round_aux.
  destruct (shl_align m e _) as [mz ez].
  destruct (shr_fexp 24 128 (Z.pos mz) ez loc_Exact) as [mrs' e'].
  destruct (shr_fexp 24 128 _ e' loc_Exact) as [mrs'' e''].
  destruct (shr_m mrs''); [reflexivity| |reflexivity].
  destruct (e'' <=? 128 - 24); reflexivity.
Qed.

Lemma binary_normalize_opp_abs (m e : Z) :
  SFabs (binary_normalize 24 128 (- m) e false) = SFabs (binary_normalize 24 128 m e false).
Proof.
  destruct m as [|p|p]; simpl; [reflexivity| |]; apply binary_round_abs.
Qed.

(** [a - b] and [b - a] differ at most in sign. *)
Lemma fsub_swap_abs (x y : float) : SFabs (fsub x y) = SFabs (fsub y x).
Proof.
  unfold fsub, SFsub.
  destruct x as [sx|sx| |sx mx ex], y as [sy|sy| |sy my ey];
    try reflexivity; try (destruct sx, sy; reflexivity).
  rewrite (Z.min_comm ey ex).
  rewrite <- binary_normalize_opp_abs. f_equal. f_equal. lia.
Qed.

(** A square depends only on the magnitude. *)
Lemma fmul_self_abs (d d' : float) : SFabs d = SFabs d' -> fmul d d = fmul d' d'.
Proof.
  unfold fmul, SFmul.
  destruct d as [s|s| |s m e], d' as [s'|s'| |s' m' e']; simpl; intros H;
    try discriminate; try reflexivity; rewrite ?xorb_nilpotent; try reflexivity.
  injection H as -> ->. reflexivity.
Qed.

Lemma ffma_self_abs (d d' z : float) : SFabs d = SFabs d' -> ffma d d z = ffma d' d' z.
Proof.
  intros H. pose proof (fmul_self_abs d d' H) as Hmul.
  unfold ffma.
  destruct d as [s|s| |s m e], d' as [s'|s'| |s' m' e']; simpl in H;
    try discriminate; try reflexivity; rewrite ?xorb_nilpotent; try reflexivity.
  injection H as -> ->.
  destruct z as [sz|sz| |sz mz ez]; try reflexivity.
  exact Hmul.
Qed.

Lemma sq_diff_swap (x y : float) :
  fmul (fsub x y) (fsub x y) = fmul (fsub y x) (fsub y x).
Proof. apply fmul_self_abs, fsub_swap_abs. Qed.

Lemma l2_scalar_loop_sym (a b : list float) (count : nat) : forall from dist,
  l2_scalar_loop a b from count dist = l2_scalar_loop b a from count dist.
Proof.
  induction count as [|c IH]; intros from dist; simpl; [reflexivity|].
  rewrite sq_diff_swap. apply IH.
Qed.

Lemma l2_lane_step_sym (fused : bool) (a b : list float) (i : nat) (acc : list float) :
  l2_lane_step fused a b i acc = l2_lane_step fused b a i acc.
Proof.
  unfold l2_lane_step. apply imap_ext. intros j accj _. simpl.
  destruct fused.
  - apply ffma_self_abs, fsub_swap_abs.
  - f_equal. apply sq_diff_swap.
Qed.

Lemma l2_vector_loop_sym (fused : bool) (a b : list float) (blocks : nat) : forall i acc,
  l2_vector_loop fused a b i blocks acc = l2_vector_loop fused b a i blocks acc.
Proof.
  induction blocks as [|n IH]; intros i acc; simpl; [reflexivity|].
  rewrite l2_lane_step_sym. apply IH.
Qed.

Lemma l2_distance_squared_sym (v : isa) (a b : list float) (dim : Z) :
  l2_distance_squared v a b dim = l2_distance_squared v b a dim.
Proof.
  unfold l2_distance_squared. destruct v.
  - apply l2_scalar_loop_sym.
  - rewrite l2_vector_loop_sym. apply l2_scalar_loop_sym.
  - rewrite l2_vector_loop_sym. apply l2_scalar_loop_sym.
Qed.

Lemma inner_product_loop_sym (a b : list float) (count : nat) : forall from result,
  inner_product_loop a b from count result = inner_product_loop b a from count result.
Proof.
  induction count as [|c IH]; intros from result; simpl; [reflexivity|].
  rewrite fmul_comm. apply IH.
Qed.

(** The C++ comparison [x == x] holds for every value but NaN. *)
Lemma feqb_refl (x : float) : x <> S754_nan -> feqb x x = true.
Proof.
  unfold feqb, SFeqb, SFcompare. destruct x as [s|s| |s m e]; intros H;
    [reflexivity|destruct s; reflexivity|contradiction|].
  destruct s; rewrite Z.compare_refl, Pos.compare_cont_refl; reflexivity.
Qed.

(** [x == y] is false as soon as [x] is NaN. *)
Lemma feqb_nan (y : float) : feqb S754_nan y = false.
Proof. reflexivity. Qed.

Lemma feqb_self (x : float) : feqb x x = true <-> x <> S754_nan.
Proof.
  split; [|apply feqb_refl].
  intros H ->. rewrite feqb_nan in H. discriminate.
Qed.

(** C5, as the code has it.  For every two buffers and every dimension, in
    each of the three ways the kernel can be compiled (scalar, AVX2, AVX2
    with FMA), the L2 squared distance and the negative inner product return
    the same binary32 value for [(a, b)] and for [(b, a)], or NaN for both;
    the C++ comparison [==] of the two results is true exactly when that
    result is not NaN. *)
Theorem distance_symmetric_l2_and_inner_product (v : isa) (a b : list float) (dim : Z) :
  (compute_distance v a b dim L2 = compute_distance v b a dim L2 /\
   compute_distance v a b dim InnerProduct = compute_distance v b a dim InnerProduct) /\
  ((feqb (compute_distance v a b dim L2) (compute_distance v b a dim L2) = true <->
    compute_distance v a b dim L2 <> S754_nan) /\
   (feqb (compute_distance v a b dim InnerProduct)
         (compute_distance v b a dim InnerProduct) = true <->
    compute_distance v a b dim InnerProduct <> S754_nan)).
Proof.
  assert (H : compute_distance v a b dim L2 = compute_distance v b a dim L2 /\
              compute_distance v a b dim InnerProduct = compute_distance v b a dim InnerProduct).
  { split.
    - apply l2_distance_squared_sym.
    - unfold compute_distance, inner_product. f_equal. apply inner_product_loop_sym. }
  split; [exact H|].
  destruct H as [H1 H2]. rewrite <- H1, <- H2. split; apply feqb_self.
Qed.

(** C5 fails as stated.  The vectors [(max, max)] and [(max, -max)], with
    [max] the largest finite binary32 number [(2^24 - 1) * 2^104], have
    finite components, yet their inner product is [+inf + -inf]: the
    negative inner product is NaN in both orders and in every compilation
    mode, and [==] of the two results is false. *)
Lemma inner_product_of_finite_vectors_not_equal :
  let a := [float_max; float_max] in
  let b := [float_max; fneg float_max] in
  float_max = S754_finite false 16777215 104 /\
  map (fun v => compute_distance v a b 2 InnerProduct) [Scalar; Avx2; Avx2Fma]
  = [S754_nan; S754_nan; S754_nan] /\
  map (fun v => compute_distance v b a 2 InnerProduct) [Scalar; Avx2; Avx2Fma]
  = [S754_nan; S754_nan; S754_nan] /\
  map (fun v => feqb (compute_distance v a b 2 InnerProduct)
                     (compute_distance v b a 2 InnerProduct)) [Scalar; Avx2; Avx2Fma]
  = [false; false; false].
Proof.
  vm_compute. repeat split; reflexivity.
Qed.

(** Scenario values: the points [(1, 0)] and [(4, 0)] are at squared
    distance 9 in both orders, in every compilation mode. *)
Example distance_on_line_points :
  let p1 := [float_of_Z 1; float_of_Z 0] in
  let p4 := [float_of_Z 4; float_of_Z 0] in
  map (fun v => compute_distance v p1 p4 2 L2) [Scalar; Avx2; Avx2Fma]
  = [float_of_Z 9; float_of_Z 9; float_of_Z 9] /\
  map (fun v => compute_distance v p4 p1 2 L2) [Scalar; Avx2; Avx2Fma]
  = [float_of_Z 9; float_of_Z 9; float_of_Z 9] /\
  compute_distance Scalar p1 p4 2 InnerProduct = fneg (float_of_Z 4).
Proof.
  vm_compute. repeat split; reflexivity.
Qed.

End DistanceFacts.

(** ** HNSW index *)

Section QueueFacts.
Context {A : Type} (less : A -> A -> bool).

Lemma pq_extract_perm (q : list A) x r :
  HNSW.pq_extract less q = Some (x, r) -> q ≡ₚ x :: r.
Proof.
  revert x r. induction q as [|y q IH]; intros x r; simpl; [discriminate|].
  destruct (HNSW.pq_extract less q) as [[z r']|] eqn:E.
  - specialize (IH z r' eq_refl).
    destruct (less y z); intros H; injection H as <- <-.
    + rewrite IH. apply perm_swap.
    + reflexivity.
  - destruct q; [|simpl in E; destruct (HNSW.pq_extract less q) as [[? ?]|];
                   try destruct (less _ _); discriminate].
    intros H; injection H as <- <-. reflexivity.
Qed.

Lemma pq_extract_none (q : list A) : HNSW.pq_extract less q = None -> q = [].
Proof.
  destruct q as [|y q]; [reflexivity|]. simpl.
  destruct (HNSW.pq_extract less q) as [[z r']|]; [destruct (less y z)|]; discriminate.
Qed.

Lemma pq_extract_length (q : list A) x r :
  HNSW.pq_extract less q = Some (x, r) -> length q = S (length r).
Proof. intros H. apply pq_extract_perm in H. rewrite H. reflexivity. Qed.

End QueueFacts.

Section SortFacts.
Context {A : Type} (key : A -> VectorOps.float).

Lemma insert_sorted_perm (x : A) (l : list A) : VectorOps.insert_sorted key x l ≡ₚ x :: l.
Proof.
  induction l as [|y l IH]; simpl; [reflexivity|].
  destruct (VectorOps.fltb (key y) (key x)); [|reflexivity].
  rewrite IH. apply perm_swap.
Qed.

Lemma sort_by_perm (l : list A) : VectorOps.sort_by key l ≡ₚ l.
Proof.
  unfold VectorOps.sort_by. induction l as [|x l IH]; simpl; [reflexivity|].
  rewrite insert_sorted_perm, IH. reflexivity.
Qed.

Lemma sort_by_length (l : list A) : length (VectorOps.sort_by key l) = length l.
Proof. apply Permutation_length, sort_by_perm. Qed.

Lemma nth_element_perm (k : Z) (l : list A) : VectorOps.nth_element key k l ≡ₚ l.
Proof.
  unfold VectorOps.nth_element. destruct (k =? _); [reflexivity|apply sort_by_perm].
Qed.

Lemma nth_element_length (k : Z) (l : list A) :
  length (VectorOps.nth_element key k l) = length l.
Proof. apply Permutation_length, nth_element_perm. Qed.

End SortFacts.

Section SelectFacts.
Context (simd : VectorOps.isa) (idx : HNSW.t).

Lemma heuristic_pass_length (max_keep : Z) (sorted : list (Z * VectorOps.float)) :
  forall result,
    Z.of_nat (length result) < max_keep ->
    Z.of_nat (length (HNSW.heuristic_pass simd idx max_keep sorted result)) <= max_keep.
Proof.
  induction sorted as [|[cid d] rest IH]; intros result Hlen; simpl; [lia|].
  destruct (forallb _ result); [|apply IH, Hlen].
  destruct (Z.leb_spec max_keep (Z.of_nat (length (result ++ [cid])))) as [Hge|Hlt].
  - rewrite length_app in *. simpl in *. lia.
  - apply IH, Hlt.
Qed.

Lemma heuristic_pass_elems (P : Z -> Prop) (max_keep : Z) (sorted : list (Z * VectorOps.float)) :
  Forall P (map fst sorted) ->
  forall result, Forall P result ->
    Forall P (HNSW.heuristic_pass simd idx max_keep sorted result).
Proof.
  induction sorted as [|[cid d] rest IH]; intros Hs result Hr; simpl; [exact Hr|].
  simpl in Hs. apply Forall_cons in Hs as [Hc Hs].
  destruct (forallb _ result); [|apply IH; assumption].
  assert (Hr' : Forall P (result ++ [cid])) by (apply Forall_app; auto).
  destruct (max_keep <=? _); [exact Hr'|apply IH; assumption].
Qed.

Lemma fill_pass_length (max_keep : Z) (sorted : list (Z * VectorOps.float)) :
  forall result,
    Z.of_nat (length result) <= max_keep ->
    Z.of_nat (length (HNSW.fill_pass max_keep sorted result)) <= max_keep.
Proof.
  induction sorted as [|[cid d] rest IH]; intros result Hlen; simpl; [exact Hlen|].
  destruct (Z.leb_spec max_keep (Z.of_nat (length result))) as [Hge|Hlt]; [exact Hlen|].
  destruct (existsb _ result); apply IH; [exact Hlen|].
  rewrite length_app. simpl. lia.
Qed.

Lemma fill_pass_elems (P : Z -> Prop) (max_keep : Z) (sorted : list (Z * VectorOps.float)) :
  Forall P (map fst sorted) ->
  forall result, Forall P result -> Forall P (HNSW.fill_pass max_keep sorted result).
Proof.
  induction sorted as [|[cid d] rest IH]; intros Hs result Hr; simpl; [exact Hr|].
  simpl in Hs. apply Forall_cons in Hs as [Hc Hs].
  destruct (max_keep <=? _); [exact Hr|].
  destruct (existsb _ result); apply IH; auto.
  apply Forall_app; auto.
Qed.

(** The selector keeps at most [M] of the candidate ids. *)
Lemma select_neighbors_length (candidates : list (Z * VectorOps.float)) (M : Z) :
  0 <= M ->
  Z.of_nat (length (HNSW.select_neighbors_heuristic simd idx candidates M)) <= M.
Proof.
  intros HM. unfold HNSW.select_neighbors_heuristic.
  destruct candidates as [|c cs]; [simpl; lia|].
  destruct (Z.eqb_spec M 0) as [->|HM0]; [simpl; lia|].
  set (sorted := VectorOps.sort_by snd (c :: cs)).
  set (max_keep := Z.min M (Z.of_nat (length sorted))).
  assert (Hmk : 0 < max_keep <= M).
  { unfold max_keep, sorted. rewrite sort_by_length. simpl. lia. }
  assert (H1 : Z.of_nat (length (HNSW.heuristic_pass simd idx max_keep sorted [])) <= max_keep).
  { apply heuristic_pass_length. simpl. lia. }
  destruct (_ <? max_keep).
  - pose proof (fill_pass_length max_keep sorted _ H1). lia.
  - lia.
Qed.

Lemma select_neighbors_elems (P : Z -> Prop) (candidates : list (Z * VectorOps.float)) (M : Z) :
  Forall P (map fst candidates) ->
  Forall P (HNSW.select_neighbors_heuristic simd idx candidates M).
Proof.
  intros Hc. unfold HNSW.select_neighbors_heuristic.
  destruct candidates as [|c cs]; [constructor|].
  destruct (M =? 0); [constructor|].
  assert (Hs : Forall P (map fst (VectorOps.sort_by snd (c :: cs)))).
  { rewrite (sort_by_perm snd (c :: cs)). exact Hc. }
  assert (H1 := heuristic_pass_elems P (Z.min M (Z.of_nat (length (VectorOps.sort_by snd (c :: cs)))))
                  _ Hs [] (Forall_nil_2 P)).
  destruct (_ <? _); [apply fill_pass_elems; assumption|exact H1].
Qed.

End SelectFacts.

Lemma count_unvisited_insert (epoch : Z) (visited : list Z) (i : nat) (x : Z) :
  visited !! i = Some x -> x <> epoch ->
  (HNSW.count_unvisited epoch (<[i := epoch]> visited) + 1
   = HNSW.count_unvisited epoch visited)%nat.
Proof.
  unfold HNSW.count_unvisited.
  revert i. induction visited as [|y l IH]; intros i Hi Hx; [discriminate|].
  destruct i as [|i]; simpl in *.
  - injection Hi as ->. rewrite filter_cons_False by tauto.
    rewrite filter_cons_True by exact Hx. simpl. lia.
  - specialize (IH i Hi Hx).
    destruct (decide (y <> epoch)).
    + rewrite !filter_cons_True by assumption. simpl. lia.
    + rewrite !filter_cons_False by assumption. exact IH.
Qed.

Section SearchFacts.
Context (simd : VectorOps.isa) (idx : HNSW.t) (query : list VectorOps.float).
Context (ef layer epoch : Z).
(** [b] bounds the ids the search may meet: those of the adjacency lists of
    the searched layer. *)
Context (b : Z) (len : nat).
Hypothesis Hb : (Z.to_nat b <= len)%nat.
Hypothesis Hgraph : forall j, Forall (fun x => 0 <= x < b) (HNSW.adj idx j (Z.to_nat layer)).

Local Abbreviation search_inv := (HNSW.search_inv b len).

Lemma layer_list_adj (v : Z) :
  nth (Z.to_nat layer) (HNSW.neighbors (HNSW.node_at idx v)) []
  = HNSW.adj idx (Z.to_nat v) (Z.to_nat layer).
Proof.
  unfold HNSW.node_at, HNSW.adj, HNSW.layer_of. rewrite !nth_lookup.
  destruct (HNSW.nodes_ idx !! Z.to_nat v) as [node|]; simpl; [reflexivity|].
  destruct (Z.to_nat layer); reflexivity.
Qed.

Lemma visit_neighbor_inv (st : HNSW.SearchState) (nb : Z) :
  0 <= nb < b -> search_inv st ->
  let st' := HNSW.visit_neighbor simd idx query ef epoch st nb in
  search_inv st' /\
  (HNSW.count_unvisited epoch (HNSW.visited st') + length (HNSW.candidate_queue st')
   <= HNSW.count_unvisited epoch (HNSW.visited st) + length (HNSW.candidate_queue st))%nat.
Proof.
  intros Hnb (HQ & HW & Hlen). cbv zeta. unfold HNSW.visit_neighbor.
  destruct (HNSW.is_visited (HNSW.visited st) epoch nb) eqn:Evis.
  { split; [repeat split; assumption|lia]. }
  assert (Hcount : (HNSW.count_unvisited epoch
                      (HNSW.mark_visited (HNSW.visited st) epoch nb) + 1
                    = HNSW.count_unvisited epoch (HNSW.visited st))%nat).
  { unfold HNSW.is_visited in Evis. rewrite nth_lookup in Evis.
    destruct (HNSW.visited st !! Z.to_nat nb) as [x|] eqn:Ex.
    - apply count_unvisited_insert with (x := x); [exact Ex|].
      simpl in Evis. apply Z.eqb_neq in Evis. exact Evis.
    - apply lookup_ge_None in Ex. lia. }
  assert (Hlen' : length (HNSW.mark_visited (HNSW.visited st) epoch nb) = len).
  { unfold HNSW.mark_visited. rewrite length_insert. exact Hlen. }
  destruct (_ || _); simpl.
  - split; [|unfold HNSW.pq_push; rewrite length_app; simpl; lia].
    repeat split.
    + unfold HNSW.pq_push. apply Forall_app. split; [exact HQ|]. repeat constructor; simpl; lia.
    + assert (HW' : Forall (fun p : VectorOps.float * Z => 0 <= snd p < b)
                      (HNSW.pq_push (HNSW.distance simd idx query (HNSW.vector_at idx nb), nb)
                                    (HNSW.top_candidates st))).
      { unfold HNSW.pq_push. apply Forall_app. split; [exact HW|].
        repeat constructor; simpl; lia. }
      destruct (ef <? _); [|exact HW'].
      destruct (HNSW.pq_extract HNSW.pair_less _) as [[t rest]|] eqn:E; [|exact HW'].
      apply pq_extract_perm in E. rewrite E in HW'.
      apply Forall_cons in HW' as [_ HW']. exact HW'.
    + exact Hlen'.
  - split; [repeat split; assumption|lia].
Qed.

Lemma visit_neighbors_inv (nbrs : list Z) :
  Forall (fun x => 0 <= x < b) nbrs ->
  forall st, search_inv st ->
  let st' := fold_left (HNSW.visit_neighbor simd idx query ef epoch) nbrs st in
  search_inv st' /\
  (HNSW.count_unvisited epoch (HNSW.visited st') + length (HNSW.candidate_queue st')
   <= HNSW.count_unvisited epoch (HNSW.visited st) + length (HNSW.candidate_queue st))%nat.
Proof.
  induction nbrs as [|nb nbrs IH]; intros Hn st Hst; cbv zeta; simpl.
  - split; [exact Hst|lia].
  - apply Forall_cons in Hn as [Hnb Hn].
    destruct (visit_neighbor_inv st nb Hnb Hst) as [Hst1 Hm1].
    destruct (IH Hn _ Hst1) as [Hst2 Hm2].
    split; [exact Hst2|lia].
Qed.

(** Enough fuel: the loop ends by itself, and keeps the invariant. *)
Lemma search_loop_total (fuel : nat) : forall st,
  search_inv st ->
  (HNSW.count_unvisited epoch (HNSW.visited st) + length (HNSW.candidate_queue st) < fuel)%nat ->
  exists st', HNSW.search_loop simd idx query ef layer epoch fuel st = Some st' /\
              search_inv st'.
Proof.
  induction fuel as [|fuel IH]; intros st Hst Hm; [lia|]. simpl.
  destruct (HNSW.pq_extract HNSW.dist_id_min (HNSW.candidate_queue st)) as [[curr queue']|] eqn:E;
    [|eauto].
  destruct (VectorOps.fltb _ _); [eauto|].
  pose proof (pq_extract_perm _ _ _ _ E) as Hperm.
  pose proof (pq_extract_length _ _ _ _ E) as HlenQ.
  destruct Hst as (HQ & HW & Hlen).
  rewrite Hperm in HQ. apply Forall_cons in HQ as [Hcurr HQ'].
  assert (Hst1 : search_inv (HNSW.mkSearch queue' (HNSW.top_candidates st) (HNSW.visited st))).
  { repeat split; assumption. }
  destruct (_ <=? layer).
  - apply IH; [exact Hst1|simpl; lia].
  - rewrite layer_list_adj.
    destruct (visit_neighbors_inv _ (Hgraph (Z.to_nat (snd curr))) _ Hst1) as [Hst2 Hm2].
    apply IH; [exact Hst2|]. simpl in Hm2. lia.
Qed.

Lemma pq_drain_elems (P : Z -> Prop) (n : nat) : forall q : list (VectorOps.float * Z),
  Forall (fun p => P (snd p)) q ->
  Forall (fun r : Z * VectorOps.float => P (fst r)) (HNSW.pq_drain n q).
Proof.
  induction n as [|n IH]; intros q Hq; simpl; [constructor|].
  destruct (HNSW.pq_extract HNSW.pair_less q) as [[di q']|] eqn:E; [|constructor].
  apply pq_extract_perm in E. rewrite E in Hq. apply Forall_cons in Hq as [Hd Hq'].
  constructor; [exact Hd|apply IH, Hq'].
Qed.

End SearchFacts.

Section AdjacencyFacts.

Lemma layer_of_ensure_layers (n : Z) (node : HNSW.Node) (l : nat) :
  HNSW.layer_of (HNSW.ensure_layers n node) l = HNSW.layer_of node l.
Proof.
  unfold HNSW.ensure_layers, HNSW.layer_of.
  destruct (Z.ltb_spec (Z.of_nat (length (HNSW.neighbors node))) n) as [Hlt|]; [|reflexivity].
  simpl.
  destruct (decide (l < length (HNSW.neighbors node))%nat) as [Hl|Hl].
  - rewrite lookup_resize by lia. reflexivity.
  - rewrite (lookup_ge_None_2 (HNSW.neighbors node)) by lia.
    destruct (decide (l < Z.to_nat n)%nat).
    + rewrite lookup_resize_new by lia. reflexivity.
    + rewrite lookup_resize_old by lia. reflexivity.
Qed.

Lemma layer_of_update_layer (l : Z) (f : list Z -> list Z) (node : HNSW.Node) (l' : nat) :
  HNSW.layer_of (HNSW.update_layer l f node) l'
  = if decide (l' = Z.to_nat l)
    then match HNSW.neighbors node !! l' with Some x => f x | None => [] end
    else HNSW.layer_of node l'.
Proof.
  unfold HNSW.update_layer, HNSW.layer_of. simpl.
  destruct (decide (l' = Z.to_nat l)) as [->|Hne].
  - rewrite list_lookup_alter_eq. destruct (_ !! _); reflexivity.
  - rewrite list_lookup_alter_ne by congruence. reflexivity.
Qed.

Lemma adj_update_node (idx : HNSW.t) (id : Z) (f : HNSW.Node -> HNSW.Node) (j l : nat) :
  HNSW.adj (HNSW.set_nodes idx (HNSW.update_node (HNSW.nodes_ idx) id f)) j l
  = if decide (j = Z.to_nat id)
    then match HNSW.nodes_ idx !! j with
         | Some node => HNSW.layer_of (f node) l
         | None => []
         end
    else HNSW.adj idx j l.
Proof.
  unfold HNSW.adj, HNSW.update_node. simpl.
  destruct (decide (j = Z.to_nat id)) as [->|Hne].
  - rewrite list_lookup_alter_eq. destruct (_ !! _); reflexivity.
  - rewrite list_lookup_alter_ne by congruence. reflexivity.
Qed.

Lemma neighbors_at_adj (idx : HNSW.t) (n l : Z) :
  HNSW.neighbors_at idx n l = HNSW.adj idx (Z.to_nat n) (Z.to_nat l).
Proof.
  unfold HNSW.neighbors_at, HNSW.node_at, HNSW.adj, HNSW.layer_of. rewrite !nth_lookup.
  destruct (HNSW.nodes_ idx !! Z.to_nat n); simpl; [reflexivity|].
  destruct (Z.to_nat l); reflexivity.
Qed.

End AdjacencyFacts.

Lemma count_unvisited_marked (epoch : Z) (visited : list Z) (i : nat) :
  (i < length visited)%nat ->
  (HNSW.count_unvisited epoch (<[i := epoch]> visited) < length visited)%nat.
Proof.
  unfold HNSW.count_unvisited.
  revert i. induction visited as [|y l IH]; intros i Hi; simpl in *; [lia|].
  destruct i as [|i]; simpl.
  - rewrite filter_cons_False by tauto.
    pose proof (length_filter (fun x => x <> epoch) l). lia.
  - specialize (IH i ltac:(lia)).
    destruct (decide (y <> epoch)).
    + rewrite filter_cons_True by assumption. simpl. lia.
    + rewrite filter_cons_False by assumption. lia.
Qed.

Lemma next_epoch_length (idx : HNSW.t) :
  (length (HNSW.vectors_ idx) <= length (fst (HNSW.next_epoch idx)))%nat.
Proof.
  unfold HNSW.next_epoch.
  destruct (Nat.ltb_spec (length (HNSW.visited_ idx)) (length (HNSW.vectors_ idx)));
    destruct (_ =? 0); simpl; rewrite ?length_replicate; lia.
Qed.

Lemma set_visited_same (idx : HNSW.t) :
  HNSW.set_visited idx (HNSW.visited_ idx) (HNSW.visited_epoch_ idx) = idx.
Proof. destruct idx; reflexivity. Qed.

Section SearchLayerFacts.
Context (simd : VectorOps.isa).

(** A search over a layer whose ids are below [b], entered at an id below
    [b] (or at the sentinel of an empty graph), returns, and returns ids
    below [b]; it changes nothing but the scratch state. *)
Lemma search_layer_ok (idx : HNSW.t) (query : list VectorOps.float) (entry ef layer b : Z) :
  (Z.to_nat b <= length (HNSW.vectors_ idx))%nat ->
  HNSW.ids_below idx (Z.to_nat layer) b ->
  entry = VectorID_max \/ 0 <= entry < b ->
  exists res v e,
    HNSW.search_layer simd idx query entry ef layer = Some (res, HNSW.set_visited idx v e) /\
    Forall (fun r : Z * VectorOps.float => 0 <= fst r < b) res.
Proof.
  intros Hb Hg Hentry. unfold HNSW.search_layer.
  destruct ((length (HNSW.vectors_ idx) =? 0)%nat || (entry =? VectorID_max)) eqn:Eearly.
  { exists [], (HNSW.visited_ idx), (HNSW.visited_epoch_ idx).
    rewrite set_visited_same. split; [reflexivity|constructor]. }
  apply orb_false_iff in Eearly as [_ Ene]. apply Z.eqb_neq in Ene.
  destruct Hentry as [?|Hentry]; [contradiction|].
  pose proof (next_epoch_length idx) as Hlen.
  destruct (HNSW.next_epoch idx) as [visited0 epoch]. simpl in Hlen.
  set (st0 := HNSW.mkSearch _ _ _).
  destruct (search_loop_total simd idx query ef layer epoch b (length visited0)
              ltac:(lia) Hg (S (length visited0)) st0) as (st' & -> & HQ & HW & Hlen').
  - unfold st0. repeat split; simpl.
    + repeat constructor; simpl; lia.
    + repeat constructor; simpl; lia.
    + unfold HNSW.mark_visited. apply length_insert.
  - unfold st0; simpl. unfold HNSW.mark_visited.
    pose proof (count_unvisited_marked epoch visited0 (Z.to_nat entry) ltac:(lia)). lia.
  - eexists _, _, _. split; [reflexivity|].
    rewrite (sort_by_perm snd). apply pq_drain_elems with (P := fun x => 0 <= x < b). exact HW.
Qed.

Lemma greedy_descent_ok (query : list VectorOps.float) (b : Z) (layers : list Z) :
  forall (idx : HNSW.t) (ep : Z),
    (Z.to_nat b <= length (HNSW.vectors_ idx))%nat ->
    (forall l, HNSW.ids_below idx l b) ->
    0 <= ep < b ->
    exists ep' v e,
      HNSW.greedy_descent simd idx query ep layers = Some (ep', HNSW.set_visited idx v e) /\
      0 <= ep' < b.
Proof.
  induction layers as [|l layers IH]; intros idx ep Hb Hg Hep; simpl.
  - exists ep, (HNSW.visited_ idx), (HNSW.visited_epoch_ idx).
    rewrite set_visited_same. auto.
  - destruct (search_layer_ok idx query ep 1 l b Hb (Hg _) (or_intror Hep))
      as (res & v & e & -> & Hres).
    destruct (IH (HNSW.set_visited idx v e)
                 (match res with [] => ep | r :: _ => fst r end)) as (ep' & v' & e' & -> & Hep').
    + exact Hb.
    + exact Hg.
    + destruct res as [|r res]; [exact Hep|]. apply Forall_cons in Hres as [Hr _]. exact Hr.
    + exists ep', v', e'. split; [reflexivity|exact Hep'].
Qed.

End SearchLayerFacts.

Section ConnectFacts.
Context (simd : VectorOps.isa).

(** Rewriting one layer of one node leaves every other adjacency as it was,
    and replaces that one by [f] of it (or leaves it absent). *)
Lemma adj_update_layer (idx : HNSW.t) (id l : Z) (f : list Z -> list Z)
  (pre : HNSW.Node -> HNSW.Node)
  (Hpre : forall node l', HNSW.layer_of (pre node) l' = HNSW.layer_of node l') :
  let idx' := HNSW.set_nodes idx
                (HNSW.update_node (HNSW.nodes_ idx) id
                   (fun node => HNSW.update_layer l f (pre node))) in
  (forall j l', j <> Z.to_nat id \/ l' <> Z.to_nat l ->
     HNSW.adj idx' j l' = HNSW.adj idx j l') /\
  (HNSW.adj idx' (Z.to_nat id) (Z.to_nat l) = f (HNSW.adj idx (Z.to_nat id) (Z.to_nat l)) \/
   HNSW.adj idx' (Z.to_nat id) (Z.to_nat l) = []).
Proof.
  cbv zeta. split.
  - intros j l' Hne. rewrite adj_update_node.
    destruct (decide (j = Z.to_nat id)) as [->|]; [|reflexivity].
    unfold HNSW.adj. destruct (HNSW.nodes_ idx !! Z.to_nat id) as [node|]; [|reflexivity].
    rewrite layer_of_update_layer.
    destruct (decide (l' = Z.to_nat l)); [tauto|apply Hpre].
  - rewrite adj_update_node. rewrite decide_True by reflexivity.
    unfold HNSW.adj. destruct (HNSW.nodes_ idx !! Z.to_nat id) as [node|]; [|right; reflexivity].
    rewrite layer_of_update_layer, decide_True by reflexivity.
    destruct (HNSW.neighbors (pre node) !! Z.to_nat l) as [lst|] eqn:E; [|right; reflexivity].
    left. f_equal. rewrite <- (Hpre node). unfold HNSW.layer_of. rewrite E. reflexivity.
Qed.

(** What the symmetric edge between the new node [id] and a chosen
    neighbour [nb] changes, at layer [l]. *)
Lemma connect_adj (idx : HNSW.t) (l id nb : Z) (Q : Z -> Prop) :
  0 <= nb < id -> 0 <= HNSW.layer_cap idx l ->
  let idx' := HNSW.connect simd l id idx nb in
  (exists nodes', idx' = HNSW.set_nodes idx nodes' /\
                  length nodes' = length (HNSW.nodes_ idx)) /\
  (forall j l', l' <> Z.to_nat l -> HNSW.adj idx' j l' = HNSW.adj idx j l') /\
  (forall j, j <> Z.to_nat id -> j <> Z.to_nat nb ->
     HNSW.adj idx' j (Z.to_nat l) = HNSW.adj idx j (Z.to_nat l)) /\
  (HNSW.adj idx' (Z.to_nat id) (Z.to_nat l) = HNSW.adj idx (Z.to_nat id) (Z.to_nat l) ++ [nb] \/
   HNSW.adj idx' (Z.to_nat id) (Z.to_nat l) = []) /\
  Z.of_nat (length (HNSW.adj idx' (Z.to_nat nb) (Z.to_nat l))) <= HNSW.layer_cap idx l /\
  (Forall Q (HNSW.adj idx (Z.to_nat nb) (Z.to_nat l)) -> Q id ->
   Forall Q (HNSW.adj idx' (Z.to_nat nb) (Z.to_nat l))).
Proof.
  intros Hnb Hcap. cbv zeta. unfold HNSW.connect, HNSW.add_back_edge.
  set (idx1 := HNSW.set_nodes idx
                 (HNSW.update_node (HNSW.nodes_ idx) id
                    (HNSW.update_layer l (fun own => own ++ [nb])))).
  destruct (adj_update_layer idx id l (fun own => own ++ [nb]) (fun n => n)
              (fun _ _ => eq_refl)) as [Hown_other Hown].
  fold idx1 in Hown_other, Hown.
  set (g := fun nb_list : list Z =>
              if HNSW.layer_cap idx1 l <? Z.of_nat (length (nb_list ++ [id]))
              then HNSW.prune_neighbors simd idx1 nb (nb_list ++ [id]) (HNSW.layer_cap idx1 l)
              else nb_list ++ [id]).
  destruct (adj_update_layer idx1 nb l g (HNSW.ensure_layers (wrap64 (l + 1)))
              (layer_of_ensure_layers _)) as [Hnb_other Hnbl].
  set (idx2 := HNSW.set_nodes idx1 _) in *.
  assert (Hne : Z.to_nat nb <> Z.to_nat id) by lia.
  assert (Hg_len : forall lst, Z.of_nat (length (g lst)) <= HNSW.layer_cap idx l).
  { intros lst. unfold g. change (HNSW.layer_cap idx1 l) with (HNSW.layer_cap idx l).
    destruct (Z.ltb_spec (HNSW.layer_cap idx l) (Z.of_nat (length (lst ++ [id])))); [|lia].
    apply select_neighbors_length, Hcap. }
  assert (Hg_elems : forall lst, Forall Q lst -> Q id -> Forall Q (g lst)).
  { intros lst Hl Hid. unfold g.
    assert (Hl' : Forall Q (lst ++ [id])) by (apply Forall_app; auto).
    destruct (_ <? _); [|exact Hl'].
    unfold HNSW.prune_neighbors. apply select_neighbors_elems.
    rewrite map_map. simpl. rewrite map_id. exact Hl'. }
  split; [|split; [|split; [|split; [|split]]]].
  - exists (HNSW.nodes_ idx2). split; [reflexivity|].
    unfold idx2, idx1, HNSW.update_node. simpl. rewrite !length_alter. reflexivity.
  - intros j l' Hl'. rewrite Hnb_other by (right; exact Hl').
    apply Hown_other. right; exact Hl'.
  - intros j Hj1 Hj2. rewrite Hnb_other by (left; exact Hj2).
    apply Hown_other. left; exact Hj1.
  - rewrite Hnb_other by (left; congruence). exact Hown.
  - destruct Hnbl as [-> | ->]; [apply Hg_len|simpl; lia].
  - intros HQ Hid. destruct Hnbl as [-> | ->]; [|constructor].
    apply Hg_elems; [|exact Hid]. rewrite Hown_other by (left; exact Hne). exact HQ.
Qed.

End ConnectFacts.

Lemma layer_cap_nonneg (idx : HNSW.t) (l : Z) : 0 <= HNSW.M_ idx -> 0 <= HNSW.layer_cap idx l.
Proof.
  intros HM. unfold HNSW.layer_cap. destruct (l =? 0); [apply wrap64_range|exact HM].
Qed.

Section LinkingFacts.
Context (simd : VectorOps.isa).

(** The loop over the chosen neighbours of one layer. *)
Lemma connect_fold (idx0 : HNSW.t) (l id : Z) (neigh_ids : list Z) :
  0 <= HNSW.M_ idx0 ->
  Forall (fun x => 0 <= x < id) neigh_ids ->
  forall (idx : HNSW.t) (k : nat),
    (exists nodes, idx = HNSW.set_nodes idx0 nodes /\ length nodes = length (HNSW.nodes_ idx0)) ->
    (forall j l', l' <> Z.to_nat l -> HNSW.adj idx j l' = HNSW.adj idx0 j l') ->
    (forall j, j <> Z.to_nat id ->
       Z.of_nat (length (HNSW.adj idx j (Z.to_nat l))) <= HNSW.layer_cap idx0 l /\
       Forall (fun x => 0 <= x < id + 1) (HNSW.adj idx j (Z.to_nat l))) ->
    (forall j, id < Z.of_nat j -> HNSW.adj idx j (Z.to_nat l) = []) ->
    (length (HNSW.adj idx (Z.to_nat id) (Z.to_nat l)) <= k)%nat ->
    Forall (fun x => 0 <= x < id) (HNSW.adj idx (Z.to_nat id) (Z.to_nat l)) ->
    let idx' := fold_left (HNSW.connect simd l id) neigh_ids idx in
    (exists nodes, idx' = HNSW.set_nodes idx0 nodes /\ length nodes = length (HNSW.nodes_ idx0)) /\
    (forall j l', l' <> Z.to_nat l -> HNSW.adj idx' j l' = HNSW.adj idx0 j l') /\
    (forall j, j <> Z.to_nat id ->
       Z.of_nat (length (HNSW.adj idx' j (Z.to_nat l))) <= HNSW.layer_cap idx0 l /\
       Forall (fun x => 0 <= x < id + 1) (HNSW.adj idx' j (Z.to_nat l))) /\
    (forall j, id < Z.of_nat j -> HNSW.adj idx' j (Z.to_nat l) = []) /\
    (length (HNSW.adj idx' (Z.to_nat id) (Z.to_nat l)) <= k + length neigh_ids)%nat /\
    Forall (fun x => 0 <= x < id) (HNSW.adj idx' (Z.to_nat id) (Z.to_nat l)).
Proof.
  intros HM. induction neigh_ids as [|nb rest IH]; intros Hn idx k Hframe Hother Hcap Hfresh Hown HownQ;
    cbv zeta; simpl.
  - split; [exact Hframe|]. split; [exact Hother|]. split; [exact Hcap|].
    split; [exact Hfresh|]. split; [lia|exact HownQ].
  - apply Forall_cons in Hn as [Hnb Hrest].
    destruct Hframe as (nodes & -> & Hlen).
    assert (Hc : 0 <= HNSW.layer_cap (HNSW.set_nodes idx0 nodes) l)
      by (apply (layer_cap_nonneg idx0), HM).
    destruct (connect_adj simd (HNSW.set_nodes idx0 nodes) l id nb
                (fun x => 0 <= x < id + 1) Hnb Hc)
      as ((nodes' & Heq & Hlen') & H1 & H2 & H3 & H4 & H5).
    set (idx1 := HNSW.connect simd l id (HNSW.set_nodes idx0 nodes) nb) in *.
    specialize (IH Hrest idx1 (S k)).
    destruct IH as (Ha & Hb & Hc' & Hd & He & Hf).
    + exists nodes'. split; [rewrite Heq; reflexivity|]. simpl in Hlen'. lia.
    + intros j l' Hl'. rewrite H1 by exact Hl'. apply Hother, Hl'.
    + intros j Hj. destruct (decide (j = Z.to_nat nb)) as [->|Hjn].
      * split; [exact H4|]. apply H5; [apply (Hcap _ Hj)|lia].
      * rewrite H2 by assumption. apply Hcap, Hj.
    + intros j Hj. rewrite H2 by lia. apply Hfresh, Hj.
    + destruct H3 as [-> | ->]; [rewrite length_app; simpl; lia|simpl; lia].
    + destruct H3 as [-> | ->]; [|constructor].
      apply Forall_app. split; [exact HownQ|]. repeat constructor; lia.
    + split; [exact Ha|]. split; [exact Hb|]. split; [exact Hc'|].
      split; [exact Hd|]. split; [lia|exact Hf].
Qed.

End LinkingFacts.

Section InsertFacts.
Context (simd : VectorOps.isa).

Lemma adj_ensure_node (idx : HNSW.t) (id n : Z) (j l : nat) :
  HNSW.adj (HNSW.set_nodes idx (HNSW.update_node (HNSW.nodes_ idx) id (HNSW.ensure_layers n))) j l
  = HNSW.adj idx j l.
Proof.
  rewrite adj_update_node. destruct (decide (j = Z.to_nat id)) as [->|]; [|reflexivity].
  unfold HNSW.adj. destruct (HNSW.nodes_ idx !! Z.to_nat id); [|reflexivity].
  apply layer_of_ensure_layers.
Qed.

(** One layer of the connection phase. *)
Lemma connect_layer_ok (idx : HNSW.t) (id : Z) (vec : list VectorOps.float) (ep l : Z)
  (rest : list Z) :
  HNSW.linking_inv idx id (l :: rest) ->
  (forall l', In l' rest -> Z.to_nat l' <> Z.to_nat l) ->
  0 <= ep < id ->
  exists idx',
    HNSW.connect_layer simd idx id vec ep l = Some idx' /\
    HNSW.linking_inv idx' id rest /\
    HNSW.same_params idx idx' /\
    HNSW.entry_point_ idx' = HNSW.entry_point_ idx /\
    HNSW.max_layer_ idx' = HNSW.max_layer_ idx.
Proof.
  intros [Hlen Hid HM Hids Htodo Hfresh Hcap] Hdistinct Hep.
  destruct (Htodo l (or_introl eq_refl)) as (Hl0 & Hbelow & Hempty).
  unfold HNSW.connect_layer.
  destruct (search_layer_ok simd idx vec ep (HNSW.ef_construction_ idx) l id)
    as (res & v & e & -> & Hres); [lia|exact Hbelow|right; exact Hep|].
  set (idx1 := HNSW.set_visited idx v e).
  set (cap := HNSW.layer_cap idx1 l).
  set (neigh_ids := HNSW.select_neighbors_heuristic simd idx1 res cap).
  assert (Hcap0 : 0 <= cap) by (apply (layer_cap_nonneg idx), HM).
  assert (Hn_ids : Forall (fun x => 0 <= x < id) neigh_ids).
  { apply select_neighbors_elems. apply Forall_fmap. exact Hres. }
  assert (Hn_len : Z.of_nat (length neigh_ids) <= cap)
    by (apply select_neighbors_length, Hcap0).
  set (idx2 := HNSW.set_nodes idx1 _).
  assert (Hadj2 : forall j l', HNSW.adj idx2 j l' = HNSW.adj idx j l').
  { intros j l'. unfold idx2. rewrite adj_ensure_node. reflexivity. }
  destruct (connect_fold simd idx2 l id neigh_ids HM Hn_ids idx2 0%nat)
    as ((nodes & Heq & Hnlen) & Hother & Hcapl & Hfreshl & Hown & HownQ).
  - exists (HNSW.nodes_ idx2). split; [reflexivity|reflexivity].
  - reflexivity.
  - intros j Hj. rewrite Hadj2. split.
    + specialize (Hcap j (Z.to_nat l)). rewrite Z2Nat.id in Hcap by exact Hl0. exact Hcap.
    + eapply Forall_impl; [apply Hbelow|]. simpl. intros; lia.
  - intros j Hj. rewrite Hadj2. apply Hfresh, Hj.
  - rewrite Hadj2, Hempty. simpl. lia.
  - rewrite Hadj2, Hempty. constructor.
  - eexists. split; [reflexivity|].
    set (idx' := fold_left _ _ _) in *.
    assert (Hlen2 : length (HNSW.nodes_ idx2) = length (HNSW.nodes_ idx)).
    { unfold idx2, HNSW.update_node. simpl. apply length_alter. }
    split; [|rewrite Heq; repeat split; reflexivity].
    constructor.
    + rewrite Heq. simpl. lia.
    + rewrite Heq. exact Hid.
    + rewrite Heq. exact HM.
    + intros l' j. destruct (decide (l' = Z.to_nat l)) as [->|Hne].
      * destruct (decide (j = Z.to_nat id)) as [->|Hj].
        -- eapply Forall_impl; [exact HownQ|]. simpl. intros; lia.
        -- apply Hcapl, Hj.
      * rewrite Hother, Hadj2 by exact Hne. apply Hids.
    + intros l' Hin. destruct (Htodo l' (or_intror Hin)) as (H1 & H2 & H3).
      pose proof (Hdistinct l' Hin) as Hne.
      split; [exact H1|]. split.
      * intros j. rewrite Hother, Hadj2 by exact Hne. apply H2.
      * rewrite Hother, Hadj2 by exact Hne. exact H3.
    + intros j l' Hj. destruct (decide (l' = Z.to_nat l)) as [->|Hne].
      * apply Hfreshl, Hj.
      * rewrite Hother, Hadj2 by exact Hne. apply Hfresh, Hj.
    + intros j l'. rewrite Heq.
      change (HNSW.layer_cap (HNSW.set_nodes idx2 nodes) (Z.of_nat l'))
        with (HNSW.layer_cap idx (Z.of_nat l')).
      rewrite <- Heq.
      destruct (decide (l' = Z.to_nat l)) as [->|Hne].
      * rewrite Z2Nat.id by exact Hl0.
        destruct (decide (j = Z.to_nat id)) as [->|Hj].
        -- change (HNSW.layer_cap idx l) with cap. lia.
        -- apply Hcapl, Hj.
      * rewrite Hother, Hadj2 by exact Hne. apply Hcap.
Qed.

Lemma connect_layers_ok (id : Z) (vec : list VectorOps.float) (ep : Z) (layers : list Z) :
  0 <= ep < id -> NoDup (Z.to_nat <$> layers) ->
  forall idx,
    HNSW.linking_inv idx id layers ->
    exists idx',
      HNSW.connect_layers simd idx id vec ep layers = Some idx' /\
      HNSW.linking_inv idx' id [] /\
      HNSW.same_params idx idx' /\
      HNSW.entry_point_ idx' = HNSW.entry_point_ idx /\
      HNSW.max_layer_ idx' = HNSW.max_layer_ idx.
Proof.
  intros Hep. induction layers as [|l rest IH]; intros Hnd idx Hinv; simpl.
  - exists idx. split; [reflexivity|]. split; [exact Hinv|].
    split; [unfold HNSW.same_params; auto|auto].
  - rewrite fmap_cons in Hnd. apply NoDup_cons in Hnd as [Hnotin Hnd].
    destruct (connect_layer_ok idx id vec ep l rest Hinv) as (idx1 & -> & Hinv1 & Hp1 & He1 & Hm1).
    + intros l' Hin Heq. apply Hnotin. rewrite <- Heq.
      apply list_elem_of_fmap_2, list_elem_of_In, Hin.
    + exact Hep.
    + destruct (IH Hnd idx1 Hinv1) as (idx2 & -> & Hinv2 & Hp2 & He2 & Hm2).
      exists idx2. split; [reflexivity|]. split; [exact Hinv2|].
      destruct Hp1 as (?&?&?&?&?), Hp2 as (?&?&?&?&?).
      unfold HNSW.same_params. repeat split; congruence.
Qed.

End InsertFacts.

Lemma layers_down_from_nonneg (top l : Z) : In l (HNSW.layers_down_from top) -> 0 <= l.
Proof.
  unfold HNSW.layers_down_from. rewrite in_map_iff. intros (i & <- & Hi).
  apply in_seq in Hi. lia.
Qed.

Lemma layers_down_from_NoDup (top : Z) : NoDup (Z.to_nat <$> HNSW.layers_down_from top).
Proof.
  unfold HNSW.layers_down_from.
  change (map (fun i => top - Z.of_nat i)) with (fmap (M := list) (fun i => top - Z.of_nat i)).
  rewrite <- list_fmap_compose. apply NoDup_fmap_2_strong; [|apply NoDup_seq].
  intros i j Hi Hj. apply elem_of_seq in Hi, Hj. simpl. lia.
Qed.

Section BuildFacts.
Context (simd : VectorOps.isa).

Lemma adj_init_node (idx : HNSW.t) (id n : Z) (j l : nat) :
  HNSW.adj (HNSW.set_nodes idx
              (HNSW.update_node (HNSW.nodes_ idx) id
                 (fun node => HNSW.ensure_layers n (HNSW.mkNode id (HNSW.neighbors node))))) j l
  = HNSW.adj idx j l.
Proof.
  rewrite adj_update_node. destruct (decide (j = Z.to_nat id)) as [->|]; [|reflexivity].
  unfold HNSW.adj. destruct (HNSW.nodes_ idx !! Z.to_nat id); [|reflexivity].
  rewrite layer_of_ensure_layers. reflexivity.
Qed.

(** Inserting node [id] into the graph of the nodes below [id] returns, and
    gives the graph of the nodes below [id + 1]. *)
Lemma insert_node_ok (idx : HNSW.t) (level id : Z) (vec : list VectorOps.float) :
  HNSW.build_inv idx id -> id < Z.of_nat (length (HNSW.vectors_ idx)) ->
  exists idx',
    HNSW.insert_node simd idx level id vec = Some idx' /\
    HNSW.build_inv idx' (id + 1) /\ HNSW.same_params idx idx'.
Proof.
  intros [Hlen Hnext Hsize HM Hids Hfresh Hentry Hcap] Hid.
  unfold HNSW.insert_node.
  destruct (Z.leb_spec (Z.of_nat (length (HNSW.nodes_ idx))) id) as [Hbad|_]; [lia|].
  set (init := fun node => HNSW.ensure_layers (wrap64 (level + 1))
                             (HNSW.mkNode id (HNSW.neighbors node))).
  set (nodes2 := HNSW.update_node (HNSW.nodes_ idx) id init).
  set (idx1 := HNSW.set_nodes idx nodes2).
  assert (Hadj1 : forall j l, HNSW.adj idx1 j l = HNSW.adj idx j l).
  { intros j l. apply adj_init_node. }
  assert (Hlen1 : length nodes2 = length (HNSW.vectors_ idx)).
  { unfold nodes2, HNSW.update_node. rewrite length_alter. exact Hlen. }
  change (HNSW.entry_point_ idx1) with (HNSW.entry_point_ idx).
  change (HNSW.max_layer_ idx1) with (HNSW.max_layer_ idx).
  destruct (Z.eqb_spec (HNSW.entry_point_ idx) VectorID_max) as [Emax|Emax].
  { (* first node *)
    assert (Hid0 : id = 0).
    { destruct Hentry as [[_ ?]|?]; [assumption|]. unfold VectorID_max in Emax. lia. }
    eexists. split; [reflexivity|]. split; [|unfold HNSW.same_params; auto].
    assert (Hadj' : forall j l, HNSW.adj (HNSW.set_graph idx1 nodes2 id level) j l = []).
    { intros j l. change (HNSW.adj (HNSW.set_graph idx1 nodes2 id level) j l)
        with (HNSW.adj idx1 j l). rewrite Hadj1. apply Hfresh. lia. }
    constructor; simpl.
    - exact Hlen1.
    - lia.
    - exact Hsize.
    - exact HM.
    - intros l j. rewrite Hadj'. constructor.
    - intros j l _. apply Hadj'.
    - right. lia.
    - intros j l. rewrite Hadj'. simpl. apply (layer_cap_nonneg idx), HM. }
  assert (Hep0 : 0 <= HNSW.entry_point_ idx < id).
  { destruct Hentry as [[? _]|?]; [contradiction|assumption]. }
  assert (Hb : (Z.to_nat id <= length (HNSW.vectors_ idx1))%nat) by (simpl; lia).
  assert (Hids1 : forall l, HNSW.ids_below idx1 l id).
  { intros l j. rewrite Hadj1. apply Hids. }
  assert (Hgreedy : exists ep v e,
            (if level <? HNSW.max_layer_ idx
             then HNSW.greedy_descent simd idx1 vec (HNSW.entry_point_ idx)
                    (HNSW.layers_above (HNSW.max_layer_ idx) level)
             else Some (HNSW.entry_point_ idx, idx1))
            = Some (ep, HNSW.set_visited idx1 v e) /\ 0 <= ep < id).
  { destruct (level <? HNSW.max_layer_ idx).
    - apply greedy_descent_ok; assumption.
    - exists (HNSW.entry_point_ idx), (HNSW.visited_ idx1), (HNSW.visited_epoch_ idx1).
      rewrite set_visited_same. auto. }
  destruct Hgreedy as (ep & v & e & -> & Hep).
  set (idx2 := HNSW.set_visited idx1 v e).
  set (layers := HNSW.layers_down_from _).
  assert (Hlink : HNSW.linking_inv idx2 id layers).
  { constructor; simpl.
    - exact Hlen1.
    - lia.
    - exact HM.
    - intros l j. change (HNSW.adj idx2 j l) with (HNSW.adj idx1 j l).
      eapply Forall_impl; [apply Hids1|]. simpl. intros; lia.
    - intros l Hin. split; [eapply layers_down_from_nonneg, Hin|]. split.
      + intros j. change (HNSW.adj idx2 j (Z.to_nat l)) with (HNSW.adj idx1 j (Z.to_nat l)).
        apply Hids1.
      + change (HNSW.adj idx2 (Z.to_nat id) (Z.to_nat l))
          with (HNSW.adj idx1 (Z.to_nat id) (Z.to_nat l)).
        rewrite Hadj1. apply Hfresh. lia.
    - intros j l Hj. change (HNSW.adj idx2 j l) with (HNSW.adj idx1 j l).
      rewrite Hadj1. apply Hfresh. lia.
    - intros j l. change (HNSW.adj idx2 j l) with (HNSW.adj idx1 j l).
      rewrite Hadj1. apply Hcap. }
  destruct (connect_layers_ok simd id vec ep layers Hep (layers_down_from_NoDup _) idx2 Hlink)
    as (idx3 & -> & [Hlen3 Hid3 HM3 Hids3 _ Hfresh3 Hcap3] & Hp3 & He3 & Hm3).
  assert (Hvec3 : HNSW.vectors_ idx3 = HNSW.vectors_ idx) by (apply Hp3).
  destruct (HNSW.max_layer_ idx3 <? level); eexists; (split; [reflexivity|]).
  - split; [|destruct Hp3 as (?&?&?&?&?); unfold HNSW.same_params; simpl; auto].
    constructor; simpl; try assumption.
    + rewrite Hvec3. lia.
    + rewrite Hvec3. exact Hsize.
    + intros j l Hj. apply Hfresh3. lia.
    + right. lia.
  - split; [|exact Hp3].
    constructor; try assumption.
    + rewrite Hvec3. lia.
    + rewrite Hvec3. exact Hsize.
    + intros j l Hj. apply Hfresh3. lia.
    + right. rewrite He3. simpl. lia.
Qed.

End BuildFacts.

Section SerialBuildFacts.
Context (simd : VectorOps.isa).

Lemma same_params_trans (a b c : HNSW.t) :
  HNSW.same_params a b -> HNSW.same_params b c -> HNSW.same_params a c.
Proof.
  unfold HNSW.same_params. intros (?&?&?&?&?) (?&?&?&?&?). repeat split; congruence.
Qed.

Lemma insert_all_ok (levels : Z -> Z) (k : nat) : forall (s : nat) (idx : HNSW.t),
  HNSW.build_inv idx (Z.of_nat s) ->
  (s + k)%nat = length (HNSW.vectors_ idx) ->
  exists idx',
    HNSW.insert_all simd idx levels (map Z.of_nat (seq s k)) = Some idx' /\
    HNSW.build_inv idx' (Z.of_nat (s + k)) /\ HNSW.same_params idx idx'.
Proof.
  induction k as [|k IH]; intros s idx Hinv Hlen; simpl.
  - exists idx. rewrite Nat.add_0_r. split; [reflexivity|]. split; [exact Hinv|].
    unfold HNSW.same_params. auto.
  - destruct (insert_node_ok simd idx (levels (Z.of_nat s)) (Z.of_nat s)
                (HNSW.vector_at idx (Z.of_nat s)) Hinv ltac:(lia))
      as (idx1 & -> & Hinv1 & Hp1).
    destruct (IH (S s) idx1) as (idx2 & -> & Hinv2 & Hp2).
    + replace (Z.of_nat (S s)) with (Z.of_nat s + 1) by lia. exact Hinv1.
    + destruct Hp1 as (_&_&_&_&->). lia.
    + exists idx2. split; [reflexivity|]. split.
      * replace (s + S k)%nat with (S s + k)%nat by lia. exact Hinv2.
      * eapply same_params_trans; eassumption.
Qed.

Lemma reset_for_build_inv (idx : HNSW.t) (data : list (list Z)) :
  0 <= HNSW.M_ idx -> Z.of_nat (length data) < two64 ->
  HNSW.build_inv (HNSW.reset_for_build idx data) 0.
Proof.
  intros HM Hsize.
  assert (Hadj : forall j l, HNSW.adj (HNSW.reset_for_build idx data) j l = []).
  { intros j l. unfold HNSW.adj, HNSW.reset_for_build. simpl.
    destruct (replicate (length data) HNSW.default_node !! j) as [node|] eqn:E; [|reflexivity].
    apply lookup_replicate in E as [-> _]. unfold HNSW.layer_of. simpl.
    destruct l; reflexivity. }
  constructor; simpl.
  - apply length_replicate.
  - lia.
  - exact Hsize.
  - exact HM.
  - intros l j. rewrite Hadj. constructor.
  - intros j l _. apply Hadj.
  - left. split; reflexivity.
  - intros j l. rewrite Hadj. simpl. apply (layer_cap_nonneg idx), HM.
Qed.

(** The serial build returns, and its graph satisfies the build invariant
    for all its nodes. *)
Lemma build_ok (idx0 : HNSW.t) (levels : Z -> Z) (data : list (list Z)) :
  0 <= HNSW.M_ idx0 -> Z.of_nat (length data) < two64 ->
  exists idx,
    HNSW.build simd idx0 levels data = Some idx /\
    HNSW.build_inv idx (Z.of_nat (length data)) /\
    HNSW.same_params (HNSW.reset_for_build idx0 data) idx.
Proof.
  intros HM Hsize. unfold HNSW.build.
  destruct (insert_all_ok levels (length data) 0 (HNSW.reset_for_build idx0 data))
    as (idx & Hrun & Hinv & Hp).
  - apply reset_for_build_inv; assumption.
  - reflexivity.
  - exists idx. auto.
Qed.

Lemma capped_degree_capped (idx : HNSW.t) :
  0 <= HNSW.M_ idx -> HNSW.capped idx -> HNSW.degree_capped idx.
Proof.
  intros HM Hcap n l Hn Hl. rewrite neighbors_at_adj.
  specialize (Hcap (Z.to_nat n) (Z.to_nat l)). rewrite Z2Nat.id in Hcap by exact Hl.
  unfold HNSW.layer_cap in Hcap. unfold HNSW.spec_cap.
  destruct (l =? 0); [|exact Hcap].
  assert (wrap64 (HNSW.M_ idx * 2) <= HNSW.M_ idx * 2).
  { unfold wrap64. apply Z.mod_le; [lia|reflexivity]. }
  lia.
Qed.

(** C3, serial build.  For every data set that fits a [size_t], every [M],
    and every sequence of levels [assign_layer()] may draw, [build] returns
    and in the graph it leaves every adjacency list has at most [2 M]
    entries at layer 0 and at most [M] entries at the layers above. *)
Theorem serial_build_respects_degree_cap
  (idx0 : HNSW.t) (levels : Z -> Z) (data : list (list Z)) :
  0 <= HNSW.M_ idx0 -> Z.of_nat (length data) < two64 ->
  exists idx,
    HNSW.build simd idx0 levels data = Some idx /\
    HNSW.M_ idx = HNSW.M_ idx0 /\
    HNSW.degree_capped idx.
Proof.
  intros HM Hsize.
  destruct (build_ok idx0 levels data HM Hsize) as (idx & Hrun & Hinv & Hp).
  exists idx. split; [exact Hrun|].
  assert (HMeq : HNSW.M_ idx = HNSW.M_ idx0) by (apply Hp).
  split; [exact HMeq|].
  apply capped_degree_capped; [rewrite HMeq; exact HM|apply Hinv].
Qed.

End SerialBuildFacts.

(** The serial build of the line points of scenario B keeps the degree cap. *)
Lemma serial_build_respects_degree_cap_witness :
  exists idx,
    HNSW.build VectorOps.Scalar ScenarioB.fresh_index ScenarioB.levels ScenarioB.data
      = Some idx /\
    HNSW.M_ idx = 4 /\
    HNSW.degree_capped idx.
Proof.
  apply (serial_build_respects_degree_cap VectorOps.Scalar ScenarioB.fresh_index
           ScenarioB.levels ScenarioB.data).
  - vm_compute. discriminate.
  - vm_compute. reflexivity.
Defined.

(** *** The parallel build *)

(** The levels a thread draws: its engine is [rng(42)], and the first
    twelve calls of [assign_layer()] give these levels. *)
Lemma thread_levels_drawn :
  HNSW.thread_levels 64 12 = Some ScenarioF.drawn /\
  ScenarioF.drawn = [0; 0; 0; 1; 1; 4; 0; 0; 0; 0; 0; 3].
Proof. split; vm_compute; reflexivity. Qed.

Lemma degree_capped_at (idx : HNSW.t) (n l : Z) :
  HNSW.degree_capped idx -> 0 <= n -> 0 <= l ->
  Z.of_nat (length (HNSW.neighbors_at idx n l)) <= HNSW.spec_cap (HNSW.M_ idx) l.
Proof. intros H Hn Hl. apply H; assumption. Qed.

(** The run of [ScenarioF.schedule] completes, and it leaves node 8 with
    nine neighbours at layer 0, one more than [2 M = 8]. *)
Lemma scenarioF_overfull_node (simd : VectorOps.isa) (main_draws : nat) :
  main_draws = 0%nat \/ main_draws = 10%nat ->
  exists idx,
    ScenarioF.built simd main_draws = Some idx /\
    HNSW.M_ idx = 4 /\
    HNSW.neighbors_at idx 8 0 = [9; 7; 6; 5; 4; 3; 2; 1; 0].
Proof.
  intros [-> | ->]; destruct simd;
    (destruct (ScenarioF.built _ _) as [idx|] eqn:E; vm_compute in E;
     [injection E as <-; eexists; split; [reflexivity|split; vm_compute; reflexivity]
     |discriminate E]).
Qed.

(** C3, parallel build.  On the ten line points of scenario F with [M = 4],
    [ef_construction = 50] and four threads, whose levels are the ones
    [assign_layer()] draws, there is a run of [build_parallel] after which
    every thread has left its loop and node 8 has nine neighbours at layer
    0: the degree cap [2 M = 8] does not hold.  (The calling thread has
    drawn no level before, or the ten levels of a serial build.) *)
Theorem parallel_build_exceeds_degree_cap (simd : VectorOps.isa) :
  (exists idx,
     HNSW.build_parallel simd ScenarioB.fresh_index ScenarioF.levels 0 ScenarioB.data
                         4 ScenarioF.schedule = Some idx /\
     Z.of_nat (length (HNSW.neighbors_at idx 8 0)) = 9 /\
     HNSW.spec_cap (HNSW.M_ idx) 0 = 8 /\
     ~ HNSW.degree_capped idx) /\
  (exists idx,
     HNSW.build_parallel simd ScenarioB.fresh_index ScenarioF.levels 10 ScenarioB.data
                         4 ScenarioF.schedule = Some idx /\
     Z.of_nat (length (HNSW.neighbors_at idx 8 0)) = 9 /\
     HNSW.spec_cap (HNSW.M_ idx) 0 = 8 /\
     ~ HNSW.degree_capped idx).
Proof.
  split.
  - destruct (scenarioF_overfull_node simd 0 (or_introl eq_refl)) as (idx & Hrun & HM & Hn).
    exists idx. split; [exact Hrun|]. rewrite Hn, HM.
    split; [reflexivity|]. split; [reflexivity|].
    intros Hcap. pose proof (degree_capped_at idx 8 0 Hcap) as H.
    rewrite Hn, HM in H. cbn in H. lia.
  - destruct (scenarioF_overfull_node simd 10 (or_intror eq_refl)) as (idx & Hrun & HM & Hn).
    exists idx. split; [exact Hrun|]. rewrite Hn, HM.
    split; [reflexivity|]. split; [reflexivity|].
    intros Hcap. pose proof (degree_capped_at idx 8 0 Hcap) as H.
    rewrite Hn, HM in H. cbn in H. lia.
Qed.

(** *** Saving and loading *)

Section StreamFacts.
Import BinaryStream.

(** The monad notation of the readers, in terms of [bind] and [ret]. *)
Ltac reader_unfold := unfold mbind, mret, HNSW.reader_bind, HNSW.reader_ret.

Lemma le_bytes_length (n : nat) : forall x, length (le_bytes n x) = n.
Proof. induction n as [|n IH]; intros x; simpl; [reflexivity|rewrite IH; reflexivity]. Qed.

Lemma le_value_le_bytes (n : nat) : forall x,
  0 <= x < 256 ^ Z.of_nat n -> le_value (le_bytes n x) = x.
Proof.
  induction n as [|n IH]; intros x Hx.
  - simpl in *. lia.
  - cbn [le_bytes le_value]. rewrite IH.
    + pose proof (Z.div_mod x 256 ltac:(lia)). lia.
    + rewrite Nat2Z.inj_succ, Z.pow_succ_r in Hx by lia.
      split; [apply Z.div_pos; lia|apply Z.div_lt_upper_bound; lia].
Qed.

Lemma reads_ret {A} (a : A) : reads (ret a) [] a.
Proof. intros rest. reflexivity. Qed.

Lemma reads_bind {A B} (r : reader A) (k : A -> reader B) (e e' : list Z) (a : A) (b : B) :
  reads r e a -> reads (k a) e' b -> reads (bind r k) (e ++ e') b.
Proof.
  intros Hr Hk rest. unfold bind. rewrite <- app_assoc, Hr. apply Hk.
Qed.

Lemma reads_read_bytes (bytes : list Z) : reads (read_bytes (length bytes)) bytes bytes.
Proof.
  intros rest. unfold read_bytes.
  destruct (Nat.ltb_spec (length (bytes ++ rest)) (length bytes)) as [Hlt|_].
  - rewrite length_app in Hlt. lia.
  - rewrite take_app_length, drop_app_length. reflexivity.
Qed.

(** A fixed-width number is read back from its bytes. *)
Lemma reads_fixed {A} (n : nat) (f : Z -> A) (x : Z) (a : A) :
  f (le_value (le_bytes n x)) = a ->
  reads (bind (read_bytes n) (fun bytes => ret (f (le_value bytes)))) (le_bytes n x) a.
Proof.
  intros Hf. rewrite <- (app_nil_r (le_bytes n x)).
  apply reads_bind with (a := le_bytes n x).
  - rewrite <- (le_bytes_length n x) at 1. apply reads_read_bytes.
  - rewrite Hf. apply reads_ret.
Qed.

Lemma reads_many {A} (r : reader A) (enc : A -> list Z) (l : list A) :
  Forall (fun a => reads r (enc a) a) l ->
  reads (read_many (length l) r) (concat (map enc l)) l.
Proof.
  induction 1 as [|a l Ha _ IH]; simpl.
  - apply reads_ret.
  - apply reads_bind with (a := a); [exact Ha|].
    rewrite <- (app_nil_r (concat (map enc l))).
    apply reads_bind with (a := l); [exact IH|apply reads_ret].
Qed.

Lemma reads_u64 (x : Z) : in_u64 x -> reads HNSW.read_u64 (HNSW.write_u64 x) x.
Proof.
  intros Hx. unfold HNSW.read_u64, HNSW.write_u64. reader_unfold.
  apply (reads_fixed 8 (fun v => v)).
  unfold in_u64, two64 in Hx. unfold wrap64, two64.
  rewrite Z.mod_small by lia. apply le_value_le_bytes. simpl. lia.
Qed.

Lemma reads_i32 (x : Z) : - 2 ^ 31 <= x < 2 ^ 31 -> reads HNSW.read_i32 (HNSW.write_i32 x) x.
Proof.
  intros Hx. unfold HNSW.read_i32, HNSW.write_i32. reader_unfold.
  apply (reads_fixed 4 HNSW.to_int32).
  rewrite le_value_le_bytes.
  - unfold HNSW.to_int32, HNSW.wrap32.
    rewrite Zplus_mod_idemp_l.
    rewrite Z.mod_small by lia. lia.
  - unfold HNSW.wrap32. pose proof (Z.mod_pos_bound x (2 ^ 32) ltac:(lia)). simpl. lia.
Qed.

Lemma reads_f32 (w : Z) : 0 <= w < 2 ^ 32 -> reads HNSW.read_f32 (HNSW.write_f32 w) w.
Proof.
  intros Hw. unfold HNSW.read_f32, HNSW.write_f32. reader_unfold.
  apply (reads_fixed 4 (fun v => v)).
  apply le_value_le_bytes. simpl. lia.
Qed.

Lemma reads_layer (layer_nbrs : list Z) :
  Z.of_nat (length layer_nbrs) < two64 -> Forall in_u64 layer_nbrs ->
  reads HNSW.read_layer (HNSW.layer_bytes layer_nbrs) layer_nbrs.
Proof.
  intros Hlen Hids. unfold HNSW.read_layer, HNSW.layer_bytes. reader_unfold.
  apply reads_bind with (a := Z.of_nat (length layer_nbrs)).
  - apply reads_u64. unfold in_u64. lia.
  - rewrite Nat2Z.id. apply reads_many.
    eapply Forall_impl; [exact Hids|]. intros x Hx. apply reads_u64, Hx.
Qed.

Lemma reads_node (n : HNSW.Node) :
  HNSW.node_fits n -> reads HNSW.read_node (HNSW.node_bytes n) n.
Proof.
  intros (Hid & Hlen & Hlayers). unfold HNSW.read_node, HNSW.node_bytes. reader_unfold.
  apply reads_bind with (a := HNSW.node_id n); [apply reads_u64, Hid|].
  apply reads_bind with (a := Z.of_nat (length (HNSW.neighbors n)));
    [apply reads_u64; unfold in_u64; lia|].
  rewrite Nat2Z.id. rewrite <- (app_nil_r (concat _)).
  apply reads_bind with (a := HNSW.neighbors n).
  - apply reads_many. eapply Forall_impl; [exact Hlayers|].
    intros l [Hl Hi]. apply reads_layer; assumption.
  - destruct n. apply reads_ret.
Qed.

Lemma reads_vector (dim : Z) (v : list Z) :
  HNSW.vector_fits dim v ->
  reads (read_many (Z.to_nat dim) HNSW.read_f32) (concat (map HNSW.write_f32 v)) v.
Proof.
  intros [<- Hw]. rewrite Nat2Z.id. apply reads_many.
  eapply Forall_impl; [exact Hw|]. intros w Hr. apply reads_f32, Hr.
Qed.

(** The stream [save] writes is read back by [load] as the same index; the
    scratch state of the loading instance is kept. *)
Lemma load_bytes_save_bytes (idx fresh : HNSW.t) (rest : list Z) :
  HNSW.fits idx ->
  HNSW.load_bytes fresh (HNSW.save_bytes idx ++ rest)
  = Some (HNSW.set_visited idx (HNSW.visited_ fresh) (HNSW.visited_epoch_ fresh), rest).
Proof.
  intros [Hdim HM Hefc Hmetric Hentry Hmax Hnv Hvec Hnn Hnodes].
  revert rest. change (reads (HNSW.load_bytes fresh) (HNSW.save_bytes idx)
                         (HNSW.set_visited idx (HNSW.visited_ fresh) (HNSW.visited_epoch_ fresh))).
  unfold HNSW.load_bytes, HNSW.save_bytes. reader_unfold.
  assert (Hmf : HNSW.max_floats = 2 ^ 61 - 1) by reflexivity.
  apply reads_bind with (a := HNSW.dim_ idx); [apply reads_u64; unfold in_u64, two64; lia|].
  apply reads_bind with (a := HNSW.M_ idx); [apply reads_u64, HM|].
  apply reads_bind with (a := HNSW.ef_construction_ idx); [apply reads_u64, Hefc|].
  apply reads_bind with (a := HNSW.metric_ idx); [apply reads_i32, Hmetric|].
  apply reads_bind with (a := HNSW.entry_point_ idx); [apply reads_u64, Hentry|].
  apply reads_bind with (a := HNSW.max_layer_ idx); [apply reads_u64, Hmax|].
  apply reads_bind with (a := Z.of_nat (length (HNSW.vectors_ idx)));
    [apply reads_u64; unfold in_u64; lia|].
  apply reads_bind with (a := HNSW.vectors_ idx).
  { destruct (Z.ltb_spec HNSW.max_floats (HNSW.dim_ idx)) as [Hbig|_]; [lia|].
    rewrite Nat2Z.id. apply reads_many.
    eapply Forall_impl; [exact Hvec|]. intros v Hv. apply reads_vector, Hv. }
  apply reads_bind with (a := Z.of_nat (length (HNSW.nodes_ idx)));
    [apply reads_u64; unfold in_u64; lia|].
  rewrite Nat2Z.id. rewrite <- (app_nil_r (concat _)).
  apply reads_bind with (a := HNSW.nodes_ idx).
  - apply reads_many. eapply Forall_impl; [exact Hnodes|]. intros n Hn. apply reads_node, Hn.
  - destruct idx. apply reads_ret.
Qed.

End StreamFacts.

(** *** The scratch state does not influence a search *)

Lemma same_marks_mark (e1 e2 : Z) (v1 v2 : list Z) (nb : Z) :
  HNSW.same_marks e1 e2 v1 v2 ->
  HNSW.same_marks e1 e2 (HNSW.mark_visited v1 e1 nb) (HNSW.mark_visited v2 e2 nb).
Proof.
  intros [Hlen Hm]. unfold HNSW.mark_visited. split.
  - rewrite !length_insert. exact Hlen.
  - intros i. rewrite !nth_lookup.
    destruct (decide (i = Z.to_nat nb)) as [->|Hne].
    + destruct (decide (Z.to_nat nb < length v1)%nat) as [Hin|Hout].
      * rewrite !list_lookup_insert_eq by lia. simpl. rewrite !Z.eqb_refl. reflexivity.
      * rewrite !list_insert_ge by lia.
        specialize (Hm (Z.to_nat nb)). rewrite !nth_lookup in Hm. exact Hm.
    + rewrite !list_lookup_insert_ne by congruence.
      specialize (Hm i). rewrite !nth_lookup in Hm. exact Hm.
Qed.

Section ScratchFacts.
Context (simd : VectorOps.isa) (idx : HNSW.t) (query : list VectorOps.float) (ef layer : Z).
Context (e1 e2 : Z).

(** Two search states that differ in the scratch arrays only, with the same
    ids marked. *)
Local Abbreviation alike st1 st2 :=
  (HNSW.candidate_queue st1 = HNSW.candidate_queue st2 /\
   HNSW.top_candidates st1 = HNSW.top_candidates st2 /\
   HNSW.same_marks e1 e2 (HNSW.visited st1) (HNSW.visited st2)).

Lemma visit_neighbor_alike (st1 st2 : HNSW.SearchState) (nb : Z) :
  alike st1 st2 ->
  alike (HNSW.visit_neighbor simd idx query ef e1 st1 nb)
        (HNSW.visit_neighbor simd idx query ef e2 st2 nb).
Proof.
  intros (HQ & HT & HM). unfold HNSW.visit_neighbor.
  assert (Hvis : HNSW.is_visited (HNSW.visited st1) e1 nb
                 = HNSW.is_visited (HNSW.visited st2) e2 nb) by apply HM.
  rewrite <- Hvis, <- HQ, <- HT.
  destruct (HNSW.is_visited (HNSW.visited st1) e1 nb); [auto|].
  pose proof (same_marks_mark e1 e2 _ _ nb HM) as HM'.
  destruct (_ || _); simpl; auto.
Qed.

Lemma visit_neighbors_alike (nbrs : list Z) : forall st1 st2,
  alike st1 st2 ->
  alike (fold_left (HNSW.visit_neighbor simd idx query ef e1) nbrs st1)
        (fold_left (HNSW.visit_neighbor simd idx query ef e2) nbrs st2).
Proof.
  induction nbrs as [|nb nbrs IH]; intros st1 st2 H; simpl; [exact H|].
  apply IH, visit_neighbor_alike, H.
Qed.

Lemma search_loop_alike (fuel : nat) : forall st1 st2,
  alike st1 st2 ->
  match HNSW.search_loop simd idx query ef layer e1 fuel st1,
        HNSW.search_loop simd idx query ef layer e2 fuel st2 with
  | Some st1', Some st2' => alike st1' st2'
  | None, None => True
  | _, _ => False
  end.
Proof.
  induction fuel as [|fuel IH]; intros st1 st2 H; simpl; [exact I|].
  destruct H as (HQ & HT & HM). rewrite <- HQ, <- HT.
  destruct (HNSW.pq_extract HNSW.dist_id_min (HNSW.candidate_queue st1)) as [[curr queue']|];
    [|auto].
  destruct (VectorOps.fltb _ _); [auto|].
  destruct (_ <=? layer).
  - apply IH. auto.
  - apply IH, visit_neighbors_alike. auto.
Qed.

(** The marks stay within the epoch, and the array keeps its length. *)
Lemma visit_neighbors_marks (nbrs : list Z) : forall st,
  0 <= e1 ->
  Forall (fun x => 0 <= x <= e1) (HNSW.visited st) ->
  let st' := fold_left (HNSW.visit_neighbor simd idx query ef e1) nbrs st in
  Forall (fun x => 0 <= x <= e1) (HNSW.visited st') /\
  length (HNSW.visited st') = length (HNSW.visited st).
Proof.
  induction nbrs as [|nb nbrs IH]; intros st He H; cbv zeta; simpl; [auto|].
  assert (H1 : Forall (fun x => 0 <= x <= e1)
                 (HNSW.visited (HNSW.visit_neighbor simd idx query ef e1 st nb)) /\
               length (HNSW.visited (HNSW.visit_neighbor simd idx query ef e1 st nb))
               = length (HNSW.visited st)).
  { unfold HNSW.visit_neighbor.
    destruct (HNSW.is_visited _ _ _); [auto|].
    assert (Forall (fun x => 0 <= x <= e1) (HNSW.mark_visited (HNSW.visited st) e1 nb) /\
            length (HNSW.mark_visited (HNSW.visited st) e1 nb) = length (HNSW.visited st)).
    { unfold HNSW.mark_visited. split; [|apply length_insert].
      destruct (decide (Z.to_nat nb < length (HNSW.visited st))%nat).
      - apply Forall_insert; [exact H|lia].
      - rewrite list_insert_ge by lia. exact H. }
    destruct (_ || _); simpl; assumption. }
  destruct H1 as [H1 L1]. destruct (IH _ He H1) as [H2 L2].
  cbv zeta in H2, L2. split; [exact H2|congruence].
Qed.

Lemma search_loop_marks (fuel : nat) : forall st st',
  0 <= e1 ->
  HNSW.search_loop simd idx query ef layer e1 fuel st = Some st' ->
  Forall (fun x => 0 <= x <= e1) (HNSW.visited st) ->
  Forall (fun x => 0 <= x <= e1) (HNSW.visited st') /\
  length (HNSW.visited st') = length (HNSW.visited st).
Proof.
  induction fuel as [|fuel IH]; intros st st' He Hrun H; simpl in Hrun; [discriminate|].
  destruct (HNSW.pq_extract HNSW.dist_id_min (HNSW.candidate_queue st)) as [[curr queue']|];
    [|injection Hrun as <-; auto].
  destruct (VectorOps.fltb _ _); [injection Hrun as <-; auto|].
  destruct (_ <=? layer).
  - apply (IH _ _ He Hrun). exact H.
  - destruct (visit_neighbors_marks
                (nth (Z.to_nat layer) (HNSW.neighbors (HNSW.node_at idx (snd curr))) [])
                (HNSW.mkSearch queue' (HNSW.top_candidates st) (HNSW.visited st)) He H)
      as [H1 L1].
    destruct (IH _ _ He Hrun H1) as [H2 L2]. split; [exact H2|].
    rewrite L2. exact L1.
Qed.

End ScratchFacts.

(** The start of a search leaves no mark of the new epoch. *)
Lemma next_epoch_fresh (idx : HNSW.t) :
  HNSW.scratch_ok idx ->
  length (fst (HNSW.next_epoch idx)) = length (HNSW.vectors_ idx) /\
  Forall (fun x => 0 <= x < snd (HNSW.next_epoch idx)) (fst (HNSW.next_epoch idx)) /\
  0 < snd (HNSW.next_epoch idx) < 2 ^ 32.
Proof.
  intros (Hlen & Hmarks & He). unfold HNSW.next_epoch, HNSW.wrap32.
  set (v1 := if (_ <? _)%nat then _ else _).
  assert (Hv1 : length v1 = length (HNSW.vectors_ idx) /\
                Forall (fun x => 0 <= x <= HNSW.visited_epoch_ idx) v1).
  { unfold v1. destruct (Nat.ltb_spec (length (HNSW.visited_ idx)) (length (HNSW.vectors_ idx))).
    - split; [apply length_replicate|]. apply Forall_replicate. lia.
    - split; [lia|exact Hmarks]. }
  destruct Hv1 as [Hl1 Hm1].
  destruct (Z.eq_dec (HNSW.visited_epoch_ idx + 1) (2 ^ 32)) as [Hwrap|Hno].
  - rewrite Hwrap, Z.mod_same by lia. simpl.
    change ((0 + 1) mod 2 ^ 32) with 1.
    split; [rewrite length_replicate; exact Hl1|].
    split; [apply Forall_replicate; lia|lia].
  - rewrite Z.mod_small by lia.
    destruct (Z.eqb_spec (HNSW.visited_epoch_ idx + 1) 0) as [|_]; [lia|]. simpl.
    split; [exact Hl1|]. split; [|lia].
    eapply Forall_impl; [exact Hm1|]. simpl. intros x Hx. lia.
Qed.

Section SearchScratchFacts.
Context (simd : VectorOps.isa).

(** A search changes the scratch state only, and leaves it well formed. *)
Lemma search_layer_keeps (idx idx' : HNSW.t) (query : list VectorOps.float)
  (ep ef layer : Z) (res : list (Z * VectorOps.float)) :
  HNSW.search_layer simd idx query ep ef layer = Some (res, idx') ->
  HNSW.scratch_ok idx ->
  HNSW.scratch_ok idx' /\
  idx' = HNSW.set_visited idx (HNSW.visited_ idx') (HNSW.visited_epoch_ idx').
Proof.
  intros Hrun Hok. unfold HNSW.search_layer in Hrun.
  destruct (_ || _).
  { injection Hrun as <- <-. split; [exact Hok|]. symmetry. apply set_visited_same. }
  destruct (next_epoch_fresh idx Hok) as (Hlen & Hmarks & He).
  destruct (HNSW.next_epoch idx) as [visited0 epoch]. simpl in Hlen, Hmarks, He.
  destruct (HNSW.search_loop _ _ _ _ _ _ _ _) as [st|] eqn:Eloop; [|discriminate].
  injection Hrun as <- <-.
  apply search_loop_marks in Eloop as [Hm Hl]; [|lia|].
  - simpl in Hl. unfold HNSW.mark_visited in Hl. rewrite length_insert in Hl.
    split; [|reflexivity]. unfold HNSW.scratch_ok. simpl.
    split; [lia|]. split; [exact Hm|lia].
  - simpl. unfold HNSW.mark_visited.
    assert (Hm0 : Forall (fun x => 0 <= x <= epoch) visited0).
    { eapply Forall_impl; [exact Hmarks|]. simpl. intros x Hx. lia. }
    destruct (decide (Z.to_nat ep < length visited0)%nat).
    + apply Forall_insert; [exact Hm0|lia].
    + rewrite list_insert_ge by lia. exact Hm0.
Qed.

Lemma search_loop_set_visited (idx : HNSW.t) (v : list Z) (e : Z)
  (query : list VectorOps.float) (ef layer epoch : Z) (fuel : nat) : forall st,
  HNSW.search_loop simd (HNSW.set_visited idx v e) query ef layer epoch fuel st
  = HNSW.search_loop simd idx query ef layer epoch fuel st.
Proof.
  induction fuel as [|fuel IH]; intros st; simpl; [reflexivity|].
  destruct (HNSW.pq_extract _ _) as [[curr queue']|]; [|reflexivity].
  destruct (VectorOps.fltb _ _); [reflexivity|].
  change (HNSW.node_at (HNSW.set_visited idx v e) (snd curr)) with (HNSW.node_at idx (snd curr)).
  destruct (_ <=? layer); [apply IH|].
  rewrite IH. reflexivity.
Qed.

(** Two instances that hold the same index search alike. *)
Lemma search_layer_alike (idx : HNSW.t) (v : list Z) (e : Z)
  (query : list VectorOps.float) (ep ef layer : Z) :
  HNSW.scratch_ok idx -> HNSW.scratch_ok (HNSW.set_visited idx v e) ->
  match HNSW.search_layer simd idx query ep ef layer,
        HNSW.search_layer simd (HNSW.set_visited idx v e) query ep ef layer with
  | Some (r1, i1), Some (r2, i2) =>
      r1 = r2 /\ i2 = HNSW.set_visited i1 (HNSW.visited_ i2) (HNSW.visited_epoch_ i2)
  | None, None => True
  | _, _ => False
  end.
Proof.
  intros Hok1 Hok2. unfold HNSW.search_layer.
  change (HNSW.vectors_ (HNSW.set_visited idx v e)) with (HNSW.vectors_ idx).
  destruct (_ || _).
  { split; reflexivity. }
  destruct (next_epoch_fresh idx Hok1) as (Hlen1 & Hmarks1 & He1).
  destruct (next_epoch_fresh _ Hok2) as (Hlen2 & Hmarks2 & He2).
  destruct (HNSW.next_epoch idx) as [v1 e1].
  destruct (HNSW.next_epoch (HNSW.set_visited idx v e)) as [v2 e2].
  simpl in Hlen1, Hmarks1, He1, Hlen2, Hmarks2, He2.
  rewrite search_loop_set_visited.
  change (HNSW.distance simd (HNSW.set_visited idx v e) query
            (HNSW.vector_at (HNSW.set_visited idx v e) ep))
    with (HNSW.distance simd idx query (HNSW.vector_at idx ep)).
  set (d := HNSW.distance simd idx query (HNSW.vector_at idx ep)).
  assert (Hfresh : HNSW.same_marks e1 e2 v1 v2).
  { split; [congruence|]. intros i.
    assert (H1 : 0 <= nth i v1 0 < e1).
    { destruct (nth_in_or_default i v1 0) as [Hin| ->]; [|lia].
      apply (proj1 (List.Forall_forall _ _) Hmarks1 _ Hin). }
    assert (H2 : 0 <= nth i v2 0 < e2).
    { destruct (nth_in_or_default i v2 0) as [Hin| ->]; [|lia].
      apply (proj1 (List.Forall_forall _ _) Hmarks2 _ Hin). }
    destruct (Z.eqb_spec (nth i v1 0) e1); [lia|].
    destruct (Z.eqb_spec (nth i v2 0) e2); [lia|]. reflexivity. }
  pose proof (search_loop_alike simd idx query ef layer e1 e2 (S (length v1))
                (HNSW.mkSearch [(d, ep)] [(d, ep)] (HNSW.mark_visited v1 e1 ep))
                (HNSW.mkSearch [(d, ep)] [(d, ep)] (HNSW.mark_visited v2 e2 ep))) as Hsim.
  replace (length v2) with (length v1) by congruence.
  destruct (HNSW.search_loop simd idx query ef layer e1 _ _) as [st1|];
    destruct (HNSW.search_loop simd idx query ef layer e2 _ _) as [st2|].
  - destruct Hsim as (_ & HT & _).
    { simpl. split; [reflexivity|]. split; [reflexivity|]. apply same_marks_mark, Hfresh. }
    rewrite HT. split; reflexivity.
  - apply Hsim. simpl. split; [reflexivity|]. split; [reflexivity|].
    apply same_marks_mark, Hfresh.
  - apply Hsim. simpl. split; [reflexivity|]. split; [reflexivity|].
    apply same_marks_mark, Hfresh.
  - exact I.
Qed.

Lemma greedy_descent_alike (query : list VectorOps.float) (layers : list Z) :
  forall (idx : HNSW.t) (v : list Z) (e ep : Z),
    HNSW.scratch_ok idx -> HNSW.scratch_ok (HNSW.set_visited idx v e) ->
    match HNSW.greedy_descent simd idx query ep layers,
          HNSW.greedy_descent simd (HNSW.set_visited idx v e) query ep layers with
    | Some (ep1, i1), Some (ep2, i2) =>
        ep1 = ep2 /\ HNSW.scratch_ok i1 /\ HNSW.scratch_ok i2 /\
        i2 = HNSW.set_visited i1 (HNSW.visited_ i2) (HNSW.visited_epoch_ i2)
    | None, None => True
    | _, _ => False
    end.
Proof.
  induction layers as [|l layers IH]; intros idx v e ep Hok1 Hok2; simpl.
  - split; [reflexivity|]. split; [exact Hok1|]. split; [exact Hok2|reflexivity].
  - pose proof (search_layer_alike idx v e query ep 1 l Hok1 Hok2) as Hsim.
    destruct (HNSW.search_layer simd idx query ep 1 l) as [[r1 i1]|] eqn:E1;
      destruct (HNSW.search_layer simd (HNSW.set_visited idx v e) query ep 1 l)
        as [[r2 i2]|] eqn:E2; try contradiction; [|exact I].
    destruct Hsim as [<- Hi2].
    apply search_layer_keeps in E1 as [Hk1 _]; [|exact Hok1].
    apply search_layer_keeps in E2 as [Hk2 _]; [|exact Hok2].
    rewrite Hi2. rewrite Hi2 in Hk2. apply IH; assumption.
Qed.

(** [search] gives the same ids on two instances that hold the same index. *)
Lemma search_alike (idx : HNSW.t) (v : list Z) (e : Z)
  (query : list VectorOps.float) (k ef_search : Z) :
  HNSW.scratch_ok idx -> HNSW.scratch_ok (HNSW.set_visited idx v e) ->
  option_map fst (HNSW.search simd (HNSW.set_visited idx v e) query k ef_search)
  = option_map fst (HNSW.search simd idx query k ef_search).
Proof.
  intros Hok1 Hok2. unfold HNSW.search.
  change (HNSW.vectors_ (HNSW.set_visited idx v e)) with (HNSW.vectors_ idx).
  change (HNSW.entry_point_ (HNSW.set_visited idx v e)) with (HNSW.entry_point_ idx).
  change (HNSW.max_layer_ (HNSW.set_visited idx v e)) with (HNSW.max_layer_ idx).
  destruct (_ || _); [reflexivity|].
  pose proof (greedy_descent_alike query
                (HNSW.layers_above (HNSW.to_int32 (HNSW.max_layer_ idx)) 0)
                idx v e (HNSW.entry_point_ idx) Hok1 Hok2) as Hsim.
  destruct (HNSW.greedy_descent simd idx _ _ _) as [[ep1 i1]|];
    destruct (HNSW.greedy_descent simd (HNSW.set_visited idx v e) _ _ _) as [[ep2 i2]|];
    try contradiction; [|reflexivity].
  destruct Hsim as (<- & Hk1 & Hk2 & Hi2).
  rewrite Hi2. rewrite Hi2 in Hk2.
  pose proof (search_layer_alike i1 _ _ query ep1 ef_search 0 Hk1 Hk2) as Hsim.
  destruct (HNSW.search_layer simd i1 query ep1 ef_search 0) as [[r1 j1]|];
    destruct (HNSW.search_layer simd (HNSW.set_visited i1 _ _) query ep1 ef_search 0)
      as [[r2 j2]|]; try contradiction; [|reflexivity].
  destruct Hsim as [<- _]. reflexivity.
Qed.

(** On a built index, [search] returns. *)
Lemma search_returns (idx : HNSW.t) (next : Z) (query : list VectorOps.float) (k ef_search : Z) :
  HNSW.build_inv idx next -> next = Z.of_nat (length (HNSW.vectors_ idx)) ->
  exists ids idx', HNSW.search simd idx query k ef_search = Some (ids, idx').
Proof.
  intros Hinv Hnext. unfold HNSW.search.
  destruct ((length (HNSW.vectors_ idx) =? 0)%nat || (HNSW.entry_point_ idx =? VectorID_max))
    eqn:Eearly; [eauto|].
  apply orb_false_iff in Eearly as [_ Ene]. apply Z.eqb_neq in Ene.
  destruct (HNSW.inv_entry _ _ Hinv) as [[Hmax _]|Hentry]; [contradiction|].
  destruct (greedy_descent_ok simd query next
              (HNSW.layers_above (HNSW.to_int32 (HNSW.max_layer_ idx)) 0)
              idx (HNSW.entry_point_ idx)) as (ep & v & e & -> & Hep).
  - lia.
  - apply (HNSW.inv_ids _ _ Hinv).
  - exact Hentry.
  - destruct (search_layer_ok simd (HNSW.set_visited idx v e) query ep ef_search 0 next)
      as (res & v' & e' & -> & _).
    + simpl. lia.
    + intros j. apply (HNSW.inv_ids _ _ Hinv 0%nat j).
    + right. exact Hep.
    + eauto.
Qed.

End SearchScratchFacts.

(** *** The shape of a built index *)

Lemma node_shape_ensure_layers (n : Z) (node : HNSW.Node) :
  0 <= n < two64 -> HNSW.node_shape node -> HNSW.node_shape (HNSW.ensure_layers n node).
Proof.
  intros Hn [Hid Hlen]. unfold HNSW.ensure_layers.
  destruct (_ <? n); [|split; assumption].
  split; simpl; [exact Hid|]. rewrite length_resize. lia.
Qed.

Lemma node_shape_update_layer (l : Z) (f : list Z -> list Z) (node : HNSW.Node) :
  HNSW.node_shape node -> HNSW.node_shape (HNSW.update_layer l f node).
Proof.
  intros [Hid Hlen]. unfold HNSW.update_layer. split; simpl; [exact Hid|].
  rewrite length_alter. exact Hlen.
Qed.

Lemma node_shape_update_node (nodes : list HNSW.Node) (id : Z) (f : HNSW.Node -> HNSW.Node) :
  (forall node, HNSW.node_shape node -> HNSW.node_shape (f node)) ->
  Forall HNSW.node_shape nodes -> Forall HNSW.node_shape (HNSW.update_node nodes id f).
Proof.
  intros Hf Hnodes. unfold HNSW.update_node. apply Forall_alter; [exact Hnodes|].
  intros node _. apply Hf.
Qed.

Lemma shape_set_graph (idx : HNSW.t) (nodes : list HNSW.Node) (entry max_layer : Z) :
  HNSW.shape_inv idx -> Forall HNSW.node_shape nodes -> in_u64 max_layer ->
  HNSW.shape_inv (HNSW.set_graph idx nodes entry max_layer).
Proof.
  intros [Hn Hm Hs] Hnodes Hmax. constructor; simpl; [exact Hnodes|exact Hmax|exact Hs].
Qed.

Lemma shape_set_nodes (idx : HNSW.t) (nodes : list HNSW.Node) :
  HNSW.shape_inv idx -> Forall HNSW.node_shape nodes ->
  HNSW.shape_inv (HNSW.set_nodes idx nodes).
Proof.
  intros H Hnodes. apply shape_set_graph; [exact H|exact Hnodes|apply H].
Qed.

Section ShapeFacts.
Context (simd : VectorOps.isa).

Lemma shape_search_layer (idx idx' : HNSW.t) (query : list VectorOps.float)
  (ep ef layer : Z) (res : list (Z * VectorOps.float)) :
  HNSW.search_layer simd idx query ep ef layer = Some (res, idx') ->
  HNSW.shape_inv idx -> HNSW.shape_inv idx'.
Proof.
  intros Hrun [Hn Hm Hs].
  destruct (search_layer_keeps simd _ _ _ _ _ _ _ Hrun Hs) as [Hs' Hidx].
  constructor; [rewrite Hidx; exact Hn|rewrite Hidx; exact Hm|exact Hs'].
Qed.

Lemma shape_greedy_descent (query : list VectorOps.float) (layers : list Z) :
  forall (idx idx' : HNSW.t) (ep ep' : Z),
    HNSW.greedy_descent simd idx query ep layers = Some (ep', idx') ->
    HNSW.shape_inv idx -> HNSW.shape_inv idx'.
Proof.
  induction layers as [|l layers IH]; intros idx idx' ep ep' Hrun H; simpl in Hrun.
  - injection Hrun as _ <-. exact H.
  - destruct (HNSW.search_layer simd idx query ep 1 l) as [[res idx1]|] eqn:E; [|discriminate].
    eapply IH; [exact Hrun|]. eapply shape_search_layer; eassumption.
Qed.

Lemma shape_add_back_edge (idx : HNSW.t) (l id nb : Z) :
  HNSW.shape_inv idx -> HNSW.shape_inv (HNSW.add_back_edge simd idx l id nb).
Proof.
  intros H. unfold HNSW.add_back_edge. apply shape_set_nodes; [exact H|].
  apply node_shape_update_node; [|apply H].
  intros node Hnode. apply node_shape_update_layer, node_shape_ensure_layers;
    [apply wrap64_range|exact Hnode].
Qed.

Lemma shape_connect (l id : Z) (idx : HNSW.t) (nb : Z) :
  HNSW.shape_inv idx -> HNSW.shape_inv (HNSW.connect simd l id idx nb).
Proof.
  intros H. unfold HNSW.connect. apply shape_add_back_edge, shape_set_nodes; [exact H|].
  apply node_shape_update_node; [|apply H].
  intros node Hnode. apply node_shape_update_layer, Hnode.
Qed.

Lemma shape_connect_fold (l id : Z) (neigh_ids : list Z) : forall idx,
  HNSW.shape_inv idx -> HNSW.shape_inv (fold_left (HNSW.connect simd l id) neigh_ids idx).
Proof.
  induction neigh_ids as [|nb rest IH]; intros idx H; simpl; [exact H|].
  apply IH, shape_connect, H.
Qed.

Lemma shape_connect_layers (id : Z) (vec : list VectorOps.float) (ep : Z) (layers : list Z) :
  forall idx idx',
    HNSW.connect_layers simd idx id vec ep layers = Some idx' ->
    HNSW.shape_inv idx -> HNSW.shape_inv idx'.
Proof.
  induction layers as [|l layers IH]; intros idx idx' Hrun H; simpl in Hrun.
  - injection Hrun as <-. exact H.
  - destruct (HNSW.connect_layer simd idx id vec ep l) as [idx1|] eqn:E; [|discriminate].
    eapply IH; [exact Hrun|]. unfold HNSW.connect_layer in E.
    destruct (HNSW.search_layer simd idx vec ep _ l) as [[cands idx0]|] eqn:Es; [|discriminate].
    injection E as <-. apply shape_connect_fold.
    pose proof (shape_search_layer _ _ _ _ _ _ _ Es H) as H0.
    apply shape_set_nodes; [exact H0|].
    apply node_shape_update_node; [|apply H0].
    intros node Hnode. apply node_shape_ensure_layers; [apply wrap64_range|exact Hnode].
Qed.

Lemma shape_insert_node (idx idx' : HNSW.t) (level id : Z) (vec : list VectorOps.float) :
  HNSW.insert_node simd idx level id vec = Some idx' ->
  in_u64 id -> in_u64 level ->
  HNSW.shape_inv idx -> HNSW.shape_inv idx'.
Proof.
  intros Hrun Hid Hlevel H. unfold HNSW.insert_node in Hrun.
  set (nodes1 := if _ <=? id then _ else _) in Hrun.
  set (nodes2 := HNSW.update_node nodes1 id _) in Hrun.
  assert (H1 : Forall HNSW.node_shape nodes1).
  { unfold nodes1. destruct (_ <=? id); [|apply H].
    apply Forall_resize; [|apply H]. split; simpl; [unfold in_u64, two64; lia|unfold two64; lia]. }
  assert (H2 : Forall HNSW.node_shape nodes2).
  { unfold nodes2. apply node_shape_update_node; [|exact H1].
    intros node [_ Hlen]. apply node_shape_ensure_layers; [apply wrap64_range|].
    split; simpl; assumption. }
  pose proof (shape_set_nodes idx nodes2 H H2) as Hs1.
  destruct (_ =? VectorID_max).
  { injection Hrun as <-. apply shape_set_graph; assumption. }
  destruct (if level <? _ then _ else _) as [[ep idx2]|] eqn:Eg; [|discriminate].
  assert (Hs2 : HNSW.shape_inv idx2).
  { destruct (level <? _).
    - eapply shape_greedy_descent; eassumption.
    - injection Eg as _ <-. exact Hs1. }
  destruct (HNSW.connect_layers simd idx2 id vec ep _) as [idx3|] eqn:Ec; [|discriminate].
  pose proof (shape_connect_layers _ _ _ _ _ _ Ec Hs2) as Hs3.
  destruct (_ <? level); injection Hrun as <-; [|exact Hs3].
  apply shape_set_graph; [exact Hs3|apply Hs3|exact Hlevel].
Qed.

Lemma shape_insert_all (levels : Z -> Z) (ids : list Z) : forall idx idx',
  HNSW.insert_all simd idx levels ids = Some idx' ->
  Forall in_u64 ids -> (forall id, in_u64 (levels id)) ->
  HNSW.shape_inv idx -> HNSW.shape_inv idx'.
Proof.
  induction ids as [|id ids IH]; intros idx idx' Hrun Hids Hlevels H; simpl in Hrun.
  - injection Hrun as <-. exact H.
  - apply Forall_cons in Hids as [Hid Hids].
    destruct (HNSW.insert_node simd idx _ id _) as [idx1|] eqn:E; [|discriminate].
    eapply IH; [exact Hrun|exact Hids|exact Hlevels|].
    eapply shape_insert_node; [exact E|exact Hid|apply Hlevels|exact H].
Qed.

(** A build on a new instance leaves well-shaped nodes and scratch state. *)
Lemma shape_build (dim M ef_construction : Z) (metric : VectorOps.DistanceMetric)
  (levels : Z -> Z) (data : list (list Z)) (idx : HNSW.t) :
  HNSW.build simd (HNSW.make dim M ef_construction metric) levels data = Some idx ->
  Z.of_nat (length data) < two64 -> (forall id, in_u64 (levels id)) ->
  HNSW.shape_inv idx.
Proof.
  intros Hrun Hsize Hlevels. unfold HNSW.build in Hrun.
  eapply shape_insert_all; [exact Hrun| |exact Hlevels|].
  - apply List.Forall_forall. intros x Hx. apply in_map_iff in Hx as (i & <- & Hi).
    apply in_seq in Hi. unfold in_u64. lia.
  - constructor; simpl.
    + apply Forall_replicate. split; simpl; [unfold in_u64, two64; lia|unfold two64; lia].
    + unfold in_u64, two64. lia.
    + unfold HNSW.scratch_ok. simpl. split; [lia|]. split; [constructor|lia].
Qed.

End ShapeFacts.

Lemma layer_cap_u64 (idx : HNSW.t) (l : Z) : in_u64 (HNSW.M_ idx) -> HNSW.layer_cap idx l < two64.
Proof.
  intros HM. unfold HNSW.layer_cap. destruct (l =? 0); [apply wrap64_range|apply HM].
Qed.

(** Every number a built index holds is in the range of its field of the
    file. *)
Lemma built_fits (idx : HNSW.t) :
  HNSW.build_inv idx (Z.of_nat (length (HNSW.vectors_ idx))) -> HNSW.shape_inv idx ->
  0 <= HNSW.dim_ idx <= HNSW.max_floats -> in_u64 (HNSW.M_ idx) ->
  in_u64 (HNSW.ef_construction_ idx) -> - 2 ^ 31 <= HNSW.metric_ idx < 2 ^ 31 ->
  Forall (HNSW.vector_fits (HNSW.dim_ idx)) (HNSW.vectors_ idx) ->
  HNSW.fits idx.
Proof.
  intros Hinv Hshape Hdim HM Hefc Hmetric Hvec.
  constructor; try assumption.
  - destruct (HNSW.inv_entry _ _ Hinv) as [[-> _]|Hentry].
    + unfold in_u64, VectorID_max, two64. lia.
    + pose proof (HNSW.inv_size _ _ Hinv). unfold in_u64. lia.
  - apply Hshape.
  - apply (HNSW.inv_size _ _ Hinv).
  - rewrite (HNSW.inv_len _ _ Hinv). apply (HNSW.inv_size _ _ Hinv).
  - apply Forall_lookup. intros j node Hj.
    pose proof (proj1 (Forall_lookup _ _) (HNSW.shape_nodes _ Hshape) j node Hj) as [Hid Hlen].
    split; [exact Hid|]. split; [exact Hlen|].
    apply Forall_lookup. intros l layer_nbrs Hl.
    assert (Hadj : HNSW.adj idx j l = layer_nbrs).
    { unfold HNSW.adj, HNSW.layer_of. rewrite Hj, Hl. reflexivity. }
    split.
    + pose proof (HNSW.inv_cap _ _ Hinv j l) as Hcap. rewrite Hadj in Hcap.
      pose proof (layer_cap_u64 idx (Z.of_nat l) HM). lia.
    + pose proof (HNSW.inv_ids _ _ Hinv l j) as Hids. rewrite Hadj in Hids.
      pose proof (HNSW.inv_size _ _ Hinv).
      eapply Forall_impl; [exact Hids|]. simpl. intros x Hx. unfold in_u64. lia.
Qed.

Section RoundTrip.
Context (simd : VectorOps.isa) {FS : Type} {files : HNSW.BinaryFiles FS}.

(** C4.  Build an index on a new instance (any parameters, any levels, any
    data of [dim]-component vectors; the sizes fit the machine), save it,
    and let the file read back as it was written.  Then [load] into a new
    instance returns [true]; the loaded instance has the same adjacency
    lists at every node and layer, the same entry point and the same top
    layer; and every search (any query, any [k], so also the top-1 search,
    any [ef_search]) returns on both and returns the same ids. *)
Theorem save_load_round_trip
  (dim M ef_construction : Z) (metric : VectorOps.DistanceMetric)
  (levels : Z -> Z) (data : list (list Z)) (idx : HNSW.t)
  (dim' M' ef_construction' : Z) (metric' : VectorOps.DistanceMetric)
  (fs fs' : FS) (path : string) :
  0 <= dim <= HNSW.max_floats -> in_u64 M -> in_u64 ef_construction ->
  Z.of_nat (length data) < two64 ->
  (forall id, in_u64 (levels id)) ->
  Forall (HNSW.vector_fits dim) data ->
  HNSW.build simd (HNSW.make dim M ef_construction metric) levels data = Some idx ->
  HNSW.save fs path idx = (true, fs') ->
  HNSW.read_file fs' path = Some (HNSW.save_bytes idx) ->
  exists loaded,
    HNSW.load fs' path (HNSW.make dim' M' ef_construction' metric') = Some loaded /\
    HNSW.export_graph loaded = HNSW.export_graph idx /\
    (forall n l, HNSW.neighbors_at loaded n l = HNSW.neighbors_at idx n l) /\
    HNSW.entry_point_ loaded = HNSW.entry_point_ idx /\
    HNSW.max_layer_ loaded = HNSW.max_layer_ idx /\
    forall (query : list VectorOps.float) (k ef_search : Z),
      exists ids idx' loaded',
        HNSW.search simd idx query k ef_search = Some (ids, idx') /\
        HNSW.search simd loaded query k ef_search = Some (ids, loaded').
Proof.
  intros Hdim HM Hefc Hsize Hlevels Hdata Hbuild _ Hread.
  pose proof (shape_build simd _ _ _ _ _ _ _ Hbuild Hsize Hlevels) as Hshape.
  destruct (build_ok simd (HNSW.make dim M ef_construction metric) levels data
              ltac:(apply HM) Hsize) as (idx0 & Hbuild0 & Hinv & Hp).
  rewrite Hbuild in Hbuild0. injection Hbuild0 as <-.
  destruct Hp as (Hpd & HpM & Hpe & Hpm & Hpv). simpl in Hpd, HpM, Hpe, Hpm, Hpv.
  rewrite <- Hpv in Hinv.
  assert (Hfits : HNSW.fits idx).
  { apply built_fits; try assumption.
    - rewrite Hpd. exact Hdim.
    - rewrite HpM. exact HM.
    - rewrite Hpe. exact Hefc.
    - rewrite Hpm. destruct metric; simpl; lia.
    - rewrite Hpd, Hpv. exact Hdata. }
  exists (HNSW.set_visited idx [] 0).
  split.
  { unfold HNSW.load. rewrite Hread.
    rewrite <- (app_nil_r (HNSW.save_bytes idx)).
    rewrite (load_bytes_save_bytes idx _ [] Hfits). reflexivity. }
  split; [reflexivity|]. split; [reflexivity|]. split; [reflexivity|]. split; [reflexivity|].
  intros query k ef_search.
  destruct (search_returns simd idx _ query k ef_search Hinv eq_refl) as (ids & idx' & Hs).
  assert (Hok : HNSW.scratch_ok (HNSW.set_visited idx [] 0)).
  { unfold HNSW.scratch_ok. simpl. split; [lia|]. split; [constructor|lia]. }
  pose proof (search_alike simd idx [] 0 query k ef_search (HNSW.shape_scratch _ Hshape) Hok)
    as Halike.
  rewrite Hs in Halike.
  destruct (HNSW.search simd (HNSW.set_visited idx [] 0) query k ef_search)
    as [[ids2 loaded']|]; [|discriminate].
  simpl in Halike. injection Halike as ->.
  exists ids, idx', loaded'. split; [exact Hs|reflexivity].
Qed.

End RoundTrip.

(** Scenario C: the line index of scenario B, saved to a file and loaded
    into a new instance. *)
Lemma save_load_round_trip_witness :
  exists loaded,
    HNSW.load (files := MapFiles.MapFiles_BinaryFiles)
              ScenarioC.saved ScenarioC.path ScenarioC.fresh = Some loaded /\
    HNSW.export_graph loaded = HNSW.export_graph ScenarioC.built /\
    (forall n l, HNSW.neighbors_at loaded n l = HNSW.neighbors_at ScenarioC.built n l) /\
    HNSW.entry_point_ loaded = HNSW.entry_point_ ScenarioC.built /\
    HNSW.max_layer_ loaded = HNSW.max_layer_ ScenarioC.built /\
    forall (query : list VectorOps.float) (k ef_search : Z),
      exists ids idx' loaded',
        HNSW.search VectorOps.Scalar ScenarioC.built query k ef_search = Some (ids, idx') /\
        HNSW.search VectorOps.Scalar loaded query k ef_search = Some (ids, loaded').
Proof.
  apply (save_load_round_trip VectorOps.Scalar (files := MapFiles.MapFiles_BinaryFiles)
           2 4 50 VectorOps.L2 ScenarioB.levels ScenarioB.data ScenarioC.built
           0 0 0 VectorOps.L2 ∅ ScenarioC.saved ScenarioC.path).
  - split; vm_compute; discriminate.
  - split; vm_compute; [discriminate|reflexivity].
  - split; vm_compute; [discriminate|reflexivity].
  - vm_compute. reflexivity.
  - intros id. unfold ScenarioB.levels, in_u64, two64.
    destruct (_ || _); [lia|]. destruct (_ =? _); lia.
  - repeat (constructor; [split; [reflexivity|repeat constructor; vm_compute; congruence]|]).
    constructor.
  - vm_compute. reflexivity.
  - vm_compute. reflexivity.
  - vm_compute. reflexivity.
Defined.

(** ** In-memory backend: payloads *)

Section MemoryPayloadFacts.
Context {float : Type}.
Import MemoryBackend.
Local Abbreviation VectorData := (list float).
Local Abbreviation mem := (MemoryBackend.t float).
Local Abbreviation mop := (MemoryBackend.op float).

(** Slot [id] is present and holds [data]. *)
Local Abbreviation stored st id data :=
  (present_ st !! Z.to_nat id = Some true /\ data_ st !! Z.to_nat id = Some data).

Lemma mem_read_stored (st : mem) (id : Z) (out data : VectorData) :
  0 <= id -> stored st id data -> fst (read_node st id out) = (true, data).
Proof.
  intros Hid [Hp Hd]. unfold read_node, present_at.
  pose proof (lookup_lt_Some _ _ _ Hp) as Hlp.
  pose proof (lookup_lt_Some _ _ _ Hd) as Hld.
  destruct (Z.leb_spec (Z.of_nat (length (data_ st))) id); [lia|].
  destruct (Z.leb_spec (Z.of_nat (length (present_ st))) id); [lia|].
  rewrite Hp, Hd. reflexivity.
Qed.

Lemma mem_write_stores (st : mem) (id : Z) (data : VectorData) :
  mem_inv st -> 0 <= id < two64 - 1 -> stored (snd (write_node st id data)) id data.
Proof.
  intros Hinv Hid. unfold write_node; simpl.
  assert (Hw : Z.to_nat (wrap64 (id + 1)) = S (Z.to_nat id)).
  { rewrite wrap64_small by (unfold two64 in *; lia). lia. }
  rewrite Hw. unfold mem_inv in Hinv.
  destruct (Z.leb_spec (Z.of_nat (length (data_ st))) id).
  - split; apply list_lookup_insert_eq; rewrite length_resize; lia.
  - split; apply list_lookup_insert_eq; lia.
Qed.

Lemma mem_write_other (st : mem) (wid id : Z) (d data : VectorData) :
  0 <= wid < two64 - 1 -> 0 <= id -> id <> wid ->
  stored st id data -> stored (snd (write_node st wid d)) id data.
Proof.
  intros Hwid Hid Hne [Hp Hd]. unfold write_node; simpl.
  pose proof (lookup_lt_Some _ _ _ Hp) as Hlp.
  pose proof (lookup_lt_Some _ _ _ Hd) as Hld.
  assert (Hn : Z.to_nat wid <> Z.to_nat id) by lia.
  rewrite !list_lookup_insert_ne by exact Hn.
  destruct (Z.leb_spec (Z.of_nat (length (data_ st))) wid); [|auto].
  rewrite wrap64_small by (unfold two64 in *; lia).
  rewrite !lookup_resize by lia. auto.
Qed.

Lemma mem_step_stored (st : mem) (o : mop) (id : Z) (data : VectorData) :
  op_ok o -> 0 <= id ->
  (forall d, o <> OpWrite id d) ->
  stored st id data -> stored (step st o) id data.
Proof.
  intros Hok Hid Hno Hst. destruct o as [wid d|rid|ids|]; cbn [step].
  - simpl in Hok. apply mem_write_other; [exact Hok|exact Hid| |exact Hst].
    intros ->. exact (Hno d eq_refl).
  - destruct (mem_read_node_frame st rid []) as [-> ->]. exact Hst.
  - unfold batch_read_nodes.
    destruct (mem_batch_read_frame ids st [] true) as [-> ->]. exact Hst.
  - exact Hst.
Qed.

(** Read-your-writes.  In every program of calls on a fresh backend, a read
    of [id] returns the payload of the last [write_node(id, _)], whatever was
    written to other ids, read or reset in between. *)
Theorem memory_read_returns_last_write
  (pre post : list mop) (id : Z) (data out : VectorData) :
  Forall op_ok (pre ++ OpWrite id data :: post) -> 0 <= id ->
  (forall d, ~ In (OpWrite id d) post) ->
  fst (read_node (run (pre ++ OpWrite id data :: post)) id out) = (true, data).
Proof.
  intros Hok Hid Hlast. apply mem_read_stored; [exact Hid|].
  induction post as [|o post IH] using rev_ind.
  - rewrite mem_run_snoc. cbn [step].
    apply Forall_app in Hok as [_ Hw]. apply Forall_inv in Hw. simpl in Hw.
    apply mem_write_stores; [apply mem_run_inv|exact Hw].
  - rewrite app_comm_cons, app_assoc, mem_run_snoc.
    rewrite app_comm_cons, app_assoc in Hok. apply Forall_app in Hok as [Hok Ho].
    apply Forall_inv in Ho.
    apply mem_step_stored; [exact Ho|exact Hid| |].
    + intros d ->. apply (Hlast d). apply in_or_app. right. left. reflexivity.
    + apply IH; [exact Hok|].
      intros d Hin. apply (Hlast d). apply in_or_app. left. exact Hin.
Qed.

Lemma mem_read_same (st st' : mem) (id : Z) (out : VectorData) :
  data_ st' = data_ st -> present_ st' = present_ st ->
  fst (read_node st' id out) = fst (read_node st id out).
Proof.
  intros Hd Hp. unfold read_node, present_at. rewrite Hd, Hp.
  destruct (_ || _ || _); reflexivity.
Qed.

Lemma mem_read_node_count (st : mem) (id : Z) (out : VectorData) :
  wrap64 (num_reads (stats_ (snd (read_node st id out))))
  = wrap64 (num_reads (stats_ st) + (if read_ok st id then 1 else 0)).
Proof.
  unfold read_ok, read_node. destruct (_ || _ || _); simpl.
  - rewrite Z.add_0_r. reflexivity.
  - unfold wrap64. rewrite Z.mod_mod by (unfold two64; lia). reflexivity.
Qed.

Lemma mem_batch_read_loop_spec (st0 : mem) (ids : list Z) : forall (st : mem) acc ok,
  data_ st = data_ st0 -> present_ st = present_ st0 ->
  let r := batch_read_loop st ids acc ok in
  fst (fst r) = ok && forallb (read_ok st0) ids /\
  snd (fst r) = acc ++ map (fun id => snd (fst (read_node st0 id []))) ids /\
  wrap64 (num_reads (stats_ (snd r)))
  = wrap64 (num_reads (stats_ st)
            + Z.of_nat (length (List.filter (read_ok st0) ids))).
Proof.
  induction ids as [|id ids IH]; intros st acc ok Hd Hp; cbv zeta; simpl.
  - rewrite andb_true_r, app_nil_r, Z.add_0_r. auto.
  - pose proof (mem_read_same st0 st id [] Hd Hp) as Hsame.
    pose proof (mem_read_node_frame st id []) as [Hd1 Hp1].
    pose proof (mem_read_node_count st id []) as Hc.
    assert (Hok : read_ok st id = read_ok st0 id).
    { unfold read_ok. rewrite Hsame. reflexivity. }
    rewrite Hok in Hc.
    destruct (read_node st id []) as [[r d] st1]. simpl in Hsame, Hd1, Hp1, Hc.
    destruct (IH st1 (acc ++ [d]) (ok && r)) as (H1 & H2 & H3);
      [congruence|congruence|]. cbv zeta in H1, H2, H3.
    rewrite H1, H2, H3.
    assert (Hr : r = read_ok st0 id).
    { unfold read_ok. rewrite <- Hsame. reflexivity. }
    assert (Hdd : d = snd (fst (read_node st0 id []))) by (rewrite <- Hsame; reflexivity).
    split; [rewrite Hr, andb_assoc; reflexivity|].
    split; [rewrite <- app_assoc, Hdd; reflexivity|].
    destruct (read_ok st0 id); simpl length.
    + rewrite <- (wrap64_add_l (num_reads (stats_ st1))), Hc, wrap64_add_l. f_equal. lia.
    + rewrite <- (wrap64_add_l (num_reads (stats_ st1))), Hc, wrap64_add_l. f_equal. lia.
Qed.

(** [batch_read_nodes] is one [read_node] per id: it returns the payloads
    (an empty vector for an id that cannot be read) in the order of the
    request; the flag tells whether every id could be read; the stored
    vectors and presence bits are untouched; and [num_reads] grows (modulo
    [2^64]) by the number of ids that could be read. *)
Theorem memory_batch_read_is_pointwise (st : mem) (ids : list Z) :
  let r := batch_read_nodes st ids in
  fst (fst r) = forallb (read_ok st) ids /\
  snd (fst r) = map (fun id => snd (fst (read_node st id []))) ids /\
  data_ (snd r) = data_ st /\ present_ (snd r) = present_ st /\
  wrap64 (num_reads (stats_ (snd r)))
  = wrap64 (num_reads (stats_ st) + Z.of_nat (length (List.filter (read_ok st) ids))).
Proof.
  cbv zeta. unfold batch_read_nodes.
  destruct (mem_batch_read_loop_spec st ids st [] true eq_refl eq_refl) as (H1 & H2 & H3).
  destruct (mem_batch_read_frame ids st [] true) as [H4 H5].
  cbv zeta in H1, H2, H3. rewrite H1, H2. auto.
Qed.

End MemoryPayloadFacts.

(** A program that writes ids 0 and 3, overwrites 0, reads and resets: the
    read of id 0 gives the second payload. *)
Lemma memory_read_returns_last_write_witness :
  fst (MemoryBackend.read_node
         (MemoryBackend.run
            ([MemoryBackend.OpWrite 0 [1; 2]; MemoryBackend.OpWrite 3 [7; 8]]
             ++ MemoryBackend.OpWrite 0 [5; 6]
             :: [MemoryBackend.OpRead 3; MemoryBackend.OpWrite 1 [9]; MemoryBackend.OpResetStats]))
         0 [])
  = (true, [5; 6]).
Proof.
  apply (memory_read_returns_last_write
           [MemoryBackend.OpWrite 0 [1; 2]; MemoryBackend.OpWrite 3 [7; 8]]
           [MemoryBackend.OpRead 3; MemoryBackend.OpWrite 1 [9]; MemoryBackend.OpResetStats]
           0 [5; 6] []).
  - repeat constructor; unfold two64; simpl; lia.
  - lia.
  - intros d [H|[H|[H|[]]]]; discriminate H.
Defined.

(** ** LRU policy *)

Section LRUFacts.
Import PolicyProgram.

Lemma filter_ne_id (id : Z) (l : list Z) :
  id ∉ l -> filter (fun y => y <> id) l = l.
Proof.
  induction l as [|x l IH]; intros Hn; [reflexivity|].
  apply not_elem_of_cons in Hn as [Hne Hn].
  rewrite filter_cons_True by congruence. rewrite IH by exact Hn. reflexivity.
Qed.

Lemma remove_first_filter (id : Z) (l : list Z) :
  NoDup l -> remove_first id l = filter (fun y => y <> id) l.
Proof.
  induction 1 as [|x l Hx Hnd IH]; simpl; [reflexivity|].
  destruct (Z.eqb_spec x id) as [->|Hne].
  - rewrite filter_cons_False by tauto. symmetry. apply filter_ne_id, Hx.
  - rewrite filter_cons_True by exact Hne. rewrite IH. reflexivity.
Qed.

Lemma take_filter_resident (id : Z) (D : list Z) : forall c,
  NoDup D -> id ∈ take (S c) D ->
  filter (fun y => y <> id) (take (S c) D) = take c (filter (fun y => y <> id) D).
Proof.
  induction D as [|x D IH]; intros c Hnd Hin; [inversion Hin|].
  apply NoDup_cons in Hnd as [Hx Hnd]. simpl take in *.
  destruct (decide (x = id)) as [->|Hne].
  - rewrite !filter_cons_False by tauto.
    rewrite (filter_ne_id id D Hx). apply filter_ne_id.
    intros H. apply Hx. rewrite <- (take_drop c D). apply elem_of_app. left. exact H.
  - rewrite !filter_cons_True by exact Hne.
    apply elem_of_cons in Hin as [Heq|Hin]; [congruence|].
    destruct c as [|c]; [inversion Hin|].
    simpl. f_equal. apply IH; assumption.
Qed.

Lemma take_filter_absent (id : Z) (D : list Z) : forall n,
  id ∉ take n D -> take n (filter (fun y => y <> id) D) = take n D.
Proof.
  induction D as [|x D IH]; intros n Hn; [reflexivity|].
  destruct n as [|n]; [reflexivity|]. simpl in Hn.
  apply not_elem_of_cons in Hn as [Hne Hn].
  rewrite filter_cons_True by congruence. simpl. f_equal. apply IH, Hn.
Qed.

Lemma elem_of_take_le (n m : nat) (x : Z) (l : list Z) :
  (n <= m)%nat -> x ∈ take n l -> x ∈ take m l.
Proof.
  intros Hle H. replace n with (n `min` m)%nat in H by lia.
  rewrite <- take_take in H.
  rewrite <- (take_drop n (take m l)). apply elem_of_app. left. exact H.
Qed.

Lemma mru_NoDup (h : list Z) : NoDup (mru h).
Proof.
  induction h as [|x h IH]; simpl; [constructor|].
  apply NoDup_cons. split.
  - intros Hin. apply list_elem_of_filter in Hin as [Hne _]. congruence.
  - apply NoDup_filter, IH.
Qed.

(** Inside the invariant, [size()] is the length of the list. *)
Lemma lru_size_length (st : LRUCachePolicy.t) :
  lru_inv st -> LRUCachePolicy.size st = Z.of_nat (length (LRUCachePolicy.lru_list_ st)).
Proof.
  intros (Hnd & Hsame & _). unfold LRUCachePolicy.size. f_equal.
  assert (HE : LRUCachePolicy.map_ st = list_to_set (LRUCachePolicy.lru_list_ st)).
  { apply set_eq. intros x. rewrite Hsame, elem_of_list_to_set. reflexivity. }
  rewrite HE. apply size_list_to_set, Hnd.
Qed.

Lemma removelast_spec (l : list Z) :
  l <> [] -> l = removelast l ++ [List.last l 0].
Proof. intros H. apply app_removelast_last, H. Qed.

Lemma lru_inv_touch (st : LRUCachePolicy.t) (id : Z) :
  lru_inv st -> lru_inv (LRUCachePolicy.record_access st id).
Proof.
  intros (Hnd & Hsame & Hcap). unfold LRUCachePolicy.record_access.
  destruct (decide (id ∈ LRUCachePolicy.map_ st)) as [Hin|Hout]; [|repeat split; auto; apply Hsame].
  rewrite (remove_first_filter id _ Hnd). unfold lru_inv. simpl.
  apply Hsame in Hin.
  split; [|split].
  - apply NoDup_cons. split; [|apply NoDup_filter, Hnd].
    intros H. apply list_elem_of_filter in H as [Hne _]. congruence.
  - intros x. rewrite Hsame, elem_of_cons, list_elem_of_filter.
    destruct (decide (x = id)) as [->|]; tauto.
  - pose proof (length_filter (fun y => y <> id) (LRUCachePolicy.lru_list_ st)) as Hl.
    assert (Hlt : (length (filter (fun y => y <> id) (LRUCachePolicy.lru_list_ st))
                   < length (LRUCachePolicy.lru_list_ st))%nat).
    { apply list_elem_of_split in Hin as (l1 & l2 & E). rewrite E.
      rewrite filter_app, filter_cons_False by tauto. rewrite !length_app. simpl.
      pose proof (length_filter (fun y => y <> id) l1).
      pose proof (length_filter (fun y => y <> id) l2). lia. }
    lia.
Qed.

Lemma lru_inv_insert (st : LRUCachePolicy.t) (id v : Z) :
  0 <= LRUCachePolicy.capacity_ st ->
  lru_inv st -> lru_inv (snd (LRUCachePolicy.on_insert st id v)).
Proof.
  intros Hc Hinv. pose proof (lru_size_length st Hinv) as Hsz.
  unfold LRUCachePolicy.on_insert.
  destruct (Z.eqb_spec (LRUCachePolicy.capacity_ st) 0) as [_|Hc0]; [exact Hinv|].
  destruct (decide (id ∈ LRUCachePolicy.map_ st)) as [Hin|Hout]; [apply lru_inv_touch, Hinv|].
  destruct Hinv as (Hnd & Hsame & Hcap).
  assert (Hnl : id ∉ LRUCachePolicy.lru_list_ st) by (rewrite <- Hsame; exact Hout).
  rewrite Hsz.
  destruct (Z.leb_spec (LRUCachePolicy.capacity_ st)
              (Z.of_nat (length (LRUCachePolicy.lru_list_ st)))) as [Hfull|Hroom];
    unfold lru_inv; simpl.
  - assert (Hne : LRUCachePolicy.lru_list_ st <> []).
    { intros E. rewrite E in Hfull. simpl in Hfull. lia. }
    pose proof (removelast_spec _ Hne) as Hsplit.
    set (body := removelast (LRUCachePolicy.lru_list_ st)) in *.
    set (victim := List.last (LRUCachePolicy.lru_list_ st) 0) in *.
    rewrite Hsplit in Hnd, Hnl.
    apply NoDup_app in Hnd as (Hnb & Hdisj & _).
    apply not_elem_of_app in Hnl as [Hnb' Hnv].
    split; [|split].
    + apply NoDup_cons. auto.
    + intros x. rewrite elem_of_union, elem_of_singleton, elem_of_difference,
        elem_of_singleton, Hsame, elem_of_cons, Hsplit, elem_of_app, list_elem_of_singleton.
      split.
      * intros [->|[[Hb|Hv] Hnv']]; [left; reflexivity|right; exact Hb|contradiction].
      * intros [->|Hb]; [left; reflexivity|].
        right. split; [left; exact Hb|].
        intros ->. apply (Hdisj victim Hb). left.
    + assert (Hlen : length (LRUCachePolicy.lru_list_ st) = S (length body)).
      { rewrite Hsplit at 1. rewrite length_app. simpl. lia. }
      lia.
  - split; [|split].
    + apply NoDup_cons. auto.
    + intros x. rewrite elem_of_union, elem_of_singleton, Hsame, elem_of_cons. reflexivity.
    + lia.
Qed.

Lemma lru_inv_erase (st : LRUCachePolicy.t) (id : Z) :
  lru_inv st -> lru_inv (LRUCachePolicy.erase st id).
Proof.
  intros (Hnd & Hsame & Hcap). unfold LRUCachePolicy.erase.
  destruct (decide (id ∈ LRUCachePolicy.map_ st)) as [Hin|Hout]; [|repeat split; auto; apply Hsame].
  rewrite (remove_first_filter id _ Hnd). unfold lru_inv. simpl.
  split; [apply NoDup_filter, Hnd|]. split.
  - intros x. rewrite elem_of_difference, elem_of_singleton, Hsame, list_elem_of_filter. tauto.
  - pose proof (length_filter (fun y => y <> id) (LRUCachePolicy.lru_list_ st)). lia.
Qed.

Lemma lru_step_capacity (st : LRUCachePolicy.t) (o : op) :
  LRUCachePolicy.capacity_ (lru_step st o) = LRUCachePolicy.capacity_ st.
Proof.
  destruct o as [id|id|id|]; simpl.
  - unfold LRUCachePolicy.on_insert, LRUCachePolicy.record_access.
    destruct (_ =? 0); [reflexivity|].
    destruct (decide _); [reflexivity|]. destruct (_ <=? _); reflexivity.
  - unfold LRUCachePolicy.record_access. destruct (decide _); reflexivity.
  - unfold LRUCachePolicy.erase. destruct (decide _); reflexivity.
  - reflexivity.
Qed.

Lemma lru_inv_step (st : LRUCachePolicy.t) (o : op) :
  0 <= LRUCachePolicy.capacity_ st -> lru_inv st -> lru_inv (lru_step st o).
Proof.
  intros Hc Hinv. destruct o as [id|id|id|]; simpl.
  - apply lru_inv_insert; assumption.
  - apply lru_inv_touch, Hinv.
  - apply lru_inv_erase, Hinv.
  - unfold lru_inv. simpl. split; [constructor|]. split; [|lia].
    intros x. rewrite elem_of_empty, elem_of_nil. reflexivity.
Qed.

Lemma lru_run_snoc (capacity : Z) (ops : list op) (o : op) :
  lru_run capacity (ops ++ [o]) = lru_step (lru_run capacity ops) o.
Proof. unfold lru_run. rewrite fold_left_app. reflexivity. Qed.

Lemma lru_run_capacity (capacity : Z) (ops : list op) :
  LRUCachePolicy.capacity_ (lru_run capacity ops) = capacity.
Proof.
  induction ops as [|o ops IH] using rev_ind; [reflexivity|].
  rewrite lru_run_snoc, lru_step_capacity. exact IH.
Qed.

Lemma lru_run_inv (capacity : Z) (ops : list op) :
  0 <= capacity -> lru_inv (lru_run capacity ops).
Proof.
  intros Hc. induction ops as [|o ops IH] using rev_ind.
  - unfold lru_inv. simpl. split; [constructor|]. split; [|lia].
    intros x. rewrite elem_of_empty, elem_of_nil. reflexivity.
  - rewrite lru_run_snoc. apply lru_inv_step; [rewrite lru_run_capacity; exact Hc|exact IH].
Qed.

Lemma lru_touch_recency (st : LRUCachePolicy.t) (c : nat) (h : list Z) (id : Z) :
  lru_inv st -> LRUCachePolicy.lru_list_ st = take (S c) (mru h) ->
  id ∈ LRUCachePolicy.map_ st ->
  LRUCachePolicy.lru_list_ (LRUCachePolicy.record_access st id) = take (S c) (mru (id :: h)).
Proof.
  intros (Hnd & Hsame & _) Hlist Hin. unfold LRUCachePolicy.record_access.
  rewrite decide_True by exact Hin. simpl.
  rewrite (remove_first_filter id _ Hnd), Hlist. f_equal.
  apply take_filter_resident; [apply mru_NoDup|].
  rewrite <- Hlist. apply Hsame, Hin.
Qed.

Lemma lru_step_recency (st : LRUCachePolicy.t) (c : nat) (h : list Z) (o : op) :
  lru_inv st -> LRUCachePolicy.capacity_ st = Z.of_nat (S c) ->
  LRUCachePolicy.lru_list_ st = take (S c) (mru h) -> is_use o ->
  LRUCachePolicy.lru_list_ (lru_step st o) = take (S c) (mru (lru_count (S c) h o)).
Proof.
  intros Hinv Hcap Hlist Huse. pose proof (lru_size_length st Hinv) as Hsz.
  pose proof Hinv as (Hnd & Hsame & _).
  destruct o as [id|id|id|]; try contradiction; cbn [lru_step lru_count].
  - unfold LRUCachePolicy.on_insert.
    destruct (Z.eqb_spec (LRUCachePolicy.capacity_ st) 0) as [E|_]; [lia|].
    destruct (decide (id ∈ LRUCachePolicy.map_ st)) as [Hin|Hout].
    { cbn [snd]. apply lru_touch_recency; assumption. }
    assert (Hnl : id ∉ take (S c) (mru h)) by (rewrite <- Hlist, <- Hsame; exact Hout).
    rewrite Hsz, Hcap.
    destruct (Z.leb_spec (Z.of_nat (S c)) (Z.of_nat (length (LRUCachePolicy.lru_list_ st))))
      as [Hfull|Hroom]; cbn [snd LRUCachePolicy.lru_list_]; simpl mru; simpl take; f_equal.
    + rewrite Hlist in Hfull |- *. rewrite length_take in Hfull.
      rewrite removelast_firstn by lia.
      symmetry. apply take_filter_absent.
      intros H. apply Hnl. apply (elem_of_take_le c (S c)); [lia|exact H].
    + rewrite Hlist in Hroom |- *. rewrite length_take in Hroom.
      assert (Hshort : (length (mru h) <= c)%nat) by lia.
      rewrite take_ge in Hnl |- * by lia.
      rewrite (filter_ne_id id _ Hnl). rewrite take_ge by lia. reflexivity.
  - destruct (decide (id ∈ take (S c) (mru h))) as [Hin|Hout].
    + apply lru_touch_recency; [exact Hinv|exact Hlist|].
      apply Hsame. rewrite Hlist. exact Hin.
    + unfold LRUCachePolicy.record_access.
      rewrite decide_False; [exact Hlist|].
      intros Hin. apply Hout. rewrite <- Hlist. apply Hsame, Hin.
Qed.

(** After any program of calls, an LRU policy holds no more keys than its
    capacity; its list and its map hold the same keys, each once, and
    [size()] is their number. *)
Theorem lru_size_within_capacity (capacity : Z) (ops : list op) :
  0 <= capacity ->
  let st := lru_run capacity ops in
  LRUCachePolicy.size st <= LRUCachePolicy.capacity st /\
  LRUCachePolicy.size st = Z.of_nat (length (LRUCachePolicy.lru_list_ st)) /\
  NoDup (LRUCachePolicy.lru_list_ st) /\
  (forall x, x ∈ LRUCachePolicy.map_ st <-> x ∈ LRUCachePolicy.lru_list_ st).
Proof.
  intros Hc. cbv zeta. pose proof (lru_run_inv capacity ops Hc) as Hinv.
  pose proof (lru_size_length _ Hinv) as Hsz.
  destruct Hinv as (Hnd & Hsame & Hcap).
  unfold LRUCachePolicy.capacity. rewrite lru_run_capacity in Hcap |- *.
  split; [rewrite Hsz; lia|]. auto.
Qed.

(** What [on_insert] reports, in the state after any program: it evicts
    exactly when the policy has a capacity, the key is new and the policy is
    full; the victim it names was resident, is different from the inserted
    key, is no longer resident afterwards, and the size stays at the
    capacity.  Without an eviction the out-parameter is left as it was.
    With a positive capacity the inserted key is resident afterwards. *)
Theorem lru_on_insert_contract (capacity : Z) (ops : list op) (id evicted_id : Z) :
  0 <= capacity ->
  let st := lru_run capacity ops in
  let r := LRUCachePolicy.on_insert st id evicted_id in
  let evicted := fst (fst r) in
  let victim := snd (fst r) in
  let st' := snd r in
  (evicted = true <->
     capacity <> 0 /\ (id ∉ LRUCachePolicy.map_ st) /\ LRUCachePolicy.size st = capacity) /\
  (evicted = true ->
     (victim ∈ LRUCachePolicy.map_ st) /\ victim <> id /\
     (victim ∉ LRUCachePolicy.map_ st') /\
     (forall x, x ∈ LRUCachePolicy.map_ st' <->
                x = id \/ (x ∈ LRUCachePolicy.map_ st /\ x <> victim)) /\
     LRUCachePolicy.size st' = capacity) /\
  (evicted = false ->
     victim = evicted_id /\
     (capacity <> 0 ->
      forall x, x ∈ LRUCachePolicy.map_ st' <-> x = id \/ x ∈ LRUCachePolicy.map_ st)) /\
  (capacity <> 0 -> id ∈ LRUCachePolicy.map_ st').
Proof.
  intros Hc st r evicted victim st'.
  pose proof (lru_run_inv capacity ops Hc) as Hinv. fold st in Hinv.
  pose proof (lru_size_length _ Hinv) as Hsz.
  pose proof (lru_inv_insert st id evicted_id) as Hinv'.
  assert (Hcap : LRUCachePolicy.capacity_ st = capacity) by apply lru_run_capacity.
  rewrite Hcap in Hinv'. specialize (Hinv' Hc Hinv). fold r st' in Hinv'.
  pose proof (lru_size_length _ Hinv') as Hsz'.
  destruct Hinv as (Hnd & Hsame & Hbound). rewrite Hcap in Hbound.
  unfold evicted, victim, st', r in *. clear evicted victim st' r.
  unfold LRUCachePolicy.on_insert in *. rewrite Hcap in *.
  destruct (Z.eqb_spec capacity 0) as [Hz|Hnz]; cbn [fst snd] in *.
  { split; [split; [discriminate|tauto]|]. split; [discriminate|]. split; [|tauto]. tauto. }
  destruct (decide (id ∈ LRUCachePolicy.map_ st)) as [Hin|Hout]; cbn [fst snd] in *.
  { split; [split; [discriminate|tauto]|]. split; [discriminate|].
    unfold LRUCachePolicy.record_access. rewrite decide_True by exact Hin. simpl.
    split; [|intros _; exact Hin]. intros _. split; [reflexivity|]. intros _ x.
    split; [tauto|]. intros [->|H]; assumption. }
  rewrite Hsz in *.
  destruct (Z.leb_spec capacity (Z.of_nat (length (LRUCachePolicy.lru_list_ st))))
    as [Hfull|Hroom]; cbn [fst snd LRUCachePolicy.map_ LRUCachePolicy.lru_list_] in *.
  - assert (Hne : LRUCachePolicy.lru_list_ st <> []).
    { intros E. rewrite E in Hfull. simpl in Hfull. lia. }
    pose proof (removelast_spec _ Hne) as Hsplit.
    assert (Hvin : List.last (LRUCachePolicy.lru_list_ st) 0 ∈ LRUCachePolicy.map_ st).
    { apply Hsame. rewrite Hsplit at 2. apply elem_of_app. right. left. }
    split; [split; [intros _; repeat split; [exact Hnz|exact Hout|lia]|reflexivity]|].
    split; [|split; [discriminate|]].
    + intros _. split; [exact Hvin|]. split; [congruence|]. split.
      * rewrite elem_of_union, elem_of_singleton, elem_of_difference, elem_of_singleton.
        intros [E|[_ E]]; [|apply E; reflexivity]. rewrite E in Hvin. contradiction.
      * split.
        -- intros x. rewrite elem_of_union, elem_of_singleton, elem_of_difference,
             elem_of_singleton. reflexivity.
        -- simpl in Hsz'. rewrite Hsz'.
           rewrite Hsplit in Hbound, Hfull. rewrite length_app in Hbound, Hfull.
           simpl in Hbound, Hfull. simpl. lia.
    + intros _. apply elem_of_union. left. apply elem_of_singleton. reflexivity.
  - split; [split; [discriminate|intros (_ & _ & E); lia]|].
    split; [discriminate|]. split.
    + intros _. split; [reflexivity|]. intros _ x.
      rewrite elem_of_union, elem_of_singleton. reflexivity.
    + intros _. apply elem_of_union. left. apply elem_of_singleton. reflexivity.
Qed.

(** An LRU policy of positive capacity [c] holds, after any program of
    insertions and accesses, the [c] most recently used distinct keys, the
    most recent first (a use is an insertion, or an access to a key that is
    resident at that time). *)
Theorem lru_holds_most_recent_keys (capacity : Z) (ops : list op) :
  0 < capacity -> Forall is_use ops ->
  let c := Z.to_nat capacity in
  LRUCachePolicy.lru_list_ (lru_run capacity ops) = take c (mru (lru_history c ops)) /\
  (forall x, x ∈ LRUCachePolicy.map_ (lru_run capacity ops)
             <-> x ∈ take c (mru (lru_history c ops))).
Proof.
  intros Hc Huse c.
  assert (Hlist : LRUCachePolicy.lru_list_ (lru_run capacity ops)
                  = take c (mru (lru_history c ops))).
  { induction ops as [|o ops IH] using rev_ind; [simpl; destruct c; reflexivity|].
    apply Forall_app in Huse as [Huse Ho]. apply Forall_inv in Ho.
    rewrite lru_run_snoc. unfold lru_history. rewrite fold_left_app. simpl.
    fold (lru_history c ops).
    destruct c as [|c'] eqn:Ec; [unfold c in Ec; lia|].
    apply lru_step_recency; [apply lru_run_inv; lia| |apply IH, Huse|exact Ho].
    rewrite lru_run_capacity. unfold c in Ec. lia. }
  split; [exact Hlist|]. intros x. rewrite <- Hlist.
  apply (lru_run_inv capacity ops ltac:(lia)).
Qed.

End LRUFacts.

(** Capacity 2: insert 1, 2, access 1, insert 3 (evicts 2), insert 2 (evicts
    1): the policy holds 2 and 3. *)
Lemma lru_holds_most_recent_keys_witness :
  LRUCachePolicy.lru_list_
    (PolicyProgram.lru_run 2
       [PolicyProgram.Insert 1; PolicyProgram.Insert 2; PolicyProgram.Access 1;
        PolicyProgram.Insert 3; PolicyProgram.Insert 2])
  = [2; 3].
Proof.
  exact (proj1 (lru_holds_most_recent_keys 2
                  [PolicyProgram.Insert 1; PolicyProgram.Insert 2; PolicyProgram.Access 1;
                   PolicyProgram.Insert 3; PolicyProgram.Insert 2]
                  ltac:(lia) ltac:(repeat constructor))).
Defined.

Lemma lru_size_within_capacity_witness :
  LRUCachePolicy.size
    (PolicyProgram.lru_run 2
       [PolicyProgram.Insert 1; PolicyProgram.Insert 2; PolicyProgram.Erase 1;
        PolicyProgram.Insert 3; PolicyProgram.Insert 4; PolicyProgram.Clear;
        PolicyProgram.Insert 5]) <= 2.
Proof.
  exact (proj1 (lru_size_within_capacity 2
                  [PolicyProgram.Insert 1; PolicyProgram.Insert 2; PolicyProgram.Erase 1;
                   PolicyProgram.Insert 3; PolicyProgram.Insert 4; PolicyProgram.Clear;
                   PolicyProgram.Insert 5] ltac:(lia))).
Defined.

(** Capacity 2 holding the keys 1 and 2: inserting key 3 evicts. *)
Lemma lru_on_insert_contract_witness :
  let st := PolicyProgram.lru_run 2 [PolicyProgram.Insert 1; PolicyProgram.Insert 2] in
  fst (fst (LRUCachePolicy.on_insert st 3 0)) = true <->
  2 <> 0 /\ (3 ∉ LRUCachePolicy.map_ st) /\ LRUCachePolicy.size st = 2.
Proof.
  exact (proj1 (lru_on_insert_contract 2 [PolicyProgram.Insert 1; PolicyProgram.Insert 2] 3 0
                  ltac:(lia))).
Defined.

(** ** LFU policy *)

Section LFUFacts.
Import PolicyProgram.

Local Abbreviation by_freq := (fun a b : Z * Z => fst a <= fst b).

Lemma mm_emplace_perm (f id : Z) (m : list (Z * Z)) :
  LFUCachePolicy.mm_emplace f id m ≡ₚ (f, id) :: m.
Proof.
  induction m as [|[f' x] m IH]; simpl; [reflexivity|].
  destruct (f' <=? f); [|reflexivity].
  rewrite IH. apply perm_swap.
Qed.

Lemma mm_emplace_sorted (f id : Z) (m : list (Z * Z)) :
  StronglySorted by_freq m -> StronglySorted by_freq (LFUCachePolicy.mm_emplace f id m).
Proof.
  induction 1 as [|[f' x] m Hs IH Hall]; simpl.
  - repeat constructor.
  - destruct (Z.leb_spec f' f) as [Hle|Hgt].
    + constructor; [exact IH|].
      rewrite (mm_emplace_perm f id m). constructor; [exact Hle|exact Hall].
    + constructor; [constructor; assumption|].
      constructor; [simpl; lia|].
      eapply Forall_impl; [exact Hall|]. simpl. intros a Ha. lia.
Qed.

(** Erasing the node of [id] leaves the other pairs, in their order. *)
Lemma mm_erase_spec (f id : Z) (m : list (Z * Z)) :
  NoDup (map snd m) -> (f, id) ∈ m ->
  exists m1 m2, m = m1 ++ (f, id) :: m2 /\ LFUCachePolicy.mm_erase f id m = m1 ++ m2.
Proof.
  induction m as [|[f' x] m IH]; intros Hnd Hin; [inversion Hin|].
  simpl in Hnd. apply NoDup_cons in Hnd as [Hx Hnd]. simpl.
  destruct (Z.eqb_spec f' f) as [->|Hf]; simpl.
  - destruct (Z.eqb_spec x id) as [->|Hxi].
    + exists [], m. split; reflexivity.
    + apply elem_of_cons in Hin as [E|Hin]; [congruence|].
      destruct (IH Hnd Hin) as (m1 & m2 & -> & ->).
      exists ((f, x) :: m1), m2. split; reflexivity.
  - apply elem_of_cons in Hin as [E|Hin]; [congruence|].
    destruct (IH Hnd Hin) as (m1 & m2 & -> & ->).
    exists ((f', x) :: m1), m2. split; reflexivity.
Qed.

Lemma sorted_app_remove (m1 m2 : list (Z * Z)) (p : Z * Z) :
  StronglySorted by_freq (m1 ++ p :: m2) -> StronglySorted by_freq (m1 ++ m2).
Proof.
  induction m1 as [|a m1 IH]; simpl; intros H.
  - apply StronglySorted_inv in H as [H _]. exact H.
  - apply StronglySorted_inv in H as [H Hall]. constructor; [apply IH, H|].
    rewrite Forall_app in Hall |- *. destruct Hall as [H1 H2].
    apply Forall_cons in H2 as [_ H2]. auto.
Qed.

Lemma lfu_size_length (st : LFUCachePolicy.t) :
  lfu_inv st -> LFUCachePolicy.size st = Z.of_nat (length (LFUCachePolicy.freq_map_ st)).
Proof. intros (_ & _ & _ & Hsz & _). unfold LFUCachePolicy.size. rewrite Hsz. reflexivity. Qed.

(** Replacing the pair of a resident key by one with another frequency. *)
Lemma lfu_inv_refile (c : Z) (fm : list (Z * Z)) (en : gmap Z Z) (id old new : Z) :
  lfu_inv (LFUCachePolicy.mk c fm en) -> en !! id = Some old ->
  lfu_inv (LFUCachePolicy.mk c
             (LFUCachePolicy.mm_emplace new id (LFUCachePolicy.mm_erase old id fm))
             (<[id := new]> en)).
Proof.
  intros (Hs & Hnd & Hsame & Hsz & Hcap) Hold. simpl in *.
  assert (Hin : (old, id) ∈ fm) by (apply Hsame, Hold).
  destruct (mm_erase_spec old id fm Hnd Hin) as (m1 & m2 & -> & ->).
  pose proof (mm_emplace_perm new id (m1 ++ m2)) as Hperm.
  assert (Hnd' : NoDup (id :: map snd (m1 ++ m2))).
  { rewrite map_app in Hnd |- *. simpl in Hnd.
    rewrite <- Permutation_middle in Hnd. exact Hnd. }
  unfold lfu_inv. simpl. split; [|split; [|split; [|split]]].
  - apply mm_emplace_sorted. eapply sorted_app_remove, Hs.
  - eapply NoDup_Permutation_proper; [|exact Hnd'].
    change (id :: map snd (m1 ++ m2)) with (map snd ((new, id) :: m1 ++ m2)).
    apply Permutation_map, Hperm.
  - intros x f. rewrite Hperm, elem_of_cons.
    destruct (decide (x = id)) as [->|Hne].
    + rewrite lookup_insert_eq. split.
      * intros [= ->]. left. reflexivity.
      * intros [[= ->]|Hx]; [reflexivity|].
        exfalso. apply NoDup_cons in Hnd' as [Hn _]. apply Hn.
        apply (list_elem_of_fmap_2 snd) in Hx. exact Hx.
    + rewrite lookup_insert_ne by congruence. rewrite Hsame.
      rewrite !elem_of_app, elem_of_cons. split.
      * intros [H|[[= -> ->]|H]]; [right; left; exact H|congruence|right; right; exact H].
      * intros [[= -> ->]|[H|H]]; [congruence|left; exact H|right; right; exact H].
  - rewrite map_size_insert_Some by eauto. rewrite Hsz, Hperm.
    simpl. rewrite !length_app. simpl. lia.
  - rewrite Hperm. simpl. rewrite !length_app in Hcap |- *. simpl in Hcap. lia.
Qed.

Lemma lfu_inv_touch (st : LFUCachePolicy.t) (id : Z) :
  lfu_inv st -> lfu_inv (LFUCachePolicy.record_access st id).
Proof.
  intros Hinv. unfold LFUCachePolicy.record_access.
  destruct (LFUCachePolicy.entries_ st !! id) as [old|] eqn:E; [|exact Hinv].
  destruct st as [c fm en]. apply lfu_inv_refile with (old := old); assumption.
Qed.

(** Filing a new key with frequency 1. *)
Lemma lfu_inv_file (c : Z) (fm : list (Z * Z)) (en : gmap Z Z) (id : Z) :
  lfu_inv (LFUCachePolicy.mk c fm en) -> en !! id = None ->
  Z.of_nat (length fm) < c ->
  lfu_inv (LFUCachePolicy.mk c (LFUCachePolicy.mm_emplace 1 id fm) (<[id := 1]> en)).
Proof.
  intros (Hs & Hnd & Hsame & Hsz & Hcap) Hnew Hroom. simpl in *.
  pose proof (mm_emplace_perm 1 id fm) as Hperm.
  assert (Hnid : id ∉ map snd fm).
  { intros H. apply list_elem_of_fmap in H as ([f x] & -> & Hx). simpl in Hnew.
    apply Hsame in Hx. congruence. }
  unfold lfu_inv. simpl. split; [|split; [|split; [|split]]].
  - apply mm_emplace_sorted, Hs.
  - rewrite Hperm. simpl. apply NoDup_cons. auto.
  - intros x f. rewrite Hperm, elem_of_cons.
    destruct (decide (x = id)) as [->|Hne].
    + rewrite lookup_insert_eq. split.
      * intros [= ->]. left. reflexivity.
      * intros [[= ->]|Hx]; [reflexivity|].
        exfalso. apply Hnid. apply (list_elem_of_fmap_2 snd) in Hx. exact Hx.
    + rewrite lookup_insert_ne by congruence. rewrite Hsame. split; [auto|].
      intros [[= -> ->]|H]; [congruence|exact H].
  - rewrite map_size_insert_None by exact Hnew. rewrite Hsz, Hperm. reflexivity.
  - rewrite Hperm. simpl length. lia.
Qed.

(** Dropping the first pair of the multimap and its entry. *)
Lemma lfu_inv_evict (c : Z) (fv victim : Z) (rest : list (Z * Z)) (en : gmap Z Z) :
  lfu_inv (LFUCachePolicy.mk c ((fv, victim) :: rest) en) ->
  lfu_inv (LFUCachePolicy.mk c rest (delete victim en)) /\
  en !! victim = Some fv /\
  (forall id f, en !! id = Some f -> fv <= f).
Proof.
  intros (Hs & Hnd & Hsame & Hsz & Hcap). simpl in *.
  apply StronglySorted_inv in Hs as [Hs Hall].
  apply NoDup_cons in Hnd as [Hv Hnd].
  assert (Hvin : en !! victim = Some fv) by (apply Hsame; left).
  split; [|split; [exact Hvin|]].
  - unfold lfu_inv. simpl. split; [exact Hs|]. split; [exact Hnd|]. split; [|split].
    + intros x f. destruct (decide (x = victim)) as [->|Hne].
      * rewrite lookup_delete_eq. split; [discriminate|].
        intros Hx. exfalso. apply Hv. apply (list_elem_of_fmap_2 snd) in Hx. exact Hx.
      * rewrite lookup_delete_ne by congruence. rewrite Hsame, elem_of_cons.
        split; [|auto]. intros [[= -> ->]|H]; [congruence|exact H].
    + rewrite map_size_delete_Some by eauto. lia.
    + lia.
  - intros id f Hid. apply Hsame in Hid. apply elem_of_cons in Hid as [[= -> ->]|Hid]; [lia|].
    apply (proj1 (Forall_forall _ _) Hall _ Hid).
Qed.

Lemma lfu_inv_insert (st : LFUCachePolicy.t) (id v : Z) :
  0 <= LFUCachePolicy.capacity_ st ->
  lfu_inv st -> lfu_inv (snd (LFUCachePolicy.on_insert st id v)).
Proof.
  intros Hc Hinv. pose proof (lfu_size_length st Hinv) as Hsz.
  unfold LFUCachePolicy.on_insert.
  destruct (Z.eqb_spec (LFUCachePolicy.capacity_ st) 0) as [_|Hc0]; [exact Hinv|].
  destruct (LFUCachePolicy.entries_ st !! id) as [old|] eqn:E.
  { apply lfu_inv_touch, Hinv. }
  rewrite Hsz. destruct st as [c fm en]. simpl in *.
  destruct (Z.leb_spec c (Z.of_nat (length fm))) as [Hfull|Hroom].
  - destruct fm as [|[fv victim] rest]; [simpl in Hfull; lia|].
    destruct (lfu_inv_evict c fv victim rest en Hinv) as (Hinv' & Hvin & _).
    assert (Hnew : delete victim en !! id = None).
    { destruct (decide (id = victim)) as [->|Hne];
        [apply lookup_delete_eq|rewrite lookup_delete_ne by congruence; exact E]. }
    simpl. rewrite Hnew. apply lfu_inv_file; [exact Hinv'|exact Hnew|].
    destruct Hinv as (_ & _ & _ & _ & Hcap). simpl in Hcap. lia.
  - simpl. rewrite E. apply lfu_inv_file; [exact Hinv|exact E|exact Hroom].
Qed.

Lemma lfu_inv_erase (st : LFUCachePolicy.t) (id : Z) :
  lfu_inv st -> lfu_inv (LFUCachePolicy.erase st id).
Proof.
  intros Hinv. unfold LFUCachePolicy.erase.
  destruct (LFUCachePolicy.entries_ st !! id) as [f|] eqn:E; [|exact Hinv].
  destruct Hinv as (Hs & Hnd & Hsame & Hsz & Hcap).
  assert (Hin : (f, id) ∈ LFUCachePolicy.freq_map_ st) by (apply Hsame, E).
  destruct (mm_erase_spec f id _ Hnd Hin) as (m1 & m2 & Hsplit & ->).
  rewrite Hsplit in Hs, Hnd, Hsame, Hsz, Hcap.
  assert (Hnd' : NoDup (id :: map snd (m1 ++ m2))).
  { rewrite map_app in Hnd |- *. simpl in Hnd.
    rewrite <- Permutation_middle in Hnd. exact Hnd. }
  apply NoDup_cons in Hnd' as [Hn Hnd'].
  unfold lfu_inv. simpl. split; [eapply sorted_app_remove, Hs|]. split; [exact Hnd'|].
  split; [|split].
  - intros x g. destruct (decide (x = id)) as [->|Hne].
    + rewrite lookup_delete_eq. split; [discriminate|].
      intros Hx. exfalso. apply Hn. apply (list_elem_of_fmap_2 snd) in Hx. exact Hx.
    + rewrite lookup_delete_ne by congruence. rewrite Hsame.
      rewrite !elem_of_app, elem_of_cons. split.
      * intros [H|[[= -> ->]|H]]; [left; exact H|congruence|right; exact H].
      * intros [H|H]; [left; exact H|right; right; exact H].
  - rewrite map_size_delete_Some by eauto. rewrite Hsz.
    rewrite !length_app. simpl. lia.
  - rewrite !length_app in Hcap |- *. simpl in Hcap. lia.
Qed.

Lemma lfu_step_capacity (st : LFUCachePolicy.t) (o : op) :
  LFUCachePolicy.capacity_ (lfu_step st o) = LFUCachePolicy.capacity_ st.
Proof.
  destruct o as [id|id|id|]; simpl.
  - unfold LFUCachePolicy.on_insert, LFUCachePolicy.record_access.
    destruct (_ =? 0); [reflexivity|].
    destruct (LFUCachePolicy.entries_ st !! id); [reflexivity|].
    destruct (_ <=? _); [|reflexivity].
    destruct (LFUCachePolicy.freq_map_ st) as [|[f x] rest]; reflexivity.
  - unfold LFUCachePolicy.record_access. destruct (_ !! _); reflexivity.
  - unfold LFUCachePolicy.erase. destruct (_ !! _); reflexivity.
  - reflexivity.
Qed.

Lemma lfu_inv_empty (c : Z) : lfu_inv (LFUCachePolicy.mk c [] ∅).
Proof.
  unfold lfu_inv. simpl. split; [constructor|]. split; [constructor|].
  split; [|split; [reflexivity|lia]].
  intros id f. rewrite lookup_empty, elem_of_nil. split; [discriminate|tauto].
Qed.

Lemma lfu_inv_step (st : LFUCachePolicy.t) (o : op) :
  0 <= LFUCachePolicy.capacity_ st -> lfu_inv st -> lfu_inv (lfu_step st o).
Proof.
  intros Hc Hinv. destruct o as [id|id|id|]; simpl.
  - apply lfu_inv_insert; assumption.
  - apply lfu_inv_touch, Hinv.
  - apply lfu_inv_erase, Hinv.
  - apply lfu_inv_empty.
Qed.

Lemma lfu_run_snoc (capacity : Z) (ops : list op) (o : op) :
  lfu_run capacity (ops ++ [o]) = lfu_step (lfu_run capacity ops) o.
Proof. unfold lfu_run. rewrite fold_left_app. reflexivity. Qed.

Lemma lfu_run_capacity (capacity : Z) (ops : list op) :
  LFUCachePolicy.capacity_ (lfu_run capacity ops) = capacity.
Proof.
  induction ops as [|o ops IH] using rev_ind; [reflexivity|].
  rewrite lfu_run_snoc, lfu_step_capacity. exact IH.
Qed.

Lemma lfu_run_inv (capacity : Z) (ops : list op) :
  0 <= capacity -> lfu_inv (lfu_run capacity ops).
Proof.
  intros Hc. induction ops as [|o ops IH] using rev_ind; [apply lfu_inv_empty|].
  rewrite lfu_run_snoc. apply lfu_inv_step; [rewrite lfu_run_capacity; exact Hc|exact IH].
Qed.

(** After any program of calls, an LFU policy holds no more keys than its
    capacity; its multimap is ordered by frequency and holds exactly one
    pair per entry, with the frequency the entry records. *)
Theorem lfu_size_within_capacity (capacity : Z) (ops : list op) :
  0 <= capacity ->
  let st := lfu_run capacity ops in
  LFUCachePolicy.size st <= LFUCachePolicy.capacity st /\
  LFUCachePolicy.size st = Z.of_nat (length (LFUCachePolicy.freq_map_ st)) /\
  StronglySorted (fun a b : Z * Z => fst a <= fst b) (LFUCachePolicy.freq_map_ st) /\
  NoDup (map snd (LFUCachePolicy.freq_map_ st)) /\
  (forall id f, LFUCachePolicy.entries_ st !! id = Some f
                <-> (f, id) ∈ LFUCachePolicy.freq_map_ st).
Proof.
  intros Hc. cbv zeta. pose proof (lfu_run_inv capacity ops Hc) as Hinv.
  pose proof (lfu_size_length _ Hinv) as Hsz.
  destruct Hinv as (Hs & Hnd & Hsame & _ & Hcap).
  unfold LFUCachePolicy.capacity. rewrite lfu_run_capacity in Hcap |- *.
  split; [rewrite Hsz; lia|]. auto.
Qed.

(** What [on_insert] does, in the state after any program.  It evicts
    exactly when the policy has a capacity, the key is new and the policy is
    full; the victim is a resident key whose frequency no other resident
    key undercuts; afterwards the victim is gone and the new key has
    frequency 1.  Without an eviction the out-parameter is left as it was; a
    new key is entered with frequency 1, and a resident key has its
    frequency raised by one. *)
Theorem lfu_on_insert_contract (capacity : Z) (ops : list op) (id evicted_id : Z) :
  0 <= capacity ->
  let st := lfu_run capacity ops in
  let r := LFUCachePolicy.on_insert st id evicted_id in
  let evicted := fst (fst r) in
  let victim := snd (fst r) in
  let st' := snd r in
  (evicted = true <->
     capacity <> 0 /\ LFUCachePolicy.entries_ st !! id = None /\
     LFUCachePolicy.size st = capacity) /\
  (evicted = true ->
     exists fv,
       LFUCachePolicy.entries_ st !! victim = Some fv /\
       (forall x f, LFUCachePolicy.entries_ st !! x = Some f -> fv <= f) /\
       LFUCachePolicy.entries_ st' = <[id := 1]> (delete victim (LFUCachePolicy.entries_ st))) /\
  (evicted = false ->
     victim = evicted_id /\
     (capacity <> 0 -> LFUCachePolicy.entries_ st !! id = None ->
      LFUCachePolicy.entries_ st' = <[id := 1]> (LFUCachePolicy.entries_ st)) /\
     (capacity <> 0 -> forall old, LFUCachePolicy.entries_ st !! id = Some old ->
      LFUCachePolicy.entries_ st'
      = <[id := wrap64 (old + 1)]> (LFUCachePolicy.entries_ st))).
Proof.
  intros Hc st r evicted victim st'.
  pose proof (lfu_run_inv capacity ops Hc) as Hinv. fold st in Hinv.
  pose proof (lfu_size_length _ Hinv) as Hsz.
  assert (Hcap : LFUCachePolicy.capacity_ st = capacity) by apply lfu_run_capacity.
  assert (Hbound : Z.of_nat (length (LFUCachePolicy.freq_map_ st)) <= Z.max 0 capacity).
  { rewrite <- Hcap. apply Hinv. }
  unfold evicted, victim, st', r. clear evicted victim st' r.
  unfold LFUCachePolicy.on_insert. rewrite Hcap, Hsz.
  destruct (Z.eqb_spec capacity 0) as [Hz|Hnz]; cbn [fst snd].
  { split; [split; [discriminate|tauto]|]. split; [discriminate|]. tauto. }
  destruct (LFUCachePolicy.entries_ st !! id) as [old|] eqn:E; cbn [fst snd].
  { split; [split; [discriminate|intros (_ & H & _); discriminate H]|].
    split; [discriminate|]. intros _. split; [reflexivity|]. split; [discriminate|].
    intros _ old' [= <-]. unfold LFUCachePolicy.record_access. rewrite E. reflexivity. }
  destruct st as [c fm en]. simpl in *. subst c.
  destruct (Z.leb_spec capacity (Z.of_nat (length fm))) as [Hfull|Hroom].
  - destruct fm as [|[fv v] rest]; [simpl in Hfull; lia|].
    destruct (lfu_inv_evict capacity fv v rest en Hinv) as (Hinv' & Hvin & Hmin).
    assert (Hnew : delete v en !! id = None).
    { destruct (decide (id = v)) as [->|Hne];
        [apply lookup_delete_eq|rewrite lookup_delete_ne by congruence; exact E]. }
    cbn [fst snd LFUCachePolicy.entries_]. rewrite Hnew.
    split; [split; [intros _; repeat split; [exact Hnz|lia]|reflexivity]|].
    split; [|discriminate].
    intros _. exists fv. split; [exact Hvin|]. split; [exact Hmin|reflexivity].
  - cbn [fst snd LFUCachePolicy.entries_]. rewrite E.
    split; [split; [discriminate|intros (_ & _ & H); lia]|].
    split; [discriminate|]. intros _. split; [reflexivity|].
    split; [reflexivity|discriminate].
Qed.

End LFUFacts.

(** Capacity 2: keys 1 and 2 inserted, key 1 used twice more; inserting key
    3 evicts key 2, the one used least. *)
Lemma lfu_on_insert_contract_witness :
  let st := PolicyProgram.lfu_run 2
              [PolicyProgram.Insert 1; PolicyProgram.Insert 2;
               PolicyProgram.Access 1; PolicyProgram.Insert 1] in
  fst (fst (LFUCachePolicy.on_insert st 3 0)) = true <->
  2 <> 0 /\ LFUCachePolicy.entries_ st !! 3 = None /\ LFUCachePolicy.size st = 2.
Proof.
  exact (proj1 (lfu_on_insert_contract 2
                  [PolicyProgram.Insert 1; PolicyProgram.Insert 2;
                   PolicyProgram.Access 1; PolicyProgram.Insert 1] 3 0 ltac:(lia))).
Defined.

Lemma lfu_size_within_capacity_witness :
  LFUCachePolicy.size
    (PolicyProgram.lfu_run 2
       [PolicyProgram.Insert 1; PolicyProgram.Insert 2; PolicyProgram.Erase 1;
        PolicyProgram.Insert 3; PolicyProgram.Insert 4; PolicyProgram.Clear;
        PolicyProgram.Insert 5]) <= 2.
Proof.
  exact (proj1 (lfu_size_within_capacity 2
                  [PolicyProgram.Insert 1; PolicyProgram.Insert 2; PolicyProgram.Erase 1;
                   PolicyProgram.Insert 3; PolicyProgram.Insert 4; PolicyProgram.Clear;
                   PolicyProgram.Insert 5] ltac:(lia))).
Defined.

(** ** Tiered backend: the cache and its policy *)

Section PolicyKeyFacts.
Import PolicyProgram TieredProgram.

Lemma lru_on_insert_keys (st : LRUCachePolicy.t) (id v : Z) :
  lru_inv st -> 0 < LRUCachePolicy.capacity_ st ->
  let r := LRUCachePolicy.on_insert st id v in
  LRUCachePolicy.map_ (snd r)
  = {[id]} ∪ (if fst (fst r)
              then LRUCachePolicy.map_ st ∖ {[snd (fst r)]}
              else LRUCachePolicy.map_ st) /\
  LRUCachePolicy.capacity_ (snd r) = LRUCachePolicy.capacity_ st.
Proof.
  intros Hinv Hc. cbv zeta. unfold LRUCachePolicy.on_insert.
  destruct (Z.eqb_spec (LRUCachePolicy.capacity_ st) 0) as [E|_]; [lia|].
  destruct (decide (id ∈ LRUCachePolicy.map_ st)) as [Hin|Hout]; cbn [fst snd].
  - unfold LRUCachePolicy.record_access. rewrite decide_True by exact Hin. simpl.
    split; [set_solver|reflexivity].
  - destruct (_ <=? _); simpl; split; reflexivity.
Qed.

Lemma lru_record_access_keys (st : LRUCachePolicy.t) (id : Z) :
  LRUCachePolicy.map_ (LRUCachePolicy.record_access st id) = LRUCachePolicy.map_ st /\
  LRUCachePolicy.capacity_ (LRUCachePolicy.record_access st id) = LRUCachePolicy.capacity_ st.
Proof. unfold LRUCachePolicy.record_access. destruct (decide _); split; reflexivity. Qed.

Lemma lfu_record_access_keys (st : LFUCachePolicy.t) (id : Z) :
  dom (LFUCachePolicy.entries_ (LFUCachePolicy.record_access st id))
  = dom (LFUCachePolicy.entries_ st) /\
  LFUCachePolicy.capacity_ (LFUCachePolicy.record_access st id) = LFUCachePolicy.capacity_ st.
Proof.
  unfold LFUCachePolicy.record_access.
  destruct (LFUCachePolicy.entries_ st !! id) as [old|] eqn:E; [|split; reflexivity].
  simpl. split; [|reflexivity]. rewrite dom_insert_L.
  apply elem_of_dom_2 in E. set_solver.
Qed.

Lemma lfu_on_insert_keys (st : LFUCachePolicy.t) (id v : Z) :
  lfu_inv st -> 0 < LFUCachePolicy.capacity_ st ->
  let r := LFUCachePolicy.on_insert st id v in
  dom (LFUCachePolicy.entries_ (snd r))
  = {[id]} ∪ (if fst (fst r)
              then dom (LFUCachePolicy.entries_ st) ∖ {[snd (fst r)]}
              else dom (LFUCachePolicy.entries_ st)) /\
  LFUCachePolicy.capacity_ (snd r) = LFUCachePolicy.capacity_ st.
Proof.
  intros Hinv Hc. cbv zeta. unfold LFUCachePolicy.on_insert.
  destruct (Z.eqb_spec (LFUCachePolicy.capacity_ st) 0) as [E|_]; [lia|].
  destruct (LFUCachePolicy.entries_ st !! id) as [old|] eqn:E; cbn [fst snd].
  - destruct (lfu_record_access_keys st id) as [-> ->].
    apply elem_of_dom_2 in E. split; [set_solver|reflexivity].
  - destruct (_ <=? _).
    + destruct (LFUCachePolicy.freq_map_ st) as [|[fv victim] rest]; cbn [fst snd].
      * simpl. rewrite E. simpl. rewrite dom_insert_L. split; reflexivity.
      * simpl.
        assert (Hnew : delete victim (LFUCachePolicy.entries_ st) !! id = None).
        { destruct (decide (id = victim)) as [->|Hne];
            [apply lookup_delete_eq|rewrite lookup_delete_ne by congruence; exact E]. }
        rewrite Hnew. simpl. rewrite dom_insert_L, dom_delete_L. split; reflexivity.
    + simpl. rewrite E. simpl. rewrite dom_insert_L. split; reflexivity.
Qed.

Lemma policy_record_access_inv (p : CachePolicy.t) (id : Z) :
  policy_inv p ->
  policy_inv (CachePolicy.record_access p id) /\
  policy_keys (CachePolicy.record_access p id) = policy_keys p /\
  policy_capacity (CachePolicy.record_access p id) = policy_capacity p.
Proof.
  intros Hinv. destruct p as [p|p]; simpl in *.
  - split; [apply lru_inv_touch, Hinv|apply lru_record_access_keys].
  - split; [apply lfu_inv_touch, Hinv|apply lfu_record_access_keys].
Qed.

Lemma policy_on_insert_inv (p : CachePolicy.t) (id v : Z) :
  policy_inv p -> 0 < policy_capacity p ->
  let r := CachePolicy.on_insert p id v in
  policy_inv (snd r) /\
  policy_keys (snd r)
  = {[id]} ∪ (if fst (fst r) then policy_keys p ∖ {[snd (fst r)]} else policy_keys p) /\
  policy_capacity (snd r) = policy_capacity p.
Proof.
  intros Hinv Hc. destruct p as [p|p]; cbv zeta; simpl in *.
  - pose proof (lru_inv_insert p id v ltac:(lia) Hinv) as Hi.
    pose proof (lru_on_insert_keys p id v Hinv Hc) as Hk. cbv zeta in Hk.
    destruct (LRUCachePolicy.on_insert p id v) as [[e w] p']. simpl in *.
    split; [exact Hi|exact Hk].
  - pose proof (lfu_inv_insert p id v ltac:(lia) Hinv) as Hi.
    pose proof (lfu_on_insert_keys p id v Hinv Hc) as Hk. cbv zeta in Hk.
    destruct (LFUCachePolicy.on_insert p id v) as [[e w] p']. simpl in *.
    split; [exact Hi|exact Hk].
Qed.

Lemma policy_keys_size (p : CachePolicy.t) :
  policy_inv p -> Z.of_nat (size (policy_keys p)) <= Z.max 0 (policy_capacity p).
Proof.
  intros Hinv. destruct p as [p|p]; simpl in *.
  - pose proof (lru_size_length p Hinv) as Hsz. unfold LRUCachePolicy.size in Hsz.
    destruct Hinv as (_ & _ & Hcap). lia.
  - destruct Hinv as (_ & _ & _ & Hsz & Hcap). rewrite size_dom. lia.
Qed.

End PolicyKeyFacts.

Section TieredCacheFacts.
Context {float : Type} {B : Type} {SB : StorageBackend float B}.
Import TieredProgram.
Local Abbreviation VectorData := (list float).
Local Abbreviation tiered := (TieredBackend.t float B).
Local Abbreviation top := (TieredProgram.op float).

(** What [insert_into_cache] leaves in the cache: the new payload under
    [id], and old payloads under other ids. *)
Lemma insert_into_cache_lookup (st : tiered) (id : Z) (data : VectorData) (id' : Z)
  (d' : VectorData) :
  TieredBackend.cache_ (TieredBackend.insert_into_cache st id data) !! id' = Some d' ->
  (id' = id /\ (d' = data \/ TieredBackend.cache_ st !! id = Some d')) \/
  (id' <> id /\ TieredBackend.cache_ st !! id' = Some d').
Proof.
  unfold TieredBackend.insert_into_cache.
  destruct (decide (id' = id)) as [->|Hne].
  - intros H. left. split; [reflexivity|].
    destruct (TieredBackend.policy_ st) as [pol|]; [|auto].
    destruct (_ =? 0); [auto|].
    destruct (TieredBackend.cache_ st !! id) as [old|] eqn:E; simpl in H.
    + rewrite lookup_insert_eq in H. injection H as <-. auto.
    + destruct (CachePolicy.on_insert pol id 0) as [[evicted victim] pol']. simpl in H.
      set (c := if evicted then _ else _) in H.
      assert (Hc : c !! id = None).
      { unfold c. destruct evicted; [|exact E]. apply lookup_delete_None. right. exact E. }
      rewrite Hc, lookup_insert_eq in H. injection H as <-. auto.
  - intros H. right. split; [exact Hne|].
    destruct (TieredBackend.policy_ st) as [pol|]; [|auto].
    destruct (_ =? 0); [auto|].
    destruct (TieredBackend.cache_ st !! id) as [old|] eqn:E; simpl in H.
    + rewrite lookup_insert_ne in H by congruence. exact H.
    + destruct (CachePolicy.on_insert pol id 0) as [[evicted victim] pol']. simpl in H.
      set (c := if evicted then _ else _) in H.
      assert (Hc : forall x, c !! id' = Some x -> TieredBackend.cache_ st !! id' = Some x).
      { intros x. unfold c. destruct evicted; [|auto].
        intros Hx. apply lookup_delete_Some in Hx as [_ Hx]. exact Hx. }
      destruct (c !! id); [apply Hc, H|].
      rewrite lookup_insert_ne in H by congruence. apply Hc, H.
Qed.

Lemma insert_into_cache_frame (st : tiered) (id : Z) (data : VectorData) :
  let st' := TieredBackend.insert_into_cache st id data in
  TieredBackend.backing_ st' = TieredBackend.backing_ st /\
  TieredBackend.cache_capacity_ st' = TieredBackend.cache_capacity_ st.
Proof.
  cbv zeta. unfold TieredBackend.insert_into_cache.
  destruct (TieredBackend.policy_ st) as [pol|]; [|auto].
  destruct (_ =? 0); [auto|].
  destruct (TieredBackend.cache_ st !! id); simpl; [auto|].
  destruct (CachePolicy.on_insert pol id 0) as [[evicted victim] pol']. simpl. auto.
Qed.

Lemma cache_inv_insert (st : tiered) (id : Z) (data : VectorData) :
  cache_inv st -> cache_inv (TieredBackend.insert_into_cache st id data).
Proof.
  unfold cache_inv, TieredBackend.insert_into_cache.
  destruct (TieredBackend.policy_ st) as [pol|] eqn:Ep; [|rewrite Ep; auto].
  intros (Hp & Hcap & Hpos & Hdom).
  destruct (Z.eqb_spec (TieredBackend.cache_capacity_ st) 0) as [E|_]; [lia|].
  destruct (TieredBackend.cache_ st !! id) as [old|] eqn:E; simpl.
  - destruct (policy_record_access_inv pol id Hp) as (Hp' & Hk & Hc).
    rewrite Hk, Hc, dom_insert_L. apply elem_of_dom_2 in E.
    split; [exact Hp'|]. split; [exact Hcap|]. split; [exact Hpos|]. set_solver.
  - pose proof (policy_on_insert_inv pol id 0 Hp ltac:(lia)) as H. cbv zeta in H.
    destruct (CachePolicy.on_insert pol id 0) as [[evicted victim] pol'].
    simpl in H. destruct H as (Hp' & Hk & Hc). simpl.
    split; [exact Hp'|]. split; [congruence|]. split; [exact Hpos|].
    rewrite Hk.
    set (c := if evicted then _ else _).
    assert (Hdc : dom c = if evicted then policy_keys pol ∖ {[victim]} else policy_keys pol).
    { unfold c. destruct evicted; [rewrite dom_delete_L|]; rewrite Hdom; reflexivity. }
    assert (Hcid : c !! id = None).
    { unfold c. destruct evicted; [|exact E].
      apply lookup_delete_None. right. exact E. }
    rewrite Hcid, dom_insert_L, Hdc. reflexivity.
Qed.

Lemma cache_inv_step (st : tiered) (o : top) : cache_inv st -> cache_inv (snd (step st o)).
Proof.
  intros Hinv. destruct o as [id us|id data us| |cfg|bytes|bytes]; simpl;
    try exact Hinv.
  - unfold TieredBackend.read_node.
    destruct (TieredBackend.cache_ st !! id) as [data|] eqn:E; simpl.
    + unfold cache_inv in *. simpl.
      destruct (TieredBackend.policy_ st) as [pol|]; simpl; [|exact Hinv].
      destruct Hinv as (Hp & Hcap & Hpos & Hdom).
      destruct (policy_record_access_inv pol id Hp) as (Hp' & Hk & Hc).
      rewrite Hk, Hc. auto.
    + destruct (TieredBackend.backing_ st) as [b|]; simpl; [|exact Hinv].
      destruct (sb_read_node b id []) as [[ok out] b']. destruct ok; simpl.
      * apply cache_inv_insert. exact Hinv.
      * exact Hinv.
  - unfold TieredBackend.write_node.
    destruct (TieredBackend.backing_ st) as [b|]; simpl; [|exact Hinv].
    destruct (sb_write_node b id data) as [ok b']. destruct ok; simpl.
    + apply cache_inv_insert. exact Hinv.
    + exact Hinv.
Qed.

Lemma cache_inv_make (backing : option B) (capacity : Z) (policy : string) :
  cache_inv (TieredBackend.make (float := float) backing capacity policy).
Proof.
  unfold cache_inv, TieredBackend.make. simpl.
  destruct (Z.ltb_spec 0 capacity) as [Hpos|Hle]; [|split; [reflexivity|lia]].
  destruct (String.eqb policy "lfu"); simpl.
  - split; [apply lfu_inv_empty|]. split; [reflexivity|]. split; [exact Hpos|].
    rewrite !dom_empty_L. reflexivity.
  - split; [|split; [reflexivity|split; [exact Hpos|rewrite dom_empty_L; reflexivity]]].
    unfold PolicyProgram.lru_inv. simpl. split; [constructor|]. split; [|lia].
    intros x. rewrite elem_of_empty, elem_of_nil. reflexivity.
Qed.

Lemma tiered_step_capacity (st : tiered) (o : top) :
  TieredBackend.cache_capacity_ (snd (step st o)) = TieredBackend.cache_capacity_ st.
Proof.
  destruct o as [id us|id data us| |cfg|bytes|bytes]; simpl; try reflexivity.
  - unfold TieredBackend.read_node.
    destruct (TieredBackend.cache_ st !! id); simpl; [reflexivity|].
    destruct (TieredBackend.backing_ st) as [b|]; simpl; [|reflexivity].
    destruct (sb_read_node b id []) as [[ok out] b']. destruct ok; simpl; [|reflexivity].
    rewrite (proj2 (insert_into_cache_frame _ id out)). reflexivity.
  - unfold TieredBackend.write_node.
    destruct (TieredBackend.backing_ st) as [b|]; simpl; [|reflexivity].
    destruct (sb_write_node b id data) as [ok b']. destruct ok; simpl; [|reflexivity].
    rewrite (proj2 (insert_into_cache_frame _ id data)). reflexivity.
Qed.

Lemma tiered_run_snoc (st : tiered) (ops : list top) (o : top) :
  run st (ops ++ [o]) = snd (step (run st ops) o).
Proof. unfold run. rewrite fold_left_app. reflexivity. Qed.

Lemma tiered_run_inv (st : tiered) (ops : list top) :
  cache_inv st ->
  cache_inv (run st ops) /\
  TieredBackend.cache_capacity_ (run st ops) = TieredBackend.cache_capacity_ st.
Proof.
  intros Hinv. induction ops as [|o ops [IH1 IH2]] using rev_ind; [auto|].
  rewrite tiered_run_snoc. split; [apply cache_inv_step, IH1|].
  rewrite tiered_step_capacity. exact IH2.
Qed.

(** Whatever the backing store does and whichever policy is chosen, after
    any program of calls a tiered backend caches no more vectors than its
    capacity, the cached ids are exactly the keys of its policy, and with
    capacity 0 nothing is ever cached. *)
Theorem tiered_cache_within_capacity
  (backing : option B) (capacity : Z) (policy : string) (ops : list top) :
  0 <= capacity ->
  let st := run (TieredBackend.make (float := float) backing capacity policy) ops in
  TieredBackend.cache_size st <= TieredBackend.cache_capacity st /\
  TieredBackend.cache_capacity st = capacity /\
  (capacity = 0 -> TieredBackend.cache_ st = ∅) /\
  (forall p, TieredBackend.policy_ st = Some p -> TieredBackend.resident st = policy_keys p).
Proof.
  intros Hc. cbv zeta.
  destruct (tiered_run_inv (TieredBackend.make (float := float) backing capacity policy) ops
              (cache_inv_make backing capacity policy)) as [Hinv Hcap].
  change (TieredBackend.cache_capacity_
            (TieredBackend.make (float := float) backing capacity policy))
    with capacity in Hcap.
  unfold TieredBackend.cache_capacity, TieredBackend.cache_size, TieredBackend.resident.
  rewrite Hcap. unfold cache_inv in Hinv.
  destruct (TieredBackend.policy_ _) as [p|].
  - destruct Hinv as (Hp & Hpc & Hpos & Hdom).
    pose proof (policy_keys_size p Hp) as Hsz. rewrite <- Hdom, size_dom in Hsz.
    split; [lia|]. split; [reflexivity|]. split; [lia|]. intros q [= <-]. exact Hdom.
  - destruct Hinv as [He _]. rewrite He, map_size_empty.
    split; [lia|]. split; [reflexivity|]. split; [auto|discriminate].
Qed.

End TieredCacheFacts.

(** Scenario A: capacity 2 over the four vectors, after all its reads. *)
Lemma tiered_cache_within_capacity_witness :
  TieredBackend.cache_size
    (TieredProgram.run (TieredBackend.make (Some ScenarioA.backing) 2 "lfu")
       [TieredProgram.Read 0 dzero; TieredProgram.Read 1 dzero; TieredProgram.Read 2 dzero;
        TieredProgram.Write 3 [] dzero; TieredProgram.Read 0 dzero])
  <= 2.
Proof.
  exact (proj1 (tiered_cache_within_capacity (Some ScenarioA.backing) 2 "lfu"
                  [TieredProgram.Read 0 dzero; TieredProgram.Read 1 dzero;
                   TieredProgram.Read 2 dzero; TieredProgram.Write 3 [] dzero;
                   TieredProgram.Read 0 dzero] ltac:(lia))).
Defined.

(** ** Tiered backend over an in-memory store *)

Section TieredOverMemoryFacts.
Context {float : Type}.
Import TieredProgram.
Local Abbreviation VectorData := (list float).
Local Abbreviation mem := (MemoryBackend.t float).
Local Abbreviation tiered := (TieredBackend.t float (MemoryBackend.t float)).
Local Abbreviation top := (TieredProgram.op float).

Lemma mem_read_node_true (b b' : mem) (id : Z) (o out : VectorData) :
  0 <= id -> MemoryBackend.read_node b id o = (true, out, b') ->
  MemoryBackend.present_ b !! Z.to_nat id = Some true /\
  MemoryBackend.data_ b !! Z.to_nat id = Some out.
Proof.
  intros Hid Er. unfold MemoryBackend.read_node in Er.
  destruct (Z.leb_spec (Z.of_nat (length (MemoryBackend.data_ b))) id) as [|Hl1];
    [discriminate|].
  destruct (Z.leb_spec (Z.of_nat (length (MemoryBackend.present_ b))) id) as [|Hl2];
    [discriminate|].
  unfold MemoryBackend.present_at in Er.
  destruct (MemoryBackend.present_ b !! Z.to_nat id) as [[]|] eqn:Epr; try discriminate.
  simpl in Er. injection Er as <- _.
  destruct (lookup_lt_is_Some_2 (MemoryBackend.data_ b) (Z.to_nat id) ltac:(lia)) as [dv Edv].
  rewrite Edv. auto.
Qed.

Lemma coherent_insert (st : tiered) (b : mem) (id : Z) (data : VectorData) :
  cache_inv st ->
  TieredBackend.backing_ st = Some b -> MemoryBackend.mem_inv b ->
  0 <= id ->
  MemoryBackend.present_ b !! Z.to_nat id = Some true ->
  MemoryBackend.data_ b !! Z.to_nat id = Some data ->
  (forall id' d', id' <> id -> TieredBackend.cache_ st !! id' = Some d' ->
     0 <= id' /\
     MemoryBackend.present_ b !! Z.to_nat id' = Some true /\
     MemoryBackend.data_ b !! Z.to_nat id' = Some d') ->
  coherent (TieredBackend.insert_into_cache st id data).
Proof.
  intros Hci Hb Hinv Hid Hp Hd Hold. exists b.
  split; [rewrite (proj1 (insert_into_cache_frame st id data)); exact Hb|].
  split; [exact Hinv|].
  intros id' d' Hl. pose proof Hl as Hl0.
  apply insert_into_cache_lookup in Hl as [[-> [->|Hl]]|[Hne Hl]].
  - auto.
  - (* an entry of [id] is refreshed: caching is on wherever an entry exists *)
    unfold TieredBackend.insert_into_cache, cache_inv in *.
    destruct (TieredBackend.policy_ st) as [pol|].
    + destruct Hci as (_ & _ & Hpos & _).
      destruct (Z.eqb_spec (TieredBackend.cache_capacity_ st) 0) as [E|_]; [lia|].
      rewrite Hl in Hl0. simpl in Hl0. rewrite lookup_insert_eq in Hl0.
      injection Hl0 as <-. auto.
    + destruct Hci as [He _]. rewrite He, lookup_empty in Hl. discriminate.
  - apply Hold; assumption.
Qed.

Lemma coherent_step (st : tiered) (o : top) :
  op_ok o -> cache_inv st -> coherent st -> coherent (snd (step st o)).
Proof.
  intros Hok Hci (b & Hb & Hinv & Hcache).
  destruct o as [id us|id data us| |cfg|bytes|bytes]; simpl;
    try (exists b; split; [exact Hb|split; [exact Hinv|exact Hcache]]).
  - (* read *)
    simpl in Hok. unfold TieredBackend.read_node.
    destruct (TieredBackend.cache_ st !! id) as [data|] eqn:E; simpl.
    { exists b. auto. }
    rewrite Hb. simpl.
    pose proof (mem_read_node_frame b id []) as [Hd Hp].
    destruct (MemoryBackend.read_node b id []) as [[ok out] b'] eqn:Er. simpl in Hd, Hp.
    assert (Hinv' : MemoryBackend.mem_inv b').
    { unfold MemoryBackend.mem_inv in *. congruence. }
    destruct ok; simpl.
    + destruct (mem_read_node_true b b' id [] out Hok Er) as [Hpr Hdt].
      apply coherent_insert with (b := b'); try assumption; try reflexivity.
      * congruence.
      * congruence.
      * intros id' d' _ Hl. rewrite Hd, Hp. apply Hcache, Hl.
    + exists b'. split; [reflexivity|]. split; [exact Hinv'|].
      intros id' d' Hl. rewrite Hd, Hp. apply Hcache, Hl.
  - (* write *)
    simpl in Hok. unfold TieredBackend.write_node. rewrite Hb. simpl.
    set (b' := MemoryBackend.mk _ _ _).
    assert (Hb' : b' = snd (MemoryBackend.write_node b id data)) by reflexivity.
    pose proof (mem_write_stores b id data Hinv Hok) as [Hp' Hd']. rewrite <- Hb' in Hp', Hd'.
    pose proof (mem_write_inv b id data Hinv) as Hinv'. rewrite <- Hb' in Hinv'.
    apply coherent_insert with (b := b'); try assumption; try reflexivity; try lia.
    intros id' d' Hne Hl. destruct (Hcache id' d' Hl) as (Hid' & Hst).
    split; [exact Hid'|]. rewrite Hb'.
    apply mem_write_other; [exact Hok|exact Hid'|exact Hne|exact Hst].
  - (* reset_stats *)
    exists (MemoryBackend.reset_stats b). unfold reset_stats. simpl. rewrite Hb.
    split; [reflexivity|]. split; [exact Hinv|exact Hcache].
Qed.

Lemma coherent_run (st : tiered) (ops : list top) :
  Forall op_ok ops -> cache_inv st -> coherent st -> coherent (run st ops).
Proof.
  intros Hok Hci Hco. induction ops as [|o ops IH] using rev_ind; [exact Hco|].
  apply Forall_app in Hok as [Hok Ho]. apply Forall_inv in Ho.
  rewrite tiered_run_snoc. apply coherent_step; [exact Ho| |apply IH, Hok].
  apply tiered_run_inv, Hci.
Qed.

(** Caching never changes what a read returns.  After any program of calls
    on a tiered backend over an in-memory store (reads, writes, statistics
    calls; all writes going through the tier), [read_node] on the tier gives
    the flag and the payload that [read_node] on the backing store gives,
    whether the id is cached or not. *)
Theorem tiered_read_agrees_with_backing
  (b0 : mem) (capacity : Z) (policy : string) (ops : list top) :
  MemoryBackend.mem_inv b0 -> Forall op_ok ops ->
  let st := run (TieredBackend.make (Some b0) capacity policy) ops in
  exists b,
    TieredBackend.backing_ st = Some b /\
    forall id out us, 0 <= id ->
      fst (TieredBackend.read_node st id out us) = fst (MemoryBackend.read_node b id out).
Proof.
  intros Hinv0 Hok. cbv zeta.
  destruct (coherent_run (TieredBackend.make (Some b0) capacity policy) ops Hok
              (cache_inv_make (Some b0) capacity policy)) as (b & Hb & Hinv & Hcache).
  { exists b0. split; [reflexivity|]. split; [exact Hinv0|].
    intros id data Hl. unfold TieredBackend.make in Hl. simpl in Hl.
    rewrite lookup_empty in Hl. discriminate. }
  exists b. split; [exact Hb|]. intros id out us Hid.
  unfold TieredBackend.read_node.
  destruct (TieredBackend.cache_ _ !! id) as [data|] eqn:E; simpl.
  - destruct (Hcache id data E) as (_ & Hst). symmetry.
    apply mem_read_stored; [exact Hid|exact Hst].
  - rewrite Hb. simpl.
    destruct (MemoryBackend.read_node b id out) as [[ok out'] b']. destruct ok; reflexivity.
Qed.

End TieredOverMemoryFacts.

(** Scenario A's store behind a tier of capacity 2: vector 1 is overwritten
    through the tier while it is cached; the tier then returns the new
    payload, as the store does. *)
Lemma tiered_read_agrees_with_backing_witness :
  exists b,
    TieredBackend.backing_
      (TieredProgram.run (TieredBackend.make (Some ScenarioA.backing) 2 "lru")
         [TieredProgram.Read 1 dzero; TieredProgram.Write 1 [dzero] dzero;
          TieredProgram.Read 2 dzero]) = Some b /\
    forall id out us, 0 <= id ->
      fst (TieredBackend.read_node
             (TieredProgram.run (TieredBackend.make (Some ScenarioA.backing) 2 "lru")
                [TieredProgram.Read 1 dzero; TieredProgram.Write 1 [dzero] dzero;
                 TieredProgram.Read 2 dzero]) id out us)
      = fst (MemoryBackend.read_node b id out).
Proof.
  apply (tiered_read_agrees_with_backing ScenarioA.backing 2 "lru"
           [TieredProgram.Read 1 dzero; TieredProgram.Write 1 [dzero] dzero;
            TieredProgram.Read 2 dzero]).
  - reflexivity.
  - repeat constructor; unfold two64; simpl; lia.
Defined.

(** ** What a search returns *)

Section TopCandidatesFacts.
Context (simd : VectorOps.isa) (idx : HNSW.t) (query : list VectorOps.float).
Context (ef layer epoch : Z).
Context (b : Z) (len : nat).
Hypothesis Hb : (Z.to_nat b <= len)%nat.
Hypothesis Hgraph : forall j, Forall (fun x => 0 <= x < b) (HNSW.adj idx j (Z.to_nat layer)).

Local Abbreviation top_inv := (top_inv ef epoch).

Lemma is_visited_mark (visited : list Z) (nb id : Z) :
  HNSW.is_visited visited epoch id = true ->
  HNSW.is_visited (HNSW.mark_visited visited epoch nb) epoch id = true.
Proof.
  unfold HNSW.is_visited, HNSW.mark_visited. rewrite !nth_lookup. intros H.
  destruct (decide (Z.to_nat nb = Z.to_nat id)) as [E|E].
  - rewrite E. destruct (visited !! Z.to_nat id) as [x|] eqn:Ex.
    + rewrite list_lookup_insert_eq by (apply lookup_lt_Some in Ex; exact Ex).
      simpl. apply Z.eqb_refl.
    + rewrite list_insert_ge by (apply lookup_ge_None in Ex; exact Ex).
      rewrite Ex in *. exact H.
  - rewrite list_lookup_insert_ne by exact E. exact H.
Qed.

Lemma is_visited_marked (visited : list Z) (nb : Z) :
  (Z.to_nat nb < length visited)%nat ->
  HNSW.is_visited (HNSW.mark_visited visited epoch nb) epoch nb = true.
Proof.
  intros H. unfold HNSW.is_visited, HNSW.mark_visited. rewrite nth_lookup.
  rewrite list_lookup_insert_eq by exact H. simpl. apply Z.eqb_refl.
Qed.

Lemma visit_neighbor_top (st : HNSW.SearchState) (nb : Z) :
  0 <= nb < b -> HNSW.search_inv b len st -> top_inv st ->
  top_inv (HNSW.visit_neighbor simd idx query ef epoch st nb).
Proof.
  intros Hnb (_ & _ & Hlen) (Hnd & Hvis & Hsize). unfold HNSW.visit_neighbor.
  destruct (HNSW.is_visited (HNSW.visited st) epoch nb) eqn:Evis.
  { repeat split; tauto. }
  assert (Hvis' : Forall (fun p : VectorOps.float * Z =>
                    HNSW.is_visited (HNSW.mark_visited (HNSW.visited st) epoch nb) epoch (snd p)
                    = true) (HNSW.top_candidates st)).
  { eapply Forall_impl; [exact Hvis|]. intros p Hp. apply is_visited_mark, Hp. }
  assert (Hnew : nb ∉ map snd (HNSW.top_candidates st)).
  { intros Hin. apply list_elem_of_fmap in Hin as (p & -> & Hp).
    rewrite Forall_forall in Hvis. rewrite (Hvis p Hp) in Evis. discriminate. }
  set (d := HNSW.distance simd idx query (HNSW.vector_at idx nb)).
  destruct (_ || _) eqn:Eadmit; simpl; [|repeat split; tauto].
  assert (Hpush : top_inv (HNSW.mkSearch
                    (HNSW.pq_push (d, nb) (HNSW.candidate_queue st))
                    (HNSW.pq_push (d, nb) (HNSW.top_candidates st))
                    (HNSW.mark_visited (HNSW.visited st) epoch nb)) \/
                  ef < Z.of_nat (length (HNSW.pq_push (d, nb) (HNSW.top_candidates st)))).
  { destruct (Z.ltb_spec ef (Z.of_nat (length (HNSW.pq_push (d, nb) (HNSW.top_candidates st)))))
      as [Hlt|Hge]; [right; exact Hlt|left].
    unfold top_inv, HNSW.pq_push in *. simpl.
    rewrite map_app, length_app in *. simpl in *. split; [|split].
    - apply NoDup_app. split; [exact Hnd|]. split; [|apply NoDup_singleton].
      intros x Hx Hx'. apply list_elem_of_singleton in Hx'. subst x. exact (Hnew Hx).
    - apply Forall_app. split; [exact Hvis'|]. repeat constructor. simpl.
      apply is_visited_marked. lia.
    - lia. }
  destruct (Z.ltb_spec ef (Z.of_nat (length (HNSW.pq_push (d, nb) (HNSW.top_candidates st)))))
    as [Hlt|Hge].
  - destruct (HNSW.pq_extract HNSW.pair_less
                (HNSW.pq_push (d, nb) (HNSW.top_candidates st))) as [[t rest]|] eqn:E.
    + pose proof (pq_extract_perm _ _ _ _ E) as Hperm.
      assert (Hall : NoDup (map snd (t :: rest)) /\
                     Forall (fun p : VectorOps.float * Z =>
                       HNSW.is_visited (HNSW.mark_visited (HNSW.visited st) epoch nb) epoch
                         (snd p) = true) (t :: rest) /\
                     length (t :: rest) = S (length (HNSW.top_candidates st))).
      { rewrite <- Hperm. unfold HNSW.pq_push. rewrite map_app, length_app. simpl.
        split; [|split; [|lia]].
        - apply NoDup_app. split; [exact Hnd|]. split; [|apply NoDup_singleton].
          intros x Hx Hx'. apply list_elem_of_singleton in Hx'. subst x. exact (Hnew Hx).
        - apply Forall_app. split; [exact Hvis'|]. repeat constructor. simpl.
          apply is_visited_marked. lia. }
      destruct Hall as (Hnd' & Hv' & Hl'). simpl in Hnd', Hl'.
      apply NoDup_cons in Hnd' as [_ Hnd']. apply Forall_cons in Hv' as [_ Hv'].
      unfold top_inv. simpl. split; [exact Hnd'|]. split; [exact Hv'|]. lia.
    + apply pq_extract_none in E. unfold HNSW.pq_push in E.
      destruct (HNSW.top_candidates st); discriminate.
  - destruct Hpush as [Hp|Hp]; [exact Hp|lia].
Qed.

Lemma visit_neighbors_top (nbrs : list Z) :
  Forall (fun x => 0 <= x < b) nbrs ->
  forall st, HNSW.search_inv b len st -> top_inv st ->
  top_inv (fold_left (HNSW.visit_neighbor simd idx query ef epoch) nbrs st).
Proof.
  induction nbrs as [|nb nbrs IH]; intros Hn st Hst Htop; simpl; [exact Htop|].
  apply Forall_cons in Hn as [Hnb Hn].
  apply IH; [exact Hn| |apply visit_neighbor_top; assumption].
  apply (visit_neighbor_inv simd idx query ef epoch b len Hb st nb Hnb Hst).
Qed.

Lemma search_loop_top (fuel : nat) : forall st st',
  HNSW.search_inv b len st -> top_inv st ->
  HNSW.search_loop simd idx query ef layer epoch fuel st = Some st' ->
  top_inv st'.
Proof.
  induction fuel as [|fuel IH]; intros st st' Hst Htop Hrun; [discriminate|]. simpl in Hrun.
  destruct (HNSW.pq_extract HNSW.dist_id_min (HNSW.candidate_queue st)) as [[curr queue']|] eqn:E;
    [|injection Hrun as <-; exact Htop].
  destruct (VectorOps.fltb _ _); [injection Hrun as <-; exact Htop|].
  pose proof (pq_extract_perm _ _ _ _ E) as Hperm.
  destruct Hst as (HQ & HW & Hlen).
  rewrite Hperm in HQ. apply Forall_cons in HQ as [Hcurr HQ'].
  assert (Hst1 : HNSW.search_inv b len
                   (HNSW.mkSearch queue' (HNSW.top_candidates st) (HNSW.visited st))).
  { repeat split; assumption. }
  assert (Htop1 : top_inv (HNSW.mkSearch queue' (HNSW.top_candidates st) (HNSW.visited st))).
  { exact Htop. }
  destruct (_ <=? layer).
  - apply (IH _ _ Hst1 Htop1 Hrun).
  - rewrite (layer_list_adj idx layer b Hgraph (snd curr)) in Hrun.
    apply (IH _ _ (proj1 (visit_neighbors_inv simd idx query ef epoch b len Hb _
                            (Hgraph (Z.to_nat (snd curr))) _ Hst1))
             (visit_neighbors_top _ (Hgraph (Z.to_nat (snd curr))) _ Hst1 Htop1) Hrun).
Qed.

End TopCandidatesFacts.

Lemma pq_drain_perm (n : nat) : forall q : list (VectorOps.float * Z),
  length q = n -> HNSW.pq_drain n q ≡ₚ map (fun p => (snd p, fst p)) q.
Proof.
  induction n as [|n IH]; intros q Hq; simpl.
  - destruct q; [reflexivity|discriminate].
  - destruct (HNSW.pq_extract HNSW.pair_less q) as [[di q']|] eqn:E.
    + pose proof (pq_extract_perm _ _ _ _ E) as Hperm.
      pose proof (pq_extract_length _ _ _ _ E) as Hl.
      rewrite Hperm. simpl. constructor. apply IH. lia.
    + apply pq_extract_none in E. subst q. discriminate.
Qed.

Section SearchResultFacts.
Context (simd : VectorOps.isa).

(** The result of one layer search entered at a node: between one and
    [max ef 1] pairs, of distinct ids. *)
Lemma search_layer_result (idx idx' : HNSW.t) (query : list VectorOps.float)
  (entry ef layer b : Z) (res : list (Z * VectorOps.float)) :
  (Z.to_nat b <= length (HNSW.vectors_ idx))%nat ->
  HNSW.ids_below idx (Z.to_nat layer) b ->
  0 <= entry < b -> entry <> VectorID_max ->
  HNSW.search_layer simd idx query entry ef layer = Some (res, idx') ->
  NoDup (map fst res) /\ 1 <= Z.of_nat (length res) <= Z.max ef 1.
Proof.
  intros Hb Hg Hentry Hne. unfold HNSW.search_layer.
  destruct (Nat.eqb_spec (length (HNSW.vectors_ idx)) 0) as [E0|_]; [lia|].
  destruct (Z.eqb_spec entry VectorID_max) as [?|_]; [contradiction|]. cbn [orb].
  pose proof (next_epoch_length idx) as Hlen.
  destruct (HNSW.next_epoch idx) as [visited0 epoch]. simpl in Hlen.
  set (st0 := HNSW.mkSearch _ _ _).
  destruct (HNSW.search_loop simd idx query ef layer epoch (S (length visited0)) st0)
    as [st|] eqn:Erun; [|discriminate].
  intros H. injection H as <- _.
  assert (Hinv0 : HNSW.search_inv b (length visited0) st0).
  { unfold st0. repeat split; simpl.
    - repeat constructor; simpl; lia.
    - repeat constructor; simpl; lia.
    - unfold HNSW.mark_visited. apply length_insert. }
  assert (Htop0 : top_inv ef epoch st0).
  { unfold st0, top_inv. simpl. split; [|split].
    - apply NoDup_singleton.
    - repeat constructor. simpl. apply is_visited_marked. lia.
    - lia. }
  destruct (search_loop_top simd idx query ef layer epoch b (length visited0) ltac:(lia) Hg
              _ _ _ Hinv0 Htop0 Erun) as (Hnd & _ & Hsize).
  pose proof (pq_drain_perm (length (HNSW.top_candidates st)) (HNSW.top_candidates st) eq_refl)
    as Hperm.
  split.
  - rewrite (sort_by_perm snd), Hperm, map_map. simpl. exact Hnd.
  - rewrite sort_by_length, (Permutation_length Hperm), length_map. exact Hsize.
Qed.

End SearchResultFacts.

Section SearchOnBuiltIndex.
Context (simd : VectorOps.isa).

Lemma search_result_ok (idx : HNSW.t) (next : Z) (query : list VectorOps.float) (k ef_search : Z) :
  HNSW.build_inv idx next -> next = Z.of_nat (length (HNSW.vectors_ idx)) -> 0 <= k ->
  exists ids v e,
    HNSW.search simd idx query k ef_search = Some (ids, HNSW.set_visited idx v e) /\
    Z.of_nat (length ids) <= Z.min k (Z.max ef_search 1) /\
    NoDup ids /\
    Forall (fun id => 0 <= id < next) ids /\
    (0 < next -> 1 <= k -> ids <> []).
Proof.
  intros Hinv Hnext Hk. unfold HNSW.search.
  pose proof (HNSW.inv_size _ _ Hinv) as Hsize.
  destruct (Nat.eqb_spec (length (HNSW.vectors_ idx)) 0) as [E0|Hpos].
  { exists [], (HNSW.visited_ idx), (HNSW.visited_epoch_ idx). rewrite set_visited_same.
    cbn [orb]. split; [reflexivity|]. simpl. repeat split; try constructor; lia. }
  destruct (HNSW.inv_entry _ _ Hinv) as [[_ H0]|Hentry]; [lia|].
  destruct (Z.eqb_spec (HNSW.entry_point_ idx) VectorID_max) as [Emax|_].
  { unfold VectorID_max in Emax. unfold two64 in *. lia. }
  cbn [orb].
  destruct (greedy_descent_ok simd query next
              (HNSW.layers_above (HNSW.to_int32 (HNSW.max_layer_ idx)) 0)
              idx (HNSW.entry_point_ idx)) as (ep & v & e & -> & Hep).
  { lia. }
  { apply (HNSW.inv_ids _ _ Hinv). }
  { exact Hentry. }
  assert (Hg0 : HNSW.ids_below (HNSW.set_visited idx v e) (Z.to_nat 0) next).
  { intros j. apply (HNSW.inv_ids _ _ Hinv 0%nat j). }
  assert (Hb0 : (Z.to_nat next <= length (HNSW.vectors_ (HNSW.set_visited idx v e)))%nat).
  { simpl. lia. }
  destruct (search_layer_ok simd (HNSW.set_visited idx v e) query ep ef_search 0 next
              Hb0 Hg0 (or_intror Hep)) as (res & v' & e' & Hrun & Hres).
  rewrite Hrun.
  destruct (search_layer_result simd _ _ query ep ef_search 0 next res Hb0 Hg0 Hep
              ltac:(unfold VectorID_max, two64 in *; lia) Hrun) as [Hnd Hlen].
  exists (map fst (take (Z.to_nat (Z.min k (Z.of_nat (length res)))) res)), v', e'.
  split; [reflexivity|].
  rewrite length_map, length_take.
  split; [lia|]. split; [|split].
  - rewrite <- firstn_map. eapply sublist_NoDup; [exact Hnd|apply sublist_take].
  - rewrite Forall_forall in Hres. apply Forall_forall. intros id Hin.
    apply list_elem_of_fmap in Hin as (r & -> & Hr).
    apply Hres. eapply elem_of_sublist; [exact Hr|apply sublist_take].
  - intros _ Hk1 Hnil. apply (f_equal length) in Hnil.
    rewrite length_map, length_take in Hnil. simpl in Hnil. lia.
Qed.

(** A query on a built index.  For every data set that fits a [size_t] and
    every sequence of levels, [build] followed by [search(query, k, ef)]
    returns at most [k] and at most [max ef 1] ids, all distinct and all ids
    of vectors of the data set; at least one when the data set is not empty
    and [k] is at least 1.  The search leaves the graph as [build] made it:
    only the scratch array and its epoch change. *)
Theorem search_returns_distinct_valid_ids
  (idx0 : HNSW.t) (levels : Z -> Z) (data : list (list Z))
  (query : list VectorOps.float) (k ef_search : Z) :
  0 <= HNSW.M_ idx0 -> Z.of_nat (length data) < two64 -> 0 <= k ->
  exists idx ids v e,
    HNSW.build simd idx0 levels data = Some idx /\
    HNSW.search simd idx query k ef_search = Some (ids, HNSW.set_visited idx v e) /\
    Z.of_nat (length ids) <= Z.min k (Z.max ef_search 1) /\
    NoDup ids /\
    Forall (fun id => 0 <= id < Z.of_nat (length data)) ids /\
    (data <> [] -> 1 <= k -> ids <> []).
Proof.
  intros HM Hsize Hk.
  destruct (build_ok simd idx0 levels data HM Hsize) as (idx & Hrun & Hinv & Hp).
  assert (Hv : HNSW.vectors_ idx = data) by (destruct Hp as (_&_&_&_&->); reflexivity).
  destruct (search_result_ok idx (Z.of_nat (length data)) query k ef_search Hinv
              ltac:(rewrite Hv; reflexivity) Hk) as (ids & v & e & Hs & Hlen & Hnd & Hids & Hne).
  exists idx, ids, v, e. repeat split; try assumption; try lia.
  intros Hdata. apply Hne. destruct data; [contradiction|simpl; lia].
Qed.

End SearchOnBuiltIndex.

(** A query on the index built from the line points of scenario B. *)
Lemma search_returns_distinct_valid_ids_witness :
  exists idx ids v e,
    HNSW.build VectorOps.Scalar ScenarioB.fresh_index ScenarioB.levels ScenarioB.data
      = Some idx /\
    HNSW.search VectorOps.Scalar idx [] 3 10 = Some (ids, HNSW.set_visited idx v e) /\
    Z.of_nat (length ids) <= Z.min 3 (Z.max 10 1) /\
    NoDup ids /\
    Forall (fun id => 0 <= id < Z.of_nat (length ScenarioB.data)) ids /\
    (ScenarioB.data <> [] -> 1 <= 3 -> ids <> []).
Proof.
  apply (search_returns_distinct_valid_ids VectorOps.Scalar ScenarioB.fresh_index
           ScenarioB.levels ScenarioB.data [] 3 10).
  - vm_compute. discriminate.
  - vm_compute. reflexivity.
  - lia.
Defined.

(** ** File backend: slots *)

Section FileSlotFacts.
Context {float : Type} (pad fzero : float).
Import FileProgram.
Local Abbreviation VectorData := (list float).
Local Abbreviation files := (gmap string (list float)).
Local Abbreviation fop := (FileProgram.op float).
Local Abbreviation run := (FileProgram.run pad fzero).
Local Abbreviation step := (FileProgram.step pad fzero).
Local Abbreviation SFS := (SlotFS.SlotFS_FileSystem pad).

Lemma to_int64_small (x : Z) : 0 <= x < 2 ^ 63 -> FileBackend.to_int64 x = x.
Proof.
  intros H. unfold FileBackend.to_int64, two64.
  rewrite Z.mod_small by lia. lia.
Qed.

Lemma slot_offset_plain (st : FileBackend.t) (id : Z) :
  0 < FileBackend.dim_ st -> 0 <= id ->
  (id + 1) * FileBackend.dim_ st * sizeof_float < 2 ^ 63 ->
  FileBackend.slot_offset st id = id * FileBackend.dim_ st * 4 /\
  FileBackend.slot_bytes st = FileBackend.dim_ st * 4.
Proof.
  intros Hd Hid Hb. unfold FileBackend.slot_offset, FileBackend.slot_bytes, sizeof_float in *.
  set (d := FileBackend.dim_ st) in *.
  assert (Hidd : 0 <= id * d) by nia.
  assert (Hd4 : 0 <= d * 4 < 2 ^ 63) by lia.
  assert (Hid' : id <= id * d) by nia.
  assert (Hi : 0 <= id < 2 ^ 63) by lia.
  assert (Ho : 0 <= id * (d * 4) < 2 ^ 63) by lia.
  rewrite wrap64_small by (unfold two64; lia).
  rewrite (to_int64_small id) by exact Hi.
  rewrite (to_int64_small (d * 4)) by exact Hd4.
  rewrite to_int64_small by exact Ho. split; lia.
Qed.

(** Writing a slot leaves the slots before and after it as they are. *)
Lemma slot_write_other (c data' : list float) (k j n : nat) :
  length data' = n -> (j + n <= length c)%nat -> (j + n <= k \/ k + n <= j)%nat ->
  take n (drop j (resize k pad c ++ take n data' ++ drop (k + n) c)) = take n (drop j c).
Proof.
  intros Hl Hc [Hlt|Hgt].
  - rewrite !take_drop_commute. f_equal.
    rewrite take_app_le by (rewrite length_resize; lia).
    rewrite take_resize_le by lia. rewrite resize_le by lia. reflexivity.
  - rewrite drop_app_ge by (rewrite length_resize; lia). rewrite length_resize.
    rewrite drop_app_ge by (rewrite length_take; lia). rewrite length_take.
    rewrite drop_drop. do 2 f_equal. lia.
Qed.

Lemma slot_write_same (c data : list float) (k n : nat) :
  length data = n ->
  take n (drop k (resize k pad c ++ take n data ++ drop (k + n) c)) = data.
Proof.
  intros Hl. rewrite drop_app_ge by (rewrite length_resize; lia). rewrite length_resize.
  rewrite Nat.sub_diag, drop_0. rewrite (take_ge data) by lia.
  rewrite take_app_le by lia. apply take_ge. lia.
Qed.

(** A write of a vector of the dimension of the backend, into a slot within
    range. *)
Lemma file_write_node_slot (fs : files) (st : FileBackend.t) (id : Z) (data : VectorData) :
  0 < FileBackend.dim_ st -> 0 <= id ->
  (id + 1) * FileBackend.dim_ st * sizeof_float < 2 ^ 63 ->
  Z.of_nat (length data) = FileBackend.dim_ st ->
  exists st',
    FileBackend.write_node (fsys := SFS) fs st id data
    = (true, st',
       <[FileBackend.path_ st :=
           resize (Z.to_nat (id * FileBackend.dim_ st)) pad
                  (default [] (fs !! FileBackend.path_ st))
           ++ take (Z.to_nat (FileBackend.dim_ st)) data
           ++ drop (Z.to_nat (id * FileBackend.dim_ st) + Z.to_nat (FileBackend.dim_ st))
                   (default [] (fs !! FileBackend.path_ st))]> fs) /\
    FileBackend.dim_ st' = FileBackend.dim_ st /\
    FileBackend.path_ st' = FileBackend.path_ st.
Proof.
  intros Hd Hid Hb Hlen. unfold FileBackend.write_node.
  destruct (Z.eqb_spec (FileBackend.dim_ st) 0) as [E|_]; [lia|].
  destruct (Z.eqb_spec (Z.of_nat (length data)) (FileBackend.dim_ st)) as [_|E]; [|lia].
  cbn [negb]. destruct (slot_offset_plain st id Hd Hid Hb) as [-> ->].
  simpl. unfold SlotFS.write.
  destruct (Z.ltb_spec (id * FileBackend.dim_ st * 4) 0) as [Hneg|_]; [nia|].
  rewrite !Z.div_mul by lia. eexists. split; [reflexivity|]. split; reflexivity.
Qed.

Lemma file_read_node_frame (fs : files) (st : FileBackend.t) (id : Z) (out : VectorData) :
  let st' := snd (FileBackend.read_node (fsys := SFS) fzero fs st id out) in
  FileBackend.dim_ st' = FileBackend.dim_ st /\ FileBackend.path_ st' = FileBackend.path_ st.
Proof.
  cbv zeta. unfold FileBackend.read_node.
  destruct (FileBackend.dim_ st =? 0); [auto|].
  destruct (FileBackend.fs_read _ _ _ _ _); auto.
Qed.

Lemma file_batch_read_frame (fs : files) (ids : list Z) :
  forall (st : FileBackend.t) acc ok,
    let st' := snd (FileBackend.batch_read_loop (fsys := SFS) fzero fs st ids acc ok) in
    FileBackend.dim_ st' = FileBackend.dim_ st /\ FileBackend.path_ st' = FileBackend.path_ st.
Proof.
  induction ids as [|id ids IH]; intros st acc ok; cbv zeta; simpl; [auto|].
  pose proof (file_read_node_frame fs st id []) as [Hd Hp].
  destruct (FileBackend.read_node (fsys := SFS) fzero fs st id []) as [[ok' data] st1].
  simpl in Hd, Hp.
  destruct (IH st1 (acc ++ [data]) (ok && ok')) as [Hd' Hp']. split; congruence.
Qed.

(** One call keeps the dimension and the path of the backend, and the
    payload of every slot it does not write. *)
Lemma file_step_holds (dim : Z) (path : string) (fs : files) (st : FileBackend.t) (o : fop)
  (id : Z) (data : VectorData) :
  0 < dim -> 0 <= id -> FileBackend.dim_ st = dim -> FileBackend.path_ st = path ->
  op_ok dim o -> (forall d, o <> Write id d) ->
  holds dim path fs id data ->
  FileBackend.dim_ (snd (step (fs, st) o)) = dim /\
  FileBackend.path_ (snd (step (fs, st) o)) = path /\
  holds dim path (fst (step (fs, st) o)) id data.
Proof.
  intros Hdim Hid Hd Hp Hok Hne Hh.
  destruct o as [wid wdata|rid|rids|]; simpl.
  - simpl in Hok. destruct Hok as [Hwid Hwb].
    destruct (Z.eq_dec (Z.of_nat (length wdata)) dim) as [Hlen|Hlen].
    + destruct (file_write_node_slot fs st wid wdata) as (st' & -> & Hd' & Hp');
        [rewrite Hd; exact Hdim|exact Hwid|rewrite Hd; exact Hwb|rewrite Hd; exact Hlen|].
      simpl.
      split; [congruence|]. split; [congruence|].
      destruct Hh as (c & Hc & Hslot & Hl). rewrite Hp, Hd, Hc. simpl.
      eexists. split; [apply lookup_insert_eq|]. split; [|exact Hl].
      rewrite <- Hslot. apply slot_write_other.
      * lia.
      * apply (f_equal length) in Hslot. rewrite length_take, length_drop in Hslot. lia.
      * assert (wid <> id) by (intros ->; apply (Hne wdata); reflexivity).
        assert (Hcases : (id + 1) * dim <= wid * dim \/ (wid + 1) * dim <= id * dim) by nia.
        destruct Hcases; [left|right]; nia.
    + unfold FileBackend.write_node.
      destruct (Z.eqb_spec (FileBackend.dim_ st) 0) as [E|_]; [lia|].
      destruct (Z.eqb_spec (Z.of_nat (length wdata)) (FileBackend.dim_ st)) as [E|_]; [lia|].
      simpl. auto.
  - pose proof (file_read_node_frame fs st rid []) as [Hd' Hp'].
    split; [congruence|]. split; [congruence|exact Hh].
  - pose proof (file_batch_read_frame fs rids st [] true) as [Hd' Hp'].
    unfold FileBackend.batch_read_nodes. split; [congruence|]. split; [congruence|exact Hh].
  - auto.
Qed.

Lemma file_step_frame (dim : Z) (path : string) (fs : files) (st : FileBackend.t) (o : fop) :
  0 < dim -> FileBackend.dim_ st = dim -> FileBackend.path_ st = path ->
  FileBackend.dim_ (snd (step (fs, st) o)) = dim /\
  FileBackend.path_ (snd (step (fs, st) o)) = path.
Proof.
  intros Hdim Hd Hp. destruct o as [wid wdata|rid|rids|]; simpl.
  - unfold FileBackend.write_node.
    destruct (Z.eqb_spec (FileBackend.dim_ st) 0) as [E|_]; [lia|].
    destruct (negb _); [auto|].
    destruct (FileBackend.fs_write _ _ _ _ _) as [[] fs']; auto.
  - pose proof (file_read_node_frame fs st rid []) as [Hd' Hp']. split; congruence.
  - pose proof (file_batch_read_frame fs rids st [] true) as [Hd' Hp'].
    unfold FileBackend.batch_read_nodes. split; congruence.
  - auto.
Qed.

Lemma file_run_frame (dim : Z) (path : string) (ops : list fop) :
  forall (fs : files) (st : FileBackend.t),
    0 < dim -> FileBackend.dim_ st = dim -> FileBackend.path_ st = path ->
    FileBackend.dim_ (snd (run (fs, st) ops)) = dim /\
    FileBackend.path_ (snd (run (fs, st) ops)) = path.
Proof.
  induction ops as [|o ops IH]; intros fs st Hdim Hd Hp; [auto|].
  change (run (fs, st) (o :: ops)) with (run (step (fs, st) o) ops).
  destruct (file_step_frame dim path fs st o Hdim Hd Hp) as [Hd' Hp'].
  destruct (step (fs, st) o) as [fs1 st1] eqn:E1.
  apply (IH fs1 st1 Hdim Hd' Hp').
Qed.

Lemma file_run_holds (dim : Z) (path : string) (id : Z) (data : VectorData) (ops : list fop) :
  forall (fs : files) (st : FileBackend.t),
    0 < dim -> 0 <= id -> FileBackend.dim_ st = dim -> FileBackend.path_ st = path ->
    Forall (op_ok dim) ops -> (forall d, ~ In (Write id d) ops) ->
    holds dim path fs id data ->
    holds dim path (fst (run (fs, st) ops)) id data.
Proof.
  induction ops as [|o ops IH]; intros fs st Hdim Hid Hd Hp Hok Hne Hh; [exact Hh|].
  change (run (fs, st) (o :: ops)) with (run (step (fs, st) o) ops).
  apply Forall_cons in Hok as [Ho Hok].
  destruct (file_step_holds dim path fs st o id data Hdim Hid Hd Hp Ho) as (Hd' & Hp' & Hh').
  { intros d ->. apply (Hne d). left. reflexivity. }
  { exact Hh. }
  destruct (step (fs, st) o) as [fs1 st1] eqn:E1.
  apply (IH fs1 st1 Hdim Hid Hd' Hp' Hok); [|exact Hh'].
  intros d Hin. apply (Hne d). right. exact Hin.
Qed.

(** A slot that holds a vector is read back. *)
Lemma file_read_holds (fs : files) (st : FileBackend.t) (id : Z) (data out : VectorData) :
  0 < FileBackend.dim_ st -> 0 <= id ->
  (id + 1) * FileBackend.dim_ st * sizeof_float < 2 ^ 63 ->
  holds (FileBackend.dim_ st) (FileBackend.path_ st) fs id data ->
  fst (FileBackend.read_node (fsys := SFS) fzero fs st id out) = (true, data).
Proof.
  intros Hd Hid Hb (c & Hc & Hslot & Hl). unfold FileBackend.read_node.
  destruct (Z.eqb_spec (FileBackend.dim_ st) 0) as [E|_]; [lia|].
  destruct (slot_offset_plain st id Hd Hid Hb) as [-> ->].
  cbn [FileBackend.fs_read SlotFS.SlotFS_FileSystem]. unfold SlotFS.read, SlotFS.t.
  rewrite Hc.
  destruct (Z.ltb_spec (id * FileBackend.dim_ st * 4) 0) as [Hneg|_]; [nia|].
  rewrite !Z.div_mul by lia. rewrite Hslot.
  destruct (Z.ltb_spec (Z.of_nat (length data)) (FileBackend.dim_ st)) as [Hlt|_]; [lia|].
  reflexivity.
Qed.

(** A read returns the last vector written to its slot.  On a backend of
    dimension [dim > 0], after any program of calls whose writes name slots
    within the range of a [std::streamoff], a read of [id] succeeds and
    gives the vector of the last write of a [dim]-long vector to [id],
    whatever was written to other slots since (wrongly sized writes to
    [id] itself are excluded: they fail). *)
Theorem file_read_returns_last_write
  (fs0 : files) (path : string) (dim : Z) (pre post : list fop)
  (id : Z) (data out : VectorData) :
  0 < dim ->
  Forall (op_ok dim) (pre ++ Write id data :: post) ->
  Z.of_nat (length data) = dim ->
  (forall d, ~ In (Write id d) post) ->
  let s := run (fs0, FileBackend.make path dim) (pre ++ Write id data :: post) in
  fst (FileBackend.read_node (fsys := SFS) fzero (fst s) (snd s) id out) = (true, data).
Proof.
  intros Hdim Hok Hlen Hpost. cbv zeta.
  apply Forall_app in Hok as [Hpre Hok]. apply Forall_cons in Hok as [[Hid Hb] Hok].
  unfold FileProgram.run. rewrite fold_left_app.
  change (fold_left step (Write id data :: post) ?s)
    with (run (step s (Write id data)) post).
  destruct (file_run_frame dim path pre fs0 (FileBackend.make path dim) Hdim eq_refl eq_refl)
    as [Hd1 Hp1].
  change (fold_left step pre ?s) with (run s pre).
  destruct (run (fs0, FileBackend.make path dim) pre) as [fs1 st1] eqn:E1.
  simpl in Hd1, Hp1.
  destruct (file_write_node_slot fs1 st1 id data) as (st2 & Hw & Hd2 & Hp2);
    [rewrite Hd1; exact Hdim|exact Hid|rewrite Hd1; exact Hb|rewrite Hd1; exact Hlen|].
  cbn [FileProgram.step]. rewrite Hw.
  set (fs2 := <[_ := _]> fs1).
  assert (Hh2 : holds dim path fs2 id data).
  { eexists. split; [unfold fs2; rewrite Hp1; apply lookup_insert_eq|].
    split; [|exact Hlen]. rewrite Hd1. apply slot_write_same. lia. }
  pose proof (file_run_holds dim path id data post fs2 st2 Hdim Hid
                ltac:(congruence) ltac:(congruence) Hok Hpost Hh2) as Hh3.
  destruct (file_run_frame dim path post fs2 st2 Hdim ltac:(congruence) ltac:(congruence))
    as [Hd3 Hp3].
  change (fst (FileBackend.read_node (fsys := SFS) fzero (fst (run (fs2, st2) post))
                (snd (run (fs2, st2) post)) id out) = (true, data)).
  apply file_read_holds;
    [rewrite Hd3; exact Hdim|exact Hid|rewrite Hd3; exact Hb|rewrite Hd3, Hp3; exact Hh3].
Qed.

End FileSlotFacts.

(** Three vectors of dimension 2 written out of order, slot 1 twice and once
    with a wrong length: the read of slot 1 gives its last full write. *)
Lemma file_read_returns_last_write_witness :
  let s := FileProgram.run 0 0 (∅, FileBackend.make "vectors.bin" 2)
             ([FileProgram.Write 2 [5; 6]; FileProgram.Write 1 [9; 9]]
              ++ FileProgram.Write 1 [3; 4]
              :: [FileProgram.Write 0 [1; 2]; FileProgram.Read 2;
                  FileProgram.Write 2 [7; 8; 9]]) in
  fst (FileBackend.read_node (fsys := SlotFS.SlotFS_FileSystem 0) 0 (fst s) (snd s) 1 [])
  = (true, [3; 4]).
Proof.
  apply (file_read_returns_last_write 0 0 ∅ "vectors.bin" 2
           [FileProgram.Write 2 [5; 6]; FileProgram.Write 1 [9; 9]]
           [FileProgram.Write 0 [1; 2]; FileProgram.Read 2; FileProgram.Write 2 [7; 8; 9]]
           1 [3; 4] []).
  - lia.
  - repeat constructor; simpl; lia.
  - reflexivity.
  - intros d [H|[H|[H|[]]]]; discriminate.
Defined.

(** ** Loading a truncated file *)

Section TruncatedStreamFacts.
Import BinaryStream.

Ltac reader_unfold := unfold mbind, mret, HNSW.reader_bind, HNSW.reader_ret.

Lemma cuts_ret {A} (a : A) : cuts (ret a) [].
Proof. intros p q Hpq Hq. destruct p, q; try discriminate. contradiction. Qed.

Lemma cuts_bind {A B} (r : reader A) (k : A -> reader B) (e e' : list Z) (a : A) :
  reads r e a -> cuts r e -> cuts (k a) e' -> cuts (bind r k) (e ++ e').
Proof.
  intros Hr Hc Hk p q Hpq Hq. unfold bind.
  apply app_eq_app in Hpq as [l [[-> ->]|[-> ->]]].
  - destruct l as [|x l].
    + rewrite app_nil_r in *. rewrite <- (app_nil_r p), Hr.
      apply (Hk [] e'); [reflexivity|exact Hq].
    + rewrite (Hc p (x :: l)); [reflexivity|reflexivity|discriminate].
  - rewrite Hr. apply (Hk l q); [reflexivity|exact Hq].
Qed.

Lemma cuts_read_bytes (bytes : list Z) : cuts (read_bytes (length bytes)) bytes.
Proof.
  intros p q -> Hq. unfold read_bytes. rewrite length_app.
  destruct (Nat.ltb_spec (length p) (length p + length q)) as [_|Hge]; [reflexivity|].
  destruct q; [contradiction|simpl in Hge; lia].
Qed.

Lemma cuts_fixed {A} (n : nat) (f : Z -> A) (x : Z) :
  cuts (bind (read_bytes n) (fun bytes => ret (f (le_value bytes)))) (le_bytes n x).
Proof.
  rewrite <- (app_nil_r (le_bytes n x)).
  apply cuts_bind with (a := le_bytes n x).
  - rewrite <- (le_bytes_length n x) at 1. apply reads_read_bytes.
  - rewrite <- (le_bytes_length n x) at 1. apply cuts_read_bytes.
  - apply cuts_ret.
Qed.

Lemma cuts_many {A} (r : reader A) (enc : A -> list Z) (l : list A) :
  Forall (fun a => reads r (enc a) a /\ cuts r (enc a)) l ->
  cuts (read_many (length l) r) (concat (map enc l)).
Proof.
  induction 1 as [|a l [Ha Hc] Hl IH]; simpl.
  - apply cuts_ret.
  - apply cuts_bind with (a := a); [exact Ha|exact Hc|].
    rewrite <- (app_nil_r (concat (map enc l))).
    apply cuts_bind with (a := l); [|exact IH|apply cuts_ret].
    apply reads_many. eapply Forall_impl; [exact Hl|]. intros x [Hx _]. exact Hx.
Qed.

Lemma cuts_u64 (x : Z) : cuts HNSW.read_u64 (HNSW.write_u64 x).
Proof. unfold HNSW.read_u64, HNSW.write_u64. reader_unfold. apply (cuts_fixed 8 (fun v => v)). Qed.

Lemma cuts_i32 (x : Z) : cuts HNSW.read_i32 (HNSW.write_i32 x).
Proof. unfold HNSW.read_i32, HNSW.write_i32. reader_unfold. apply (cuts_fixed 4 HNSW.to_int32). Qed.

Lemma cuts_f32 (w : Z) : cuts HNSW.read_f32 (HNSW.write_f32 w).
Proof. unfold HNSW.read_f32, HNSW.write_f32. reader_unfold. apply (cuts_fixed 4 (fun v => v)). Qed.

Lemma cuts_layer (layer_nbrs : list Z) :
  Z.of_nat (length layer_nbrs) < two64 -> Forall in_u64 layer_nbrs ->
  cuts HNSW.read_layer (HNSW.layer_bytes layer_nbrs).
Proof.
  intros Hlen Hids. unfold HNSW.read_layer, HNSW.layer_bytes. reader_unfold.
  apply cuts_bind with (a := Z.of_nat (length layer_nbrs)).
  - apply reads_u64. unfold in_u64. lia.
  - apply cuts_u64.
  - rewrite Nat2Z.id. apply cuts_many.
    eapply Forall_impl; [exact Hids|]. intros x Hx. split; [apply reads_u64, Hx|apply cuts_u64].
Qed.

Lemma cuts_node (n : HNSW.Node) : HNSW.node_fits n -> cuts HNSW.read_node (HNSW.node_bytes n).
Proof.
  intros (Hid & Hlen & Hlayers). unfold HNSW.read_node, HNSW.node_bytes. reader_unfold.
  apply cuts_bind with (a := HNSW.node_id n); [apply reads_u64, Hid|apply cuts_u64|].
  apply cuts_bind with (a := Z.of_nat (length (HNSW.neighbors n)));
    [apply reads_u64; unfold in_u64; lia|apply cuts_u64|].
  rewrite Nat2Z.id. rewrite <- (app_nil_r (concat _)).
  apply cuts_bind with (a := HNSW.neighbors n).
  - apply reads_many. eapply Forall_impl; [exact Hlayers|].
    intros l [Hl Hi]. apply reads_layer; assumption.
  - apply cuts_many. eapply Forall_impl; [exact Hlayers|].
    intros l [Hl Hi]. split; [apply reads_layer|apply cuts_layer]; assumption.
  - apply cuts_ret.
Qed.

Lemma cuts_vector (dim : Z) (v : list Z) :
  HNSW.vector_fits dim v ->
  cuts (read_many (Z.to_nat dim) HNSW.read_f32) (concat (map HNSW.write_f32 v)).
Proof.
  intros [<- Hw]. rewrite Nat2Z.id. apply cuts_many.
  eapply Forall_impl; [exact Hw|]. intros w Hr. split; [apply reads_f32, Hr|apply cuts_f32].
Qed.

(** [load] fails on every stream that ends inside the bytes of a saved
    index. *)
Lemma load_bytes_cuts (idx fresh : HNSW.t) :
  HNSW.fits idx -> cuts (HNSW.load_bytes fresh) (HNSW.save_bytes idx).
Proof.
  intros [Hdim HM Hefc Hmetric Hentry Hmax Hnv Hvec Hnn Hnodes].
  unfold HNSW.load_bytes, HNSW.save_bytes. reader_unfold.
  assert (Hmf : HNSW.max_floats = 2 ^ 61 - 1) by reflexivity.
  apply cuts_bind with (a := HNSW.dim_ idx);
    [apply reads_u64; unfold in_u64, two64; lia|apply cuts_u64|].
  apply cuts_bind with (a := HNSW.M_ idx); [apply reads_u64, HM|apply cuts_u64|].
  apply cuts_bind with (a := HNSW.ef_construction_ idx); [apply reads_u64, Hefc|apply cuts_u64|].
  apply cuts_bind with (a := HNSW.metric_ idx); [apply reads_i32, Hmetric|apply cuts_i32|].
  apply cuts_bind with (a := HNSW.entry_point_ idx); [apply reads_u64, Hentry|apply cuts_u64|].
  apply cuts_bind with (a := HNSW.max_layer_ idx); [apply reads_u64, Hmax|apply cuts_u64|].
  apply cuts_bind with (a := Z.of_nat (length (HNSW.vectors_ idx)));
    [apply reads_u64; unfold in_u64; lia|apply cuts_u64|].
  apply cuts_bind with (a := HNSW.vectors_ idx).
  { destruct (Z.ltb_spec HNSW.max_floats (HNSW.dim_ idx)) as [Hbig|_]; [lia|].
    rewrite Nat2Z.id. apply reads_many.
    eapply Forall_impl; [exact Hvec|]. intros v Hv. apply reads_vector, Hv. }
  { destruct (Z.ltb_spec HNSW.max_floats (HNSW.dim_ idx)) as [Hbig|_]; [lia|].
    rewrite Nat2Z.id. apply cuts_many.
    eapply Forall_impl; [exact Hvec|]. intros v Hv.
    split; [apply reads_vector, Hv|apply cuts_vector, Hv]. }
  apply cuts_bind with (a := Z.of_nat (length (HNSW.nodes_ idx)));
    [apply reads_u64; unfold in_u64; lia|apply cuts_u64|].
  rewrite Nat2Z.id. rewrite <- (app_nil_r (concat _)).
  apply cuts_bind with (a := HNSW.nodes_ idx).
  - apply reads_many. eapply Forall_impl; [exact Hnodes|]. intros n Hn. apply reads_node, Hn.
  - apply cuts_many. eapply Forall_impl; [exact Hnodes|]. intros n Hn.
    split; [apply reads_node, Hn|apply cuts_node, Hn].
  - apply cuts_ret.
Qed.

End TruncatedStreamFacts.

Section TruncatedFile.
Context {FS : Type} {files : HNSW.BinaryFiles FS}.

(** A truncated index file is rejected.  When the file holds only a proper
    prefix of the bytes [save] writes for an index (every stored number in
    the range of its field), [load] does not return [true], wherever the
    file was cut: in the header, in a vector, in a node, or before its
    first byte. *)
Theorem load_rejects_truncated_file
  (idx fresh : HNSW.t) (fs : FS) (path : string) (kept lost : list Z) :
  HNSW.fits idx ->
  HNSW.save_bytes idx = kept ++ lost -> lost <> [] ->
  HNSW.read_file fs path = Some kept ->
  HNSW.load fs path fresh = None.
Proof.
  intros Hfits Hsplit Hlost Hread. unfold HNSW.load. rewrite Hread.
  rewrite (load_bytes_cuts idx fresh Hfits kept lost Hsplit Hlost). reflexivity.
Qed.

End TruncatedFile.

(** Discharging [fits] and the like on a concrete index. *)
Ltac fits_leaf :=
  lazymatch goal with
  | |- Forall _ _ => constructor
  | |- _ /\ _ => split
  | |- HNSW.vector_fits _ _ => split
  | |- HNSW.node_fits _ => split
  | |- in_u64 _ => split
  | |- _ = _ => vm_compute; reflexivity
  | |- _ < _ => vm_compute; reflexivity
  | |- _ <= _ => vm_compute; intro; discriminate
  end.

(** The index file of scenario C without its last byte. *)
Lemma load_rejects_truncated_file_witness :
  HNSW.load (files := MapFiles.MapFiles_BinaryFiles)
    (<[ScenarioC.path := removelast (HNSW.save_bytes ScenarioC.built)]> ScenarioC.saved)
    ScenarioC.path ScenarioC.fresh = None.
Proof.
  apply (load_rejects_truncated_file (files := MapFiles.MapFiles_BinaryFiles)
           ScenarioC.built ScenarioC.fresh
           (<[ScenarioC.path := removelast (HNSW.save_bytes ScenarioC.built)]> ScenarioC.saved)
           ScenarioC.path
           (removelast (HNSW.save_bytes ScenarioC.built))
           [List.last (HNSW.save_bytes ScenarioC.built) 0]).
  - constructor; repeat fits_leaf.
  - vm_compute. reflexivity.
  - discriminate.
  - apply lookup_insert_eq.
Defined.

(** ** ANN-in-SSD: the portal graph *)

Section SelectionFacts.
Context {A : Type}.

(** The ids of the [keep] selected and sorted candidates: distinct when the
    candidates are, and ids of candidates. *)
Lemma selected_ids (key : A * Z -> VectorOps.float) (keep : nat) (k : Z) (P : Z -> Prop)
  (cand : list (A * Z)) :
  NoDup (map snd cand) -> Forall P (map snd cand) ->
  let sel := map snd (VectorOps.sort_by key (take keep (VectorOps.nth_element key k cand))) in
  NoDup sel /\ Forall P sel /\ (length sel <= keep)%nat.
Proof.
  intros Hnd HP. cbv zeta.
  assert (Hsub : map snd (take keep (VectorOps.nth_element key k cand))
                 `sublist_of` map snd (VectorOps.nth_element key k cand)).
  { rewrite <- firstn_map. apply sublist_take. }
  assert (Hperm : map snd (VectorOps.nth_element key k cand) ≡ₚ map snd cand).
  { apply Permutation_map. apply nth_element_perm. }
  assert (Hsort : map snd (VectorOps.sort_by key (take keep (VectorOps.nth_element key k cand)))
                  ≡ₚ map snd (take keep (VectorOps.nth_element key k cand))).
  { apply Permutation_map, sort_by_perm. }
  split; [|split].
  - rewrite Hsort. eapply sublist_NoDup; [|exact Hsub]. rewrite Hperm. exact Hnd.
  - rewrite Hsort. apply Forall_forall. intros x Hx.
    pose proof (elem_of_sublist _ _ _ Hx Hsub) as Hx'. rewrite Hperm in Hx'.
    rewrite Forall_forall in HP. apply HP, Hx'.
  - rewrite length_map, sort_by_length, length_take. lia.
Qed.

(** Candidates collected from distinct ids, at most one per id. *)
Lemma collected_ids (f : Z -> list (A * Z)) (P : Z -> Prop) (l : list Z) :
  (forall j, f j = [] \/ exists d, f j = [(d, j)]) ->
  (forall j, f j <> [] -> P j) ->
  NoDup l ->
  NoDup (map snd (flat_map f l)) /\ Forall P (map snd (flat_map f l)) /\
  (forall x, x ∈ map snd (flat_map f l) -> x ∈ l).
Proof.
  intros Hf HP. induction l as [|j l IH]; intros Hnd; simpl.
  - split; [constructor|]. split; [constructor|]. intros x Hx. exact Hx.
  - apply NoDup_cons in Hnd as [Hj Hnd]. destruct (IH Hnd) as (IH1 & IH2 & IH3).
    rewrite map_app.
    destruct (Hf j) as [E|[d E]].
    + rewrite E. simpl. split; [exact IH1|]. split; [exact IH2|].
      intros x Hx. right. apply IH3, Hx.
    + rewrite E. simpl. split; [|split].
      * apply NoDup_cons. split; [|exact IH1]. intros Hin. apply Hj, IH3, Hin.
      * constructor; [|exact IH2]. apply HP. rewrite E. discriminate.
      * intros x Hx. apply elem_of_cons in Hx as [->|Hx]; [left|right; apply IH3, Hx].
Qed.

End SelectionFacts.

Lemma existsb_eqb_elem (x : Z) (l : list Z) : existsb (Z.eqb x) l = true <-> x ∈ l.
Proof.
  rewrite existsb_exists. split.
  - intros (y & Hy & E). apply Z.eqb_eq in E. subst y. apply list_elem_of_In, Hy.
  - intros Hx. exists x. split; [apply list_elem_of_In, Hx|apply Z.eqb_refl].
Qed.

Lemma push_if_absent_spec (P : Z -> Prop) (l : list Z) (x : Z) :
  let l' := AnnInSsd.push_if_absent l x in
  (NoDup l -> NoDup l') /\ (Forall P l -> P x -> Forall P l') /\
  (length l' <= S (length l))%nat /\ x ∈ l' /\ (forall y, y ∈ l -> y ∈ l').
Proof.
  cbv zeta. unfold AnnInSsd.push_if_absent.
  destruct (existsb (Z.eqb x) l) eqn:E.
  - apply existsb_eqb_elem in E. repeat split; auto.
  - assert (Hx : x ∉ l).
    { intros Hx. apply existsb_eqb_elem in Hx. congruence. }
    split; [|split; [|split; [|split]]].
    + intros Hnd. apply NoDup_app. split; [exact Hnd|]. split; [|apply NoDup_singleton].
      intros y Hy Hy'. apply list_elem_of_singleton in Hy'. subst y. exact (Hx Hy).
    + intros Hl Hpx. apply Forall_app. split; [exact Hl|]. repeat constructor. exact Hpx.
    + rewrite length_app. simpl. lia.
    + apply elem_of_app. right. apply list_elem_of_singleton. reflexivity.
    + intros y Hy. apply elem_of_app. left. exact Hy.
Qed.

Lemma NoDup_block_indices (nb : Z) : NoDup (AnnInSsd.block_indices nb).
Proof.
  unfold AnnInSsd.block_indices. apply NoDup_fmap_2.
  - intros i j Hij. lia.
  - apply NoDup_seq.
Qed.

Lemma elem_of_block_indices (nb x : Z) : x ∈ AnnInSsd.block_indices nb <-> 0 <= x < nb.
Proof.
  unfold AnnInSsd.block_indices. rewrite list_elem_of_In, in_map_iff. split.
  - intros (i & <- & Hi). apply in_seq in Hi. lia.
  - intros Hx. exists (Z.to_nat x). split; [lia|]. apply in_seq. lia.
Qed.

Lemma length_block_indices (nb : Z) : length (AnnInSsd.block_indices nb) = Z.to_nat nb.
Proof. unfold AnnInSsd.block_indices. rewrite length_map, length_seq. reflexivity. Qed.

Section PortalFacts.
Context (simd : VectorOps.isa) (cfg : AnnInSsd.AnnInSsdConfig) (ds : AnnInSsd.Dataset).
Local Abbreviation N := (AnnInSsd.effective_n cfg ds).
Local Abbreviation K := (AnnInSsd.effective_K cfg).
Local Abbreviation D := (AnnInSsd.effective_dim cfg ds).

Lemma length_add_into (centroid base_vec : list VectorOps.float) :
  length (AnnInSsd.add_into centroid base_vec) = length centroid.
Proof. unfold AnnInSsd.add_into. apply length_imap. Qed.

Lemma length_block_centroid (dim : Z) (ids : list Z) :
  length (AnnInSsd.block_centroid ds dim ids) = Z.to_nat dim.
Proof.
  unfold AnnInSsd.block_centroid.
  assert (Hfold : forall acc : list VectorOps.float * Z,
            length (fst (fold_left
              (fun (acc : list VectorOps.float * Z) vid =>
                 let base_vec := AnnInSsd.get_vector_data ds vid in
                 if Z.of_nat (length base_vec) =? dim
                 then (AnnInSsd.add_into (fst acc) base_vec, wrap64 (snd acc + 1))
                 else acc) ids acc)) = length (fst acc)).
  { induction ids as [|vid ids IH]; intros acc; simpl; [reflexivity|].
    rewrite IH. destruct (_ =? dim); [apply length_add_into|reflexivity]. }
  specialize (Hfold (replicate (Z.to_nat dim) VectorOps.fzero, 0)).
  destruct (fold_left _ ids _) as [sum count]. simpl in Hfold.
  rewrite length_replicate in Hfold.
  destruct (0 <? count); [rewrite length_map|]; exact Hfold.
Qed.

(** The portal list of block [b] over centroids of the right length. *)
Lemma portal_neighbors_spec (dim nb pd : Z) (centroids : list (list VectorOps.float)) (b : Z) :
  0 <= pd -> 0 <= b < nb -> 2 * nb <= two64 ->
  Z.of_nat (length (nth (Z.to_nat b) centroids [])) = dim ->
  let nbrs := AnnInSsd.portal_neighbors simd dim nb pd centroids b in
  NoDup nbrs /\ Forall (fun j => 0 <= j < nb /\ j <> b) nbrs /\
  Z.of_nat (length nbrs) <= pd + 2 /\
  (1 < nb -> (b + 1) mod nb ∈ nbrs /\ (b - 1) mod nb ∈ nbrs).
Proof.
  intros Hpd Hb Hnb Hcb. cbv zeta. unfold AnnInSsd.portal_neighbors.
  destruct (Z.eqb_spec (Z.of_nat (length (nth (Z.to_nat b) centroids []))) dim) as [_|E];
    [|contradiction].
  cbn [negb].
  set (f := fun j : Z =>
              if j =? b then []
              else if negb (Z.of_nat (length (nth (Z.to_nat j) centroids [])) =? dim) then []
                   else [(VectorOps.l2_distance_squared simd (nth (Z.to_nat b) centroids [])
                            (nth (Z.to_nat j) centroids []) dim, j)]).
  set (cand := flat_map f (AnnInSsd.block_indices nb)).
  set (P := fun j : Z => 0 <= j < nb /\ j <> b).
  destruct (collected_ids f (fun j => j <> b) (AnnInSsd.block_indices nb)) as (Hnd & Hne & Hin).
  { intros j. unfold f. destruct (j =? b); [left; reflexivity|].
    destruct (negb _); [left; reflexivity|right; eexists; reflexivity]. }
  { intros j. unfold f. destruct (Z.eqb_spec j b); [intros H; contradiction|auto]. }
  { apply NoDup_block_indices. }
  fold cand in Hnd, Hne, Hin.
  assert (HP : Forall P (map snd cand)).
  { apply Forall_forall. intros x Hx. split.
    - apply elem_of_block_indices, Hin, Hx.
    - rewrite Forall_forall in Hne. apply Hne, Hx. }
  set (keep := Z.min pd (Z.of_nat (length cand))).
  set (nb_list := if 0 <? keep
                  then map snd (VectorOps.sort_by fst
                                  (take (Z.to_nat keep) (VectorOps.nth_element fst keep cand)))
                  else []).
  assert (Hlist : NoDup nb_list /\ Forall P nb_list /\ Z.of_nat (length nb_list) <= pd).
  { unfold nb_list. destruct (0 <? keep).
    - destruct (selected_ids fst (Z.to_nat keep) keep P cand Hnd HP) as (H1 & H2 & H3).
      split; [exact H1|]. split; [exact H2|]. unfold keep in *. lia.
    - split; [constructor|]. split; [constructor|]. simpl. lia. }
  destruct Hlist as (L1 & L2 & L3).
  destruct (Z.ltb_spec 1 nb) as [Hring|Hsingle].
  - set (fwd := wrap64 (b + 1) mod nb).
    set (back := wrap64 (wrap64 (b + nb) - 1) mod nb).
    assert (Hfwd : fwd = (b + 1) mod nb).
    { unfold fwd. rewrite wrap64_small by (unfold two64 in *; lia). reflexivity. }
    assert (Hback : back = (b - 1) mod nb).
    { unfold back. rewrite (wrap64_small (b + nb)) by (unfold two64 in *; lia).
      rewrite wrap64_small by (unfold two64 in *; lia).
      replace (b + nb - 1) with (b - 1 + 1 * nb) by lia.
      apply Z.mod_add. lia. }
    assert (Pfwd : P fwd).
    { rewrite Hfwd. unfold P. pose proof (Z.mod_pos_bound (b + 1) nb ltac:(lia)).
      split; [lia|].
      destruct (Z.eq_dec (b + 1) nb) as [Hlast|Hmid].
      - rewrite Hlast, Z.mod_same by lia. lia.
      - rewrite Z.mod_small by lia. lia. }
    assert (Pback : P back).
    { rewrite Hback. unfold P. pose proof (Z.mod_pos_bound (b - 1) nb ltac:(lia)).
      split; [lia|].
      destruct (Z.eq_dec b 0) as [Hfirst|Hmid].
      - subst b. replace (0 - 1) with (nb - 1 + (-1) * nb) by lia.
        rewrite Z.mod_add by lia. rewrite Z.mod_small by lia. lia.
      - rewrite Z.mod_small by lia. lia. }
    destruct (push_if_absent_spec P nb_list fwd) as (F1 & F2 & F3 & F4 & F5).
    destruct (push_if_absent_spec P (AnnInSsd.push_if_absent nb_list fwd) back)
      as (B1 & B2 & B3 & B4 & B5).
    split; [apply B1, F1, L1|]. split; [apply B2; [apply F2; assumption|exact Pback]|].
    split; [lia|]. intros _. rewrite <- Hfwd, <- Hback. split; [apply B5, F4|exact B4].
  - split; [exact L1|]. split; [exact L2|]. split; [lia|]. intros Hlt. lia.
Qed.

Local Abbreviation built :=
  (AnnInSsd.build_block_graph_if_needed simd cfg ds AnnInSsd.fresh_graph).
Local Abbreviation PD :=
  (if AnnInSsd.portal_degree cfg =? 0 then 1 else AnnInSsd.portal_degree cfg).

Lemma effective_n_nonneg : 0 <= N.
Proof.
  unfold AnnInSsd.effective_n, AnnInSsd.dataset_size.
  destruct (Z.ltb_spec 0 (AnnInSsd.num_vectors cfg)); simpl; [|lia].
  destruct (_ <? _); lia.
Qed.

Lemma length_push_to_block (asg : list (list Z)) (b id : Z) :
  length (AnnInSsd.push_to_block asg b id) = length asg.
Proof. unfold AnnInSsd.push_to_block. apply length_alter. Qed.

Lemma length_locality_aware_assign (n dim nb : Z) (asg : list (list Z)) :
  length (AnnInSsd.locality_aware_assign simd ds n dim nb asg) = length asg.
Proof.
  unfold AnnInSsd.locality_aware_assign.
  generalize (AnnInSsd.block_indices n). intros l. revert asg.
  induction l as [|i l IH]; intros asg; simpl; [reflexivity|].
  rewrite IH. destruct (_ =? dim); [apply length_push_to_block|reflexivity].
Qed.

(** The graph a new model builds: one assignment, one centroid and one
    portal list per block. *)
Lemma built_graph_shape :
  in_u64 (AnnInSsd.vectors_per_block cfg) -> N <> 0 -> D <> 0 -> N + K <= two64 ->
  let nb := ceil_div N K in
  AnnInSsd.num_blocks_of cfg N = nb /\ 0 < nb <= N /\
  length (AnnInSsd.block_assignment_ built) = Z.to_nat nb /\
  AnnInSsd.block_centroids_ built
  = map (AnnInSsd.block_centroid ds D) (AnnInSsd.block_assignment_ built) /\
  AnnInSsd.block_neighbors_ built
  = map (AnnInSsd.portal_neighbors simd D nb PD (AnnInSsd.block_centroids_ built))
        (AnnInSsd.block_indices nb).
Proof.
  intros HK HN HD Hov nb.
  pose proof (effective_K_pos cfg HK) as HKpos.
  pose proof effective_n_nonneg as HN0.
  pose proof (ceil_div_bounds N K HKpos) as Hcb. fold nb in Hcb.
  assert (Hnb : AnnInSsd.num_blocks_of cfg N = nb).
  { unfold AnnInSsd.num_blocks_of. rewrite wrap64_small by lia. apply ceil_div_add, HKpos. }
  assert (Hnbpos : 0 < nb <= N) by nia.
  split; [exact Hnb|]. split; [exact Hnbpos|].
  unfold AnnInSsd.build_block_graph_if_needed.
  destruct (Z.eqb_spec N 0) as [|_]; [contradiction|].
  destruct (Z.eqb_spec D 0) as [|_]; [contradiction|].
  rewrite Hnb. cbn [AnnInSsd.fresh_graph AnnInSsd.block_neighbors_ length].
  change (negb (Z.of_nat 0 =? 0)) with false.
  cbn [andb AnnInSsd.block_assignment_ AnnInSsd.block_centroids_ AnnInSsd.block_neighbors_].
  split; [|split; reflexivity].
  destruct (negb _).
  - rewrite length_map. apply length_block_indices.
  - rewrite length_locality_aware_assign. apply length_resize.
Qed.

(** Every portal list of the built graph. *)
Lemma built_portal_lists :
  in_u64 (AnnInSsd.vectors_per_block cfg) -> in_u64 (AnnInSsd.dimension cfg) ->
  in_u64 (AnnInSsd.portal_degree cfg) ->
  N <> 0 -> D <> 0 -> N + K <= two64 -> N < 2 ^ 63 ->
  let nb := ceil_div N K in
  forall b, 0 <= b < nb ->
    let nbrs := nth (Z.to_nat b) (AnnInSsd.block_neighbors_ built) [] in
    NoDup nbrs /\ Forall (fun j => 0 <= j < nb /\ j <> b) nbrs /\
    Z.of_nat (length nbrs) <= PD + 2 /\
    (1 < nb -> (b + 1) mod nb ∈ nbrs /\ (b - 1) mod nb ∈ nbrs).
Proof.
  intros HK Hdim Hpd HN HD Hov Hbig nb b Hb.
  destruct (built_graph_shape HK HN HD Hov) as (Hnb & Hnbpos & Hasg & Hcent & Hnbrs).
  fold nb in Hnb, Hnbpos, Hasg, Hcent, Hnbrs.
  rewrite Hnbrs. rewrite nth_block_indices by exact Hb.
  assert (HD0 : 0 <= D).
  { unfold AnnInSsd.effective_dim.
    destruct (AnnInSsd.dimension cfg =? 0); [lia|apply Hdim]. }
  apply portal_neighbors_spec.
  - unfold in_u64 in Hpd. destruct (AnnInSsd.portal_degree cfg =? 0); lia.
  - exact Hb.
  - unfold two64. lia.
  - rewrite Hcent. rewrite nth_lookup, list_lookup_fmap.
    destruct (lookup_lt_is_Some_2 (AnnInSsd.block_assignment_ built) (Z.to_nat b)
                ltac:(rewrite Hasg; lia)) as [ids Hids].
    rewrite Hids. simpl. rewrite length_block_centroid. lia.
Qed.

(** The portal graph is a ring with shortcuts.  In the graph a new model
    builds (a non-empty data set of non-zero dimension, sizes within the
    range of [size_t]) there is one portal list per block; the list of
    block [b] names distinct blocks other than [b], at most
    [portal_degree + 2] of them, and, when there is more than one block,
    always the ring neighbours [(b + 1) mod B] and [(b - 1) mod B]. *)
Theorem portal_graph_is_ring_with_shortcuts :
  in_u64 (AnnInSsd.vectors_per_block cfg) -> in_u64 (AnnInSsd.dimension cfg) ->
  in_u64 (AnnInSsd.portal_degree cfg) ->
  N <> 0 -> D <> 0 -> N + K <= two64 -> N < 2 ^ 63 ->
  let B := ceil_div N K in
  Z.of_nat (length (AnnInSsd.block_neighbors_ built)) = B /\
  forall b, 0 <= b < B ->
    let nbrs := nth (Z.to_nat b) (AnnInSsd.block_neighbors_ built) [] in
    NoDup nbrs /\ Forall (fun j => 0 <= j < B /\ j <> b) nbrs /\
    Z.of_nat (length nbrs) <= PD + 2 /\
    (1 < B -> (b + 1) mod B ∈ nbrs /\ (b - 1) mod B ∈ nbrs).
Proof.
  intros HK Hdim Hpd HN HD Hov Hbig B.
  destruct (built_graph_shape HK HN HD Hov) as (_ & Hnbpos & _ & _ & Hnbrs).
  split.
  - rewrite Hnbrs, length_map, length_block_indices. fold B in Hnbpos. lia.
  - apply built_portal_lists; assumption.
Qed.

End PortalFacts.

(** ** ANN-in-SSD: the blocks a query visits *)

Section FrontierFacts.
Context (g : AnnInSsd.BlockGraph) (nb : Z).
Hypothesis Hnbpos : 0 < nb.
Hypothesis Hlen : Z.of_nat (length (AnnInSsd.block_neighbors_ g)) = nb.
Hypothesis Hportals : forall b, 0 <= b < nb ->
  Forall (fun j => 0 <= j) (nth (Z.to_nat b) (AnnInSsd.block_neighbors_ g) []).

Lemma is_visited_mark_iff (visited : list bool) (b x : Z) :
  length visited = Z.to_nat nb -> 0 <= b < nb -> 0 <= x < nb ->
  AnnInSsd.is_visited (AnnInSsd.mark_visited visited b) x = true
  <-> x = b \/ AnnInSsd.is_visited visited x = true.
Proof.
  intros Hl Hb Hx. unfold AnnInSsd.is_visited, AnnInSsd.mark_visited. rewrite !nth_lookup.
  destruct (decide (Z.to_nat b = Z.to_nat x)) as [E|E].
  - rewrite E, list_lookup_insert_eq by lia. simpl. split; [intros _; left; lia|reflexivity].
  - rewrite list_lookup_insert_ne by exact E. split; [auto|]. intros [->|H]; [lia|exact H].
Qed.

Lemma frontier_inv_push (visited : list bool) (queue : list Z) (b : Z) :
  frontier_inv nb visited queue -> 0 <= b < nb ->
  AnnInSsd.is_visited visited b = false ->
  frontier_inv nb (AnnInSsd.mark_visited visited b) (queue ++ [b]).
Proof.
  intros (Hl & Hnd & Hr & Hv) Hb Hnew.
  assert (Hb' : b ∉ queue).
  { intros Hin. apply Hv in Hin; [congruence|exact Hb]. }
  split; [|split; [|split]].
  - unfold AnnInSsd.mark_visited. rewrite length_insert. exact Hl.
  - apply NoDup_app. split; [exact Hnd|]. split; [|apply NoDup_singleton].
    intros y Hy Hy'. apply list_elem_of_singleton in Hy'. subst y. exact (Hb' Hy).
  - apply Forall_app. split; [exact Hr|]. repeat constructor; lia.
  - intros x Hx. rewrite (is_visited_mark_iff visited b x Hl Hb Hx).
    rewrite elem_of_app, list_elem_of_singleton, (Hv x Hx). tauto.
Qed.

(** Expanding a block queues each of its portals that is a block and is not
    marked yet. *)
Lemma expand_block_spec (nbrs : list Z) :
  Forall (fun j => 0 <= j) nbrs ->
  forall (visited : list bool) (queue : list Z) (steps : Z),
    frontier_inv nb visited queue ->
    exists visited' ext steps',
      AnnInSsd.expand_block nb nbrs (visited, queue, steps) = (visited', queue ++ ext, steps') /\
      frontier_inv nb visited' (queue ++ ext) /\
      forall y, y ∈ nbrs -> y < nb -> y ∈ queue ++ ext.
Proof.
  unfold AnnInSsd.expand_block.
  induction nbrs as [|j nbrs IH]; intros Hn visited queue steps Hinv; simpl.
  - exists visited, [], steps. rewrite app_nil_r. split; [reflexivity|]. split; [exact Hinv|].
    intros y Hy. apply elem_of_nil in Hy. contradiction.
  - apply Forall_cons in Hn as [Hj Hn].
    destruct (Z.leb_spec nb j) as [Hout|Hin].
    + destruct (IH Hn visited queue steps Hinv) as (v' & ext & s' & -> & Hinv' & Hq).
      exists v', ext, s'. split; [reflexivity|]. split; [exact Hinv'|].
      intros y Hy Hlt. apply elem_of_cons in Hy as [->|Hy]; [lia|apply Hq; assumption].
    + destruct (AnnInSsd.is_visited visited j) eqn:Evis.
      * destruct (IH Hn visited queue steps Hinv) as (v' & ext & s' & -> & Hinv' & Hq).
        exists v', ext, s'. split; [reflexivity|]. split; [exact Hinv'|].
        intros y Hy Hlt. apply elem_of_cons in Hy as [->|Hy]; [|apply Hq; assumption].
        apply elem_of_app. left. destruct Hinv as (_ & _ & _ & Hv). apply Hv; [lia|exact Evis].
      * destruct (IH Hn _ _ (wrap64 (steps + 1))
                    (frontier_inv_push visited queue j Hinv ltac:(lia) Evis))
          as (v' & ext & s' & -> & Hinv' & Hq).
        exists v', ([j] ++ ext), s'. rewrite app_assoc.
        split; [reflexivity|]. split; [exact Hinv'|].
        intros y Hy Hlt. apply elem_of_cons in Hy as [->|Hy]; [|apply Hq; assumption].
        rewrite !elem_of_app, list_elem_of_singleton. auto.
Qed.

(** The frontier loop: what it visits is a prefix of the final queue; it
    stops when its budget is spent or when every queued block has been
    expanded. *)
Lemma frontier_loop_spec (remaining : nat) :
  forall (visited : list bool) (queue : list Z) (q_head : nat) (steps : Z),
    frontier_inv nb visited queue -> (q_head <= length queue)%nat ->
    portals_queued g nb (take q_head queue) queue ->
    exists queue' ext,
      queue' = queue ++ ext /\ NoDup queue' /\ Forall (fun x => 0 <= x < nb) queue' /\
      let order := fst (AnnInSsd.frontier_loop g nb remaining visited queue q_head
                          (take q_head queue) steps) in
      (exists m, order = take m queue') /\
      (length order = (q_head + remaining)%nat \/
       (order = queue' /\ portals_queued g nb queue' queue')).
Proof.
  induction remaining as [|r IH]; intros visited queue q_head steps Hinv Hhead Hclosed.
  - exists queue, []. rewrite app_nil_r. destruct Hinv as (_ & Hnd & Hr & _).
    split; [reflexivity|]. split; [exact Hnd|]. split; [exact Hr|]. simpl.
    split; [exists q_head; reflexivity|]. left. rewrite length_take. lia.
  - simpl. destruct (queue !! q_head) as [b|] eqn:Eb.
    + pose proof (lookup_lt_Some _ _ _ Eb) as Hlt.
      assert (Hb : 0 <= b < nb).
      { destruct Hinv as (_ & _ & Hr & _). rewrite Forall_forall in Hr.
        apply Hr. eapply list_elem_of_lookup_2, Eb. }
      destruct (Z.leb_spec (Z.of_nat (length (AnnInSsd.block_neighbors_ g))) b) as [Hbad|_];
        [lia|].
      destruct (expand_block_spec _ (Hportals b Hb) visited queue steps Hinv)
        as (v' & ext & s' & -> & Hinv' & Hq).
      assert (Htake : take (S q_head) (queue ++ ext) = take q_head queue ++ [b]).
      { rewrite take_app_le by lia. apply take_S_r, Eb. }
      rewrite <- Htake.
      destruct (IH v' (queue ++ ext) (S q_head) s' Hinv') as (queue' & ext' & Hq' & Hnd & Hr & Hres).
      { rewrite length_app. lia. }
      { intros x y Hx Hy Hylt. rewrite Htake in Hx.
        apply elem_of_app in Hx as [Hx|Hx].
        - apply elem_of_app. left. apply (Hclosed x y Hx Hy Hylt).
        - apply list_elem_of_singleton in Hx. subst x. apply Hq; assumption. }
      exists queue', (ext ++ ext'). rewrite app_assoc.
      split; [exact Hq'|]. split; [exact Hnd|]. split; [exact Hr|].
      cbv zeta in Hres |- *. destruct Hres as [Hm Hend]. split; [exact Hm|].
      destruct Hend as [Hl|Hc]; [left; lia|right; exact Hc].
    + apply lookup_ge_None in Eb.
      exists queue, []. rewrite app_nil_r. destruct Hinv as (_ & Hnd & Hr & _).
      split; [reflexivity|]. split; [exact Hnd|]. split; [exact Hr|]. simpl.
      split; [exists q_head; reflexivity|]. right.
      rewrite take_ge in * by lia. split; [reflexivity|exact Hclosed].
Qed.

Hypothesis Hcentroids : length (AnnInSsd.block_centroids_ g) = Z.to_nat nb.

(** The entry blocks: a non-empty frontier. *)
Lemma entry_blocks_spec (simd : VectorOps.isa) (cfg : AnnInSsd.AnnInSsdConfig)
  (dim : Z) (query : AnnInSsd.Query) :
  let '(visited, queue) := AnnInSsd.entry_blocks simd cfg g dim nb query in
  frontier_inv nb visited queue /\ queue <> [].
Proof.
  assert (H0 : frontier_inv nb (replicate (Z.to_nat nb) false) []).
  { split; [apply length_replicate|]. split; [constructor|]. split; [constructor|].
    intros x Hx. unfold AnnInSsd.is_visited. rewrite nth_lookup, lookup_replicate_2 by lia.
    simpl. split; [discriminate|]. intros H. apply elem_of_nil in H. contradiction. }
  assert (Hzero : frontier_inv nb (AnnInSsd.mark_visited (replicate (Z.to_nat nb) false) 0) [0]
                  /\ [0] <> []).
  { split; [|discriminate].
    apply (frontier_inv_push _ [] 0 H0); [lia|].
    unfold AnnInSsd.is_visited. rewrite nth_lookup, lookup_replicate_2 by lia. reflexivity. }
  unfold AnnInSsd.entry_blocks.
  destruct (_ && _); [|exact Hzero].
  set (candidates := flat_map _ _).
  set (keep := Z.min _ _).
  destruct (Z.ltb_spec 0 keep) as [Hkeep|_]; [|exact Hzero].
  assert (Hcand : Forall (fun c : VectorOps.float * Z => 0 <= snd c < nb) candidates).
  { unfold candidates. apply Forall_forall. intros c Hc.
    apply list_elem_of_In, in_flat_map in Hc as ([j cj] & Hin & Hc).
    apply list_elem_of_In, elem_of_lookup_imap in Hin as (i & cv & E & Hi).
    injection E as -> ->. apply lookup_lt_Some in Hi.
    simpl in Hc. destruct (negb _); [destruct Hc|].
    destruct Hc as [<-|[]]. simpl. lia. }
  set (chosen := take (Z.to_nat keep) (VectorOps.nth_element fst keep candidates)).
  assert (Hchosen : Forall (fun c : VectorOps.float * Z => 0 <= snd c < nb) chosen /\ chosen <> []).
  { split.
    - unfold chosen. apply Forall_take.
      rewrite (nth_element_perm fst). exact Hcand.
    - unfold chosen. intros Hnil. apply (f_equal length) in Hnil.
      rewrite length_take in Hnil.
      rewrite nth_element_length in Hnil. unfold keep in *. simpl in Hnil. lia. }
  destruct Hchosen as [Hrange Hne].
  assert (Hfold : forall (l : list (VectorOps.float * Z)) (vq : list bool * list Z),
            Forall (fun c : VectorOps.float * Z => 0 <= snd c < nb) l ->
            frontier_inv nb (fst vq) (snd vq) ->
            let vq' := fold_left
                         (fun (vq : list bool * list Z) (c : VectorOps.float * Z) =>
                            if AnnInSsd.is_visited (fst vq) (snd c) then vq
                            else (AnnInSsd.mark_visited (fst vq) (snd c), snd vq ++ [snd c]))
                         l vq in
            frontier_inv nb (fst vq') (snd vq') /\ (l <> [] \/ snd vq <> [] -> snd vq' <> [])).
  { induction l as [|c l IHl]; intros vq Hl Hvq; cbv zeta; simpl.
    - split; [exact Hvq|]. intros [H|H]; [contradiction|exact H].
    - apply Forall_cons in Hl as [Hc Hl].
      destruct (AnnInSsd.is_visited (fst vq) (snd c)) eqn:Evis.
      + destruct (IHl vq Hl Hvq) as [I1 I2]. split; [exact I1|].
        intros _. apply I2. right. intros Hnil.
        destruct Hvq as (_ & _ & _ & Hv). apply (Hv _ Hc) in Evis.
        rewrite Hnil in Evis. apply elem_of_nil in Evis. contradiction.
      + destruct (IHl (AnnInSsd.mark_visited (fst vq) (snd c), snd vq ++ [snd c]) Hl) as [I1 I2].
        { apply frontier_inv_push; assumption. }
        split; [exact I1|]. intros _. apply I2. right. simpl.
        destruct (snd vq); discriminate. }
  destruct (Hfold chosen (replicate (Z.to_nat nb) false, []) Hrange H0) as [F1 F2].
  cbv zeta in F1, F2. fold chosen.
  destruct (fold_left _ chosen _) as [v q]. simpl in F1, F2.
  split; [exact F1|]. apply F2. left. exact Hne.
Qed.

Hypothesis Hring : 1 < nb -> forall b, 0 <= b < nb ->
  (b + 1) mod nb ∈ nth (Z.to_nat b) (AnnInSsd.block_neighbors_ g) [].

(** A queue closed under the portals holds every block. *)
Lemma closed_queue_is_full (queue : list Z) :
  queue <> [] -> Forall (fun x => 0 <= x < nb) queue ->
  portals_queued g nb queue queue ->
  forall y, 0 <= y < nb -> y ∈ queue.
Proof.
  intros Hne Hr Hclosed y Hy.
  destruct queue as [|x0 rest]; [contradiction|].
  assert (Hx0 : 0 <= x0 < nb) by (apply Forall_cons in Hr as [H _]; exact H).
  destruct (Z.eq_dec nb 1) as [Hone|Hmany].
  { assert (y = x0) by lia. subst y. left. }
  assert (Hwalk : forall k : nat, (x0 + Z.of_nat k) mod nb ∈ x0 :: rest).
  { induction k as [|k IHk].
    - rewrite Z.add_0_r, Z.mod_small by lia. left.
    - pose proof (Z.mod_pos_bound (x0 + Z.of_nat k) nb ltac:(lia)) as Hb.
      pose proof (Z.mod_pos_bound (x0 + Z.of_nat (S k)) nb ltac:(lia)) as Hb'.
      replace ((x0 + Z.of_nat (S k)) mod nb)
        with (((x0 + Z.of_nat k) mod nb + 1) mod nb).
      + apply (Hclosed ((x0 + Z.of_nat k) mod nb)); [exact IHk| |].
        * apply Hring; lia.
        * pose proof (Z.mod_pos_bound ((x0 + Z.of_nat k) mod nb + 1) nb ltac:(lia)). lia.
      + rewrite Zplus_mod_idemp_l. f_equal. lia. }
  specialize (Hwalk (Z.to_nat (y - x0 + nb))).
  replace (x0 + Z.of_nat (Z.to_nat (y - x0 + nb))) with (y + 1 * nb) in Hwalk by lia.
  rewrite Z.mod_add, Z.mod_small in Hwalk by lia. exact Hwalk.
Qed.

(** With a budget of [nb] blocks the loop visits every block once. *)
Lemma frontier_loop_covers (visited : list bool) (queue : list Z) (steps : Z) :
  frontier_inv nb visited queue -> queue <> [] ->
  fst (AnnInSsd.frontier_loop g nb (Z.to_nat nb) visited queue 0 [] steps)
  ≡ₚ AnnInSsd.block_indices nb.
Proof.
  intros Hinv Hne.
  destruct (frontier_loop_spec (Z.to_nat nb) visited queue 0 steps Hinv ltac:(lia))
    as (queue' & ext & Hq' & Hnd & Hr & Hres).
  { intros x y Hx. simpl in Hx. apply elem_of_nil in Hx. contradiction. }
  cbv zeta in Hres. change (take 0 queue) with (@nil Z) in Hres.
  set (order := fst (AnnInSsd.frontier_loop g nb (Z.to_nat nb) visited queue 0 [] steps)) in *.
  destruct Hres as [[m Hm] Hend].
  assert (Hond : NoDup order).
  { rewrite Hm. eapply sublist_NoDup; [exact Hnd|apply sublist_take]. }
  assert (Horange : forall x, x ∈ order -> x ∈ AnnInSsd.block_indices nb).
  { intros x Hx. apply elem_of_block_indices. rewrite Forall_forall in Hr. apply Hr.
    rewrite Hm in Hx. eapply elem_of_sublist; [exact Hx|apply sublist_take]. }
  destruct Hend as [Hl|[Hfull Hclosed]].
  - apply submseteq_length_Permutation.
    + apply NoDup_submseteq; assumption.
    + rewrite length_block_indices. lia.
  - apply NoDup_Permutation; [exact Hond|apply NoDup_block_indices|].
    intros x. split; [apply Horange|].
    intros Hx. apply elem_of_block_indices in Hx. rewrite Hfull.
    apply closed_queue_is_full; [|exact Hr|exact Hclosed|exact Hx].
    rewrite Hq'. destruct queue; [contradiction|discriminate].
Qed.

End FrontierFacts.

Section BlockSearchFacts.
Context (simd : VectorOps.isa) (cfg : AnnInSsd.AnnInSsdConfig) (ds : AnnInSsd.Dataset).
Local Abbreviation N := (AnnInSsd.effective_n cfg ds).
Local Abbreviation K := (AnnInSsd.effective_K cfg).
Local Abbreviation D := (AnnInSsd.effective_dim cfg ds).
Local Abbreviation build := (AnnInSsd.build_block_graph_if_needed simd cfg ds).
Local Abbreviation built := (build AnnInSsd.fresh_graph).

(** A second call of [build_block_graph_if_needed] finds the graph up to
    date. *)
Lemma build_block_graph_idempotent (g : AnnInSsd.BlockGraph) :
  in_u64 (AnnInSsd.vectors_per_block cfg) -> N + K <= two64 ->
  build (build g) = build g.
Proof.
  intros HK Hov.
  pose proof (effective_K_pos cfg HK) as HKpos.
  pose proof (effective_n_nonneg cfg ds) as HN0.
  destruct (Z.eq_dec N 0) as [HN|HN].
  { unfold AnnInSsd.build_block_graph_if_needed.
    destruct (Z.eqb_spec N 0); [reflexivity|contradiction]. }
  destruct (Z.eq_dec D 0) as [HD|HD].
  { unfold AnnInSsd.build_block_graph_if_needed.
    destruct (Z.eqb_spec N 0); [reflexivity|].
    destruct (Z.eqb_spec D 0); [reflexivity|contradiction]. }
  pose proof (ceil_div_bounds N K HKpos) as Hcb.
  assert (Hnb : AnnInSsd.num_blocks_of cfg N = ceil_div N K).
  { unfold AnnInSsd.num_blocks_of. rewrite wrap64_small by lia. apply ceil_div_add, HKpos. }
  assert (Hnbpos : 0 < AnnInSsd.num_blocks_of cfg N) by (rewrite Hnb; nia).
  set (nb := AnnInSsd.num_blocks_of cfg N) in *.
  set (guard := fun g : AnnInSsd.BlockGraph =>
                  negb (Z.of_nat (length (AnnInSsd.block_neighbors_ g)) =? 0)
                  && (AnnInSsd.graph_dim_ g =? D)
                  && (AnnInSsd.graph_vectors_per_block_ g =? K)
                  && (Z.of_nat (length (AnnInSsd.block_centroids_ g)) =? nb)
                  && (Z.of_nat (length (AnnInSsd.block_neighbors_ g)) =? nb)
                  && (Z.of_nat (length (AnnInSsd.block_assignment_ g)) =? nb)).
  assert (Hkept : forall g', guard g' = true -> build g' = g').
  { intros g' Hg'. unfold AnnInSsd.build_block_graph_if_needed.
    destruct (Z.eqb_spec N 0); [reflexivity|].
    destruct (Z.eqb_spec D 0); [reflexivity|].
    fold nb. unfold guard in Hg'. rewrite Hg'. reflexivity. }
  destruct (guard g) eqn:Eguard.
  { rewrite (Hkept g Eguard). apply Hkept, Eguard. }
  set (asg := if negb (String.eqb (AnnInSsd.placement_mode cfg) "locality_aware")
              then map (AnnInSsd.hash_home_block cfg N) (AnnInSsd.block_indices nb)
              else AnnInSsd.locality_aware_assign simd ds N D nb
                     (resize (Z.to_nat nb) [] (AnnInSsd.block_assignment_ g))).
  assert (Hasg : length asg = Z.to_nat nb).
  { unfold asg. destruct (negb (String.eqb _ _)).
    - rewrite length_map. apply length_block_indices.
    - rewrite length_locality_aware_assign. apply length_resize. }
  assert (Hrec : build g
                 = AnnInSsd.mkGraph
                     (map (AnnInSsd.block_centroid ds D) asg)
                     (map (AnnInSsd.portal_neighbors simd D nb
                             (if AnnInSsd.portal_degree cfg =? 0 then 1
                              else AnnInSsd.portal_degree cfg)
                             (map (AnnInSsd.block_centroid ds D) asg))
                          (AnnInSsd.block_indices nb))
                     D K asg).
  { unfold AnnInSsd.build_block_graph_if_needed.
    destruct (Z.eqb_spec N 0); [contradiction|].
    destruct (Z.eqb_spec D 0); [contradiction|].
    fold nb. unfold guard in Eguard. rewrite Eguard. reflexivity. }
  rewrite Hrec. apply Hkept. unfold guard.
  cbn [AnnInSsd.block_neighbors_ AnnInSsd.block_centroids_ AnnInSsd.block_assignment_
       AnnInSsd.graph_dim_ AnnInSsd.graph_vectors_per_block_].
  rewrite !length_map, length_block_indices, Hasg, !Z.eqb_refl.
  destruct (Z.eqb_spec (Z.of_nat (Z.to_nat nb)) 0) as [E|_]; [lia|].
  destruct (Z.eqb_spec (Z.of_nat (Z.to_nat nb)) nb) as [_|E]; [|lia].
  reflexivity.
Qed.

Lemma search_one_graph (g : AnnInSsd.BlockGraph) (q : AnnInSsd.Query) :
  snd (AnnInSsd.search_one simd cfg ds g q) = g \/
  snd (AnnInSsd.search_one simd cfg ds g q) = build g.
Proof.
  unfold AnnInSsd.search_one.
  destruct (N =? 0); [left; reflexivity|].
  destruct (_ =? 0); [left; reflexivity|].
  destruct (AnnInSsd.k cfg =? 0); [left; reflexivity|].
  destruct (AnnInSsd.visit_order _ _ _ _ _ _) as [order steps].
  destruct (_ =? 0); right; reflexivity.
Qed.

Lemma graph_after_cases (g : AnnInSsd.BlockGraph) (queries : list AnnInSsd.Query) :
  in_u64 (AnnInSsd.vectors_per_block cfg) -> N + K <= two64 ->
  graph_after simd cfg ds g queries = g \/ graph_after simd cfg ds g queries = build g.
Proof.
  intros HK Hov. unfold graph_after.
  induction queries as [|q queries IH] using rev_ind; [left; reflexivity|].
  rewrite fold_left_app. simpl.
  destruct (search_one_graph (fold_left (fun g q => snd (AnnInSsd.search_one simd cfg ds g q))
                                queries g) q) as [E|E]; rewrite E.
  - exact IH.
  - right. destruct IH as [-> | ->]; [reflexivity|].
    apply build_block_graph_idempotent; assumption.
Qed.

(** The block graph is built once.  Whatever queries a model has answered,
    its block graph is either still the one it started with or the one
    [build_block_graph_if_needed] makes of that; building again changes
    nothing. *)
Theorem block_graph_is_built_once (g : AnnInSsd.BlockGraph) (queries : list AnnInSsd.Query) :
  in_u64 (AnnInSsd.vectors_per_block cfg) -> N + K <= two64 ->
  (graph_after simd cfg ds g queries = g \/ graph_after simd cfg ds g queries = build g) /\
  build (build g) = build g /\
  build (graph_after simd cfg ds g queries) = build g.
Proof.
  intros HK Hov.
  pose proof (graph_after_cases g queries HK Hov) as Hcases.
  pose proof (build_block_graph_idempotent g HK Hov) as Hidem.
  split; [exact Hcases|]. split; [exact Hidem|].
  destruct Hcases as [-> | ->]; [reflexivity|exact Hidem].
Qed.

(** Without a step limit a query visits every block. *)
Lemma visit_order_covers (dim : Z) (q : AnnInSsd.Query) :
  in_u64 (AnnInSsd.vectors_per_block cfg) -> in_u64 (AnnInSsd.dimension cfg) ->
  in_u64 (AnnInSsd.portal_degree cfg) ->
  N <> 0 -> D <> 0 -> N + K <= two64 -> N < 2 ^ 63 ->
  AnnInSsd.max_steps cfg <= 0 \/ ceil_div N K <= AnnInSsd.max_steps cfg ->
  fst (AnnInSsd.visit_order simd cfg built dim N q) ≡ₚ AnnInSsd.block_indices (ceil_div N K).
Proof.
  intros HK Hdim Hpd HN HD Hov Hbig Hsteps.
  destruct (built_graph_shape simd cfg ds HK HN HD Hov) as (Hnb & Hnbpos & Hasg & Hcent & Hnbrs).
  pose proof (built_portal_lists simd cfg ds HK Hdim Hpd HN HD Hov Hbig) as Hlists.
  cbv zeta in Hlists.
  set (nb := ceil_div N K) in *.
  unfold AnnInSsd.visit_order. rewrite Hnb.
  assert (Hbudget : (if (0 <? AnnInSsd.max_steps cfg) && (AnnInSsd.max_steps cfg <? nb)
                     then AnnInSsd.max_steps cfg else nb) = nb).
  { destruct (Z.ltb_spec 0 (AnnInSsd.max_steps cfg)); [|reflexivity].
    destruct (Z.ltb_spec (AnnInSsd.max_steps cfg) nb); [lia|reflexivity]. }
  rewrite Hbudget.
  assert (Hlen : Z.of_nat (length (AnnInSsd.block_neighbors_ built)) = nb).
  { rewrite Hnbrs, length_map, length_block_indices. lia. }
  assert (Hcl : length (AnnInSsd.block_centroids_ built) = Z.to_nat nb).
  { rewrite Hcent, length_map. exact Hasg. }
  assert (Hnonneg : forall b, 0 <= b < nb ->
            Forall (fun j => 0 <= j) (nth (Z.to_nat b) (AnnInSsd.block_neighbors_ built) [])).
  { intros b Hb. destruct (Hlists b Hb) as (_ & Hr & _).
    eapply Forall_impl; [exact Hr|]. intros j [Hj _]. lia. }
  pose proof (entry_blocks_spec built nb ltac:(lia) Hcl simd cfg dim q) as Hentry.
  destruct (AnnInSsd.entry_blocks simd cfg built dim nb q) as [visited queue].
  destruct Hentry as [Hinv Hne].
  apply frontier_loop_covers; try assumption; [lia|].
  intros Hmany b Hb. destruct (Hlists b Hb) as (_ & _ & _ & Hring).
  apply (Hring Hmany).
Qed.

(** A query without a step limit scans every block.  On a model over a
    non-empty data set of non-zero dimension, with [max_steps] unset (or at
    least the number of blocks), a query that passes the guards of
    [search_one] visits each of the [ceil(N / K)] blocks exactly once,
    whatever the entry blocks and the portal lists are and whatever queries
    the model has answered before; [blocks_visited] is the number of
    blocks. *)
Theorem unlimited_query_visits_every_block
  (earlier : list AnnInSsd.Query) (q : AnnInSsd.Query) :
  in_u64 (AnnInSsd.vectors_per_block cfg) -> in_u64 (AnnInSsd.dimension cfg) ->
  in_u64 (AnnInSsd.portal_degree cfg) ->
  N <> 0 -> D <> 0 -> N + K <= two64 -> N < 2 ^ 63 ->
  AnnInSsd.max_steps cfg <= 0 \/ ceil_div N K <= AnnInSsd.max_steps cfg ->
  AnnInSsd.query_dim cfg q <> 0 -> AnnInSsd.k cfg <> 0 ->
  let g := graph_after simd cfg ds AnnInSsd.fresh_graph earlier in
  AnnInSsd.visited_blocks simd cfg ds g q ≡ₚ AnnInSsd.block_indices (ceil_div N K) /\
  AnnInSsd.blocks_visited (fst (AnnInSsd.search_one simd cfg ds g q)) = ceil_div N K.
Proof.
  intros HK Hdim Hpd HN HD Hov Hbig Hsteps Hqd Hk g.
  assert (Hg : build g = built).
  { unfold g. destruct (graph_after_cases AnnInSsd.fresh_graph earlier HK Hov) as [-> | ->];
      [reflexivity|apply build_block_graph_idempotent; assumption]. }
  pose proof (visit_order_covers (AnnInSsd.query_dim cfg q) q
                HK Hdim Hpd HN HD Hov Hbig Hsteps) as Hcover.
  assert (Hvisited : AnnInSsd.visited_blocks simd cfg ds g q
                     = fst (AnnInSsd.visit_order simd cfg built (AnnInSsd.query_dim cfg q) N q)).
  { unfold AnnInSsd.visited_blocks. rewrite Hg.
    destruct (Z.eqb_spec N 0); [contradiction|].
    destruct (Z.eqb_spec (AnnInSsd.query_dim cfg q) 0); [contradiction|].
    destruct (Z.eqb_spec (AnnInSsd.k cfg) 0); [contradiction|]. reflexivity. }
  split; [rewrite Hvisited; exact Hcover|].
  assert (Hcount : Z.of_nat (length (fst (AnnInSsd.visit_order simd cfg built
                                            (AnnInSsd.query_dim cfg q) N q))) = ceil_div N K).
  { rewrite (Permutation_length Hcover), length_block_indices.
    destruct (built_graph_shape simd cfg ds HK HN HD Hov) as (_ & Hpos & _). lia. }
  unfold AnnInSsd.search_one. fold (AnnInSsd.query_dim cfg q).
  destruct (Z.eqb_spec N 0); [contradiction|].
  destruct (Z.eqb_spec (AnnInSsd.query_dim cfg q) 0); [contradiction|].
  destruct (Z.eqb_spec (AnnInSsd.k cfg) 0); [contradiction|].
  rewrite Hg.
  destruct (AnnInSsd.visit_order simd cfg built (AnnInSsd.query_dim cfg q) N q)
    as [order steps].
  simpl in Hcount. destruct (_ =? 0); simpl; exact Hcount.
Qed.

End BlockSearchFacts.

(** Five vectors in three blocks of two: three portal lists forming a ring. *)
Lemma portal_graph_is_ring_with_shortcuts_witness :
  let g := AnnInSsd.build_block_graph_if_needed VectorOps.Scalar
             Examples.small_config Examples.small_dataset AnnInSsd.fresh_graph in
  let B := ceil_div (AnnInSsd.effective_n Examples.small_config Examples.small_dataset)
                    (AnnInSsd.effective_K Examples.small_config) in
  Z.of_nat (length (AnnInSsd.block_neighbors_ g)) = B /\
  forall b, 0 <= b < B ->
    let nbrs := nth (Z.to_nat b) (AnnInSsd.block_neighbors_ g) [] in
    NoDup nbrs /\ Forall (fun j => 0 <= j < B /\ j <> b) nbrs /\
    Z.of_nat (length nbrs)
    <= (if AnnInSsd.portal_degree Examples.small_config =? 0 then 1
        else AnnInSsd.portal_degree Examples.small_config) + 2 /\
    (1 < B -> (b + 1) mod B ∈ nbrs /\ (b - 1) mod B ∈ nbrs).
Proof.
  apply (portal_graph_is_ring_with_shortcuts VectorOps.Scalar
           Examples.small_config Examples.small_dataset).
  - split; vm_compute; [discriminate|reflexivity].
  - split; vm_compute; [discriminate|reflexivity].
  - split; vm_compute; [discriminate|reflexivity].
  - vm_compute. discriminate.
  - vm_compute. discriminate.
  - vm_compute. discriminate.
  - vm_compute. reflexivity.
Defined.

(** Two queries on the five-vector model: the graph after them is the one
    the first of them built. *)
Lemma block_graph_is_built_once_witness :
  let build := AnnInSsd.build_block_graph_if_needed VectorOps.Scalar
                 Examples.small_config Examples.small_dataset in
  let after := graph_after VectorOps.Scalar Examples.small_config Examples.small_dataset
                 AnnInSsd.fresh_graph
                 [AnnInSsd.mkQuery 0 [VectorOps.float_of_Z 1; VectorOps.float_of_Z 1] [];
                  AnnInSsd.mkQuery 1 [VectorOps.float_of_Z 3; VectorOps.float_of_Z 9] []] in
  (after = AnnInSsd.fresh_graph \/ after = build AnnInSsd.fresh_graph) /\
  build (build AnnInSsd.fresh_graph) = build AnnInSsd.fresh_graph /\
  build after = build AnnInSsd.fresh_graph.
Proof.
  apply (block_graph_is_built_once VectorOps.Scalar Examples.small_config
           Examples.small_dataset AnnInSsd.fresh_graph
           [AnnInSsd.mkQuery 0 [VectorOps.float_of_Z 1; VectorOps.float_of_Z 1] [];
            AnnInSsd.mkQuery 1 [VectorOps.float_of_Z 3; VectorOps.float_of_Z 9] []]).
  - split; vm_compute; [discriminate|reflexivity].
  - vm_compute. discriminate.
Defined.

(** A second query on the five-vector model, which has no step limit: all
    three blocks are visited. *)
Lemma unlimited_query_visits_every_block_witness :
  let q1 := AnnInSsd.mkQuery 0 [VectorOps.float_of_Z 1; VectorOps.float_of_Z 1] [] in
  let q2 := AnnInSsd.mkQuery 1 [VectorOps.float_of_Z 3; VectorOps.float_of_Z 9] [] in
  let g := graph_after VectorOps.Scalar Examples.small_config Examples.small_dataset
             AnnInSsd.fresh_graph [q1] in
  AnnInSsd.visited_blocks VectorOps.Scalar Examples.small_config Examples.small_dataset g q2
  ≡ₚ AnnInSsd.block_indices
       (ceil_div (AnnInSsd.effective_n Examples.small_config Examples.small_dataset)
                 (AnnInSsd.effective_K Examples.small_config)) /\
  AnnInSsd.blocks_visited
    (fst (AnnInSsd.search_one VectorOps.Scalar Examples.small_config Examples.small_dataset
            g q2))
  = ceil_div (AnnInSsd.effective_n Examples.small_config Examples.small_dataset)
             (AnnInSsd.effective_K Examples.small_config).
Proof.
  apply (unlimited_query_visits_every_block VectorOps.Scalar Examples.small_config
           Examples.small_dataset
           [AnnInSsd.mkQuery 0 [VectorOps.float_of_Z 1; VectorOps.float_of_Z 1] []]
           (AnnInSsd.mkQuery 1 [VectorOps.float_of_Z 3; VectorOps.float_of_Z 9] [])).
  - split; vm_compute; [discriminate|reflexivity].
  - split; vm_compute; [discriminate|reflexivity].
  - split; vm_compute; [discriminate|reflexivity].
  - vm_compute. discriminate.
  - vm_compute. discriminate.
  - vm_compute. discriminate.
  - vm_compute. reflexivity.
  - left. vm_compute. discriminate.
  - vm_compute. discriminate.
  - vm_compute. discriminate.
Defined.

(** ** ANN-in-SSD: locality-aware placement *)

Lemma elem_of_concat {A} (x : A) (ls : list (list A)) :
  x ∈ concat ls <-> exists l, x ∈ l /\ l ∈ ls.
Proof.
  rewrite list_elem_of_In, in_concat. split.
  - intros (l & Hl & Hx). exists l. split; apply list_elem_of_In; assumption.
  - intros (l & Hx & Hl). exists l. split; apply list_elem_of_In; assumption.
Qed.

Section LocalityFacts.
Context (simd : VectorOps.isa) (cfg : AnnInSsd.AnnInSsdConfig) (ds : AnnInSsd.Dataset).
Local Abbreviation N := (AnnInSsd.effective_n cfg ds).
Local Abbreviation K := (AnnInSsd.effective_K cfg).
Local Abbreviation D := (AnnInSsd.effective_dim cfg ds).
Local Abbreviation built :=
  (AnnInSsd.build_block_graph_if_needed simd cfg ds AnnInSsd.fresh_graph).

(** The nearest centroid is one of the centroids (block 0 when none is
    nearer than [FLT_MAX]). *)
Lemma nearest_centroid_range (dim : Z) (centroids : list (list VectorOps.float))
  (vec : list VectorOps.float) :
  centroids <> [] ->
  0 <= AnnInSsd.nearest_centroid simd dim centroids vec < Z.of_nat (length centroids).
Proof.
  intros Hne. unfold AnnInSsd.nearest_centroid.
  assert (Hfold : forall (l : list (Z * list VectorOps.float)) (best : VectorOps.float * Z),
            Forall (fun bc => 0 <= fst bc < Z.of_nat (length centroids)) l ->
            0 <= snd best < Z.of_nat (length centroids) ->
            0 <= snd (fold_left
                        (fun (best : VectorOps.float * Z) (bc : Z * list VectorOps.float) =>
                           let d := VectorOps.l2_distance_squared simd vec (snd bc) dim in
                           if VectorOps.fltb d (fst best) then (d, fst bc) else best)
                        l best) < Z.of_nat (length centroids)).
  { induction l as [|bc l IH]; intros best Hl Hbest; simpl; [exact Hbest|].
    apply Forall_cons in Hl as [Hbc Hl]. apply IH; [exact Hl|].
    destruct (VectorOps.fltb _ _); [exact Hbc|exact Hbest]. }
  apply Hfold.
  - apply Forall_forall. intros [b c] Hin.
    apply elem_of_lookup_imap in Hin as (i & cv & E & Hi). injection E as -> ->.
    apply lookup_lt_Some in Hi. simpl. lia.
  - simpl. destruct centroids; [contradiction|simpl; lia].
Qed.

Lemma concat_push_to_block (asg : list (list Z)) (b id : Z) :
  (Z.to_nat b < length asg)%nat ->
  concat (AnnInSsd.push_to_block asg b id) ≡ₚ concat asg ++ [id].
Proof.
  unfold AnnInSsd.push_to_block. generalize (Z.to_nat b). clear b. intros i.
  revert i. induction asg as [|ids asg IH]; intros i Hi; simpl in *; [lia|].
  destruct i as [|i]; simpl.
  - rewrite <- !app_assoc. apply Permutation_app_head, Permutation_app_comm.
  - change (list_alter ?f i asg) with (alter f i asg).
    rewrite IH by lia. rewrite app_assoc. reflexivity.
Qed.

(** The assignment pass puts every id with a vector of the right dimension
    into one block, and no other id. *)
Lemma locality_aware_assign_concat (n dim nb : Z) (asg : list (list Z)) :
  0 < nb -> length asg = Z.to_nat nb ->
  concat (AnnInSsd.locality_aware_assign simd ds n dim nb asg)
  ≡ₚ concat asg
     ++ filter (fun id => Z.of_nat (length (AnnInSsd.get_vector_data ds id)) = dim)
               (AnnInSsd.block_indices n).
Proof.
  intros Hnb. unfold AnnInSsd.locality_aware_assign.
  assert (Hcent : length (AnnInSsd.initial_centroids ds n nb) = Z.to_nat nb).
  { unfold AnnInSsd.initial_centroids. rewrite length_map. apply length_block_indices. }
  generalize (AnnInSsd.block_indices n). intros ids. revert asg.
  induction ids as [|id ids IH]; intros asg Hasg; simpl.
  - rewrite app_nil_r. reflexivity.
  - destruct (Z.eqb_spec (Z.of_nat (length (AnnInSsd.get_vector_data ds id))) dim) as [E|E].
    + rewrite filter_cons_True by exact E.
      rewrite IH by (rewrite length_push_to_block; exact Hasg).
      rewrite concat_push_to_block.
      * rewrite <- app_assoc. reflexivity.
      * pose proof (nearest_centroid_range dim (AnnInSsd.initial_centroids ds n nb)
                      (AnnInSsd.get_vector_data ds id)) as Hr.
        destruct (AnnInSsd.initial_centroids ds n nb) eqn:Ec; [simpl in Hcent; lia|].
        specialize (Hr ltac:(discriminate)). rewrite Hcent in Hr. lia.
    + rewrite filter_cons_False by exact E. apply IH, Hasg.
Qed.

(** Locality-aware placement partitions the ids.  With
    [placement_mode = "locality_aware"] the graph a new model builds has
    [ceil(N / K)] blocks, and the blocks together hold, each exactly once,
    the ids below [N] whose vector has the dimension of the model; an id
    whose vector has another length is in no block. *)
Theorem locality_aware_blocks_partition_ids :
  in_u64 (AnnInSsd.vectors_per_block cfg) ->
  N <> 0 -> D <> 0 -> N + K <= two64 ->
  AnnInSsd.placement_mode cfg = "locality_aware"%string ->
  let valid := filter (fun id => Z.of_nat (length (AnnInSsd.get_vector_data ds id)) = D)
                      (AnnInSsd.block_indices N) in
  Z.of_nat (length (AnnInSsd.block_assignment_ built)) = ceil_div N K /\
  concat (AnnInSsd.block_assignment_ built) ≡ₚ valid /\
  NoDup (concat (AnnInSsd.block_assignment_ built)) /\
  forall id, (exists b ids, AnnInSsd.block_assignment_ built !! b = Some ids /\ id ∈ ids)
             <-> (0 <= id < N /\ Z.of_nat (length (AnnInSsd.get_vector_data ds id)) = D).
Proof.
  intros HK HN HD Hov Hmode valid.
  destruct (built_graph_shape simd cfg ds HK HN HD Hov) as (Hnb & Hnbpos & Hlen & _ & _).
  assert (Hasg : AnnInSsd.block_assignment_ built
                 = AnnInSsd.locality_aware_assign simd ds N D (ceil_div N K)
                     (replicate (Z.to_nat (ceil_div N K)) [])).
  { unfold AnnInSsd.build_block_graph_if_needed.
    destruct (Z.eqb_spec N 0); [contradiction|].
    destruct (Z.eqb_spec D 0); [contradiction|].
    rewrite Hnb, Hmode. cbn [AnnInSsd.fresh_graph AnnInSsd.block_neighbors_ length].
    change (negb (Z.of_nat 0 =? 0)) with false.
    cbn [andb AnnInSsd.block_assignment_]. rewrite String.eqb_refl.
    cbn [negb AnnInSsd.fresh_graph AnnInSsd.block_assignment_]. rewrite resize_nil.
    reflexivity. }
  assert (Hperm : concat (AnnInSsd.block_assignment_ built) ≡ₚ valid).
  { rewrite Hasg, locality_aware_assign_concat by (try apply length_replicate; lia).
    replace (concat (replicate (Z.to_nat (ceil_div N K)) [])) with (@nil Z); [reflexivity|].
    generalize (Z.to_nat (ceil_div N K)). intros k.
    induction k as [|k IHk]; [reflexivity|exact IHk]. }
  split; [rewrite Hlen; lia|]. split; [exact Hperm|]. split.
  - rewrite Hperm. unfold valid. apply NoDup_filter, NoDup_block_indices.
  - intros id. split.
    + intros (b & ids & Hb & Hid).
      assert (Hin : id ∈ concat (AnnInSsd.block_assignment_ built)).
      { apply elem_of_concat. exists ids. split; [exact Hid|].
        eapply list_elem_of_lookup_2, Hb. }
      rewrite Hperm in Hin. apply list_elem_of_filter in Hin as [Hd Hin].
      apply elem_of_block_indices in Hin. split; assumption.
    + intros [Hid Hd].
      assert (Hin : id ∈ valid).
      { apply list_elem_of_filter. split; [exact Hd|apply elem_of_block_indices, Hid]. }
      rewrite <- Hperm in Hin. apply elem_of_concat in Hin as (ids & Hid' & Hin').
      apply list_elem_of_lookup_1 in Hin' as [b Hb]. exists b, ids. split; assumption.
Qed.

End LocalityFacts.

(** Five vectors of dimension 2 placed by locality in blocks of two. *)
Lemma locality_aware_blocks_partition_ids_witness :
  let cfg := AnnInSsd.mkConfig 2 0 "locality_aware" 2 4 "raw" "L0" 3 0 "centroid_knn" in
  let g := AnnInSsd.build_block_graph_if_needed VectorOps.Scalar cfg Examples.small_dataset
             AnnInSsd.fresh_graph in
  concat (AnnInSsd.block_assignment_ g) ≡ₚ [0; 1; 2; 3; 4] /\
  Z.of_nat (length (AnnInSsd.block_assignment_ g)) = 3.
Proof.
  intros cfg g.
  destruct (locality_aware_blocks_partition_ids VectorOps.Scalar cfg Examples.small_dataset)
    as (Hlen & Hperm & _).
  - split; vm_compute; [discriminate|reflexivity].
  - vm_compute. discriminate.
  - vm_compute. discriminate.
  - vm_compute. discriminate.
  - reflexivity.
  - split; [exact Hperm|exact Hlen].
Defined.

(** ** ANN-in-SSD: what an exhaustive query returns *)

Lemma map_seq_shift {A} (f : nat -> A) (k m : nat) : forall s,
  map f (seq (s + k) m) = map (fun i => f (i + k)%nat) (seq s m).
Proof.
  induction m as [|m IH]; intros s; simpl; [reflexivity|].
  f_equal. apply (IH (S s)).
Qed.

Lemma id_range_app (a b c : Z) :
  a <= b <= c -> AnnInSsd.id_range a b ++ AnnInSsd.id_range b c = AnnInSsd.id_range a c.
Proof.
  intros H. unfold AnnInSsd.id_range.
  replace (Z.to_nat (c - a)) with (Z.to_nat (b - a) + Z.to_nat (c - b))%nat by lia.
  rewrite seq_app, map_app. f_equal.
  rewrite (map_seq_shift _ (Z.to_nat (b - a)) _ 0%nat).
  apply map_ext. intros i. lia.
Qed.

Lemma flat_map_nth_all {A} (l : list (list A)) :
  flat_map (fun i => nth i l []) (seq 0 (length l)) = concat l.
Proof.
  induction l as [|x l IH]; [reflexivity|].
  simpl. f_equal. rewrite <- seq_shift, flat_map_concat_map, map_map.
  rewrite <- flat_map_concat_map. exact IH.
Qed.

Section ExhaustiveQueryFacts.
Context (simd : VectorOps.isa) (cfg : AnnInSsd.AnnInSsdConfig) (ds : AnnInSsd.Dataset).
Local Abbreviation N := (AnnInSsd.effective_n cfg ds).
Local Abbreviation K := (AnnInSsd.effective_K cfg).
Local Abbreviation D := (AnnInSsd.effective_dim cfg ds).
Local Abbreviation build := (AnnInSsd.build_block_graph_if_needed simd cfg ds).
Local Abbreviation built := (build AnnInSsd.fresh_graph).

(** The candidates of a scan are the vectors of the visited blocks, in the
    order of the visit. *)
Lemma scan_blocks_ids (g : AnnInSsd.BlockGraph) (dim : Z) (q : AnnInSsd.Query)
  (order : list Z) :
  map snd (AnnInSsd.dist_id (AnnInSsd.scan_blocks simd cfg ds g dim q order))
  = flat_map (AnnInSsd.block_ids g) order.
Proof.
  unfold AnnInSsd.scan_blocks.
  induction order as [|b order IH] using rev_ind; [reflexivity|].
  rewrite fold_left_app, flat_map_app. simpl.
  rewrite map_app, IH, map_map. simpl. rewrite map_id, app_nil_r. reflexivity.
Qed.

(** Visiting every block scans every stored id once. *)
Lemma all_blocks_ids (g : AnnInSsd.BlockGraph) (nb : Z) (order : list Z) :
  length (AnnInSsd.block_assignment_ g) = Z.to_nat nb ->
  order ≡ₚ AnnInSsd.block_indices nb ->
  flat_map (AnnInSsd.block_ids g) order ≡ₚ concat (AnnInSsd.block_assignment_ g).
Proof.
  intros Hlen Hperm. rewrite (Permutation_flat_map (AnnInSsd.block_ids g) Hperm).
  enough (E : flat_map (AnnInSsd.block_ids g) (AnnInSsd.block_indices nb)
             = concat (AnnInSsd.block_assignment_ g)) by (rewrite E; reflexivity).
  rewrite <- (flat_map_nth_all (AnnInSsd.block_assignment_ g)), Hlen.
  unfold AnnInSsd.block_indices, AnnInSsd.block_ids.
  rewrite !flat_map_concat_map, map_map. f_equal.
  apply map_ext. intros i. rewrite Nat2Z.id. reflexivity.
Qed.

(** The [hash_home] blocks, one after the other, are the ids in order. *)
Lemma hash_home_concat (m : nat) :
  0 < K -> N + K <= two64 -> (Z.of_nat m - 1) * K < N \/ m = 0%nat ->
  concat (map (AnnInSsd.hash_home_block cfg N) (map Z.of_nat (seq 0 m)))
  = AnnInSsd.id_range 0 (Z.min (Z.of_nat m * K) N).
Proof.
  intros HK Hov. pose proof (effective_n_nonneg cfg ds) as HN0.
  induction m as [|m IH]; intros Hm.
  - simpl. rewrite Z.min_l by lia. reflexivity.
  - rewrite seq_S, !map_app, concat_app, IH by (destruct m; [right; reflexivity|left; nia]).
    simpl. rewrite app_nil_r. unfold AnnInSsd.hash_home_block.
    assert (Hlt : Z.of_nat m * K < N) by (destruct Hm as [Hm|Hm]; [nia|discriminate]).
    rewrite (wrap64_small (Z.of_nat m * K)) by nia.
    rewrite wrap64_small by nia.
    rewrite (Z.min_l (Z.of_nat m * K) N) by lia.
    replace (Z.of_nat m * K + K) with (Z.of_nat (S m) * K) by lia.
    apply id_range_app. split; [nia|]. apply Z.min_glb; nia.
Qed.

(** The ids the built graph stores: each once. *)
Lemma built_stored_ids :
  in_u64 (AnnInSsd.vectors_per_block cfg) -> N <> 0 -> D <> 0 -> N + K <= two64 ->
  NoDup (concat (AnnInSsd.block_assignment_ built)) /\
  Forall (fun id => 0 <= id < N) (concat (AnnInSsd.block_assignment_ built)) /\
  (AnnInSsd.placement_mode cfg <> "locality_aware"%string ->
   concat (AnnInSsd.block_assignment_ built) = AnnInSsd.block_indices N).
Proof.
  intros HK HN HD Hov.
  pose proof (effective_K_pos cfg HK) as HKpos.
  pose proof (effective_n_nonneg cfg ds) as HN0.
  destruct (built_graph_shape simd cfg ds HK HN HD Hov) as (Hnb & Hnbpos & Hlen & _ & _).
  pose proof (ceil_div_bounds N K HKpos) as Hcb.
  destruct (String.eqb_spec (AnnInSsd.placement_mode cfg) "locality_aware") as [Hmode|Hmode].
  - assert (Hasg : AnnInSsd.block_assignment_ built
                   = AnnInSsd.locality_aware_assign simd ds N D (ceil_div N K)
                       (replicate (Z.to_nat (ceil_div N K)) [])).
    { unfold AnnInSsd.build_block_graph_if_needed.
      destruct (Z.eqb_spec N 0); [contradiction|].
      destruct (Z.eqb_spec D 0); [contradiction|].
      rewrite Hnb, Hmode. cbn [AnnInSsd.fresh_graph AnnInSsd.block_neighbors_ length].
      change (negb (Z.of_nat 0 =? 0)) with false.
      cbn [andb AnnInSsd.block_assignment_]. rewrite String.eqb_refl.
      cbn [negb AnnInSsd.fresh_graph AnnInSsd.block_assignment_]. rewrite resize_nil.
      reflexivity. }
    assert (Hperm : concat (AnnInSsd.block_assignment_ built)
                    ≡ₚ filter (fun id => Z.of_nat (length (AnnInSsd.get_vector_data ds id)) = D)
                              (AnnInSsd.block_indices N)).
    { rewrite Hasg, locality_aware_assign_concat by (try apply length_replicate; lia).
      replace (concat (replicate (Z.to_nat (ceil_div N K)) [])) with (@nil Z); [reflexivity|].
      generalize (Z.to_nat (ceil_div N K)). intros k.
      induction k as [|k IHk]; [reflexivity|exact IHk]. }
    split; [|split; [|intros H; contradiction]].
    + rewrite Hperm. apply NoDup_filter, NoDup_block_indices.
    + rewrite Hperm. apply Forall_forall. intros id Hid.
      apply list_elem_of_filter in Hid as [_ Hid]. apply elem_of_block_indices, Hid.
  - assert (Hasg : concat (AnnInSsd.block_assignment_ built) = AnnInSsd.block_indices N).
    { rewrite (hash_home_build_assignment simd cfg ds HN HD Hmode), Hnb.
      unfold AnnInSsd.block_indices at 1.
      rewrite hash_home_concat by (try assumption; left; lia).
      rewrite Z.min_r by lia. unfold AnnInSsd.id_range, AnnInSsd.block_indices.
      rewrite Z.sub_0_r. apply map_ext. intros i. lia. }
    rewrite Hasg. split; [apply NoDup_block_indices|]. split; [|intros _; reflexivity].
    apply Forall_forall. intros id Hid. apply elem_of_block_indices, Hid.
Qed.

(** An exhaustive query returns [min(k, N)] distinct stored ids.  On a model
    over a non-empty data set, with [max_steps] unset (or at least the
    number of blocks), a query that passes the guards of [search_one]
    computes the distance to every stored vector, each once, and returns
    distinct ids of stored vectors, as many as [k], the number [N] of
    vectors and the number of stored ids allow; under [hash_home] placement
    the stored ids are all ids below [N], so [min(k, N)] ids come back. *)
Theorem unlimited_query_returns_k_distinct_ids
  (earlier : list AnnInSsd.Query) (q : AnnInSsd.Query) :
  in_u64 (AnnInSsd.vectors_per_block cfg) -> in_u64 (AnnInSsd.dimension cfg) ->
  in_u64 (AnnInSsd.portal_degree cfg) -> in_u64 (AnnInSsd.k cfg) ->
  N <> 0 -> D <> 0 -> N + K <= two64 -> N < 2 ^ 63 ->
  AnnInSsd.max_steps cfg <= 0 \/ ceil_div N K <= AnnInSsd.max_steps cfg ->
  AnnInSsd.query_dim cfg q <> 0 -> AnnInSsd.k cfg <> 0 ->
  let g := graph_after simd cfg ds AnnInSsd.fresh_graph earlier in
  let r := fst (AnnInSsd.search_one simd cfg ds g q) in
  let stored := concat (AnnInSsd.block_assignment_ built) in
  flat_map (AnnInSsd.block_ids built) (AnnInSsd.visited_blocks simd cfg ds g q) ≡ₚ stored /\
  NoDup (AnnInSsd.found_neighbors r) /\
  (forall id, id ∈ AnnInSsd.found_neighbors r -> id ∈ stored /\ 0 <= id < N) /\
  Z.of_nat (length (AnnInSsd.found_neighbors r))
  = Z.min (Z.min (AnnInSsd.k cfg) N) (Z.of_nat (length stored)) /\
  length (AnnInSsd.found_scores r) = length (AnnInSsd.found_neighbors r) /\
  (AnnInSsd.placement_mode cfg <> "locality_aware"%string ->
   Z.of_nat (length (AnnInSsd.found_neighbors r)) = Z.min (AnnInSsd.k cfg) N).
Proof.
  intros HK Hdim Hpd Hk HN HD Hov Hbig Hsteps Hqd Hk0 g r stored.
  pose proof (effective_n_nonneg cfg ds) as HN0.
  destruct (built_graph_shape simd cfg ds HK HN HD Hov) as (Hnb & Hnbpos & Hlen & _ & _).
  destruct (built_stored_ids HK HN HD Hov) as (Hnd & Hrange & Hhash). fold stored in Hnd, Hrange, Hhash.
  assert (Hg : build g = built).
  { unfold g. destruct (graph_after_cases simd cfg ds AnnInSsd.fresh_graph earlier HK Hov)
      as [-> | ->]; [reflexivity|apply build_block_graph_idempotent; assumption]. }
  pose proof (visit_order_covers simd cfg ds (AnnInSsd.query_dim cfg q) q
                HK Hdim Hpd HN HD Hov Hbig Hsteps) as Hcover.
  assert (Hvisited : AnnInSsd.visited_blocks simd cfg ds g q
                     = fst (AnnInSsd.visit_order simd cfg built (AnnInSsd.query_dim cfg q) N q)).
  { unfold AnnInSsd.visited_blocks. rewrite Hg.
    destruct (Z.eqb_spec N 0); [contradiction|].
    destruct (Z.eqb_spec (AnnInSsd.query_dim cfg q) 0); [contradiction|].
    destruct (Z.eqb_spec (AnnInSsd.k cfg) 0); [contradiction|]. reflexivity. }
  assert (Hscanned : flat_map (AnnInSsd.block_ids built)
                       (AnnInSsd.visited_blocks simd cfg ds g q) ≡ₚ stored).
  { rewrite Hvisited. apply (all_blocks_ids built (ceil_div N K)); assumption. }
  split; [exact Hscanned|].
  rewrite Hvisited in Hscanned.
  unfold r, AnnInSsd.search_one. fold (AnnInSsd.query_dim cfg q).
  destruct (Z.eqb_spec N 0); [contradiction|].
  destruct (Z.eqb_spec (AnnInSsd.query_dim cfg q) 0); [contradiction|].
  destruct (Z.eqb_spec (AnnInSsd.k cfg) 0); [contradiction|].
  rewrite Hg.
  destruct (AnnInSsd.visit_order simd cfg built (AnnInSsd.query_dim cfg q) N q)
    as [order steps].
  simpl in Hscanned.
  pose proof (scan_blocks_ids built (AnnInSsd.query_dim cfg q) q order) as Hids.
  set (pairs := AnnInSsd.dist_id (AnnInSsd.scan_blocks simd cfg ds built
                                     (AnnInSsd.query_dim cfg q) q order)) in *.
  assert (Hpairs : map snd pairs ≡ₚ stored) by (rewrite Hids; exact Hscanned).
  assert (Hplen : length pairs = length stored).
  { rewrite <- (length_map snd pairs). apply Permutation_length, Hpairs. }
  set (kq := if N <? AnnInSsd.k cfg then N else AnnInSsd.k cfg).
  assert (Hkq : kq = Z.min (AnnInSsd.k cfg) N).
  { unfold kq. destruct (Z.ltb_spec N (AnnInSsd.k cfg)); lia. }
  set (kk := Z.min kq (Z.of_nat (length pairs))).
  assert (Hhashlen : AnnInSsd.placement_mode cfg <> "locality_aware"%string ->
                     Z.of_nat (length stored) = N).
  { intros Hmode. rewrite (Hhash Hmode), length_block_indices. lia. }
  destruct (Z.eqb_spec kk 0) as [Hkk|Hkk]; simpl.
  - split; [constructor|]. split; [intros id Hid; apply elem_of_nil in Hid; contradiction|].
    split; [rewrite <- Hkq, <- Hplen; fold kk; lia|]. split; [reflexivity|].
    intros Hmode. specialize (Hhashlen Hmode). unfold kk in Hkk.
    destruct Hk as [Hk _]. lia.
  - destruct (selected_ids fst (Z.to_nat kk) kk (fun id => id ∈ stored /\ 0 <= id < N) pairs)
      as (S1 & S2 & S3).
    { rewrite Hpairs. exact Hnd. }
    { rewrite Hpairs. apply Forall_forall. intros id Hid. split; [exact Hid|].
      rewrite Forall_forall in Hrange. apply Hrange, Hid. }
    split; [exact S1|]. split; [rewrite Forall_forall in S2; exact S2|].
    assert (Hcount : Z.of_nat (length (map snd (VectorOps.sort_by fst
                       (take (Z.to_nat kk) (VectorOps.nth_element fst kk pairs))))) = kk).
    { assert (Hkkr : 0 <= kk <= Z.of_nat (length pairs)).
      { unfold kk. rewrite Hkq. destruct Hk as [Hk _]. lia. }
      rewrite length_map, sort_by_length, length_take.
      rewrite nth_element_length. lia. }
    split; [rewrite Hcount, <- Hkq, <- Hplen; reflexivity|].
    split; [rewrite !length_map; reflexivity|].
    intros Hmode. specialize (Hhashlen Hmode). rewrite Hcount. unfold kk. lia.
Qed.

End ExhaustiveQueryFacts.

(** The five-vector model, [k = 3], no step limit: three ids come back. *)
Lemma unlimited_query_returns_k_distinct_ids_witness :
  let q := AnnInSsd.mkQuery 1 [VectorOps.float_of_Z 3; VectorOps.float_of_Z 9] [] in
  let r := fst (AnnInSsd.search_one VectorOps.Scalar Examples.small_config
                  Examples.small_dataset
                  (graph_after VectorOps.Scalar Examples.small_config Examples.small_dataset
                     AnnInSsd.fresh_graph []) q) in
  NoDup (AnnInSsd.found_neighbors r) /\
  Z.of_nat (length (AnnInSsd.found_neighbors r)) = 3.
Proof.
  intros q r.
  destruct (unlimited_query_returns_k_distinct_ids VectorOps.Scalar Examples.small_config
              Examples.small_dataset [] q) as (_ & Hnd & _ & _ & _ & Hlen).
  - split; vm_compute; [discriminate|reflexivity].
  - split; vm_compute; [discriminate|reflexivity].
  - split; vm_compute; [discriminate|reflexivity].
  - split; vm_compute; [discriminate|reflexivity].
  - vm_compute. discriminate.
  - vm_compute. discriminate.
  - vm_compute. discriminate.
  - vm_compute. reflexivity.
  - left. vm_compute. discriminate.
  - vm_compute. discriminate.
  - vm_compute. discriminate.
  - split; [exact Hnd|]. apply Hlen. vm_compute. discriminate.
Defined.

(** ** Data sets *)

Section DatasetFacts.
Import BinaryStream.

Lemma read_many_length {A} (r : reader A) (n : nat) : forall s l s',
  read_many n r s = Some (l, s') -> length l = n.
Proof.
  induction n as [|n IH]; intros s l s' H; simpl in H.
  - injection H as <- _. reflexivity.
  - unfold bind in H. destruct (r s) as [[a s1]|]; [|discriminate].
    destruct (read_many n r s1) as [[rest s2]|] eqn:E; [|discriminate].
    injection H as <- _. simpl. f_equal. apply (IH _ _ _ E).
Qed.

Lemma read_i32_range (s s' : list Z) (d : Z) :
  HNSW.read_i32 s = Some (d, s') ->
  - 2 ^ 31 <= d < 2 ^ 31 /\ (length s' + 4 = length s)%nat.
Proof.
  unfold HNSW.read_i32, mbind, mret, HNSW.reader_bind, HNSW.reader_ret, bind, ret, read_bytes.
  destruct (Nat.ltb_spec (length s) 4) as [|Hlen]; [discriminate|].
  intros H. injection H as <- <-. split.
  - unfold HNSW.to_int32.
    pose proof (Z.mod_pos_bound (le_value (take 4 s) + 2 ^ 31) (2 ^ 32) ltac:(lia)). lia.
  - rewrite length_drop. lia.
Qed.

Lemma read_many_consumes {A} (r : reader A) (n : nat) :
  (forall s a s', r s = Some (a, s') -> (length s' <= length s)%nat) ->
  forall s l s', read_many n r s = Some (l, s') -> (length s' <= length s)%nat.
Proof.
  intros Hr. induction n as [|n IH]; intros s l s' H; simpl in H.
  - injection H as _ <-. lia.
  - unfold bind in H. destruct (r s) as [[a s1]|] eqn:E1; [|discriminate].
    destruct (read_many n r s1) as [[rest s2]|] eqn:E2; [|discriminate].
    injection H as _ <-. pose proof (Hr _ _ _ E1). pose proof (IH _ _ _ E2). lia.
Qed.

Lemma component_reader_consumes (is_fvecs : bool) (s : list Z) (a : Z) (s' : list Z) :
  (if is_fvecs then HNSW.read_f32 else Dataset.read_byte_as_float) s = Some (a, s') ->
  (length s' <= length s)%nat.
Proof.
  destruct is_fvecs;
    unfold HNSW.read_f32, Dataset.read_byte_as_float, mbind, mret, HNSW.reader_bind,
           HNSW.reader_ret, bind, ret, read_bytes;
    destruct (_ <? _)%nat; try discriminate;
    intros H; injection H as _ <-; rewrite length_drop; lia.
Qed.

Lemma load_loop_spec (is_fvecs : bool) (fuel : nat) :
  forall (s : list Z) (dim : Z) (vectors : list (list Z)),
    (length s < fuel)%nat -> Dataset.uniform (Dataset.mk vectors dim) ->
    exists ok ds,
      Dataset.load_loop is_fvecs fuel s dim vectors = Some (ok, ds) /\
      Dataset.uniform ds /\ (ok = true -> Dataset.vectors_ ds <> []).
Proof.
  induction fuel as [|fuel IH]; intros s dim vectors Hfuel Huni; [lia|]. simpl.
  destruct (HNSW.read_i32 s) as [[d s1]|] eqn:Ed.
  - destruct (read_i32_range s s1 d Ed) as [Hd Hlen].
    destruct (Z.leb_spec d 0) as [Hle|Hpos].
    { exists false, (Dataset.mk vectors dim). split; [reflexivity|].
      split; [exact Huni|discriminate]. }
    destruct (negb (dim =? 0) && negb (dim =? d)) eqn:Emis.
    { exists false, (Dataset.mk vectors dim). split; [reflexivity|].
      split; [exact Huni|discriminate]. }
    set (dim1 := if dim =? 0 then d else dim).
    assert (Hdim1 : dim1 = d /\ (dim = 0 \/ dim = d)).
    { unfold dim1. destruct (Z.eqb_spec dim 0) as [->|Hnz]; [auto|].
      destruct (Z.eqb_spec dim d) as [->|Hne]; [auto|discriminate]. }
    destruct Hdim1 as [Hdim1 Hdim].
    assert (Huni1 : Forall (fun v => Z.of_nat (length v) = dim1) vectors).
    { destruct Huni as [Hall Hcase]. simpl in Hall, Hcase.
      destruct Hdim as [->| ->].
      - destruct Hcase as [[_ ->]|Hbad]; [constructor|lia].
      - rewrite Hdim1. exact Hall. }
    destruct (read_many (Z.to_nat dim1) _ s1) as [[vec s2]|] eqn:Ev.
    + pose proof (read_many_length _ _ _ _ _ Ev) as Hvl.
      pose proof (read_many_consumes _ _ (component_reader_consumes is_fvecs) _ _ _ Ev) as Hcons.
      apply IH; [lia|]. split; simpl.
      * apply Forall_app. split; [exact Huni1|]. repeat constructor. lia.
      * right. lia.
    + exists false, (Dataset.mk vectors dim1). split; [reflexivity|].
      split; [|discriminate]. split; [exact Huni1|]. simpl. right. lia.
  - exists (negb (length vectors =? 0)%nat), (Dataset.mk vectors dim).
    split; [reflexivity|]. split; [exact Huni|]. simpl.
    destruct vectors; [discriminate|]. intros _. discriminate.
Qed.

(** What a successful load leaves.  [load_from_file] returns for every
    file content; when it returns [true] the path ends in [.fvecs] or
    [.bvecs], the data set is not empty, its dimension is between 1 and
    [2^31 - 1], and every vector has that dimension.  When the file cannot
    be opened the data set is left as it was. *)
Theorem load_from_file_gives_uniform_vectors
  (file : option (list Z)) (filepath : string) (ds : Dataset.t) :
  exists ok ds',
    Dataset.load_from_file file filepath ds = Some (ok, ds') /\
    (file = None -> ok = false /\ ds' = ds) /\
    (ok = true ->
       (Dataset.has_suffix filepath ".fvecs" = true \/
        Dataset.has_suffix filepath ".bvecs" = true) /\
       Dataset.vectors_ ds' <> [] /\
       0 < Dataset.dimension ds' < 2 ^ 31 /\
       Forall (fun v => Z.of_nat (length v) = Dataset.dimension ds') (Dataset.vectors_ ds')).
Proof.
  unfold Dataset.load_from_file. destruct file as [bytes|].
  - destruct (Dataset.has_suffix filepath ".fvecs") eqn:Ef;
      destruct (Dataset.has_suffix filepath ".bvecs") eqn:Eb; cbn [negb andb].
    4: { exists false, Dataset.empty. split; [reflexivity|]. split; discriminate. }
    all: destruct (load_loop_spec true (S (length bytes)) bytes 0 [] ltac:(lia))
           as (ok & ds' & Hrun & Huni & Hne);
         [split; [constructor|left; split; reflexivity]|].
    all: destruct (load_loop_spec false (S (length bytes)) bytes 0 [] ltac:(lia))
           as (ok2 & ds2 & Hrun2 & Huni2 & Hne2);
         [split; [constructor|left; split; reflexivity]|].
    1, 2: exists ok, ds'; split; [exact Hrun|]; split; [discriminate|];
          intros Hok; specialize (Hne Hok); destruct Huni as [Hall [[_ Hnil]|Hdim]];
          [contradiction|]; auto.
    exists ok2, ds2. split; [exact Hrun2|]. split; [discriminate|].
    intros Hok. specialize (Hne2 Hok). destruct Huni2 as [Hall [[_ Hnil]|Hdim]];
      [contradiction|]. auto.
  - exists false, ds. split; [reflexivity|]. split; [auto|discriminate].
Qed.

Lemma read_i32_short (s : list Z) : (length s < 4)%nat -> HNSW.read_i32 s = None.
Proof.
  intros H. unfold HNSW.read_i32, mbind, mret, HNSW.reader_bind, HNSW.reader_ret, bind, read_bytes.
  destruct (Nat.ltb_spec (length s) 4); [reflexivity|lia].
Qed.

(** The loop on the bytes of an [.fvecs] file, followed by fewer than four
    bytes. *)
Lemma load_loop_fvecs (d : Z) (junk : list Z) (vs : list (list Z)) :
  0 < d < 2 ^ 31 -> (length junk < 4)%nat ->
  Forall (HNSW.vector_fits d) vs ->
  forall (fuel : nat) (dim : Z) (acc : list (list Z)),
    (length vs < fuel)%nat -> dim = 0 \/ dim = d ->
    Dataset.load_loop true fuel (Dataset.fvecs_bytes vs ++ junk) dim acc
    = Some (negb (length (acc ++ vs) =? 0)%nat,
            Dataset.mk (acc ++ vs) (match vs with [] => dim | _ => d end)).
Proof.
  intros Hd Hjunk Hvs. induction Hvs as [|v vs Hv Hvs IH]; intros fuel dim acc Hfuel Hdim.
  - destruct fuel as [|fuel]; [simpl in Hfuel; lia|]. simpl.
    rewrite read_i32_short by exact Hjunk. rewrite app_nil_r. reflexivity.
  - destruct fuel as [|fuel]; [simpl in Hfuel; lia|].
    unfold Dataset.fvecs_bytes. cbn [map concat Dataset.load_loop].
    fold (Dataset.fvecs_bytes vs). rewrite <- !app_assoc.
    pose proof Hv as [Hlen Hw]. rewrite Hlen.
    rewrite (reads_i32 d ltac:(lia)).
    destruct (Z.leb_spec d 0) as [|_]; [lia|].
    assert (Emis : negb (dim =? 0) && negb (dim =? d) = false).
    { destruct Hdim as [->| ->]; [reflexivity|]. rewrite Z.eqb_refl.
      destruct (d =? 0); reflexivity. }
    rewrite Emis.
    assert (Edim : (if dim =? 0 then d else dim) = d).
    { destruct Hdim as [->| ->]; [reflexivity|]. destruct (d =? 0) eqn:E; [|reflexivity].
      apply Z.eqb_eq in E. lia. }
    rewrite Edim. rewrite (reads_vector d v Hv).
    rewrite IH by (simpl in Hfuel; auto; lia).
    rewrite <- app_assoc. simpl. destruct vs; reflexivity.
Qed.

Lemma has_fvecs_records (vs : list (list Z)) :
  (length vs <= length (Dataset.fvecs_bytes vs))%nat.
Proof.
  unfold Dataset.fvecs_bytes. induction vs as [|v vs IH]; [simpl; lia|].
  cbn [map concat length]. rewrite !length_app.
  assert (H4 : length (HNSW.write_i32 (Z.of_nat (length v))) = 4%nat).
  { unfold HNSW.write_i32. apply le_bytes_length. }
  rewrite H4. lia.
Qed.

(** Reading back an [.fvecs] file.  A file whose path ends in [.fvecs] and
    which holds, record after record, the dimension [d] and the [d] floats
    of each vector of a non-empty list (then, possibly, up to three stray
    bytes) loads as exactly these vectors with dimension [d]. *)
Theorem fvecs_file_loads_as_written
  (d : Z) (vs : list (list Z)) (junk : list Z) (filepath : string) (ds : Dataset.t) :
  0 < d < 2 ^ 31 -> vs <> [] -> Forall (HNSW.vector_fits d) vs ->
  (length junk < 4)%nat ->
  Dataset.has_suffix filepath ".fvecs" = true ->
  Dataset.load_from_file (Some (Dataset.fvecs_bytes vs ++ junk)) filepath ds
  = Some (true, Dataset.mk vs d).
Proof.
  intros Hd Hne Hvs Hjunk Hpath. unfold Dataset.load_from_file.
  rewrite Hpath. cbn [negb andb].
  rewrite (load_loop_fvecs d junk vs Hd Hjunk Hvs _ 0 []).
  - destruct vs; [contradiction|reflexivity].
  - pose proof (has_fvecs_records vs). rewrite length_app. lia.
  - left. reflexivity.
Qed.

End DatasetFacts.

Section GroundTruthFacts.
Context (simd : VectorOps.isa).

Lemma imap_ids {A B} (f : nat -> A -> B) (l : list A) :
  map snd (imap (fun i v => (f i v, Z.of_nat i)) l) = map Z.of_nat (seq 0 (length l)).
Proof.
  assert (H : forall (k : nat) (l : list A),
            map snd (imap (fun i v => (f (k + i)%nat v, Z.of_nat (k + i))) l)
            = map Z.of_nat (seq k (length l))).
  { clear l. intros k l. revert k. induction l as [|x l IH]; intros k; simpl; [reflexivity|].
    rewrite Nat.add_0_r. f_equal. rewrite <- (IH (S k)). f_equal.
    apply imap_ext. intros i y _. simpl. rewrite Nat.add_succ_r. reflexivity. }
  apply (H 0%nat l).
Qed.

(** Brute-force ground truth.  [compute_ground_truth] returns one list per
    query; each list holds [min(k, size())] distinct ids of vectors of the
    data set. *)
Theorem ground_truth_lists_k_distinct_ids
  (ds : Dataset.t) (queries : list (list VectorOps.float)) (k : Z)
  (metric : VectorOps.DistanceMetric) :
  0 <= k ->
  let truth := Dataset.compute_ground_truth simd ds queries k metric in
  length truth = length queries /\
  Forall (fun ids => NoDup ids /\
                     Forall (fun id => 0 <= id < Dataset.size ds) ids /\
                     Z.of_nat (length ids) = Z.min k (Dataset.size ds))
         truth.
Proof.
  intros Hk truth. unfold truth, Dataset.compute_ground_truth.
  split; [apply length_map|].
  apply Forall_forall. intros ids Hin. apply list_elem_of_fmap in Hin as (q & -> & _).
  unfold Dataset.ground_truth_one, Dataset.size.
  set (dists := imap _ (Dataset.vectors_ ds)).
  assert (Hids : map snd dists = map Z.of_nat (seq 0 (length (Dataset.vectors_ ds)))).
  { apply imap_ids. }
  assert (Hlen : length dists = length (Dataset.vectors_ ds)).
  { unfold dists. apply length_imap. }
  assert (Hnd : NoDup (map snd dists)).
  { rewrite Hids. apply NoDup_fmap_2; [intros i j Hij; lia|apply NoDup_seq]. }
  assert (Hrange : Forall (fun id => 0 <= id < Z.of_nat (length (Dataset.vectors_ ds)))
                          (map snd dists)).
  { rewrite Hids. apply Forall_forall. intros id Hid.
    apply list_elem_of_In, in_map_iff in Hid as (i & <- & Hi). apply in_seq in Hi. lia. }
  set (dists1 := if k <? Z.of_nat (length dists)
                 then take (Z.to_nat k) (VectorOps.nth_element fst k dists) else dists).
  assert (H1 : NoDup (map snd dists1) /\
               Forall (fun id => 0 <= id < Z.of_nat (length (Dataset.vectors_ ds)))
                      (map snd dists1) /\
               Z.of_nat (length dists1) = Z.min k (Z.of_nat (length dists))).
  { unfold dists1. destruct (Z.ltb_spec k (Z.of_nat (length dists))) as [Hlt|Hge].
    - assert (Hperm : map snd (VectorOps.nth_element fst k dists) ≡ₚ map snd dists).
      { apply Permutation_map. apply nth_element_perm. }
      assert (Hsub : map snd (take (Z.to_nat k) (VectorOps.nth_element fst k dists))
                     `sublist_of` map snd (VectorOps.nth_element fst k dists)).
      { rewrite <- firstn_map. apply sublist_take. }
      split; [|split].
      + eapply sublist_NoDup; [|exact Hsub]. rewrite Hperm. exact Hnd.
      + apply Forall_forall. intros id Hid.
        pose proof (elem_of_sublist _ _ _ Hid Hsub) as Hid'. rewrite Hperm in Hid'.
        rewrite Forall_forall in Hrange. apply Hrange, Hid'.
      + rewrite length_take, nth_element_length. lia.
    - split; [exact Hnd|]. split; [exact Hrange|]. lia. }
  destruct H1 as (N1 & R1 & L1).
  set (sorted := VectorOps.sort_by fst dists1).
  assert (Hsorted : map snd sorted ≡ₚ map snd dists1).
  { apply Permutation_map, sort_by_perm. }
  assert (Hslen : length sorted = length dists1) by apply sort_by_length.
  assert (Hsub : map snd (take (Z.to_nat (Z.min k (Z.of_nat (length sorted)))) sorted)
                 `sublist_of` map snd sorted).
  { rewrite <- firstn_map. apply sublist_take. }
  split; [|split].
  - eapply sublist_NoDup; [|exact Hsub]. rewrite Hsorted. exact N1.
  - apply Forall_forall. intros id Hid.
    pose proof (elem_of_sublist _ _ _ Hid Hsub) as Hid'. rewrite Hsorted in Hid'.
    rewrite Forall_forall in R1. apply R1, Hid'.
  - rewrite length_map, length_take. lia.
Qed.

End GroundTruthFacts.

(** Two vectors of dimension 2 and one stray byte. *)
Lemma fvecs_file_loads_as_written_witness :
  Dataset.load_from_file
    (Some (Dataset.fvecs_bytes [[1065353216; 0]; [0; 1073741824]] ++ [7]))
    "base.fvecs" Dataset.empty
  = Some (true, Dataset.mk [[1065353216; 0]; [0; 1073741824]] 2).
Proof.
  apply (fvecs_file_loads_as_written 2 [[1065353216; 0]; [0; 1073741824]] [7]
           "base.fvecs" Dataset.empty).
  - lia.
  - discriminate.
  - repeat constructor; vm_compute; congruence.
  - simpl. lia.
  - reflexivity.
Defined.

(** The two nearest of three points on a line, for one query. *)
Lemma ground_truth_lists_k_distinct_ids_witness :
  let ds := Dataset.mk (map ScenarioB.line_point [0; 1; 2]) 2 in
  let truth := Dataset.compute_ground_truth VectorOps.Scalar ds
                 [[VectorOps.fzero; VectorOps.fzero]] 2 VectorOps.L2 in
  length truth = 1%nat /\
  Forall (fun ids => NoDup ids /\
                     Forall (fun id => 0 <= id < Dataset.size ds) ids /\
                     Z.of_nat (length ids) = Z.min 2 (Dataset.size ds))
         truth.
Proof.
  apply (ground_truth_lists_k_distinct_ids VectorOps.Scalar
           (Dataset.mk (map ScenarioB.line_point [0; 1; 2]) 2)
           [[VectorOps.fzero; VectorOps.fzero]] 2 VectorOps.L2).
  lia.
Defined.

(** ** The built graph is simple *)

Section SelectDistinctFacts.
Context (simd : VectorOps.isa) (idx : HNSW.t).

Lemma heuristic_pass_NoDup (max_keep : Z) (sorted : list (Z * VectorOps.float)) :
  forall result,
    NoDup (result ++ map fst sorted) ->
    NoDup (HNSW.heuristic_pass simd idx max_keep sorted result).
Proof.
  induction sorted as [|[cid d] rest IH]; intros result H; simpl.
  - rewrite app_nil_r in H. exact H.
  - simpl in H.
    assert (H' : NoDup ((result ++ [cid]) ++ map fst rest)) by (rewrite <- app_assoc; exact H).
    destruct (forallb _ result).
    + destruct (max_keep <=? _); [|apply IH, H'].
      apply NoDup_app in H' as [H' _]. exact H'.
    + apply IH. apply NoDup_app in H as (H1 & H2 & H3).
      apply NoDup_cons in H3 as [_ H3]. apply NoDup_app. split; [exact H1|].
      split; [|exact H3]. intros x Hx Hx'. apply (H2 x Hx). right. exact Hx'.
Qed.

Lemma fill_pass_NoDup (max_keep : Z) (sorted : list (Z * VectorOps.float)) :
  forall result, NoDup result -> NoDup (HNSW.fill_pass max_keep sorted result).
Proof.
  induction sorted as [|[cid d] rest IH]; intros result H; simpl; [exact H|].
  destruct (max_keep <=? _); [exact H|].
  destruct (existsb (Z.eqb cid) result) eqn:E; [apply IH, H|].
  apply IH. apply NoDup_app. split; [exact H|]. split; [|apply NoDup_singleton].
  intros x Hx Hx'. apply list_elem_of_singleton in Hx'. subst x.
  apply existsb_eqb_elem in Hx. congruence.
Qed.

(** The selector never picks a candidate twice. *)
Lemma select_neighbors_NoDup (candidates : list (Z * VectorOps.float)) (M : Z) :
  NoDup (map fst candidates) ->
  NoDup (HNSW.select_neighbors_heuristic simd idx candidates M).
Proof.
  intros Hnd. unfold HNSW.select_neighbors_heuristic.
  destruct candidates as [|c cs]; [constructor|].
  destruct (M =? 0); [constructor|].
  set (sorted := VectorOps.sort_by snd (c :: cs)).
  assert (Hs : NoDup (map fst sorted)).
  { assert (Hperm : map fst sorted ≡ₚ map fst (c :: cs)).
    { apply Permutation_map, sort_by_perm. }
    rewrite Hperm. exact Hnd. }
  assert (H1 : NoDup (HNSW.heuristic_pass simd idx
                        (Z.min M (Z.of_nat (length sorted))) sorted [])).
  { apply heuristic_pass_NoDup. exact Hs. }
  destruct (_ <? _); [apply fill_pass_NoDup, H1|exact H1].
Qed.

End SelectDistinctFacts.

Section ConnectSimpleFacts.
Context (simd : VectorOps.isa).

(** The list of the chosen neighbour after the back edge is added. *)
Lemma connect_back_nodup (idx : HNSW.t) (l id nb : Z) :
  0 <= nb < id ->
  NoDup (HNSW.adj idx (Z.to_nat nb) (Z.to_nat l)) ->
  id ∉ HNSW.adj idx (Z.to_nat nb) (Z.to_nat l) ->
  NoDup (HNSW.adj (HNSW.connect simd l id idx nb) (Z.to_nat nb) (Z.to_nat l)).
Proof.
  intros Hnb Hnd Hid. unfold HNSW.connect, HNSW.add_back_edge.
  set (idx1 := HNSW.set_nodes idx
                 (HNSW.update_node (HNSW.nodes_ idx) id
                    (HNSW.update_layer l (fun own => own ++ [nb])))).
  destruct (adj_update_layer idx id l (fun own => own ++ [nb]) (fun n => n)
              (fun _ _ => eq_refl)) as [Hown_other _].
  fold idx1 in Hown_other.
  set (g := fun nb_list : list Z =>
              if HNSW.layer_cap idx1 l <? Z.of_nat (length (nb_list ++ [id]))
              then HNSW.prune_neighbors simd idx1 nb (nb_list ++ [id]) (HNSW.layer_cap idx1 l)
              else nb_list ++ [id]).
  destruct (adj_update_layer idx1 nb l g (HNSW.ensure_layers (wrap64 (l + 1)))
              (layer_of_ensure_layers _)) as [_ Hnbl].
  destruct Hnbl as [-> | ->]; [|constructor].
  rewrite Hown_other by (left; lia).
  assert (Hext : NoDup (HNSW.adj idx (Z.to_nat nb) (Z.to_nat l) ++ [id])).
  { apply NoDup_app. split; [exact Hnd|]. split; [|apply NoDup_singleton].
    intros x Hx Hx'. apply list_elem_of_singleton in Hx'. subst x. exact (Hid Hx). }
  unfold g. destruct (_ <? _); [|exact Hext].
  unfold HNSW.prune_neighbors. apply select_neighbors_NoDup.
  rewrite map_map. simpl. rewrite map_id. exact Hext.
Qed.

(** The loop over the chosen neighbours keeps the graph simple. *)
Lemma connect_fold_simple (l id : Z) (neigh_ids : list Z) :
  0 <= id -> NoDup neigh_ids -> Forall (fun x => 0 <= x < id) neigh_ids ->
  forall (idx : HNSW.t) (linked : list Z),
    0 <= HNSW.M_ idx ->
    simple_graph idx ->
    (forall j, j <> Z.to_nat id -> Z.of_nat j ∉ linked ->
       Forall (fun x => x < id) (HNSW.adj idx j (Z.to_nat l))) ->
    (forall x, x ∈ HNSW.adj idx (Z.to_nat id) (Z.to_nat l) -> x ∈ linked) ->
    (forall x, x ∈ linked -> x ∉ neigh_ids) ->
    simple_graph (fold_left (HNSW.connect simd l id) neigh_ids idx).
Proof.
  intros Hid0 Hnd Hn. induction Hn as [|nb rest Hnb Hrest IH];
    intros idx linked HM Hsimple Hbelow Hown Hdisj; simpl; [exact Hsimple|].
  apply NoDup_cons in Hnd as [Hnb_rest Hnd].
  assert (Hnb_new : nb ∉ linked).
  { intros Hin. apply (Hdisj nb Hin). left. }
  destruct (connect_adj simd idx l id nb (fun x => x <> nb) Hnb
              (layer_cap_nonneg idx l HM))
    as ((nodes' & Heq & _) & H1 & H2 & H3 & _ & H5).
  set (idx1 := HNSW.connect simd l id idx nb) in *.
  assert (Hne : Z.to_nat nb <> Z.to_nat id) by lia.
  assert (Hnb_list : Forall (fun x => x < id) (HNSW.adj idx (Z.to_nat nb) (Z.to_nat l))).
  { apply Hbelow; [exact Hne|]. rewrite Z2Nat.id by lia. exact Hnb_new. }
  apply (IH Hnd idx1 (nb :: linked)).
  - rewrite Heq. exact HM.
  - intros j l'. destruct (decide (l' = Z.to_nat l)) as [->|Hl'].
    + destruct (decide (j = Z.to_nat id)) as [->|Hj].
      * destruct H3 as [-> | ->]; [|split; constructor].
        destruct (Hsimple (Z.to_nat id) (Z.to_nat l)) as [S1 S2]. split.
        -- apply NoDup_app. split; [exact S1|]. split; [|apply NoDup_singleton].
           intros x Hx Hx'. apply list_elem_of_singleton in Hx'. subst x.
           apply Hnb_new, Hown, Hx.
        -- apply Forall_app. split; [exact S2|]. repeat constructor. lia.
      * destruct (decide (j = Z.to_nat nb)) as [->|Hjn].
        -- destruct (Hsimple (Z.to_nat nb) (Z.to_nat l)) as [S1 S2]. split.
           ++ apply connect_back_nodup; [exact Hnb|exact S1|].
              intros Hin. rewrite Forall_forall in Hnb_list. specialize (Hnb_list id Hin). lia.
           ++ rewrite Z2Nat.id by lia. apply H5; [|lia].
              rewrite Z2Nat.id in S2 by lia. exact S2.
        -- rewrite H2 by assumption. apply Hsimple.
    + rewrite H1 by exact Hl'. apply Hsimple.
  - intros j Hj Hjl. rewrite H2; [apply Hbelow; [exact Hj|]|exact Hj|].
    + intros Hin. apply Hjl. right. exact Hin.
    + intros ->. apply Hjl. rewrite Z2Nat.id by lia. left.
  - intros x Hx. destruct H3 as [E|E]; rewrite E in Hx.
    + apply elem_of_app in Hx as [Hx|Hx]; [right; apply Hown, Hx|].
      apply list_elem_of_singleton in Hx. subst x. left.
    + apply elem_of_nil in Hx. contradiction.
  - intros x Hx Hin. apply elem_of_cons in Hx as [->|Hx].
    + exact (Hnb_rest Hin).
    + apply (Hdisj x Hx). right. exact Hin.
Qed.

(** The ids a layer search returns are distinct. *)
Lemma search_layer_nodup (idx idx' : HNSW.t) (query : list VectorOps.float)
  (entry ef layer b : Z) (res : list (Z * VectorOps.float)) :
  (Z.to_nat b <= length (HNSW.vectors_ idx))%nat ->
  HNSW.ids_below idx (Z.to_nat layer) b ->
  0 <= entry < b ->
  HNSW.search_layer simd idx query entry ef layer = Some (res, idx') ->
  NoDup (map fst res).
Proof.
  intros Hb Hg Hentry Hrun.
  destruct (Z.eq_dec entry VectorID_max) as [Emax|Emax].
  - unfold HNSW.search_layer in Hrun. rewrite Emax, Z.eqb_refl, orb_true_r in Hrun.
    injection Hrun as <- _. constructor.
  - apply (search_layer_result simd idx idx' query entry ef layer b res Hb Hg Hentry Emax Hrun).
Qed.

Lemma connect_layer_simple (idx idx' : HNSW.t) (id : Z) (vec : list VectorOps.float)
  (ep l : Z) (rest : list Z) :
  HNSW.linking_inv idx id (l :: rest) -> 0 <= ep < id ->
  simple_graph idx ->
  HNSW.connect_layer simd idx id vec ep l = Some idx' ->
  simple_graph idx'.
Proof.
  intros [Hlen Hid HM Hids Htodo Hfresh Hcap] Hep Hsimple.
  destruct (Htodo l (or_introl eq_refl)) as (Hl0 & Hbelow & Hempty).
  unfold HNSW.connect_layer.
  destruct (HNSW.search_layer simd idx vec ep (HNSW.ef_construction_ idx) l)
    as [[res idx1]|] eqn:Es; [|discriminate].
  destruct (search_layer_ok simd idx vec ep (HNSW.ef_construction_ idx) l id)
    as (res' & v & e & Es' & Hres); [lia|exact Hbelow|right; exact Hep|].
  rewrite Es in Es'. injection Es' as <- ->.
  pose proof (search_layer_nodup idx _ vec ep _ l id res ltac:(lia) Hbelow Hep Es) as Hnd.
  intros H. injection H as <-.
  set (idx1 := HNSW.set_visited idx v e).
  set (neigh_ids := HNSW.select_neighbors_heuristic simd idx1 res (HNSW.layer_cap idx1 l)).
  set (idx2 := HNSW.set_nodes idx1 _).
  assert (Hadj2 : forall j l', HNSW.adj idx2 j l' = HNSW.adj idx j l').
  { intros j l'. unfold idx2. change (HNSW.nodes_ idx) with (HNSW.nodes_ idx1).
    rewrite adj_ensure_node. reflexivity. }
  apply (connect_fold_simple l id neigh_ids ltac:(lia)) with (linked := []).
  - apply select_neighbors_NoDup, Hnd.
  - apply select_neighbors_elems. apply Forall_fmap. exact Hres.
  - exact HM.
  - intros j l'. rewrite Hadj2. apply Hsimple.
  - intros j _ _. rewrite Hadj2. eapply Forall_impl; [apply Hbelow|]. simpl. intros; lia.
  - intros x Hx. rewrite Hadj2, Hempty in Hx. exact Hx.
  - intros x Hx. apply elem_of_nil in Hx. contradiction.
Qed.

Lemma connect_layers_simple (id : Z) (vec : list VectorOps.float) (ep : Z) (layers : list Z) :
  0 <= ep < id -> NoDup (Z.to_nat <$> layers) ->
  forall idx idx',
    HNSW.linking_inv idx id layers -> simple_graph idx ->
    HNSW.connect_layers simd idx id vec ep layers = Some idx' ->
    simple_graph idx'.
Proof.
  intros Hep. induction layers as [|l rest IH]; intros Hnd idx idx' Hinv Hsimple Hrun;
    simpl in Hrun.
  - injection Hrun as <-. exact Hsimple.
  - rewrite fmap_cons in Hnd. apply NoDup_cons in Hnd as [Hnotin Hnd].
    destruct (connect_layer_ok simd idx id vec ep l rest Hinv)
      as (idx1 & E1 & Hinv1 & _).
    + intros l' Hin Heq. apply Hnotin. rewrite <- Heq.
      apply list_elem_of_fmap_2, list_elem_of_In, Hin.
    + exact Hep.
    + rewrite E1 in Hrun.
      apply (IH Hnd idx1 idx' Hinv1); [|exact Hrun].
      apply (connect_layer_simple idx idx1 id vec ep l rest Hinv Hep Hsimple E1).
Qed.

End ConnectSimpleFacts.

Section BuildSimpleFacts.
Context (simd : VectorOps.isa).

Lemma insert_node_simple (idx idx' : HNSW.t) (level id : Z) (vec : list VectorOps.float) :
  HNSW.build_inv idx id -> id < Z.of_nat (length (HNSW.vectors_ idx)) ->
  simple_graph idx ->
  HNSW.insert_node simd idx level id vec = Some idx' ->
  simple_graph idx'.
Proof.
  intros [Hlen Hnext Hsize HM Hids Hfresh Hentry Hcap] Hid Hsimple.
  unfold HNSW.insert_node.
  destruct (Z.leb_spec (Z.of_nat (length (HNSW.nodes_ idx))) id) as [Hbad|_]; [lia|].
  set (init := fun node => HNSW.ensure_layers (wrap64 (level + 1))
                             (HNSW.mkNode id (HNSW.neighbors node))).
  set (nodes2 := HNSW.update_node (HNSW.nodes_ idx) id init).
  set (idx1 := HNSW.set_nodes idx nodes2).
  assert (Hadj1 : forall j l, HNSW.adj idx1 j l = HNSW.adj idx j l).
  { intros j l. apply adj_init_node. }
  assert (Hlen1 : length nodes2 = length (HNSW.vectors_ idx)).
  { unfold nodes2, HNSW.update_node. rewrite length_alter. exact Hlen. }
  assert (Hsimple1 : simple_graph idx1).
  { intros j l. rewrite Hadj1. apply Hsimple. }
  change (HNSW.entry_point_ idx1) with (HNSW.entry_point_ idx).
  change (HNSW.max_layer_ idx1) with (HNSW.max_layer_ idx).
  destruct (Z.eqb_spec (HNSW.entry_point_ idx) VectorID_max) as [Emax|Emax].
  { intros H. injection H as <-. exact Hsimple1. }
  assert (Hep0 : 0 <= HNSW.entry_point_ idx < id).
  { destruct Hentry as [[? _]|?]; [contradiction|assumption]. }
  assert (Hb : (Z.to_nat id <= length (HNSW.vectors_ idx1))%nat) by (simpl; lia).
  assert (Hids1 : forall l, HNSW.ids_below idx1 l id).
  { intros l j. rewrite Hadj1. apply Hids. }
  assert (Hgreedy : exists ep v e,
            (if level <? HNSW.max_layer_ idx
             then HNSW.greedy_descent simd idx1 vec (HNSW.entry_point_ idx)
                    (HNSW.layers_above (HNSW.max_layer_ idx) level)
             else Some (HNSW.entry_point_ idx, idx1))
            = Some (ep, HNSW.set_visited idx1 v e) /\ 0 <= ep < id).
  { destruct (level <? HNSW.max_layer_ idx).
    - apply greedy_descent_ok; assumption.
    - exists (HNSW.entry_point_ idx), (HNSW.visited_ idx1), (HNSW.visited_epoch_ idx1).
      rewrite set_visited_same. auto. }
  destruct Hgreedy as (ep & v & e & -> & Hep).
  set (idx2 := HNSW.set_visited idx1 v e).
  set (layers := HNSW.layers_down_from _).
  assert (Hlink : HNSW.linking_inv idx2 id layers).
  { constructor; simpl.
    - exact Hlen1.
    - lia.
    - exact HM.
    - intros l j. change (HNSW.adj idx2 j l) with (HNSW.adj idx1 j l).
      eapply Forall_impl; [apply Hids1|]. simpl. intros; lia.
    - intros l Hin. split; [eapply layers_down_from_nonneg, Hin|]. split.
      + intros j. change (HNSW.adj idx2 j (Z.to_nat l)) with (HNSW.adj idx1 j (Z.to_nat l)).
        apply Hids1.
      + change (HNSW.adj idx2 (Z.to_nat id) (Z.to_nat l))
          with (HNSW.adj idx1 (Z.to_nat id) (Z.to_nat l)).
        rewrite Hadj1. apply Hfresh. lia.
    - intros j l Hj. change (HNSW.adj idx2 j l) with (HNSW.adj idx1 j l).
      rewrite Hadj1. apply Hfresh. lia.
    - intros j l. change (HNSW.adj idx2 j l) with (HNSW.adj idx1 j l).
      rewrite Hadj1. apply Hcap. }
  destruct (HNSW.connect_layers simd idx2 id vec ep layers) as [idx3|] eqn:E3; [|discriminate].
  assert (Hsimple3 : simple_graph idx3).
  { apply (connect_layers_simple simd id vec ep layers Hep (layers_down_from_NoDup _)
             idx2 idx3 Hlink); [|exact E3].
    intros j l. change (HNSW.adj idx2 j l) with (HNSW.adj idx1 j l). apply Hsimple1. }
  destruct (HNSW.max_layer_ idx3 <? level); intros H; injection H as <-; exact Hsimple3.
Qed.

Lemma insert_all_simple (levels : Z -> Z) (k : nat) : forall (s : nat) (idx idx' : HNSW.t),
  HNSW.build_inv idx (Z.of_nat s) ->
  (s + k)%nat = length (HNSW.vectors_ idx) ->
  simple_graph idx ->
  HNSW.insert_all simd idx levels (map Z.of_nat (seq s k)) = Some idx' ->
  simple_graph idx'.
Proof.
  induction k as [|k IH]; intros s idx idx' Hinv Hlen Hsimple Hrun; simpl in Hrun.
  - injection Hrun as <-. exact Hsimple.
  - destruct (insert_node_ok simd idx (levels (Z.of_nat s)) (Z.of_nat s)
                (HNSW.vector_at idx (Z.of_nat s)) Hinv ltac:(lia))
      as (idx1 & E1 & Hinv1 & Hp1).
    rewrite E1 in Hrun.
    apply (IH (S s) idx1 idx').
    + replace (Z.of_nat (S s)) with (Z.of_nat s + 1) by lia. exact Hinv1.
    + destruct Hp1 as (_&_&_&_&->). lia.
    + apply (insert_node_simple idx idx1 _ _ _ Hinv ltac:(lia) Hsimple E1).
    + exact Hrun.
Qed.

(** The graph a serial build leaves is a simple graph over the data set.
    For every data set that fits a [size_t], every [M] and every sequence of
    levels, [build] returns; there is one node per vector; at every node and
    layer the neighbour list names distinct nodes of the data set, none of
    them the node itself; and the entry point is a node of the data set
    (the sentinel when the data set is empty). *)
Theorem serial_build_graph_is_simple
  (idx0 : HNSW.t) (levels : Z -> Z) (data : list (list Z)) :
  0 <= HNSW.M_ idx0 -> Z.of_nat (length data) < two64 ->
  exists idx,
    HNSW.build simd idx0 levels data = Some idx /\
    length (HNSW.nodes_ idx) = length data /\
    (forall n l, 0 <= n -> 0 <= l ->
       NoDup (HNSW.neighbors_at idx n l) /\
       Forall (fun x => 0 <= x < Z.of_nat (length data) /\ x <> n)
              (HNSW.neighbors_at idx n l)) /\
    (data = [] -> HNSW.entry_point_ idx = VectorID_max) /\
    (data <> [] -> 0 <= HNSW.entry_point_ idx < Z.of_nat (length data)).
Proof.
  intros HM Hsize.
  destruct (build_ok simd idx0 levels data HM Hsize) as (idx & Hrun & Hinv & Hp).
  assert (Hv : HNSW.vectors_ idx = data) by (destruct Hp as (_&_&_&_&->); reflexivity).
  assert (Hsimple : simple_graph idx).
  { unfold HNSW.build in Hrun.
    apply (insert_all_simple levels (length data) 0 (HNSW.reset_for_build idx0 data) idx).
    - apply reset_for_build_inv; assumption.
    - reflexivity.
    - intros j l.
      assert (Hadj : HNSW.adj (HNSW.reset_for_build idx0 data) j l = []).
      { unfold HNSW.adj, HNSW.reset_for_build. simpl.
        destruct (replicate (length data) HNSW.default_node !! j) as [node|] eqn:E;
          [|reflexivity].
        apply lookup_replicate in E as [-> _]. unfold HNSW.layer_of. simpl.
        destruct l; reflexivity. }
      rewrite Hadj. split; constructor.
    - exact Hrun. }
  exists idx. split; [exact Hrun|].
  split; [rewrite (HNSW.inv_len _ _ Hinv), Hv; reflexivity|].
  split; [|split].
  - intros n l Hn Hl. rewrite neighbors_at_adj.
    destruct (Hsimple (Z.to_nat n) (Z.to_nat l)) as [S1 S2]. split; [exact S1|].
    pose proof (HNSW.inv_ids _ _ Hinv (Z.to_nat l) (Z.to_nat n)) as Hr.
    rewrite Z2Nat.id in S2 by exact Hn.
    rewrite Forall_forall in S2, Hr. apply Forall_forall. intros x Hx.
    split; [apply Hr, Hx|apply S2, Hx].
  - intros ->. unfold HNSW.build in Hrun. simpl in Hrun. injection Hrun as <-. reflexivity.
  - intros Hne. destruct (HNSW.inv_entry _ _ Hinv) as [[_ H0]|He]; [|exact He].
    destruct data; [contradiction|simpl in H0; lia].
Qed.

End BuildSimpleFacts.

(** The graph built from the line points of scenario B is simple. *)
Lemma serial_build_graph_is_simple_witness :
  exists idx,
    HNSW.build VectorOps.Scalar ScenarioB.fresh_index ScenarioB.levels ScenarioB.data
      = Some idx /\
    length (HNSW.nodes_ idx) = length ScenarioB.data /\
    (forall n l, 0 <= n -> 0 <= l ->
       NoDup (HNSW.neighbors_at idx n l) /\
       Forall (fun x => 0 <= x < Z.of_nat (length ScenarioB.data) /\ x <> n)
              (HNSW.neighbors_at idx n l)) /\
    (ScenarioB.data = [] -> HNSW.entry_point_ idx = VectorID_max) /\
    (ScenarioB.data <> [] -> 0 <= HNSW.entry_point_ idx < Z.of_nat (length ScenarioB.data)).
Proof.
  apply (serial_build_graph_is_simple VectorOps.Scalar ScenarioB.fresh_index
           ScenarioB.levels ScenarioB.data).
  - vm_compute. discriminate.
  - vm_compute. reflexivity.
Defined.

(** ** The selector's contract *)

Section SelectContractFacts.
Context (simd : VectorOps.isa) (idx : HNSW.t).

Lemma fill_pass_complete (max_keep : Z) (sorted : list (Z * VectorOps.float)) :
  forall result,
    (forall x, x ∈ result -> x ∈ HNSW.fill_pass max_keep sorted result) /\
    (max_keep <= Z.of_nat (length (HNSW.fill_pass max_keep sorted result)) \/
     forall cid, cid ∈ map fst sorted -> cid ∈ HNSW.fill_pass max_keep sorted result).
Proof.
  induction sorted as [|[cid d] rest IH]; intros result; simpl.
  - split; [auto|]. right. intros cid H. apply elem_of_nil in H. contradiction.
  - destruct (Z.leb_spec max_keep (Z.of_nat (length result))) as [Hge|Hlt].
    { split; [auto|]. left. exact Hge. }
    destruct (existsb (Z.eqb cid) result) eqn:E.
    + destruct (IH result) as [Hsub Hc]. split; [exact Hsub|].
      destruct Hc as [Hc|Hc]; [left; exact Hc|]. right.
      intros c Hin. apply elem_of_cons in Hin as [->|Hin]; [|apply Hc, Hin].
      apply Hsub, existsb_eqb_elem, E.
    + destruct (IH (result ++ [cid])) as [Hsub Hc].
      split.
      * intros x Hx. apply Hsub, elem_of_app. left. exact Hx.
      * destruct Hc as [Hc|Hc]; [left; exact Hc|]. right.
        intros c Hin. apply elem_of_cons in Hin as [->|Hin]; [|apply Hc, Hin].
        apply Hsub, elem_of_app. right. apply list_elem_of_singleton. reflexivity.
Qed.

(** The neighbour selector keeps exactly [min(M, number of candidates)]
    candidates.  Given candidates with distinct ids, the ids returned are
    distinct, each is the id of a candidate, and there are
    [min(M, candidates.size())] of them: what the diversity test of the
    first pass rejects, the second pass fills up with the nearest
    candidates left. *)
Theorem select_neighbors_keeps_min_M_candidates
  (candidates : list (Z * VectorOps.float)) (M : Z) :
  0 <= M -> NoDup (map fst candidates) ->
  let result := HNSW.select_neighbors_heuristic simd idx candidates M in
  NoDup result /\
  (forall x, x ∈ result -> x ∈ map fst candidates) /\
  Z.of_nat (length result) = Z.min M (Z.of_nat (length candidates)).
Proof.
  intros HM Hnd result.
  split; [apply select_neighbors_NoDup, Hnd|].
  split.
  { assert (H : Forall (fun x => x ∈ map fst candidates) result).
    { apply select_neighbors_elems. apply Forall_forall. auto. }
    rewrite Forall_forall in H. exact H. }
  pose proof (select_neighbors_NoDup simd idx candidates M Hnd) as Hndr.
  unfold result in *. clear result. unfold HNSW.select_neighbors_heuristic in *.
  destruct candidates as [|c cs]; [simpl; lia|].
  destruct (Z.eqb_spec M 0) as [->|HM0]; [simpl; lia|].
  set (sorted := VectorOps.sort_by snd (c :: cs)) in *.
  assert (Hslen : length sorted = length (c :: cs)) by apply sort_by_length.
  assert (Hsnd : NoDup (map fst sorted)).
  { assert (Hperm : map fst sorted ≡ₚ map fst (c :: cs)).
    { apply Permutation_map, sort_by_perm. }
    rewrite Hperm. exact Hnd. }
  rewrite <- Hslen.
  set (max_keep := Z.min M (Z.of_nat (length sorted))) in *.
  assert (Hmk : 0 < max_keep <= Z.of_nat (length sorted)).
  { unfold max_keep. rewrite Hslen. simpl. lia. }
  assert (H1 : Z.of_nat (length (HNSW.heuristic_pass simd idx max_keep sorted [])) <= max_keep).
  { apply heuristic_pass_length. simpl. lia. }
  destruct (Z.ltb_spec (Z.of_nat (length (HNSW.heuristic_pass simd idx max_keep sorted [])))
              max_keep) as [Hlt|Hge]; [|lia].
  pose proof (fill_pass_length max_keep sorted _ H1) as H2.
  destruct (fill_pass_complete max_keep sorted
              (HNSW.heuristic_pass simd idx max_keep sorted [])) as [_ [Hc|Hc]]; [lia|].
  assert (Hsub : map fst sorted ⊆+ HNSW.fill_pass max_keep sorted
                                     (HNSW.heuristic_pass simd idx max_keep sorted [])).
  { apply NoDup_submseteq; [exact Hsnd|exact Hc]. }
  apply submseteq_length in Hsub. rewrite length_map in Hsub. lia.
Qed.

End SelectContractFacts.

(** On the built index of scenario C, the candidates 1, 2 and 3 of the
    anchor 0, at squared distances 1, 4 and 9: the first pass keeps 1 and
    rejects 2 and 3 (each is nearer to 1 than to the anchor), and the second
    pass fills up to two. *)
Lemma select_neighbors_keeps_min_M_candidates_witness :
  let candidates := [(1, VectorOps.float_of_Z 1); (2, VectorOps.float_of_Z 4);
                     (3, VectorOps.float_of_Z 9)] in
  let result := HNSW.select_neighbors_heuristic VectorOps.Scalar
                  ScenarioC.built candidates 2 in
  NoDup result /\
  (forall x, x ∈ result -> x ∈ map fst candidates) /\
  Z.of_nat (length result) = Z.min 2 (Z.of_nat (length candidates)).
Proof.
  apply (select_neighbors_keeps_min_M_candidates VectorOps.Scalar ScenarioC.built
           [(1, VectorOps.float_of_Z 1); (2, VectorOps.float_of_Z 4);
            (3, VectorOps.float_of_Z 9)] 2).
  - lia.
  - simpl. repeat constructor; rewrite ?elem_of_cons, ?elem_of_nil; intros H;
      repeat destruct H as [H|H]; try discriminate; exact H.
Defined.

(** ** Cache hits *)

Section TieredHitFacts.
Context {float : Type} {B : Type} {SB : StorageBackend float B}.
Import TieredProgram.
Local Abbreviation VectorData := (list float).
Local Abbreviation tiered := (TieredBackend.t float B).
Local Abbreviation top := (TieredProgram.op float).

Lemma insert_into_cache_cached (st : tiered) (id : Z) (data : VectorData) :
  cache_inv st -> 0 < TieredBackend.cache_capacity_ st ->
  TieredBackend.cache_ (TieredBackend.insert_into_cache st id data) !! id = Some data.
Proof.
  unfold cache_inv, TieredBackend.insert_into_cache.
  destruct (TieredBackend.policy_ st) as [pol|]; [|intros [_ H]; lia].
  intros _ Hpos.
  destruct (Z.eqb_spec (TieredBackend.cache_capacity_ st) 0) as [E|_]; [lia|].
  destruct (TieredBackend.cache_ st !! id) as [old|] eqn:E; simpl.
  - apply lookup_insert_eq.
  - destruct (CachePolicy.on_insert pol id 0) as [[evicted victim] pol']. simpl.
    set (c := if evicted then _ else _).
    assert (Hc : c !! id = None).
    { unfold c. destruct evicted; [|exact E]. apply lookup_delete_None. right. exact E. }
    rewrite Hc. apply lookup_insert_eq.
Qed.

(** What a hit does. *)
Lemma read_node_cached (st : tiered) (id : Z) (data out : VectorData) (us : double) :
  TieredBackend.cache_ st !! id = Some data ->
  exists st',
    TieredBackend.read_node st id out us = (true, data, st') /\
    TieredBackend.backing_ st' = TieredBackend.backing_ st /\
    TieredBackend.cache_ st' = TieredBackend.cache_ st /\
    TieredBackend.stats_ st' = TieredBackend.stats_ st /\
    TieredBackend.cache_hits_ st' = wrap64 (TieredBackend.cache_hits_ st + 1) /\
    TieredBackend.cache_misses_ st' = TieredBackend.cache_misses_ st.
Proof.
  intros H. unfold TieredBackend.read_node. rewrite H.
  eexists. split; [reflexivity|]. simpl. auto.
Qed.

(** With a positive capacity, what was just read or written is served from
    the cache.  After any program of calls on a tiered backend of capacity
    at least 1, a [read_node] or [write_node] of [id] that returns [true]
    leaves the payload cached: the next [read_node(id)] returns [true] with
    that payload, counts one hit and no miss, and touches neither the backing
    store nor the I/O statistics. *)
Theorem access_then_read_is_cache_hit
  (backing : option B) (capacity : Z) (policy : string) (ops : list top)
  (id : Z) (data out out' : VectorData) (us us' : double) (st1 : tiered) :
  0 < capacity ->
  let st := run (TieredBackend.make (float := float) backing capacity policy) ops in
  TieredBackend.read_node st id out us = (true, data, st1) \/
  TieredBackend.write_node st id data us = (true, st1) ->
  exists st2,
    TieredBackend.read_node st1 id out' us' = (true, data, st2) /\
    TieredBackend.backing_ st2 = TieredBackend.backing_ st1 /\
    TieredBackend.cache_ st2 = TieredBackend.cache_ st1 /\
    TieredBackend.stats_ st2 = TieredBackend.stats_ st1 /\
    TieredBackend.cache_hits_ st2 = wrap64 (TieredBackend.cache_hits_ st1 + 1) /\
    TieredBackend.cache_misses_ st2 = TieredBackend.cache_misses_ st1.
Proof.
  intros Hpos st Hacc.
  destruct (tiered_run_inv (TieredBackend.make (float := float) backing capacity policy) ops
              (cache_inv_make backing capacity policy)) as [Hinv Hcap].
  change (TieredBackend.cache_capacity_
            (TieredBackend.make (float := float) backing capacity policy))
    with capacity in Hcap.
  fold st in Hinv, Hcap.
  apply read_node_cached.
  destruct Hacc as [Hread|Hwrite].
  - unfold TieredBackend.read_node in Hread.
    destruct (TieredBackend.cache_ st !! id) as [d|] eqn:E.
    + injection Hread as <- <-. simpl. exact E.
    + destruct (TieredBackend.backing_ st) as [b|]; [|discriminate].
      destruct (sb_read_node b id out) as [[ok o] b']. destruct ok; simpl in Hread;
        [|discriminate].
      injection Hread as <- <-.
      apply insert_into_cache_cached; [exact Hinv|simpl; lia].
  - unfold TieredBackend.write_node in Hwrite.
    destruct (TieredBackend.backing_ st) as [b|]; [|discriminate].
    destruct (sb_write_node b id data) as [ok b']. destruct ok; simpl in Hwrite;
      [|discriminate].
    injection Hwrite as <-.
    apply insert_into_cache_cached; [exact Hinv|simpl; lia].
Qed.

End TieredHitFacts.

(** Scenario A's store behind a tier of capacity 2 that already caches
    vectors 0 and 1: vector 2 is written through the tier, and the read that
    follows is a hit. *)
Lemma access_then_read_is_cache_hit_witness :
  let st := TieredProgram.run (TieredBackend.make (Some ScenarioA.backing) 2 "lru")
              [TieredProgram.Read 0 dzero; TieredProgram.Read 1 dzero] in
  let st1 := snd (TieredBackend.write_node st 2 (ScenarioA.vector 2) dzero) in
  exists st2,
    TieredBackend.read_node st1 2 [] dzero = (true, ScenarioA.vector 2, st2) /\
    TieredBackend.backing_ st2 = TieredBackend.backing_ st1 /\
    TieredBackend.cache_ st2 = TieredBackend.cache_ st1 /\
    TieredBackend.stats_ st2 = TieredBackend.stats_ st1 /\
    TieredBackend.cache_hits_ st2 = wrap64 (TieredBackend.cache_hits_ st1 + 1) /\
    TieredBackend.cache_misses_ st2 = TieredBackend.cache_misses_ st1.
Proof.
  apply (access_then_read_is_cache_hit (Some ScenarioA.backing) 2 "lru"
           [TieredProgram.Read 0 dzero; TieredProgram.Read 1 dzero]
           2 (ScenarioA.vector 2) [] [] dzero dzero).
  - lia.
  - right. vm_compute. reflexivity.
Defined.

(** ** The length check of [write_node], backend by backend *)

(** C2, as the code has it.  [FileBackend::write_node] returns failure,
    before any file operation and with the backend, its statistics and the
    file system as before, when the length of [data] differs from the
    non-zero dimension of the backend; a backend of dimension 0 takes the
    length of the vector it is given as its dimension.  [MemoryBackend] has
    no dimension: on the store any program of calls has left,
    [write_node(id, data)] returns [true] for data of any length, and
    [read_node(id)] then returns that data.  [TieredBackend::write_node] has
    no check of its own: it returns [false] without a backing store, and
    otherwise the flag the [write_node] of its backing store returns. *)
Theorem write_length_check_by_backend
  {float FS B : Type} {fsys : FileBackend.FileSystem float FS}
  {SB : StorageBackend float B} :
  (forall (fs : FS) (st : FileBackend.t) (id : Z) (data : list float),
     FileBackend.dim_ st <> 0 ->
     Z.of_nat (length data) <> FileBackend.dim_ st ->
     FileBackend.write_node fs st id data = (false, st, fs)) /\
  (forall (fs : FS) (st : FileBackend.t) (id : Z) (data : list float),
     FileBackend.dim_ st = 0 ->
     FileBackend.dim_ (snd (fst (FileBackend.write_node fs st id data)))
     = Z.of_nat (length data)) /\
  (forall (ops : list (MemoryBackend.op float)) (id : Z) (data out : list float),
     Forall MemoryBackend.op_ok ops -> 0 <= id < two64 - 1 ->
     let r := MemoryBackend.write_node (MemoryBackend.run ops) id data in
     fst r = true /\
     fst (MemoryBackend.read_node (snd r) id out) = (true, data)) /\
  (forall (st : TieredBackend.t float B) (id : Z) (data : list float) (us : double),
     fst (TieredBackend.write_node st id data us)
     = match TieredBackend.backing_ st with
       | None => false
       | Some b => fst (sb_write_node b id data)
       end).
Proof.
  split; [intros fs st id data; apply file_write_node_mismatch|].
  split; [intros fs st id data; apply file_write_node_adopts_dimension|].
  split.
  - intros ops id data out _ Hid r. split; [reflexivity|].
    apply mem_read_stored; [lia|].
    apply mem_write_stores; [apply mem_run_inv|exact Hid].
  - intros st id data us. unfold TieredBackend.write_node.
    destruct (TieredBackend.backing_ st) as [b|]; [|reflexivity].
    destruct (sb_write_node b id data) as [ok b']. destruct ok; reflexivity.
Qed.

(** A file backend of dimension 4 refuses a vector of length 2; a file
    backend of dimension 0 given that vector has dimension 2 afterwards; an
    in-memory store that holds a vector of length 4 under id 0 takes one of
    length 2 in its place. *)
Lemma write_length_check_by_backend_witness :
  FileBackend.write_node (fsys := SlotFS.SlotFS_FileSystem 0)
    Examples.empty_fs Examples.file_backend 0 [1; 2]
  = (false, Examples.file_backend, Examples.empty_fs) /\
  FileBackend.dim_
    (snd (fst (FileBackend.write_node (fsys := SlotFS.SlotFS_FileSystem 0)
                 Examples.empty_fs (FileBackend.make "vectors.bin" 0) 0 [1; 2])))
  = 2 /\
  (let r := MemoryBackend.write_node
              (MemoryBackend.run [MemoryBackend.OpWrite 0 [1; 2; 3; 4]]) 0 [1; 2] in
   fst r = true /\ fst (MemoryBackend.read_node (snd r) 0 []) = (true, [1; 2])).
Proof.
  destruct (write_length_check_by_backend (float := Z)
              (fsys := SlotFS.SlotFS_FileSystem 0) (B := MemoryBackend.t Z))
    as (Hfile & Hdim & Hmem & _).
  split; [|split].
  - apply (Hfile Examples.empty_fs Examples.file_backend 0 [1; 2]); simpl; lia.
  - apply (Hdim Examples.empty_fs (FileBackend.make "vectors.bin" 0) 0 [1; 2]).
    reflexivity.
  - apply (Hmem [MemoryBackend.OpWrite 0 [1; 2; 3; 4]] 0 [1; 2] []).
    + repeat constructor; unfold two64; simpl; lia.
    + unfold two64. lia.
Defined.
